(** * IndexTreeModel: the index-addressed tree model behind the tree widgets

    A shallow embedding of [src/vs/base/browser/ui/tree/indexTreeModel.ts].

    Nodes are JavaScript objects linked both ways ([children] arrays and a
    [parent] back-reference).  The embedding keeps the owned [children]
    arrays as the structure of an n-ary tree and gives every node object an
    identity [nid] (allocated when the object literal is evaluated) together
    with the identity of its parent.  A reference to a node inside one
    operation is the path of child indices that leads to it from the root:
    no operation other than [splice] moves a node, and [splice] resolves its
    reference once.  The render projection (an [ISpliceable] of node
    references) is a list of node identities.

    Numbers are integers ([Z]); tree locations are lists of integers, as the
    bounds checks of the source compare them with [0]. *)

From Stdlib Require Import String ZArith List Bool Lia.
Import ListNotations.
Local Open Scope Z_scope.
Set Implicit Arguments.

(** ** Outcomes of an operation *)

(** [InvalidTreeLocation] is [new Error('Invalid tree location')];
    [TypeError] is what reading a property of [undefined] raises. *)
Inductive error : Type := InvalidTreeLocation | TypeError.

Inductive outcome (A : Type) : Type :=
| Ok (a : A)
| Throw (e : error).
Arguments Ok {A} a.
Arguments Throw {A} e.

Definition bind {A B : Type} (x : outcome A) (k : A -> outcome B) : outcome B :=
  match x with
  | Ok a => k a
  | Throw e => Throw e
  end.

Notation "x <- c1 ;; c2" := (bind c1 (fun x => c2))
  (at level 61, c1 at next level, right associativity).

(** ** Arrays *)

(** [Array.prototype.splice(start, deleteCount, ...items)]: a negative
    [start] counts from the end, [start] and [deleteCount] are clamped to the
    array. Returns the new content and the removed run. *)
Definition spliceStart {A : Type} (l : list A) (start : Z) : nat :=
  let len := Z.of_nat (length l) in
  Z.to_nat (if start <? 0 then Z.max (len + start) 0 else Z.min start len).

Definition spliceCount {A : Type} (l : list A) (start deleteCount : Z) : nat :=
  let len := Z.of_nat (length l) in
  Z.to_nat (Z.min (Z.max deleteCount 0) (len - Z.of_nat (spliceStart l start))).

Definition arraySplice {A : Type} (l : list A) (start deleteCount : Z) (items : list A)
  : list A * list A :=
  let s := spliceStart l start in
  let d := spliceCount l start deleteCount in
  (firstn s l ++ items ++ skipn (s + d) l, firstn d (skipn s l)).

(** Modelled from the spec: the render projection is "an ordered,
    index-addressable sequence supporting a splice operation (delete a
    contiguous run at an index, insert a sequence in its place)"; its
    interface [ISpliceable] is declared outside the sources at hand.  The
    projection is an array and its splice is the array's. *)
Definition listSplice {A : Type} (l : list A) (start deleteCount : Z) (items : list A)
  : list A :=
  fst (arraySplice l start deleteCount items).

Fixpoint sumZ (l : list Z) : Z :=
  match l with
  | [] => 0
  | x :: r => x + sumZ r
  end.

(** ** Visibility and filters *)

Inductive TreeVisibility : Type := Hidden | Visible | Recurse.

Definition visibility_eqb (a b : TreeVisibility) : bool :=
  match a, b with
  | Hidden, Hidden | Visible, Visible | Recurse, Recurse => true
  | _, _ => false
  end.

(** [getVisibleState] *)
Definition getVisibleState (visibility : bool + TreeVisibility) : TreeVisibility :=
  match visibility with
  | inl true => Visible
  | inl false => Hidden
  | inr v => v
  end.

Section Model.

Variables T TFilterData : Type.

(** What [ITreeFilter.filter] may return: a boolean, a [TreeVisibility], or
    an [ITreeFilterDataResult]. *)
Inductive TreeFilterResult : Type :=
| FilterBoolean (b : bool)
| FilterVisibility (v : TreeVisibility)
| FilterDataResult (visibility : bool + TreeVisibility) (data : TFilterData).

(** The second argument is the parent's visibility; [refilter] hands
    [undefined] ([None]) to the filter for the children of the root, whose
    own [visibility] variable is never assigned. *)
Definition ITreeFilter : Type := T -> option TreeVisibility -> TreeFilterResult.

Local Unset Elimination Schemes.

(** [ITreeElement]: what callers pass to [splice] and get back from it. *)
Inductive ITreeElement : Type :=
  mkElement {
    el_element : T;
    el_children : list ITreeElement;
    el_collapsible : option bool;
    el_collapsed : option bool
  }.

(** [IMutableTreeNode] *)
Inductive node : Type :=
  mkNode {
    nid : nat;
    parent : option nat;
    element : T;
    children : list node;
    depth : Z;
    visibleChildrenCount : Z;
    visibleChildIndex : Z;
    collapsible : bool;
    collapsed : bool;
    renderNodeCount : Z;
    visible : bool;
    filterData : option TFilterData
  }.

Local Set Elimination Schemes.

(** Field writes. *)
Definition set_children (n : node) (cs : list node) : node :=
  mkNode (nid n) (parent n) (element n) cs (depth n) (visibleChildrenCount n)
    (visibleChildIndex n) (collapsible n) (collapsed n) (renderNodeCount n)
    (visible n) (filterData n).

Definition set_visibleChildrenCount (n : node) (c : Z) : node :=
  mkNode (nid n) (parent n) (element n) (children n) (depth n) c
    (visibleChildIndex n) (collapsible n) (collapsed n) (renderNodeCount n)
    (visible n) (filterData n).

Definition set_visibleChildIndex (n : node) (i : Z) : node :=
  mkNode (nid n) (parent n) (element n) (children n) (depth n) (visibleChildrenCount n)
    i (collapsible n) (collapsed n) (renderNodeCount n)
    (visible n) (filterData n).

Definition set_collapsible (n : node) (b : bool) : node :=
  mkNode (nid n) (parent n) (element n) (children n) (depth n) (visibleChildrenCount n)
    (visibleChildIndex n) b (collapsed n) (renderNodeCount n)
    (visible n) (filterData n).

Definition set_collapsed (n : node) (b : bool) : node :=
  mkNode (nid n) (parent n) (element n) (children n) (depth n) (visibleChildrenCount n)
    (visibleChildIndex n) (collapsible n) b (renderNodeCount n)
    (visible n) (filterData n).

Definition set_renderNodeCount (n : node) (c : Z) : node :=
  mkNode (nid n) (parent n) (element n) (children n) (depth n) (visibleChildrenCount n)
    (visibleChildIndex n) (collapsible n) (collapsed n) c
    (visible n) (filterData n).

Definition set_visible (n : node) (b : bool) : node :=
  mkNode (nid n) (parent n) (element n) (children n) (depth n) (visibleChildrenCount n)
    (visibleChildIndex n) (collapsible n) (collapsed n) (renderNodeCount n)
    b (filterData n).

Definition set_filterData (n : node) (d : option TFilterData) : node :=
  mkNode (nid n) (parent n) (element n) (children n) (depth n) (visibleChildrenCount n)
    (visibleChildIndex n) (collapsible n) (collapsed n) (renderNodeCount n)
    (visible n) d.

(** The model object. [renderList] is [this.list]; [nextId] is the identity
    the next node object will get. *)
Record model : Type :=
  mkModel {
    root : node;
    renderList : list nat;
    nextId : nat;
    collapseByDefault : bool;
    filter : option ITreeFilter;
    autoExpandSingleChildren : bool
  }.

Definition set_root (m : model) (r : node) : model :=
  mkModel r (renderList m) (nextId m) (collapseByDefault m) (filter m)
    (autoExpandSingleChildren m).

Definition set_renderList (m : model) (l : list nat) : model :=
  mkModel (root m) l (nextId m) (collapseByDefault m) (filter m)
    (autoExpandSingleChildren m).

Definition set_nextId (m : model) (k : nat) : model :=
  mkModel (root m) (renderList m) k (collapseByDefault m) (filter m)
    (autoExpandSingleChildren m).

(** The filter object is supplied once, but it is an object with a state of
    its own (a search pattern, say): a change of that state is a change of
    the function it computes. *)
Definition set_filter (m : model) (f : option ITreeFilter) : model :=
  mkModel (root m) (renderList m) (nextId m) (collapseByDefault m) f
    (autoExpandSingleChildren m).

(** [IIndexTreeModelOptions] and the constructor. The root object has
    identity [0]. *)
Record IIndexTreeModelOptions : Type :=
  mkOptions {
    opt_collapseByDefault : option bool;
    opt_filter : option ITreeFilter;
    opt_autoExpandSingleChildren : option bool
  }.

Definition newModel (rootElement : T) (options : IIndexTreeModelOptions) : model :=
  mkModel
    (mkNode 0%nat None rootElement [] 0 0 (-1) false false 0 true None)
    [] 1%nat
    (match opt_collapseByDefault options with None => false | Some b => b end)
    (opt_filter options)
    (match opt_autoExpandSingleChildren options with None => false | Some b => b end).

(** ** Locations *)

(** [node.children[index]] for an index that passed the bounds check. *)
Definition child (n : node) (index : Z) : option node :=
  nth_error (children n) (Z.to_nat index).

Definition outOfBounds (n : node) (index : Z) : bool :=
  (index <? 0) || (index >? Z.of_nat (length (children n))).

(** The node at a path of child positions. *)
Fixpoint nodeAt (n : node) (path : list nat) : option node :=
  match path with
  | [] => Some n
  | i :: rest =>
      match nth_error (children n) i with
      | Some c => nodeAt c rest
      | None => None
      end
  end.

(** [getTreeNode(location, node = this.root)].  The bounds check lets
    [index = node.children.length] through; [node.children[index]] is then
    [undefined] and the default value of the parameter applies: the walk
    goes on from the root.  [here] is the path of [nd], that is, which
    object [nd] refers to. *)
Fixpoint getTreeNode (root : node) (location : list Z) (here : list nat) (nd : node)
  : outcome (list nat * node) :=
  match location with
  | [] => Ok (here, nd)
  | index :: rest =>
      if outOfBounds nd index then Throw InvalidTreeLocation
      else
        match child nd index with
        | Some c => getTreeNode root rest (here ++ [Z.to_nat index]) c
        | None => getTreeNode root rest [] root
        end
  end.

Record ParentWithListIndex : Type :=
  mkParentWithListIndex {
    parentPath : list nat;
    parentNode : node;
    p_listIndex : Z;
    p_revealed : bool;
    p_visible : bool
  }.

(** [getParentNodeWithListIndex(location, node = this.root, listIndex = 0,
    revealed = true, visible = true)] *)
Fixpoint getParentNodeWithListIndex (root : node) (location : list Z) (here : list nat)
    (nd : node) (listIndex : Z) (revealed vis : bool)
  : outcome ParentWithListIndex :=
  match location with
  | [] =>
      (* [index] is [undefined]: both comparisons and the loop test fail *)
      Ok (mkParentWithListIndex here nd listIndex
            (revealed && negb (collapsed nd)) (vis && visible nd))
  | index :: rest =>
      if outOfBounds nd index then Throw InvalidTreeLocation
      else
        let listIndex :=
          listIndex + sumZ (map renderNodeCount (firstn (Z.to_nat index) (children nd))) in
        let revealed := revealed && negb (collapsed nd) in
        let vis := vis && visible nd in
        match rest with
        | [] => Ok (mkParentWithListIndex here nd listIndex revealed vis)
        | _ :: _ =>
            match child nd index with
            | Some c =>
                getParentNodeWithListIndex root rest (here ++ [Z.to_nat index]) c
                  (listIndex + 1) revealed vis
            | None =>
                getParentNodeWithListIndex root rest [] root
                  (listIndex + 1) revealed vis
            end
        end
  end.

(** ** Writing into the tree *)

Fixpoint mapNth {A : Type} (i : nat) (f : A -> A) (l : list A) : list A :=
  match l, i with
  | [], _ => []
  | x :: r, O => f x :: r
  | x :: r, S j => x :: mapNth j f r
  end.

(** The tree after the object at [path] has been mutated by [f]. *)
Fixpoint updateAt (n : node) (path : list nat) (f : node -> node) : node :=
  match path with
  | [] => f n
  | i :: rest => set_children n (mapNth i (fun c => updateAt c rest f) (children n))
  end.

(** [node.renderNodeCount += diff] for the object at [path] and every
    object met by following [parent] from it: the objects on [path]. *)
Fixpoint bumpAlong (n : node) (path : list nat) (diff : Z) : node :=
  let n' := set_renderNodeCount n (renderNodeCount n + diff) in
  match path with
  | [] => n'
  | i :: rest => set_children n' (mapNth i (fun c => bumpAlong c rest diff) (children n))
  end.

(** [_updateAncestorsRenderNodeCount(node, diff)]; [None] is [undefined]. *)
Definition _updateAncestorsRenderNodeCount (root : node) (path : option (list nat))
    (diff : Z) : node :=
  if diff =? 0 then root
  else
    match path with
    | None => root
    | Some p => bumpAlong root p diff
    end.

(** [node.parent] of the object at [path]. *)
Definition parentOf (path : list nat) : option (list nat) :=
  match path with
  | [] => None
  | _ :: _ => Some (removelast path)
  end.

(** ** Filtering *)

(** What [_filterNode] makes of the filter's answer: the filter data to
    store and the visibility. Without a filter the answer is [Visible]. *)
Definition filterResult (filter : option ITreeFilter) (e : T)
    (parentVisibility : option TreeVisibility) : option TFilterData * TreeVisibility :=
  match filter with
  | None => (None, getVisibleState (inr Visible))
  | Some f =>
      match f e parentVisibility with
      | FilterBoolean b => (None, if b then Visible else Hidden)
      | FilterDataResult v d => (Some d, getVisibleState v)
      | FilterVisibility v => (None, getVisibleState (inr v))
      end
  end.

(** [_filterNode] *)
Definition _filterNode (filter : option ITreeFilter) (n : node)
    (parentVisibility : option TreeVisibility) : node * TreeVisibility :=
  let '(data, visibility) := filterResult filter (element n) parentVisibility in
  (set_filterData n data, visibility).

(** ** Creating nodes *)

Section Create.

Variable collapseByDefault_ : bool.
Variable filter_ : option ITreeFilter.

(** The state of a run of [createTreeNode]: the identity of the next object
    and [treeListElements]. *)
Definition createState : Type := (nat * list nat)%type.

(** The object literal at the head of [createTreeNode]. *)
Definition newNode (treeElement : ITreeElement) (id parentId : nat) (parentDepth : Z)
  : node :=
  mkNode id (Some parentId) (el_element treeElement) [] (parentDepth + 1) 0 (-1)
    (match el_collapsible treeElement with
     | Some b => b
     | None => match el_collapsed treeElement with Some _ => true | None => false end
     end)
    (match el_collapsed treeElement with
     | None => collapseByDefault_
     | Some c => c
     end)
    1 true None.

(** The body of [Iterator.forEach(childNodes, child => ...)] in
    [createTreeNode], after [child] has been created. *)
Definition pushChild (acc : list node * Z * Z) (child : node) : list node * Z * Z :=
  let '(cs, visibleChildrenCount, renderNodeCount) := acc in
  (cs ++ [if visible child then set_visibleChildIndex child visibleChildrenCount else child],
   (if visible child then visibleChildrenCount + 1 else visibleChildrenCount),
   renderNodeCount + Model.renderNodeCount child).

(** The end of [createTreeNode], from [node.collapsible = ...] on. *)
Definition finishNode (node1 : node) (visibility : TreeVisibility) (revealed : bool)
    (acc : list node * Z * Z * createState) : node * createState :=
  let '(cs, visibleChildrenCount, renderNodeCount, (next, treeListElements)) := acc in
  let node2 := set_children node1 cs in
  let node3 := set_collapsible node2 (collapsible node2 || (0 <? Z.of_nat (length cs))) in
  let node4 := set_visibleChildrenCount node3 visibleChildrenCount in
  let node5 :=
    set_visible node4
      (if visibility_eqb visibility Recurse then visibleChildrenCount >? 0
       else visibility_eqb visibility Visible) in
  if negb (visible node5) then
    (set_renderNodeCount node5 0,
     (next, if revealed then removelast treeListElements else treeListElements))
  else if negb (collapsed node5) then
    (set_renderNodeCount node5 renderNodeCount, (next, treeListElements))
  else (node5, (next, treeListElements)).

(** [createTreeNode(treeElement, parent, parentVisibility, revealed,
    treeListElements, onDidCreateNode)].  [parent] is read for its identity
    and its depth only. *)
Fixpoint createTreeNode (treeElement : ITreeElement) (parentId : nat) (parentDepth : Z)
    (parentVisibility : TreeVisibility) (revealed : bool) (st : createState)
  : node * createState :=
  let '(id, treeListElements) := st in
  let '(node1, visibility) :=
    _filterNode filter_ (newNode treeElement id parentId parentDepth)
      (Some parentVisibility) in
  let treeListElements := if revealed then treeListElements ++ [id] else treeListElements in
  let childRevealed :=
    revealed && negb (visibility_eqb visibility Hidden) && negb (collapsed node1) in
  finishNode node1 visibility revealed
    (fold_left
       (fun (acc : list node * Z * Z * createState) (el : ITreeElement) =>
          let '(a, s) := acc in
          let '(c, s') :=
            createTreeNode el id (parentDepth + 1) visibility childRevealed s in
          (pushChild a c, s'))
       (el_children treeElement) ([], 0, 1, (S id, treeListElements))).

(** The children of a new node, one after the other. *)
Definition createChildren (id : nat) (depth_ : Z) (visibility : TreeVisibility)
    (childRevealed : bool) (els : list ITreeElement)
    (init : list node * Z * Z * createState) : list node * Z * Z * createState :=
  fold_left
    (fun (acc : list node * Z * Z * createState) (el : ITreeElement) =>
       let '(a, s) := acc in
       let '(c, s') := createTreeNode el id depth_ visibility childRevealed s in
       (pushChild a c, s'))
    els init.

End Create.

(** [treeNodeToElement] *)
Fixpoint treeNodeToElement (n : node) : ITreeElement :=
  mkElement (element n) (map treeNodeToElement (children n)) None (Some (collapsed n)).

(** ** splice *)

(** The loop that looks for "the visible child start index right before the
    splice point": [for (i = lastIndex; i >= 0 && i < length; i--)]. *)
Fixpoint visibleChildStartFrom (cs : list node) (i : nat) : Z :=
  match nth_error cs i with
  | None => 0
  | Some c =>
      if visible c then visibleChildIndex c
      else match i with
           | O => 0
           | S j => visibleChildStartFrom cs j
           end
  end.

Definition visibleChildStart (cs : list node) (lastIndex : Z) : Z :=
  if (0 <=? lastIndex) && (lastIndex <? Z.of_nat (length cs))
  then visibleChildStartFrom cs (Z.to_nat lastIndex)
  else 0.

(** The body of [Iterator.forEach(nodesToInsertIterator, child => ...)] in
    [splice], after [child] has been created. *)
Definition pushInserted (visibleChildStartIndex : Z) (acc : list node * Z * Z)
    (child : node) : list node * Z * Z :=
  let '(nodesToInsert, insertedVisibleChildrenCount, renderNodeCount) := acc in
  (nodesToInsert ++
     [if visible child
      then set_visibleChildIndex child (visibleChildStartIndex + insertedVisibleChildrenCount)
      else child],
   (if visible child then insertedVisibleChildrenCount + 1
    else insertedVisibleChildrenCount),
   renderNodeCount + Model.renderNodeCount child).

Definition countVisible (cs : list node) : Z :=
  Z.of_nat (length (List.filter visible cs)).

(** "adjust for all visible children after the splice point" *)
Definition shiftVisibleFrom (from : nat) (by_ : Z) (cs : list node) : list node :=
  firstn from cs ++
  map (fun c => if visible c then set_visibleChildIndex c (visibleChildIndex c - by_) else c)
      (skipn from cs).

(** [Iterator.forEach(nodesToInsertIterator, ...)] in [splice]: the nodes
    are created one after the other as the iterator is consumed. *)
Definition createNodesToInsert (m : model) (parentNode : node) (revealed : bool)
    (visibleChildStartIndex : Z) (toInsert : list ITreeElement)
    (init : list node * Z * Z * createState) : list node * Z * Z * createState :=
  fold_left
    (fun (acc : list node * Z * Z * createState) (el : ITreeElement) =>
       let '(a, s) := acc in
       let '(c, s') :=
         createTreeNode (collapseByDefault m) (filter m) el (nid parentNode)
           (depth parentNode)
           (if visible parentNode then Visible else Hidden)
           revealed s in
       (pushInserted visibleChildStartIndex a c, s'))
    toInsert init.

(** [splice] from [const lastIndex = ...] on, [r] being what
    [getParentNodeWithListIndex] returned: the deleted nodes and the model
    as it is left. *)
Definition spliceNodes (m : model) (r : ParentWithListIndex) (lastIndex deleteCount : Z)
    (toInsert : list ITreeElement) : list node * model :=
  let parentNode := parentNode r in
  let visibleChildStartIndex := visibleChildStart (children parentNode) lastIndex in
  let '(nodesToInsert, insertedVisibleChildrenCount, renderNodeCount,
        (next, treeListElementsToInsert)) :=
    createNodesToInsert m parentNode (p_revealed r) visibleChildStartIndex toInsert
      ([], 0, 0, (nextId m, [])) in
  let '(cs, deletedNodes) :=
    arraySplice (children parentNode) lastIndex deleteCount nodesToInsert in
  let deletedVisibleChildrenCount := countVisible deletedNodes in
  let cs :=
    if deletedVisibleChildrenCount =? 0 then cs
    else shiftVisibleFrom (Z.to_nat (lastIndex + Z.of_nat (length nodesToInsert)))
           deletedVisibleChildrenCount cs in
  let parentNode' :=
    set_visibleChildrenCount (set_children parentNode cs)
      (visibleChildrenCount parentNode
       + (insertedVisibleChildrenCount - deletedVisibleChildrenCount)) in
  let root1 := updateAt (root m) (parentPath r) (fun _ => parentNode') in
  let m1 := set_nextId (set_root m root1) next in
  let m2 :=
    if p_revealed r && p_visible r then
      let visibleDeleteCount := sumZ (map Model.renderNodeCount deletedNodes) in
      set_renderList
        (set_root m1
           (_updateAncestorsRenderNodeCount root1 (Some (parentPath r))
              (renderNodeCount - visibleDeleteCount)))
        (listSplice (renderList m1) (p_listIndex r) visibleDeleteCount
           treeListElementsToInsert)
    else m1 in
  (deletedNodes, m2).

(** [splice(location, deleteCount, toInsert)].  The creation and deletion
    callbacks and the splice event do not write to the model and are left
    out.  The result is paired with the model as the call leaves it. *)
Definition splice (m : model) (location : list Z) (deleteCount : Z)
    (toInsert : list ITreeElement) : outcome (list ITreeElement) * model :=
  match location with
  | [] => (Throw InvalidTreeLocation, m)
  | _ :: _ =>
      match getParentNodeWithListIndex (root m) location [] (root m) 0 true true with
      | Throw e => (Throw e, m)
      | Ok r =>
          let '(deletedNodes, m') :=
            spliceNodes m r (last location 0) deleteCount toInsert in
          (Ok (map treeNodeToElement deletedNodes), m')
      end
  end.

(** ** Collapsing and expanding *)

Record NodeWithListIndex : Type :=
  mkNodeWithListIndex {
    nodeRef : option (list nat * node);   (* [None] is [undefined] *)
    n_listIndex : Z;
    n_revealed : bool;
    n_visible : bool
  }.

(** [getTreeNodeWithListIndex(location)].  As in [getTreeNode], the last
    index may equal the number of children; [node] is then [undefined] and
    [visible && node.visible] raises a [TypeError] unless [visible] is
    already [false]. *)
Definition getTreeNodeWithListIndex (root : node) (location : list Z)
  : outcome NodeWithListIndex :=
  match location with
  | [] => Ok (mkNodeWithListIndex (Some ([], root)) (-1) true false)
  | _ :: _ =>
      r <- getParentNodeWithListIndex root location [] root 0 true true ;;
      let index := last location 0 in
      if outOfBounds (parentNode r) index then Throw InvalidTreeLocation
      else
        match child (parentNode r) index with
        | Some n =>
            Ok (mkNodeWithListIndex (Some (parentPath r ++ [Z.to_nat index], n))
                  (p_listIndex r) (p_revealed r) (p_visible r && visible n))
        | None =>
            if p_visible r then Throw TypeError
            else Ok (mkNodeWithListIndex None (p_listIndex r) (p_revealed r) false)
        end
  end.

(** [_setNodeCollapsed(node, collapsed, recursive, deep)]; [deep] only
    travels in the collapse event. *)
Fixpoint _setNodeCollapsed (n : node) (collapsed_ recursive : bool) : node * bool :=
  let result := collapsible n && negb (Bool.eqb (collapsed n) collapsed_) in
  let n1 := if collapsible n then set_collapsed n collapsed_ else n in
  if recursive then
    let '(cs, result) :=
      fold_left
        (fun (acc : list node * bool) (c : node) =>
           let '(c', r) := _setNodeCollapsed c collapsed_ true in
           (fst acc ++ [c'], r || snd acc))
        (children n) ([], result) in
    (set_children n1 cs, result)
  else (n1, result).

(** The loop over the children in [_setNodeCollapsed]. *)
Definition setChildrenCollapsed (collapsed_ : bool) (cs : list node)
    (init : list node * bool) : list node * bool :=
  fold_left
    (fun (acc : list node * bool) (c : node) =>
       let '(c', r) := _setNodeCollapsed c collapsed_ true in
       (fst acc ++ [c'], r || snd acc))
    cs init.

(** [_updateNodeAfterCollapseChange(node, result)]: the node as it is left,
    the number returned, and [result]. *)
Fixpoint _updateNodeAfterCollapseChange (n : node) (result : list nat)
  : node * Z * list nat :=
  if negb (visible n) then (n, 0, result)
  else
    let result := result ++ [nid n] in
    if negb (collapsed n) then
      let '(cs, count, result) :=
        fold_left
          (fun (acc : list node * Z * list nat) (c : node) =>
             let '(cs, count, result) := acc in
             let '(c', k, result') := _updateNodeAfterCollapseChange c result in
             (cs ++ [c'], count + k, result'))
          (children n) ([], 1, result) in
      (set_renderNodeCount (set_children n cs) count, count, result)
    else (set_renderNodeCount n 1, 1, result).

(** The loop over the children in [_updateNodeAfterCollapseChange]. *)
Definition updateChildrenAfterCollapseChange (cs : list node)
    (init : list node * Z * list nat) : list node * Z * list nat :=
  fold_left
    (fun (acc : list node * Z * list nat) (c : node) =>
       let '(cs, count, result) := acc in
       let '(c', k, result') := _updateNodeAfterCollapseChange c result in
       (cs ++ [c'], count + k, result'))
    cs init.

(** [updateNodeAfterCollapseChange(node)] for the node at [path]. *)
Definition updateNodeAfterCollapseChange (root : node) (path : list nat) (n : node)
  : node * list nat :=
  let previousRenderNodeCount := renderNodeCount n in
  let '(n', _, result) := _updateNodeAfterCollapseChange n [] in
  let root1 := updateAt root path (fun _ => n') in
  (_updateAncestorsRenderNodeCount root1 (parentOf path)
     (Z.of_nat (length result) - previousRenderNodeCount),
   result).

(** [_setListNodeCollapsed(node, listIndex, revealed, collapsed, recursive)] *)
Definition _setListNodeCollapsed (m : model) (ref : option (list nat * node))
    (listIndex : Z) (revealed collapsed_ recursive : bool) : outcome bool * model :=
  match ref with
  | None => (Throw TypeError, m)
  | Some (path, n) =>
      let '(n1, result) := _setNodeCollapsed n collapsed_ recursive in
      let m1 := set_root m (updateAt (root m) path (fun _ => n1)) in
      if negb revealed || negb (visible n1) then (Ok result, m1)
      else
        let previousRenderNodeCount := renderNodeCount n1 in
        let '(root2, toInsert) := updateNodeAfterCollapseChange (root m1) path n1 in
        let deleteCount :=
          previousRenderNodeCount - (if listIndex =? -1 then 0 else 1) in
        (Ok result,
         set_renderList (set_root m1 root2)
           (listSplice (renderList m1) (listIndex + 1) deleteCount (tl toInsert)))
  end.

(** The loop of [_setCollapsed] that looks for an only visible child. *)
Fixpoint onlyVisibleChildFrom (cs : list node) (i onlyVisibleChildIndex : Z) : Z :=
  match cs with
  | [] => onlyVisibleChildIndex
  | c :: rest =>
      if visible c then
        if onlyVisibleChildIndex >? -1 then -1
        else onlyVisibleChildFrom rest (i + 1) i
      else onlyVisibleChildFrom rest (i + 1) onlyVisibleChildIndex
  end.

(** [_setCollapsed(location, collapsed, recursive)].  The call recurses on a
    longer location when [autoExpandSingleChildren] is set; [fuel] bounds
    the number of nested calls and [None] means it ran out. *)
Fixpoint _setCollapsed (fuel : nat) (m : model) (location : list Z)
    (collapsed_ recursive : bool) : option (outcome bool * model) :=
  match fuel with
  | O => None
  | S fuel =>
      match getTreeNodeWithListIndex (root m) location with
      | Throw e => Some (Throw e, m)
      | Ok r =>
          match _setListNodeCollapsed m (nodeRef r) (n_listIndex r) (n_revealed r)
                  collapsed_ recursive with
          | (Throw e, m1) => Some (Throw e, m1)
          | (Ok result, m1) =>
              if autoExpandSingleChildren m1 && negb collapsed_ && negb recursive then
                let onlyVisibleChildIndex :=
                  match nodeRef r with
                  | Some (path, _) =>
                      match nodeAt (root m1) path with
                      | Some n => onlyVisibleChildFrom (children n) 0 (-1)
                      | None => -1
                      end
                  | None => -1
                  end in
                if onlyVisibleChildIndex >? -1 then
                  match _setCollapsed fuel m1 (location ++ [onlyVisibleChildIndex])
                          false false with
                  | None => None
                  | Some (Throw e, m2) => Some (Throw e, m2)
                  | Some (Ok _, m2) => Some (Ok result, m2)
                  end
                else Some (Ok result, m1)
              else Some (Ok result, m1)
          end
      end
  end.

(** The longest chain of nested nodes. *)
Fixpoint height (n : node) : nat :=
  S (fold_right (fun c h => Nat.max (height c) h) O (children n)).

(** [setCollapsed(location, collapsed?, recursive?)]; a missing [recursive]
    is [false]. *)
Definition setCollapsed (m : model) (location : list Z) (collapsed_ : option bool)
    (recursive : bool) : option (outcome bool * model) :=
  match getTreeNode (root m) location [] (root m) with
  | Throw e => Some (Throw e, m)
  | Ok (_, n) =>
      let c := match collapsed_ with None => negb (collapsed n) | Some c => c end in
      _setCollapsed (S (height (root m))) m location c recursive
  end.

(** The [while (node.parent)] loop of [expandTo]: [here] is the path of
    [node], so the loop runs once for each of its entries. *)
Fixpoint expandToLoop (m : model) (here : list nat) (location : list Z) (steps : nat)
  : option (outcome unit * model) :=
  match steps with
  | O => Some (Ok tt, m)
  | S steps =>
      let here := removelast here in
      let location := removelast location in
      match nodeAt (root m) here with
      | None => Some (Throw TypeError, m)
      | Some n =>
          if collapsed n then
            match _setCollapsed (S (height (root m))) m location false false with
            | None => None
            | Some (Throw e, m1) => Some (Throw e, m1)
            | Some (Ok _, m1) => expandToLoop m1 here location steps
            end
          else expandToLoop m here location steps
      end
  end.

(** [expandTo(location)] *)
Definition expandTo (m : model) (location : list Z) : option (outcome unit * model) :=
  match getTreeNode (root m) location [] (root m) with
  | Throw e => Some (Throw e, m)
  | Ok (here, _) => expandToLoop m here location (length here)
  end.

(** ** refilter *)

Definition isHidden (v : option TreeVisibility) : bool :=
  match v with
  | Some Hidden => true
  | _ => false
  end.

(** The body of the loop over the children in
    [_updateNodeAfterFilterChange], after the call on [child] has returned
    [v] and left [result']. *)
Definition pushRefiltered (acc : list node * Z * bool * list nat)
    (out : node * bool * list nat) : list node * Z * bool * list nat :=
  let '(cs, visibleChildIndex_, hasVisibleDescendants, _) := acc in
  let '(child, v, result') := out in
  (cs ++ [if visible child then set_visibleChildIndex child visibleChildIndex_ else child],
   (if visible child then visibleChildIndex_ + 1 else visibleChildIndex_),
   v || hasVisibleDescendants,
   result').

(** The end of [_updateNodeAfterFilterChange], from the second
    [if (node !== this.root)] on. *)
Definition finishRefiltered (isRoot : bool) (visibility : option TreeVisibility)
    (revealed : bool) (resultStartLength : nat)
    (n3 : node) (hasVisibleDescendants : bool) (result : list nat)
  : node * bool * list nat :=
  let n4 :=
    if isRoot then n3
    else
      set_visible n3
        (match visibility with
         | Some Recurse => hasVisibleDescendants
         | Some Visible => true
         | _ => false
         end) in
  if negb (visible n4) then
    (set_renderNodeCount n4 0, false,
     if revealed then removelast result else result)
  else if negb (collapsed n4) then
    (set_renderNodeCount n4
       (renderNodeCount n4 + (Z.of_nat (length result) - Z.of_nat resultStartLength)),
     true, result)
  else (n4, true, result).

(** [_updateNodeAfterFilterChange(node, parentVisibility, result, revealed)].
    [isRoot] is [node === this.root]: it holds for the first call only, as
    the calls inside are made on children.  Returns the node as it is left,
    the boolean returned, and [result]. *)
Fixpoint _updateNodeAfterFilterChange (filter_ : option ITreeFilter) (isRoot : bool)
    (n : node) (parentVisibility : option TreeVisibility) (result : list nat)
    (revealed : bool) : node * bool * list nat :=
  let '(n1, visibility) :=
    if isRoot then (n, None)
    else let '(n', v) := _filterNode filter_ n parentVisibility in (n', Some v) in
  if negb isRoot && isHidden visibility then (set_visible n1 false, false, result)
  else
    let result := if negb isRoot && revealed then result ++ [nid n1] else result in
    let resultStartLength := length result in
    let n2 := set_renderNodeCount n1 (if isRoot then 0 else 1) in
    let '(n3, hasVisibleDescendants, result) :=
      if negb (collapsed n2) || negb (isHidden visibility) then
        let '(cs, visibleChildIndex_, hasVisibleDescendants, result) :=
          fold_left
            (fun (acc : list node * Z * bool * list nat) (c : node) =>
               pushRefiltered acc
                 (_updateNodeAfterFilterChange filter_ false c visibility (snd acc)
                    (revealed && negb (collapsed n2))))
            (children n) ([], 0, false, result) in
        (set_visibleChildrenCount (set_children n2 cs) visibleChildIndex_,
         hasVisibleDescendants, result)
      else (set_visibleChildrenCount n2 0, false, result) in
    finishRefiltered isRoot visibility revealed resultStartLength
      n3 hasVisibleDescendants result.

(** The loop over the children in [_updateNodeAfterFilterChange]. *)
Definition refilterChildren (filter_ : option ITreeFilter)
    (visibility : option TreeVisibility) (childRevealed : bool) (cs : list node)
    (init : list node * Z * bool * list nat) : list node * Z * bool * list nat :=
  fold_left
    (fun (acc : list node * Z * bool * list nat) (c : node) =>
       pushRefiltered acc
         (_updateNodeAfterFilterChange filter_ false c visibility (snd acc)
            childRevealed))
    cs init.

(** [updateNodeAfterFilterChange(node)], called on the root only. *)
Definition updateNodeAfterFilterChange (filter_ : option ITreeFilter) (root : node)
  : node * list nat :=
  let previousRenderNodeCount := renderNodeCount root in
  let '(root1, _, result) :=
    _updateNodeAfterFilterChange filter_ true root
      (Some (if visible root then Visible else Hidden)) [] true in
  (_updateAncestorsRenderNodeCount root1 None
     (Z.of_nat (length result) - previousRenderNodeCount),
   result).

(** [refilter()] *)
Definition refilter (m : model) : model :=
  let previousRenderNodeCount := renderNodeCount (root m) in
  let '(root1, toInsert) := updateNodeAfterFilterChange (filter m) (root m) in
  set_renderList (set_root m root1)
    (listSplice (renderList m) 0 previousRenderNodeCount toInsert).

End Model.

Arguments FilterBoolean {TFilterData} b.
Arguments FilterVisibility {TFilterData} v.
Arguments FilterDataResult {TFilterData} visibility data.

(** ** What the invariants speak of *)

Section Projection.

Variables T TFilterData : Type.

(** The rows a node stands for: the node, when it is visible, followed by
    the rows of its children, when it is not collapsed. *)
Fixpoint revealedNodes (n : node T TFilterData) : list nat :=
  if visible n then
    nid n :: (if collapsed n then [] else flat_map revealedNodes (children n))
  else [].

(** The depth-first, sibling-order traversal of the visible, non-collapsed
    nodes, the synthetic root left out. *)
Definition traversal (m : model T TFilterData) : list nat :=
  flat_map revealedNodes (children (root m)).

(** [_updateNodeAfterCollapseChange] in closed form: the render counts
    of the rows below [n] set to the number of rows each stands for. *)
Fixpoint recount (n : node T TFilterData) : node T TFilterData :=
  if visible n then
    set_renderNodeCount
      (if collapsed n then n else set_children n (map recount (children n)))
      (Z.of_nat (length (revealedNodes n)))
  else n.

End Projection.

(** ** Paths of existing nodes *)

Section Paths.

Variables T TFilterData : Type.

(** The number of rows before child [k] of the node at [path], counted as
    [getParentNodeWithListIndex] counts them. *)
Fixpoint listOffset (n : node T TFilterData) (path : list nat) (k : nat) : Z :=
  match path with
  | [] => sumZ (map (@renderNodeCount _ _) (firstn k (children n)))
  | i :: rest =>
      sumZ (map (@renderNodeCount _ _) (firstn i (children n))) + 1 +
      match nth_error (children n) i with
      | Some c => listOffset c rest k
      | None => 0
      end
  end.

(** No node from [n] down to the node at [path] is collapsed. *)
Fixpoint expandedAlong (n : node T TFilterData) (path : list nat) : bool :=
  negb (collapsed n) &&
  match path with
  | [] => true
  | i :: rest =>
      match nth_error (children n) i with
      | Some c => expandedAlong c rest
      | None => true
      end
  end.

(** Every node from [n] down to the node at [path] is visible. *)
Fixpoint visibleAlong (n : node T TFilterData) (path : list nat) : bool :=
  visible n &&
  match path with
  | [] => true
  | i :: rest =>
      match nth_error (children n) i with
      | Some c => visibleAlong c rest
      | None => true
      end
  end.

(** The collapse state of the node at a path, if there is one. *)
Definition collapsedAt (n : node T TFilterData) (path : list nat) : option bool :=
  option_map (@collapsed _ _) (nodeAt n path).

(** [q] addresses a proper ancestor of the node at [path]. *)
Definition properPrefix (q path : list nat) : Prop :=
  exists q', q' <> [] /\ path = q ++ q'.

(** What the operations write: [splice] also creates and removes nodes;
    collapsing writes [collapsed] and the render counts; [refilter] writes
    the visibility fields and the render counts. *)
Inductive written : Type := Counts | Collapse | Filter.

(** The tree with the fields of one kind reset, the same everywhere. *)
Fixpoint erase (w : written) (n : node T TFilterData) : node T TFilterData :=
  mkNode (nid n) (parent n) (element n) (map (erase w) (children n)) (depth n)
    (match w with Filter => 0 | _ => visibleChildrenCount n end)
    (match w with Filter => 0 | _ => visibleChildIndex n end)
    (collapsible n)
    (match w with Collapse => false | _ => collapsed n end)
    0
    (match w with Filter => false | _ => visible n end)
    (match w with Filter => None | _ => filterData n end).

End Paths.

(** ** Resolved visibility *)

Section Resolution.

Variables T TFilterData : Type.

(** The visibility of [n] and of the nodes below it is what the filter's
    answers make it: [Recurse] is visible exactly with a visible child,
    [Visible] is visible, [Hidden] is not; [visibleChildrenCount] counts the
    visible children.  [parentVisibility] is what the filter is told about
    the parent. *)
Fixpoint resolved (filter_ : option (ITreeFilter T TFilterData))
    (parentVisibility : option TreeVisibility) (n : node T TFilterData) : bool :=
  let v := snd (filterResult filter_ (element n) parentVisibility) in
  (visibleChildrenCount n =? countVisible (children n))
  && Bool.eqb (visible n)
       (match v with
        | Recurse => visibleChildrenCount n >? 0
        | Visible => true
        | Hidden => false
        end)
  && forallb (resolved filter_ (Some v)) (children n).

(** The same for [refilter], which does not look below a node the filter
    answers [Hidden] for. *)
Fixpoint refiltered (filter_ : option (ITreeFilter T TFilterData))
    (parentVisibility : option TreeVisibility) (n : node T TFilterData) : bool :=
  let v := snd (filterResult filter_ (element n) parentVisibility) in
  match v with
  | Hidden => negb (visible n)
  | _ =>
      (visibleChildrenCount n =? countVisible (children n))
      && Bool.eqb (visible n)
           (match v with
            | Recurse => visibleChildrenCount n >? 0
            | _ => true
            end)
      && forallb (refiltered filter_ (Some v)) (children n)
  end.

End Resolution.

(** ** Node objects and their locations *)

Section Identity.

Variables T TFilterData : Type.

(** [getNode(location = [])] *)
Definition getNode (m : model T TFilterData) (location : list Z)
  : outcome (node T TFilterData) :=
  x <- getTreeNode (root m) location [] (root m) ;; Ok (snd x).

(** The identities of the objects of a tree, depth first. *)
Fixpoint ids (n : node T TFilterData) : list nat :=
  nid n :: flat_map ids (children n).

(** The object of the tree with a given identity: what following a
    reference to it yields. *)
Fixpoint findNode (id : nat) (n : node T TFilterData) : option (node T TFilterData) :=
  if Nat.eqb (nid n) id then Some n
  else
    (fix first (cs : list (node T TFilterData)) : option (node T TFilterData) :=
       match cs with
       | [] => None
       | c :: r =>
           match findNode id c with
           | Some x => Some x
           | None => first r
           end
       end) (children n).

(** [children.indexOf(node)], counting from [i]: the position of the first
    entry that is the object [node]. *)
Fixpoint indexOf (cs : list (node T TFilterData)) (id : nat) (i : Z) : Z :=
  match cs with
  | [] => -1
  | c :: r => if Nat.eqb (nid c) id then i else indexOf r id (i + 1)
  end.

(** The [while (node.parent)] loop of [getNodeLocation]; [None] when the
    fuel runs out or a parent is not an object of the tree. *)
Fixpoint getNodeLocationLoop (fuel : nat) (rt n : node T TFilterData) (location : list Z)
  : option (list Z) :=
  match parent n with
  | None => Some location
  | Some pid =>
      match fuel with
      | O => None
      | S fuel =>
          match findNode pid rt with
          | None => None
          | Some p =>
              getNodeLocationLoop fuel rt p
                (location ++ [indexOf (children p) (nid n) 0])
          end
      end
  end.

(** [getNodeLocation(node)] *)
Definition getNodeLocation (m : model T TFilterData) (n : node T TFilterData)
  : option (list Z) :=
  option_map (@rev Z) (getNodeLocationLoop (height (root m)) (root m) n []).

(** Every child names its parent. *)
Fixpoint parentsLinked (n : node T TFilterData) : bool :=
  forallb
    (fun c =>
       match parent c with
       | Some pid => Nat.eqb pid (nid n)
       | None => false
       end && parentsLinked c)
    (children n).

(** The objects of the tree are distinct, older than the next one to be
    made, and linked to their parents; the root has none. *)
Definition identified (m : model T TFilterData) : Prop :=
  parent (root m) = None /\
  NoDup (ids (root m)) /\
  Forall (fun i => (i < nextId m)%nat) (ids (root m)) /\
  parentsLinked (root m) = true.

(** ** Sequences of operations *)

(** One call of an operation, whatever its arguments and its outcome, or
    a change of the filter's state. *)
Inductive step : model T TFilterData -> model T TFilterData -> Prop :=
| step_splice m location deleteCount toInsert :
    step m (snd (splice m location deleteCount toInsert))
| step_setCollapsed m location collapsed_ recursive out m' :
    setCollapsed m location collapsed_ recursive = Some (out, m') -> step m m'
| step_expandTo m location out m' :
    expandTo m location = Some (out, m') -> step m m'
| step_refilter m :
    step m (refilter m)
| step_filter m filter_ :
    step m (set_filter m filter_).

(** The models that sequences of operations lead to from a new model. *)
Inductive reachable : model T TFilterData -> Prop :=
| reachable_new rootElement options :
    reachable (newModel rootElement options)
| reachable_step m m' :
    reachable m -> step m m' -> reachable m'.

End Identity.

(** ** Render counts *)

Section Counts.

Variables T TFilterData : Type.

(** Below [n], as far as the nodes are visible, the nodes that are not
    visible have a render count of 0. *)
Fixpoint countsSettled (n : node T TFilterData) : bool :=
  if visible n then forallb countsSettled (children n)
  else renderNodeCount n =? 0.

(** The render count of [n] is 0 when it is not visible, 1 when it is
    visible and collapsed, 1 plus the render counts of its children when
    it is visible and expanded; the same holds of its children when it is
    visible and expanded, and they are settled when it is visible and
    collapsed. *)
Fixpoint countsExact (n : node T TFilterData) : bool :=
  if visible n then
    if collapsed n then
      (renderNodeCount n =? 1) && forallb countsSettled (children n)
    else
      (renderNodeCount n =? 1 + sumZ (map (@renderNodeCount _ _) (children n)))
      && forallb countsExact (children n)
  else renderNodeCount n =? 0.

(** No node from [n] down that is not visible has rows: its render
    count is 0. *)
Fixpoint hiddenEmpty (n : node T TFilterData) : bool :=
  (visible n || (renderNodeCount n =? 0)) && forallb hiddenEmpty (children n).

(** [n] is visible and expanded and the render counts of its children
    are exact. *)
Definition exactBelow (n : node T TFilterData) : bool :=
  visible n && negb (collapsed n) && forallb countsExact (children n).

(** Every node strictly above the node at [path] is visible and
    expanded. *)
Fixpoint onScreenAbove (n : node T TFilterData) (path : list nat) : bool :=
  match path with
  | [] => true
  | i :: rest =>
      visible n && negb (collapsed n) &&
      match nth_error (children n) i with
      | Some c => onScreenAbove c rest
      | None => true
      end
  end.

(** Every node strictly above the node at [path] is visible. *)
Fixpoint visibleAbove (n : node T TFilterData) (path : list nat) : bool :=
  match path with
  | [] => true
  | i :: rest =>
      visible n &&
      match nth_error (children n) i with
      | Some c => visibleAbove c rest
      | None => true
      end
  end.

(** The tree with the node at [path] replaced by [p'] and the render
    count of every node above it raised by [d]. *)
Fixpoint replaceBumping (n : node T TFilterData) (path : list nat) (d : Z)
    (p' : node T TFilterData) : node T TFilterData :=
  match path with
  | [] => p'
  | i :: rest =>
      set_children (set_renderNodeCount n (renderNodeCount n + d))
        (mapNth i (fun c => replaceBumping c rest d p') (children n))
  end.

(** [refilter] with this filter hides no node that has rows: every node
    it reaches and the filter answers [Hidden] for has a render count
    of 0 already. *)
Fixpoint hidesOnlyEmpty (filter_ : option (ITreeFilter T TFilterData))
    (parentVisibility : option TreeVisibility) (n : node T TFilterData) : bool :=
  match snd (filterResult filter_ (element n) parentVisibility) with
  | Hidden => renderNodeCount n =? 0
  | v => forallb (hidesOnlyEmpty filter_ (Some v)) (children n)
  end.

(** The calls that the invariant on render counts is about: a
    [splice] at a location that names an existing parent and a position
    among its children; a [setCollapsed] on an existing node that is
    visible together with all its ancestors, or, failing that, one that
    does not go on to expand single children and addresses a node that is
    not visible or lies under a collapsed node; a [refilter] that hides no
    node that has rows; a change of the filter's state. *)
Inductive regularStep : model T TFilterData -> model T TFilterData -> Prop :=
| regular_splice m pp p k deleteCount toInsert :
    nodeAt (root m) pp = Some p ->
    (k <= length (children p))%nat ->
    regularStep m
      (snd (splice m (map Z.of_nat pp ++ [Z.of_nat k]) deleteCount toInsert))
| regular_setCollapsed m path n collapsed_ recursive out m' :
    nodeAt (root m) path = Some n ->
    visibleAlong (root m) path = true \/
    (autoExpandSingleChildren m
       && negb (match collapsed_ with None => negb (collapsed n) | Some c => c end)
       && negb recursive = false /\
     expandedAlong (root m) (removelast path) && visible n = false /\
     path <> []) ->
    setCollapsed m (map Z.of_nat path) collapsed_ recursive = Some (out, m') ->
    regularStep m m'
| regular_refilter m :
    forallb (hidesOnlyEmpty (filter m) None) (children (root m)) = true ->
    regularStep m (refilter m)
| regular_filter m filter_ :
    regularStep m (set_filter m filter_).

Inductive regularlyReachable : model T TFilterData -> Prop :=
| regularly_new rootElement options :
    regularlyReachable (newModel rootElement options)
| regularly_step m m' :
    regularlyReachable m -> regularStep m m' -> regularlyReachable m'.

End Counts.

(** ** Reading the model *)

Section Queries.

Variables T TFilterData : Type.

(** [rerender(location)].  The tree is left as it is; the result is the
    content of the list after the call, a row being the identity of a node
    object, or [None] where the call has put [undefined]. *)
Definition rerender (m : model T TFilterData) (location : list Z)
  : outcome (list (option nat)) :=
  match location with
  | [] => Throw InvalidTreeLocation
  | _ :: _ =>
      r <- getTreeNodeWithListIndex (root m) location ;;
      if n_revealed r then
        Ok (listSplice (map Some (renderList m)) (n_listIndex r) 1
              [option_map (fun x => nid (snd x)) (nodeRef r)])
      else Ok (map Some (renderList m))
  end.

(** [getListIndex(location)] *)
Definition getListIndex (m : model T TFilterData) (location : list Z) : outcome Z :=
  r <- getTreeNodeWithListIndex (root m) location ;;
  Ok (if n_visible r && n_revealed r then n_listIndex r else -1).

(** [getListRenderCount(location)] *)
Definition getListRenderCount (m : model T TFilterData) (location : list Z)
  : outcome Z :=
  x <- getTreeNode (root m) location [] (root m) ;; Ok (renderNodeCount (snd x)).

(** [isCollapsible(location)] *)
Definition isCollapsible (m : model T TFilterData) (location : list Z)
  : outcome bool :=
  x <- getTreeNode (root m) location [] (root m) ;; Ok (collapsible (snd x)).

(** [isCollapsed(location)] *)
Definition isCollapsed (m : model T TFilterData) (location : list Z)
  : outcome bool :=
  x <- getTreeNode (root m) location [] (root m) ;; Ok (collapsed (snd x)).

(** [getFirstElementChild(location)]; [None] is [undefined]. *)
Definition getFirstElementChild (m : model T TFilterData) (location : list Z)
  : outcome (option T) :=
  x <- getTreeNode (root m) location [] (root m) ;;
  Ok (match children (snd x) with
      | [] => None
      | c :: _ => Some (element c)
      end).

(** [_getLastElementAncestor(node)]: the element of [node] when it has no
    children, the result for its last child otherwise. *)
Fixpoint _getLastElementAncestor (n : node T TFilterData) : T :=
  last (map _getLastElementAncestor (children n)) (element n).

(** [getLastElementAncestor(location = [])] *)
Definition getLastElementAncestor (m : model T TFilterData) (location : list Z)
  : outcome (option T) :=
  x <- getTreeNode (root m) location [] (root m) ;;
  Ok (match children (snd x) with
      | [] => None
      | _ :: _ => Some (_getLastElementAncestor (snd x))
      end).

(** The rows of the nodes below [n]. *)
Definition rowsBelow (n : node T TFilterData) : list nat :=
  flat_map (@revealedNodes _ _) (children n).

(** The nodes of a tree, depth first. *)
Fixpoint nodes (n : node T TFilterData) : list (node T TFilterData) :=
  n :: flat_map nodes (children n).

(** The element that [treeNodeToElement] gives back for the node made from
    [el]: the same payload and children, [collapsed] as given or as the
    model's default, no [collapsible]. *)
Fixpoint createdElement (cbd : bool) (el : ITreeElement T) : ITreeElement T :=
  mkElement (el_element el) (map (createdElement cbd) (el_children el)) None
    (Some (match el_collapsed el with None => cbd | Some c => c end)).

(** The tree without its render counts and visible child indices. *)
Fixpoint skeleton (n : node T TFilterData) : node T TFilterData :=
  mkNode (nid n) (parent n) (element n) (map skeleton (children n)) (depth n)
    (visibleChildrenCount n) 0 (collapsible n) (collapsed n) 0 (visible n)
    (filterData n).

(** The nodes below [n], [n] included, are at the depths that their places
    give them, [n] at depth [d], and each one's [visibleChildrenCount] is
    the number of its visible children. *)
Fixpoint laidOut (d : Z) (n : node T TFilterData) : bool :=
  (depth n =? d) && (visibleChildrenCount n =? countVisible (children n))
  && forallb (laidOut (d + 1)) (children n).

End Queries.

Arguments createdElement {T} cbd el.
Arguments skeleton {T TFilterData} n.
Arguments laidOut {T TFilterData} d n.

(** ** What the inductions carry *)

(** The statements that the proofs by induction over a tree make of one
    node or one element, and the sums and lists they speak of. *)
Section Carried.

Variables T TFilterData : Type.
Implicit Types (n c : node T TFilterData) (cs : list (node T TFilterData)).
Implicit Types (el : ITreeElement T).
Implicit Types (f : option (ITreeFilter T TFilterData)) (cbd : bool).

(** The sum of the render counts. *)
Definition rows cs : Z := sumZ (map (@renderNodeCount _ _) cs).

(** Exact counts where rows are collected, settled counts elsewhere. *)
Definition countsFor (revealed : bool) n : bool :=
  if revealed then countsExact n else countsSettled n.

(** The rows of [cs], where rows are collected. *)
Definition rowsFor (revealed : bool) cs : list nat :=
  if revealed then flat_map (@revealedNodes _ _) cs else [].

(** [c] names [id] as its parent, and the nodes below it name theirs. *)
Definition linkedTo (id : nat) c : bool :=
  match parent c with
  | Some pid => Nat.eqb pid id
  | None => false
  end && parentsLinked c.

(** The objects in [cs] are distinct and were made between [lo] and [hi]. *)
Definition freshIn (lo hi : nat) (cs : list (node T TFilterData)) : Prop :=
  forall x, (count_occ Nat.eq_dec (flat_map (@ids _ _) cs) x <= 1)%nat /\
            ((0 < count_occ Nat.eq_dec (flat_map (@ids _ _) cs) x)%nat -> (lo <= x < hi)%nat).

(** [createTreeNode] resolves the visibility of the node it makes. *)
Definition createResolved cbd f el : Prop :=
  forall pid pd pv rev st,
    resolved f (Some pv) (fst (createTreeNode cbd f el pid pd pv rev st)) = true.

(** It makes distinct objects, numbered from the next identity on. *)
Definition createIdentified cbd f el : Prop :=
  forall pid pd pv rev id tl,
    let out := createTreeNode cbd f el pid pd pv rev (id, tl) in
    linkedTo pid (fst out) = true /\ (id < fst (snd out))%nat /\
    freshIn id (fst (snd out)) [fst out].

(** It leaves exact render counts. *)
Definition createExact cbd f el : Prop :=
  forall pid pd pv rev st,
    countsExact (fst (createTreeNode cbd f el pid pd pv rev st)) = true.

(** [_updateNodeAfterCollapseChange] in closed form. *)
Definition recounts n : Prop :=
  forall result,
    _updateNodeAfterCollapseChange n result =
    (recount n, Z.of_nat (length (revealedNodes n)), result ++ revealedNodes n).

(** [_updateNodeAfterFilterChange] resolves the visibility of the node,
    and returns it. *)
Definition refilterResolves f n : Prop :=
  forall pv result revealed,
    let out := _updateNodeAfterFilterChange f false n pv result revealed in
    refiltered f pv (fst (fst out)) = true /\
    snd (fst out) = visible (fst (fst out)) /\
    element (fst (fst out)) = element n.

(** It writes the fields of the filter and the render counts only. *)
Definition refilterErases f n : Prop :=
  forall pv result revealed,
    erase Filter (fst (fst (_updateNodeAfterFilterChange f false n pv result revealed)))
    = erase Filter n.

(** With a filter that hides no node that has rows, it leaves exact
    render counts where it collects rows and settled ones elsewhere, and
    collects the rows of the node. *)
Definition refilterExact f n : Prop :=
  forall pv result revealed,
    hidesOnlyEmpty f pv n = true ->
    let out := _updateNodeAfterFilterChange f false n pv result revealed in
    countsFor revealed (fst (fst out)) = true /\
    snd out = result ++ rowsFor revealed [fst (fst out)].

(** With such a filter it leaves the nodes that are not visible without
    rows. *)
Definition refilterHidden f n : Prop :=
  forall pv result revealed,
    hidesOnlyEmpty f pv n = true -> hiddenEmpty n = true ->
    hiddenEmpty (fst (fst (_updateNodeAfterFilterChange f false n pv result revealed)))
    = true.

(** [createTreeNode] collects the rows of the node it makes. *)
Definition createRows cbd f el : Prop :=
  forall pid pd pv rev st,
    snd (snd (createTreeNode cbd f el pid pd pv rev st)) =
    snd st ++ rowsFor rev [fst (createTreeNode cbd f el pid pd pv rev st)].

(** The render list holds the rows below the root, and the render count
    of the root covers them. *)
Definition projected (m : model T TFilterData) : Prop :=
  renderList m = rowsBelow (root m) /\
  rows (children (root m)) <= renderNodeCount (root m).

(** [treeNodeToElement] gives the element back that a node was made
    from. *)
Definition createElements cbd f el : Prop :=
  forall pid pd pv rev st,
    treeNodeToElement (fst (createTreeNode cbd f el pid pd pv rev st))
    = createdElement cbd el.

(** [_updateNodeAfterFilterChange] on [n] appends rows that do not depend
    on the rows collected before, none when it returns [false], and on the
    node it leaves, wherever the parent has put it among the visible
    children, it does the same again and leaves that node as it is. *)
Definition refilterStable f n : Prop :=
  forall pv revealed, exists n' (b : bool) (D : list nat),
    (forall result,
       _updateNodeAfterFilterChange f false n pv result revealed = (n', b, result ++ D)) /\
    (b = false -> D = []) /\
    (forall i result,
       _updateNodeAfterFilterChange f false (set_visibleChildIndex n' i) pv result revealed
       = (set_visibleChildIndex n' i, b, result ++ D)).

End Carried.

Arguments rows {T TFilterData} cs.
Arguments countsFor {T TFilterData} revealed n.
Arguments rowsFor {T TFilterData} revealed cs.
Arguments linkedTo {T TFilterData} id c.
Arguments freshIn {T TFilterData} lo hi cs.
Arguments createResolved {T TFilterData} cbd f el.
Arguments createIdentified {T TFilterData} cbd f el.
Arguments createExact {T TFilterData} cbd f el.
Arguments recounts {T TFilterData} n.
Arguments refilterResolves {T TFilterData} f n.
Arguments refilterErases {T TFilterData} f n.
Arguments refilterExact {T TFilterData} f n.
Arguments refilterHidden {T TFilterData} f n.
Arguments createRows {T TFilterData} cbd f el.
Arguments projected {T TFilterData} m.
Arguments createElements {T TFilterData} cbd f el.
Arguments refilterStable {T TFilterData} f n.

(** ** Scenarios *)

Module Scenario.

Local Open Scope string_scope.

Definition leaf (name : string) : ITreeElement string := mkElement name [] None None.

Definition branch (name : string) (cs : list (ITreeElement string)) (collapsed_ : bool)
  : ITreeElement string :=
  mkElement name cs None (Some collapsed_).

Definition emptyModel (filter_ : option (ITreeFilter string unit)) (autoExpand : bool)
  : model string unit :=
  newModel "root" (mkOptions None filter_ (Some autoExpand)).

(** A filter that hides the element called [name] and shows the others. *)
Definition hiding (name : string) : ITreeFilter string unit :=
  fun e _ => FilterBoolean (negb (String.eqb e name)).

Definition showAll : ITreeFilter string unit := fun _ _ => FilterBoolean true.

(** [id, visibleChildIndex, renderNodeCount, visible, collapsed] of every
    node, depth first. *)
Fixpoint fields (n : node string unit) : list (nat * Z * Z * bool * bool) :=
  (nid n, visibleChildIndex n, renderNodeCount n, visible n, collapsed n)
    :: flat_map fields (children n).

(** Root children [a; b; c] under a filter that shows everything. *)
Definition abc : model string unit :=
  snd (splice (emptyModel (Some showAll) false) [0] 0 [leaf "a"; leaf "b"; leaf "c"]).

(** The search pattern changes so that [a] is hidden, and the tree is
    refiltered. *)
Definition abc_without_a : model string unit :=
  refilter (set_filter abc (Some (hiding "a"))).

(** Then [x] is inserted as the first child of [b]. *)
Definition abc_x_under_b : model string unit :=
  snd (splice abc_without_a [1; 0] 0 [leaf "x"]).

(** Root child [a]. *)
Definition only_a : model string unit :=
  snd (splice (emptyModel None false) [0] 0 [leaf "a"]).

(** [b] appended after [a]. *)
Definition a_then_b : model string unit :=
  snd (splice only_a [1] 0 [leaf "b"]).

(** Root child [a], expanded, with the only child [a1], collapsed, which
    has the child [a11]; single children are expanded automatically. *)
Definition chain : model string unit :=
  snd (splice (emptyModel None true) [0] 0
         [branch "a" [branch "a1" [leaf "a11"] true] false]).

(** The same with [a] collapsed too. *)
Definition collapsedChain : model string unit :=
  snd (splice (emptyModel None true) [0] 0
         [branch "a" [branch "a1" [leaf "a11"] true] true]).

(** [x] appended to the root of [abc_without_a]. *)
Definition abc_x_appended : model string unit :=
  snd (splice abc_without_a [3] 0 [leaf "x"]).

(** Root child [a], hidden by the filter, with the child [a1], collapsed,
    which has the child [a11]. *)
Definition hidden_a : model string unit :=
  snd (splice (emptyModel (Some (hiding "a")) false) [0] 0
         [branch "a" [branch "a1" [leaf "a11"] true] false]).

(** Root child [a], collapsed, with the child [a1], expanded. *)
Definition collapsed_a : model string unit :=
  snd (splice (emptyModel None false) [0] 0 [branch "a" [leaf "a1"] true]).

(** [x] inserted as the first child of [a1]. *)
Definition collapsed_a_x : model string unit :=
  snd (splice collapsed_a [0; 0; 0] 0 [leaf "x"]).

(** [collapsed_a] with [a] expanded again. *)
Definition collapsed_a_expanded : model string unit :=
  match setCollapsed collapsed_a [0] (Some false) false with
  | Some (_, m) => m
  | None => collapsed_a
  end.

End Scenario.

(** * Properties *)

(** ** Induction over trees *)

Section Induction.

Variables T TFilterData : Type.

Section NodeInduction.

Variable P : node T TFilterData -> Prop.
Hypothesis step : forall n, Forall P (children n) -> P n.

Fixpoint node_ind (n : node T TFilterData) : P n :=
  step n
    ((fix all (l : list (node T TFilterData)) : Forall P l :=
        match l with
        | [] => Forall_nil P
        | c :: r => @Forall_cons _ P c r (node_ind c) (all r)
        end) (children n)).

End NodeInduction.

Section ElementInduction.

Variable P : ITreeElement T -> Prop.
Hypothesis step : forall e, Forall P (el_children e) -> P e.

Fixpoint element_ind (e : ITreeElement T) : P e :=
  step e
    ((fix all (l : list (ITreeElement T)) : Forall P l :=
        match l with
        | [] => Forall_nil P
        | c :: r => @Forall_cons _ P c r (element_ind c) (all r)
        end) (el_children e)).

End ElementInduction.

End Induction.

(** ** Invalid locations *)

Section Locations.

Variables T TFilterData : Type.
Implicit Types (m : model T TFilterData) (n p : node T TFilterData).

Lemma outOfBounds_spec n index :
  outOfBounds n index = true <->
  index < 0 \/ index > Z.of_nat (length (children n)).
Proof.
  unfold outOfBounds. rewrite orb_true_iff, Z.ltb_lt, Z.gtb_ltb, Z.ltb_lt. lia.
Qed.

Lemma child_of_nat n (i : nat) : child n (Z.of_nat i) = nth_error (children n) i.
Proof. unfold child. now rewrite Nat2Z.id. Qed.

Lemma inBounds_of_nat n (i : nat) c :
  nth_error (children n) i = Some c -> outOfBounds n (Z.of_nat i) = false.
Proof.
  intros H. apply not_true_is_false. rewrite outOfBounds_spec.
  assert (i < length (children n))%nat by (apply nth_error_Some; congruence). lia.
Qed.

(** The walk stops with the error at the first level whose index is
    negative or larger than the number of children there. *)
Lemma getParentNodeWithListIndex_invalid (rt : node T TFilterData) :
  forall (pre : list nat) n here listIndex revealed vis p index post,
    nodeAt n pre = Some p ->
    outOfBounds p index = true ->
    getParentNodeWithListIndex rt (map Z.of_nat pre ++ index :: post) here n
      listIndex revealed vis = Throw InvalidTreeLocation.
Proof.
  induction pre as [|i pre IH]; intros n here listIndex revealed vis p index post Hat Hout.
  - simpl in Hat. injection Hat as <-. simpl. now rewrite Hout.
  - simpl in Hat. destruct (nth_error (children n) i) as [c|] eqn:Hc; [|discriminate].
    cbn [map app getParentNodeWithListIndex].
    rewrite (inBounds_of_nat _ _ Hc), child_of_nat, Hc.
    destruct (map Z.of_nat pre ++ index :: post) eqn:Hrest.
    + destruct pre; discriminate.
    + rewrite <- Hrest. now apply IH with (p := p).
Qed.

(** Nothing is written before the location has been resolved: a call that
    throws leaves the model as it found it. *)
Lemma splice_throw_unchanged m location deleteCount toInsert e :
  fst (splice m location deleteCount toInsert) = Throw e ->
  snd (splice m location deleteCount toInsert) = m.
Proof.
  unfold splice. destruct location as [|i rest]; [reflexivity|].
  destruct (getParentNodeWithListIndex _ _ _ _ _ _ _) as [r|e']; [|reflexivity].
  repeat match goal with
         | |- context [let '(_, _) := ?x in _] => destruct x
         end.
  simpl. discriminate.
Qed.

(** C4 (amended): [splice] at the empty location throws the invalid-location
    error, and so does [splice] at a location that walks through existing
    children to a level where the index is negative or greater than the
    number of children; no level before that one is at fault. *)
Theorem splice_invalid_location m deleteCount toInsert :
  fst (splice m [] deleteCount toInsert) = Throw InvalidTreeLocation /\
  forall (pre : list nat) p index post,
    nodeAt (root m) pre = Some p ->
    index < 0 \/ index > Z.of_nat (length (children p)) ->
    fst (splice m (map Z.of_nat pre ++ index :: post) deleteCount toInsert)
      = Throw InvalidTreeLocation.
Proof.
  split; [reflexivity|].
  intros pre p index post Hat Hout. apply outOfBounds_spec in Hout.
  unfold splice.
  destruct (map Z.of_nat pre ++ index :: post) eqn:Hloc.
  - destruct pre; discriminate.
  - rewrite <- Hloc.
    erewrite getParentNodeWithListIndex_invalid; eauto.
Qed.

(** C5: a [splice] that fails with the invalid-location error has written
    nothing: the model, tree and render list, is the one it was called on. *)
Theorem splice_invalid_location_no_mutation m location deleteCount toInsert :
  fst (splice m location deleteCount toInsert) = Throw InvalidTreeLocation ->
  snd (splice m location deleteCount toInsert) = m.
Proof. apply splice_throw_unchanged. Qed.

End Locations.

(** ** Visibility after creation and after refilter *)

Section Visibility.

Variables T TFilterData : Type.
Implicit Types (n c : node T TFilterData) (el : ITreeElement T).
Implicit Types (f : option (ITreeFilter T TFilterData)) (cbd : bool).

Lemma createTreeNode_eq cbd f el pid pd pv rev id tl :
  createTreeNode cbd f el pid pd pv rev (id, tl) =
  let node1 := fst (_filterNode f (newNode TFilterData cbd el id pid pd) (Some pv)) in
  let visibility := snd (filterResult f (el_element el) (Some pv)) in
  finishNode node1 visibility rev
    (createChildren cbd f id (pd + 1) visibility
       (rev && negb (visibility_eqb visibility Hidden) && negb (collapsed node1))
       (el_children el) ([], 0, 1, (S id, if rev then tl ++ [id] else tl))).
Proof.
  destruct el as [e cs cl co]. unfold createChildren. cbn [createTreeNode].
  unfold _filterNode. cbn [element newNode el_element].
  destruct (filterResult f e (Some pv)) as [d v]. reflexivity.
Qed.

Lemma createChildren_cons cbd f id pd v cr el els init :
  createChildren cbd f id pd v cr (el :: els) init =
  createChildren cbd f id pd v cr els
    (pushChild (fst init) (fst (createTreeNode cbd f el id pd v cr (snd init))),
     snd (createTreeNode cbd f el id pd v cr (snd init))).
Proof.
  unfold createChildren. cbn [fold_left]. destruct init as [a s0]. cbn [fst snd].
  destruct (createTreeNode cbd f el id pd v cr s0). reflexivity.
Qed.


Lemma countVisible_app (cs1 cs2 : list (node T TFilterData)) :
  countVisible (cs1 ++ cs2) = countVisible cs1 + countVisible cs2.
Proof. unfold countVisible. rewrite filter_app, length_app. lia. Qed.

Lemma countVisible_one c : countVisible [c] = if visible c then 1 else 0.
Proof. unfold countVisible. simpl. now destruct (visible c). Qed.

Lemma countVisible_nonneg (cs : list (node T TFilterData)) : 0 <= countVisible cs.
Proof. unfold countVisible. lia. Qed.

Lemma resolved_eq f pv n :
  resolved f pv n =
  let v := snd (filterResult f (element n) pv) in
  (visibleChildrenCount n =? countVisible (children n))
  && Bool.eqb (visible n)
       (match v with
        | Recurse => visibleChildrenCount n >? 0
        | Visible => true
        | Hidden => false
        end)
  && forallb (resolved f (Some v)) (children n).
Proof. destruct n; reflexivity. Qed.

Lemma resolved_set_visibleChildIndex f pv n i :
  resolved f pv (set_visibleChildIndex n i) = resolved f pv n.
Proof. now rewrite !resolved_eq. Qed.

Lemma createChildren_resolved cbd f id pd v cr els :
  Forall (createResolved cbd f) els ->
  forall cs0 vcc0 rnc0 st0 cs vcc rnc st',
    forallb (resolved f (Some v)) cs0 = true ->
    vcc0 = countVisible cs0 ->
    createChildren cbd f id pd v cr els (cs0, vcc0, rnc0, st0) = (cs, vcc, rnc, st') ->
    forallb (resolved f (Some v)) cs = true /\ vcc = countVisible cs.
Proof.
  induction 1 as [|el els Hel _ IH]; intros cs0 vcc0 rnc0 st0 cs vcc rnc st' Hcs Hvcc Hrun.
  - unfold createChildren in Hrun. simpl in Hrun. injection Hrun as <- <- <- <-. auto.
  - rewrite createChildren_cons in Hrun. cbn [fst snd pushChild] in Hrun.
    specialize (Hel id pd v cr st0).
    destruct (createTreeNode cbd f el id pd v cr st0) as [c s1]. cbn [fst snd] in *.
    eapply IH; [| |exact Hrun].
    + rewrite forallb_app, Hcs. simpl. rewrite andb_true_r.
      destruct (visible c); [now rewrite resolved_set_visibleChildIndex|assumption].
    + rewrite countVisible_app, countVisible_one, Hvcc.
      destruct (visible c) eqn:Hv; simpl; rewrite ?Hv; lia.
Qed.

Lemma createTreeNode_resolved cbd f el : createResolved cbd f el.
Proof.
  induction el as [el IH] using element_ind.
  intros pid pd pv rev [id tl]. rewrite createTreeNode_eq. cbv zeta.
  set (v := snd (filterResult f (el_element el) (Some pv))).
  set (node1 := fst (_filterNode f (newNode TFilterData cbd el id pid pd) (Some pv))).
  destruct (createChildren _ _ _ _ _ _ _ _) as [[[cs vcc] rnc] [next tl']] eqn:Hrun.
  apply createChildren_resolved in Hrun; [|assumption|reflexivity|reflexivity].
  destruct Hrun as [Hcs ->].
  assert (Hel : element node1 = el_element el).
  { unfold node1, _filterNode. destruct (filterResult _ _ _). reflexivity. }
  unfold finishNode. cbn [visible set_visible negb].
  match goal with |- context [if negb ?b then _ else _] => destruct b eqn:Hb end;
    cbn [negb fst].
  - match goal with |- context [if negb ?b then _ else _] => destruct b end;
      cbn [negb fst]; rewrite resolved_eq; cbn; rewrite Hel; fold v;
      rewrite Z.eqb_refl, Hcs, andb_true_r; simpl;
      destruct v; simpl in *; rewrite ?Hb; reflexivity.
  - rewrite resolved_eq; cbn; rewrite Hel; fold v;
      rewrite Z.eqb_refl, Hcs, andb_true_r; simpl;
      destruct v; simpl in *; rewrite ?Hb; try reflexivity; discriminate.
Qed.


Lemma filterNode_fst f n pv :
  fst (_filterNode f n pv) = set_filterData n (fst (filterResult f (element n) pv)).
Proof. unfold _filterNode. now destruct (filterResult _ _ _). Qed.

Lemma filterNode_snd f n pv :
  snd (_filterNode f n pv) = snd (filterResult f (element n) pv).
Proof. unfold _filterNode. now destruct (filterResult _ _ _). Qed.

Lemma refilterNode_eq f n pv result revealed :
  _updateNodeAfterFilterChange f false n pv result revealed =
  let v := snd (filterResult f (element n) pv) in
  let n1 := fst (_filterNode f n pv) in
  if isHidden (Some v) then (set_visible n1 false, false, result)
  else
    let result1 := if revealed then result ++ [nid n1] else result in
    let n2 := set_renderNodeCount n1 1 in
    let '(cs, vci, hvd, result2) :=
      refilterChildren f (Some v) (revealed && negb (collapsed n2)) (children n)
        ([], 0, false, result1) in
    finishRefiltered false (Some v) revealed (length result1)
      (set_visibleChildrenCount (set_children n2 cs) vci) hvd result2.
Proof.
  destruct n as [i p e cs d vcc vci cl co rnc vis fd].
  unfold refilterChildren. cbn [_updateNodeAfterFilterChange].
  unfold _filterNode. cbn [element].
  destruct (filterResult f e pv) as [data v]. cbn [fst snd negb andb].
  destruct (isHidden (Some v)) eqn:Hh; [reflexivity|].
  cbn [negb]. rewrite orb_true_r.
  cbn [collapsed set_renderNodeCount set_filterData children nid].
  match goal with
  | |- context [fold_left ?g ?l ?i] => destruct (fold_left g l i) as [[[? ?] ?] ?]
  end.
  reflexivity.
Qed.

Lemma refilterRoot_eq f n pv result revealed :
  _updateNodeAfterFilterChange f true n pv result revealed =
  let n2 := set_renderNodeCount n 0 in
  let '(cs, vci, hvd, result2) :=
    refilterChildren f None (revealed && negb (collapsed n)) (children n)
      ([], 0, false, result) in
  finishRefiltered true None revealed (length result)
    (set_visibleChildrenCount (set_children n2 cs) vci) hvd result2.
Proof.
  destruct n as [i p e cs d vcc vci cl co rnc vis fd].
  unfold refilterChildren. cbn [_updateNodeAfterFilterChange negb andb isHidden].
  rewrite orb_true_r.
  cbn [collapsed set_renderNodeCount set_filterData children nid].
  match goal with
  | |- context [fold_left ?g ?l ?i] => destruct (fold_left g l i) as [[[? ?] ?] ?]
  end.
  reflexivity.
Qed.

Lemma refilterChildren_cons f v cr c cs init :
  refilterChildren f v cr (c :: cs) init =
  refilterChildren f v cr cs
    (pushRefiltered init (_updateNodeAfterFilterChange f false c v (snd init) cr)).
Proof. reflexivity. Qed.


Lemma countVisible_pos (cs : list (node T TFilterData)) :
  (countVisible cs >? 0) = existsb (@visible _ _) cs.
Proof.
  induction cs as [|c cs IH]; [reflexivity|].
  change (c :: cs) with ([c] ++ cs).
  rewrite (countVisible_app [c] cs), countVisible_one.
  pose proof (countVisible_nonneg cs).
  cbn [app existsb]. destruct (visible c); cbn [orb].
  - apply Z.gtb_lt. lia.
  - exact IH.
Qed.

Lemma refiltered_eq f pv n :
  refiltered f pv n =
  let v := snd (filterResult f (element n) pv) in
  match v with
  | Hidden => negb (visible n)
  | _ =>
      (visibleChildrenCount n =? countVisible (children n))
      && Bool.eqb (visible n)
           (match v with
            | Recurse => visibleChildrenCount n >? 0
            | _ => true
            end)
      && forallb (refiltered f (Some v)) (children n)
  end.
Proof. destruct n; reflexivity. Qed.

Lemma refiltered_set_visibleChildIndex f pv n i :
  refiltered f pv (set_visibleChildIndex n i) = refiltered f pv n.
Proof. now rewrite !refiltered_eq. Qed.

Lemma refilterChildren_resolves f v cr cs :
  Forall (refilterResolves f) cs ->
  forall cs0 vci0 hvd0 res0 cs' vci hvd res,
    forallb (refiltered f v) cs0 = true ->
    vci0 = countVisible cs0 ->
    hvd0 = existsb (@visible _ _) cs0 ->
    refilterChildren f v cr cs (cs0, vci0, hvd0, res0) = (cs', vci, hvd, res) ->
    forallb (refiltered f v) cs' = true /\ vci = countVisible cs' /\
    hvd = existsb (@visible _ _) cs'.
Proof.
  induction 1 as [|c cs Hc _ IH]; intros cs0 vci0 hvd0 res0 cs' vci hvd res H1 H2 H3 Hrun.
  - cbn in Hrun. injection Hrun as <- <- <- <-. auto.
  - rewrite refilterChildren_cons in Hrun. cbn [snd] in Hrun.
    specialize (Hc v res0 cr). cbv zeta in Hc.
    destruct (_updateNodeAfterFilterChange f false c v res0 cr) as [[c' b] res1].
    cbn [fst snd] in Hc. destruct Hc as (Hr & Hb & _).
    cbn [pushRefiltered] in Hrun.
    eapply IH; [| | |exact Hrun].
    + rewrite forallb_app, H1. simpl. rewrite andb_true_r.
      destruct (visible c'); [now rewrite refiltered_set_visibleChildIndex|assumption].
    + rewrite countVisible_app, countVisible_one, H2.
      destruct (visible c') eqn:Hv; simpl; rewrite ?Hv; lia.
    + rewrite existsb_app, H3, Hb. simpl. rewrite orb_false_r.
      destruct (visible c') eqn:Hv; simpl; rewrite ?Hv; [now rewrite orb_true_r|].
      now rewrite orb_false_r.
Qed.

Lemma refilterNode_resolves f n : refilterResolves f n.
Proof.
  induction n as [n IH] using node_ind.
  intros pv result revealed. rewrite refilterNode_eq. cbv zeta.
  rewrite filterNode_fst.
  destruct (snd (filterResult f (element n) pv)) eqn:Ev; cbn [isHidden].
  - cbn [fst snd]. rewrite refiltered_eq. cbn. rewrite Ev. auto.
  - destruct (refilterChildren _ _ _ _ _) as [[[cs vci] hvd] res] eqn:Hrun.
    apply refilterChildren_resolves in Hrun; [|assumption|reflexivity..].
    destruct Hrun as (Hcs & -> & ->).
    unfold finishRefiltered. cbn [negb visible set_visible].
    destruct (collapsed _); cbn [negb fst snd]; rewrite refiltered_eq; cbn;
      rewrite Ev, Z.eqb_refl, Hcs; auto.
  - destruct (refilterChildren _ _ _ _ _) as [[[cs vci] hvd] res] eqn:Hrun.
    apply refilterChildren_resolves in Hrun; [|assumption|reflexivity..].
    destruct Hrun as (Hcs & -> & ->).
    unfold finishRefiltered. cbn [negb visible set_visible].
    assert (Hpos := countVisible_pos cs).
    destruct (existsb (@visible _ _) cs) eqn:Hex; cbn [negb].
    + destruct (collapsed _); cbn [negb fst snd]; rewrite refiltered_eq; cbn;
        rewrite Ev, Z.eqb_refl, Hcs, Hpos; auto.
    + cbn [negb fst snd]; rewrite refiltered_eq; cbn;
        rewrite Ev, Z.eqb_refl, Hcs, Hpos; auto.
Qed.

(** What [resolved] says of a node. *)
Lemma recurse_visible_iff n :
  visibleChildrenCount n = countVisible (children n) ->
  visible n = (visibleChildrenCount n >? 0) ->
  (visible n = true <-> visibleChildrenCount n > 0) /\
  (visible n = true <-> exists c, In c (children n) /\ visible c = true).
Proof.
  intros Hvcc Hvis. split.
  - rewrite Hvis, Z.gtb_lt. lia.
  - now rewrite Hvis, Hvcc, countVisible_pos, existsb_exists.
Qed.

Lemma resolved_reading f pv n :
  resolved f pv n = true ->
  let v := snd (filterResult f (element n) pv) in
  visibleChildrenCount n = countVisible (children n) /\
  (v = Recurse ->
   (visible n = true <-> visibleChildrenCount n > 0) /\
   (visible n = true <-> exists c, In c (children n) /\ visible c = true)) /\
  (v = Visible -> visible n = true) /\
  (v = Hidden -> visible n = false) /\
  Forall (fun c => resolved f (Some v) c = true) (children n).
Proof.
  rewrite resolved_eq. cbv zeta. intros H.
  apply andb_prop in H. destruct H as [H Hcs].
  apply andb_prop in H. destruct H as [Hvcc Hvis].
  apply Z.eqb_eq in Hvcc. apply eqb_prop in Hvis.
  split; [assumption|]. split; [|split; [|split]].
  - intros E. rewrite E in Hvis. now apply recurse_visible_iff.
  - intros E. now rewrite E in Hvis.
  - intros E. now rewrite E in Hvis.
  - apply Forall_forall. intros c Hc. eapply forallb_forall in Hcs; eauto.
Qed.

(** What [refiltered] says of a node that the filter does not answer
    [Hidden] for, and of one it does. *)
Lemma refiltered_reading f pv n :
  refiltered f pv n = true ->
  let v := snd (filterResult f (element n) pv) in
  (v = Recurse ->
   (visible n = true <-> visibleChildrenCount n > 0) /\
   (visible n = true <-> exists c, In c (children n) /\ visible c = true)) /\
  (v = Visible -> visible n = true) /\
  (v = Hidden -> visible n = false) /\
  (v <> Hidden ->
   visibleChildrenCount n = countVisible (children n) /\
   Forall (fun c => refiltered f (Some v) c = true) (children n)).
Proof.
  rewrite refiltered_eq. cbv zeta.
  destruct (snd (filterResult f (element n) pv)) eqn:Ev; intros H.
  - repeat split; try discriminate; try congruence.
    intros _. now apply negb_true_iff.
  - apply andb_prop in H. destruct H as [H Hcs].
    apply andb_prop in H. destruct H as [Hvcc Hvis].
    apply Z.eqb_eq in Hvcc. apply eqb_prop in Hvis.
    assert (Forall (fun c => refiltered f (Some Visible) c = true) (children n))
      by (apply Forall_forall; intros c Hc; eapply forallb_forall in Hcs; eauto).
    intuition (discriminate || congruence).
  - apply andb_prop in H. destruct H as [H Hcs].
    apply andb_prop in H. destruct H as [Hvcc Hvis].
    apply Z.eqb_eq in Hvcc. apply eqb_prop in Hvis.
    assert (Forall (fun c => refiltered f (Some Recurse) c = true) (children n))
      by (apply Forall_forall; intros c Hc; eapply forallb_forall in Hcs; eauto).
    pose proof (recurse_visible_iff n Hvcc Hvis).
    intuition (discriminate || congruence).
Qed.

(** C8: a node is visible as the filter's answer for it says, when it is
    created and when [refilter] evaluates it again: with [Recurse], exactly
    when one of its children is visible ([visibleChildrenCount > 0], the
    children evaluated first); with [Visible], always; with [Hidden],
    never.  [resolved_reading] and [refiltered_reading] spell the two
    predicates out. *)
Theorem recurse_visibility_resolved :
  (forall cbd f el parentId parentDepth parentVisibility revealed st,
     resolved f (Some parentVisibility)
       (fst (createTreeNode cbd f el parentId parentDepth parentVisibility revealed st))
     = true) /\
  (forall m : model T TFilterData,
     forallb (refiltered (filter m) None) (children (root (refilter m))) = true).
Proof.
  split.
  - intros. apply createTreeNode_resolved.
  - intros m. unfold refilter, updateNodeAfterFilterChange.
    rewrite refilterRoot_eq. cbv zeta.
    destruct (refilterChildren _ _ _ _ _) as [[[cs vci] hvd] res] eqn:Hrun.
    apply refilterChildren_resolves in Hrun; try reflexivity.
    + destruct Hrun as (Hcs & _).
      unfold finishRefiltered, _updateAncestorsRenderNodeCount.
      repeat match goal with
             | |- context [if ?b then _ else _] => destruct b
             end; exact Hcs.
    + apply Forall_forall. intros c _. apply refilterNode_resolves.
Qed.

End Visibility.

(** ** Paths, writes and erasure *)

Section PathFacts.

Variables T TFilterData : Type.
Implicit Types (n c p rt nd : node T TFilterData) (path q : list nat).

Lemma mapNth_length (A : Type) (g : A -> A) i (l : list A) :
  length (mapNth i g l) = length l.
Proof. revert i; induction l; destruct i; simpl; auto. Qed.

Lemma nth_error_mapNth_eq (A : Type) (g : A -> A) i (l : list A) :
  nth_error (mapNth i g l) i = option_map g (nth_error l i).
Proof. revert i; induction l; destruct i; simpl; auto. Qed.

Lemma nth_error_mapNth_neq (A : Type) (g : A -> A) i j (l : list A) :
  i <> j -> nth_error (mapNth i g l) j = nth_error l j.
Proof.
  revert i j; induction l; destruct i, j; simpl; auto; try congruence.
Qed.

Lemma mapNth_same (A : Type) (g : A -> A) i (l : list A) x :
  nth_error l i = Some x -> g x = x -> mapNth i g l = l.
Proof.
  revert i; induction l; destruct i; simpl; intros; try discriminate.
  - congruence.
  - f_equal; eauto.
Qed.

Lemma mapNth_id (A : Type) i (l : list A) : mapNth i (fun x => x) l = l.
Proof. revert i; induction l; destruct i; simpl; auto; now f_equal. Qed.

Lemma mapNth_mapNth (A : Type) (g h : A -> A) i (l : list A) :
  mapNth i g (mapNth i h l) = mapNth i (fun x => g (h x)) l.
Proof. revert i; induction l; destruct i; simpl; auto; now f_equal. Qed.

Lemma mapNth_ext (A : Type) (g h : A -> A) i (l : list A) :
  (forall x, nth_error l i = Some x -> g x = h x) -> mapNth i g l = mapNth i h l.
Proof.
  revert i; induction l; destruct i; simpl; intros; auto; f_equal; auto.
Qed.

Lemma map_mapNth (A B : Type) (g : A -> A) (h : B -> B) (e : A -> B) i (l : list A) :
  (forall x, nth_error l i = Some x -> e (g x) = h (e x)) ->
  map e (mapNth i g l) = mapNth i h (map e l).
Proof.
  revert i; induction l; destruct i; simpl; intros; auto; f_equal; auto.
Qed.

Lemma mapNth_split (A : Type) (g : A -> A) i (l : list A) x :
  nth_error l i = Some x ->
  mapNth i g l = firstn i l ++ g x :: skipn (S i) l.
Proof.
  revert i; induction l; destruct i; simpl; intros; try discriminate.
  - congruence.
  - f_equal; eauto.
Qed.

Lemma nth_error_split_firstn (A : Type) i (l : list A) x :
  nth_error l i = Some x -> l = firstn i l ++ x :: skipn (S i) l.
Proof.
  revert i; induction l; destruct i; simpl; intros; try discriminate.
  - congruence.
  - f_equal; eauto.
Qed.

(** *** [nodeAt] and [updateAt] *)

Lemma nodeAt_app n path q :
  nodeAt n (path ++ q) =
  match nodeAt n path with
  | Some p => nodeAt p q
  | None => None
  end.
Proof.
  revert n; induction path as [|i path IH]; intros n; simpl; [reflexivity|].
  destruct (nth_error (children n) i); auto.
Qed.

Lemma nodeAt_snoc n path i p :
  nodeAt n path = Some p -> nodeAt n (path ++ [i]) = nth_error (children p) i.
Proof.
  intros H. rewrite nodeAt_app, H. simpl. now destruct (nth_error (children p) i).
Qed.

Lemma updateAt_same n path p :
  nodeAt n path = Some p -> updateAt n path (fun _ => p) = n.
Proof.
  revert n; induction path as [|i path IH]; intros n; simpl.
  - congruence.
  - destruct (nth_error (children n) i) as [c|] eqn:Hc; [|discriminate].
    intros H. rewrite (mapNth_same _ _ _ Hc) by auto. now destruct n.
Qed.

Lemma updateAt_updateAt n path g h :
  updateAt (updateAt n path h) path g = updateAt n path (fun x => g (h x)).
Proof.
  revert n; induction path as [|i path IH]; intros n; simpl; [reflexivity|].
  unfold set_children. simpl. rewrite mapNth_mapNth.
  f_equal. apply mapNth_ext. intros; apply IH.
Qed.

Lemma updateAt_ext n path g h p :
  nodeAt n path = Some p -> g p = h p -> updateAt n path g = updateAt n path h.
Proof.
  revert n; induction path as [|i path IH]; intros n; simpl.
  - congruence.
  - destruct (nth_error (children n) i) as [c|] eqn:Hc; [|discriminate].
    intros H E. f_equal. apply mapNth_ext. intros x Hx.
    assert (x = c) by congruence. subst. eauto.
Qed.

Lemma nodeAt_updateAt n path g p :
  nodeAt n path = Some p -> nodeAt (updateAt n path g) path = Some (g p).
Proof.
  revert n; induction path as [|i path IH]; intros n; simpl.
  - congruence.
  - destruct (nth_error (children n) i) as [c|] eqn:Hc; [|discriminate].
    intros H. rewrite nth_error_mapNth_eq, Hc. simpl. auto.
Qed.

(** The fields of a node above the one that is written are as they were,
    its [children] apart. *)
Lemma updateAt_fields n path g :
  path <> [] ->
  let n' := updateAt n path g in
  nid n' = nid n /\ parent n' = parent n /\ element n' = element n /\
  depth n' = depth n /\ visibleChildrenCount n' = visibleChildrenCount n /\
  visibleChildIndex n' = visibleChildIndex n /\ collapsible n' = collapsible n /\
  collapsed n' = collapsed n /\ renderNodeCount n' = renderNodeCount n /\
  visible n' = visible n /\ filterData n' = filterData n /\
  length (children n') = length (children n).
Proof.
  destruct path as [|i path]; [congruence|]. intros _. simpl.
  rewrite mapNth_length. repeat split.
Qed.

(** A path that does not go through [path] meets the node it met, or, on
    the way to [path], a node that differs in its children only. *)
Lemma collapsedAt_updateAt_off n path g q :
  (forall q', q <> path ++ q') ->
  collapsedAt (updateAt n path g) q = collapsedAt n q.
Proof.
  unfold collapsedAt.
  revert n q; induction path as [|i path IH]; intros n q Hoff.
  - now destruct (Hoff q).
  - destruct q as [|j q]; [reflexivity|].
    simpl. destruct (Nat.eq_dec i j) as [->|Hij].
    + rewrite nth_error_mapNth_eq.
      destruct (nth_error (children n) j) as [c|]; [|reflexivity].
      simpl. apply IH. intros q' ->. now apply (Hoff q').
    + now rewrite nth_error_mapNth_neq.
Qed.

Lemma collapsedAt_updateAt_on n path g p q :
  nodeAt n path = Some p ->
  collapsedAt (updateAt n path g) (path ++ q) = collapsedAt (g p) q.
Proof.
  intros H. unfold collapsedAt.
  rewrite nodeAt_app. now rewrite nodeAt_updateAt with (p := p).
Qed.

Lemma collapsedAt_on n path p q :
  nodeAt n path = Some p -> collapsedAt n (path ++ q) = collapsedAt p q.
Proof. intros H. unfold collapsedAt. now rewrite nodeAt_app, H. Qed.

(** *** Erasure *)

Lemma erase_eq w n :
  erase w n =
  mkNode (nid n) (parent n) (element n) (map (erase w) (children n)) (depth n)
    (match w with Filter => 0 | _ => visibleChildrenCount n end)
    (match w with Filter => 0 | _ => visibleChildIndex n end)
    (collapsible n)
    (match w with Collapse => false | _ => collapsed n end)
    0
    (match w with Filter => false | _ => visible n end)
    (match w with Filter => None | _ => filterData n end).
Proof. destruct n; reflexivity. Qed.

Lemma erase_set_renderNodeCount w n k : erase w (set_renderNodeCount n k) = erase w n.
Proof. now rewrite !erase_eq. Qed.

Lemma erase_set_children w n cs cs' :
  map (erase w) cs = map (erase w) cs' ->
  erase w (set_children n cs) = erase w (set_children n cs').
Proof. intros H. rewrite !erase_eq. simpl. now rewrite H. Qed.

Lemma erase_set_children_self w n cs :
  map (erase w) cs = map (erase w) (children n) ->
  erase w (set_children n cs) = erase w n.
Proof. intros H. rewrite !erase_eq. simpl. now rewrite H. Qed.

Lemma erase_set_collapsed n b : erase Collapse (set_collapsed n b) = erase Collapse n.
Proof. now rewrite !erase_eq. Qed.

Lemma nodeAt_erase w n q : nodeAt (erase w n) q = option_map (erase w) (nodeAt n q).
Proof.
  revert n; induction q as [|i q IH]; intros n; [reflexivity|].
  rewrite erase_eq. simpl. rewrite nth_error_map.
  destruct (nth_error (children n) i); simpl; auto.
Qed.

Lemma collapsedAt_erase n q : collapsedAt (erase Counts n) q = collapsedAt n q.
Proof.
  unfold collapsedAt. rewrite nodeAt_erase.
  destruct (nodeAt n q) as [x|]; [|reflexivity]. simpl. now rewrite erase_eq.
Qed.

Lemma erase_updateAt w n path g h :
  (forall p, nodeAt n path = Some p -> erase w (g p) = h (erase w p)) ->
  erase w (updateAt n path g) = updateAt (erase w n) path h.
Proof.
  revert n; induction path as [|i path IH]; intros n Hg; simpl.
  - now apply Hg.
  - rewrite (erase_eq w n) at 2. rewrite erase_eq. unfold set_children. simpl.
    f_equal. apply map_mapNth. intros c Hc. apply IH. intros p Hp. apply Hg.
    simpl. now rewrite Hc.
Qed.

Lemma erase_updateAt_same w n path g :
  (forall p, nodeAt n path = Some p -> erase w (g p) = erase w p) ->
  erase w (updateAt n path g) = erase w n.
Proof.
  revert n; induction path as [|i path IH]; intros n Hg; simpl.
  - now apply Hg.
  - apply erase_set_children_self.
    rewrite map_mapNth with (h := fun x => x).
    + apply mapNth_id.
    + intros c Hc. apply IH. intros p Hp. apply Hg. simpl. now rewrite Hc.
Qed.

Lemma erase_bumpAlong w n path d : erase w (bumpAlong n path d) = erase w n.
Proof.
  revert n; induction path as [|i path IH]; intros n; cbn [bumpAlong].
  - apply erase_set_renderNodeCount.
  - rewrite <- (erase_set_renderNodeCount w n (renderNodeCount n + d)).
    apply erase_set_children.
    rewrite map_mapNth with (h := fun x => x).
    + apply mapNth_id.
    + intros c Hc. apply IH.
Qed.

Lemma erase_updateAncestors w rt (path : option (list nat)) d :
  erase w (_updateAncestorsRenderNodeCount rt path d) = erase w rt.
Proof.
  unfold _updateAncestorsRenderNodeCount.
  destruct (d =? 0); [reflexivity|]. destruct path; [apply erase_bumpAlong|reflexivity].
Qed.

(** *** Resolving locations *)

(** Whatever the location, the walks hand back a path together with the
    node at that path. *)
Lemma getParentNodeWithListIndex_ref rt location :
  forall here nd listIndex revealed vis r,
    nodeAt rt here = Some nd ->
    getParentNodeWithListIndex rt location here nd listIndex revealed vis = Ok r ->
    nodeAt rt (parentPath r) = Some (parentNode r).
Proof.
  induction location as [|index rest IH]; intros here nd listIndex revealed vis r Hn Hr.
  - simpl in Hr. injection Hr as <-. exact Hn.
  - cbn [getParentNodeWithListIndex] in Hr.
    destruct (outOfBounds nd index); [discriminate|].
    destruct rest as [|index' rest].
    + injection Hr as <-. exact Hn.
    + unfold child in Hr.
      destruct (nth_error (children nd) (Z.to_nat index)) as [c|] eqn:Hc.
      * eapply IH; [|exact Hr]. now rewrite nodeAt_snoc with (p := nd).
      * eapply IH; [|exact Hr]. reflexivity.
Qed.

Lemma getTreeNode_ref rt location :
  forall here nd h x,
    nodeAt rt here = Some nd ->
    getTreeNode rt location here nd = Ok (h, x) ->
    nodeAt rt h = Some x.
Proof.
  induction location as [|index rest IH]; intros here nd h x Hn Hr.
  - simpl in Hr. injection Hr as <- <-. exact Hn.
  - cbn [getTreeNode] in Hr.
    destruct (outOfBounds nd index); [discriminate|]. unfold child in Hr.
    destruct (nth_error (children nd) (Z.to_nat index)) as [c|] eqn:Hc.
    + eapply IH; [|exact Hr]. now rewrite nodeAt_snoc with (p := nd).
    + eapply IH; [|exact Hr]. reflexivity.
Qed.

Lemma getTreeNodeWithListIndex_ref rt location r h x :
  getTreeNodeWithListIndex rt location = Ok r ->
  nodeRef r = Some (h, x) ->
  nodeAt rt h = Some x.
Proof.
  unfold getTreeNodeWithListIndex. destruct location as [|i rest].
  - intros H. injection H as <-. simpl. intros H. now injection H as <- <-.
  - destruct (getParentNodeWithListIndex _ _ _ _ _ _ _) as [pr|] eqn:Hpr;
      [|discriminate].
    apply getParentNodeWithListIndex_ref in Hpr; [|reflexivity].
    cbn [bind]. destruct (outOfBounds _ _); [discriminate|]. unfold child.
    destruct (nth_error _ _) as [c|] eqn:Hc.
    + intros H. injection H as <-. simpl. intros H. injection H as <- <-.
      now rewrite nodeAt_snoc with (p := parentNode pr).
    + destruct (p_visible pr); [discriminate|].
      intros H. injection H as <-. discriminate.
Qed.

(** A location that names existing children resolves to the node at the
    path of the same indices. *)
Lemma getTreeNode_valid rt path :
  forall here nd x,
    nodeAt nd path = Some x ->
    getTreeNode rt (map Z.of_nat path) here nd = Ok (here ++ path, x).
Proof.
  induction path as [|i path IH]; intros here nd x Hx.
  - simpl in *. rewrite app_nil_r. congruence.
  - simpl in Hx. destruct (nth_error (children nd) i) as [c|] eqn:Hc; [|discriminate].
    cbn [map getTreeNode]. rewrite (inBounds_of_nat _ _ Hc), child_of_nat, Hc, Nat2Z.id.
    rewrite IH with (x := x) by assumption. now rewrite <- app_assoc.
Qed.

Lemma outOfBounds_le nd (k : nat) :
  (k <= length (children nd))%nat -> outOfBounds nd (Z.of_nat k) = false.
Proof.
  intros H. apply not_true_is_false. rewrite outOfBounds_spec. lia.
Qed.

Lemma getParentNodeWithListIndex_valid rt path :
  forall here nd listIndex revealed vis p k,
    nodeAt nd path = Some p ->
    (k <= length (children p))%nat ->
    getParentNodeWithListIndex rt (map Z.of_nat path ++ [Z.of_nat k]) here nd
      listIndex revealed vis =
    Ok (mkParentWithListIndex (here ++ path) p (listIndex + listOffset nd path k)
          (revealed && expandedAlong nd path) (vis && visibleAlong nd path)).
Proof.
  induction path as [|i path IH]; intros here nd listIndex revealed vis p k Hp Hk.
  - simpl in Hp. injection Hp as <-.
    cbn [map app getParentNodeWithListIndex listOffset expandedAlong visibleAlong].
    rewrite outOfBounds_le by assumption. rewrite Nat2Z.id, app_nil_r, !andb_true_r. reflexivity.
  - simpl in Hp. destruct (nth_error (children nd) i) as [c|] eqn:Hc; [|discriminate].
    cbn [map app getParentNodeWithListIndex listOffset expandedAlong visibleAlong].
    rewrite (inBounds_of_nat _ _ Hc), child_of_nat, Hc, Nat2Z.id.
    destruct (map Z.of_nat path ++ [Z.of_nat k]) eqn:Hrest.
    + destruct path; discriminate.
    + rewrite <- Hrest. rewrite IH with (p := p) by assumption.
      rewrite <- app_assoc, !andb_assoc.
      do 2 f_equal. lia.
Qed.

Lemma removelast_snoc (A : Type) (l : list A) x : removelast (l ++ [x]) = l.
Proof. apply removelast_last. Qed.

Lemma visibleAlong_snoc n path i x :
  nodeAt n (path ++ [i]) = Some x ->
  visibleAlong n (path ++ [i]) = visibleAlong n path && visible x.
Proof.
  revert n; induction path as [|j path IH]; intros n; simpl.
  - destruct (nth_error (children n) i) as [c|]; [|discriminate].
    intros H. injection H as <-. simpl. now rewrite !andb_true_r.
  - destruct (nth_error (children n) j) as [c|]; [|discriminate].
    intros H. rewrite IH by assumption. now rewrite andb_assoc.
Qed.

Lemma getTreeNodeWithListIndex_valid rt path i x :
  nodeAt rt (path ++ [i]) = Some x ->
  getTreeNodeWithListIndex rt (map Z.of_nat (path ++ [i])) =
  Ok (mkNodeWithListIndex (Some (path ++ [i], x)) (listOffset rt path i)
        (expandedAlong rt path) (visibleAlong rt (path ++ [i]))).
Proof.
  intros Hx. rewrite visibleAlong_snoc with (x := x) by assumption.
  rewrite nodeAt_app in Hx. destruct (nodeAt rt path) as [p|] eqn:Hp; [|discriminate].
  simpl in Hx. destruct (nth_error (children p) i) as [c|] eqn:Hc; [|discriminate].
  injection Hx as <-.
  assert (Hi : (i <= length (children p))%nat).
  { apply Nat.lt_le_incl, nth_error_Some. congruence. }
  unfold getTreeNodeWithListIndex. rewrite map_app. cbn [map].
  destruct (map Z.of_nat path ++ [Z.of_nat i]) eqn:Hloc.
  - destruct path; discriminate.
  - rewrite <- Hloc.
    rewrite getParentNodeWithListIndex_valid with (p := p) by assumption.
    cbn [bind parentNode parentPath p_listIndex p_revealed p_visible app].
    rewrite last_last, (inBounds_of_nat _ _ Hc), child_of_nat, Hc, Nat2Z.id.
    reflexivity.
Qed.

End PathFacts.

(** ** Collapsing *)

Section CollapseFacts.

Variables T TFilterData : Type.
Implicit Types (n c p rt nd : node T TFilterData) (path q : list nat).
Implicit Types (m : model T TFilterData).

Lemma setNodeCollapsed_eq n collapsed_ recursive :
  _setNodeCollapsed n collapsed_ recursive =
  let result := collapsible n && negb (Bool.eqb (collapsed n) collapsed_) in
  let n1 := if collapsible n then set_collapsed n collapsed_ else n in
  if recursive then
    let out := setChildrenCollapsed collapsed_ (children n) ([], result) in
    (set_children n1 (fst out), snd out)
  else (n1, result).
Proof.
  destruct n as [i p e cs d vcc vci cl co rnc vis fd].
  unfold setChildrenCollapsed. cbn [_setNodeCollapsed].
  destruct recursive; [|reflexivity].
  cbn [children collapsible collapsed].
  match goal with
  | |- context [fold_left ?g ?l ?i] => destruct (fold_left g l i)
  end.
  reflexivity.
Qed.

(** The loop over the children, in closed form. *)
Lemma setChildrenCollapsed_eq collapsed_ (cs : list (node T TFilterData)) init :
  setChildrenCollapsed collapsed_ cs init =
  (fst init ++ map (fun c => fst (_setNodeCollapsed c collapsed_ true)) cs,
   existsb (fun c => snd (_setNodeCollapsed c collapsed_ true)) cs || snd init).
Proof.
  unfold setChildrenCollapsed. revert init.
  induction cs as [|c cs IH]; intros [acc res]; cbn [fold_left map existsb fst snd].
  - now rewrite app_nil_r.
  - rewrite IH. destruct (_setNodeCollapsed c collapsed_ true) as [c' r].
    cbn [fst snd]. rewrite <- app_assoc. cbn [app]. f_equal.
    destruct r, (existsb _ cs), res; reflexivity.
Qed.

Lemma set_collapsed_same n : set_collapsed n (collapsed n) = n.
Proof. now destruct n. Qed.

Lemma set_children_same n : set_children n (children n) = n.
Proof. now destruct n. Qed.

(** A call that reports no change has changed nothing. *)
Lemma setNodeCollapsed_false n collapsed_ recursive :
  snd (_setNodeCollapsed n collapsed_ recursive) = false ->
  fst (_setNodeCollapsed n collapsed_ recursive) = n.
Proof.
  revert recursive. induction n as [n IH] using node_ind. intros recursive.
  rewrite setNodeCollapsed_eq. cbv zeta.
  assert (Hn1 : collapsible n && negb (Bool.eqb (collapsed n) collapsed_) = false ->
                (if collapsible n then set_collapsed n collapsed_ else n) = n).
  { destruct (collapsible n); [|reflexivity]. cbn [andb].
    intros H. apply negb_false_iff, eqb_prop in H. rewrite <- H.
    apply set_collapsed_same. }
  destruct recursive; cbn [fst snd]; [|exact Hn1].
  rewrite setChildrenCollapsed_eq. cbn [fst snd app].
  intros H. apply orb_false_iff in H. destruct H as [Hex Hres].
  rewrite (Hn1 Hres).
  replace (map _ (children n)) with (children n); [apply set_children_same|].
  clear Hn1 Hres. induction IH as [|c cs Hc _ IHcs]; [reflexivity|].
  cbn [existsb map] in *. apply orb_false_iff in Hex. destruct Hex as [H1 H2].
  now rewrite (Hc true H1), <- (IHcs H2).
Qed.

(** A call that reports a change has changed the collapse state somewhere
    at or below the node. *)
Lemma setNodeCollapsed_true n collapsed_ recursive :
  snd (_setNodeCollapsed n collapsed_ recursive) = true ->
  exists q, collapsedAt n q <> collapsedAt (fst (_setNodeCollapsed n collapsed_ recursive)) q.
Proof.
  revert recursive. induction n as [n IH] using node_ind. intros recursive.
  rewrite setNodeCollapsed_eq. cbv zeta.
  destruct (collapsible n && negb (Bool.eqb (collapsed n) collapsed_)) eqn:Hres.
  - (* the node itself *)
    intros _. exists []. apply andb_prop in Hres. destruct Hres as [Hc Hne].
    rewrite Hc. unfold collapsedAt.
    destruct recursive; cbn; destruct (collapsed n), collapsed_; try discriminate;
      congruence.
  - destruct recursive; cbn [fst snd]; [|discriminate].
    rewrite setChildrenCollapsed_eq. cbn [fst snd app]. rewrite orb_false_r.
    intros Hex. apply existsb_exists in Hex. destruct Hex as (c & Hin & Hc).
    apply In_nth_error in Hin. destruct Hin as [i Hi].
    rewrite Forall_forall in IH.
    destruct (IH c (nth_error_In _ _ Hi) true Hc) as [q Hq].
    exists (i :: q). unfold collapsedAt in *. cbn [nodeAt].
    rewrite Hi.
    assert (children (if collapsible n then set_collapsed n collapsed_ else n) = children n)
      by (destruct (collapsible n); reflexivity).
    cbn [children set_children]. rewrite nth_error_map, Hi. exact Hq.
Qed.

Lemma map_ext_Forall (A B : Type) (g h : A -> B) (l : list A) :
  Forall (fun x => g x = h x) l -> map g l = map h l.
Proof. induction 1; simpl; congruence. Qed.

(** Collapsing writes [collapsed] only. *)
Lemma erase_setNodeCollapsed n collapsed_ recursive :
  erase Collapse (fst (_setNodeCollapsed n collapsed_ recursive)) = erase Collapse n.
Proof.
  revert recursive. induction n as [n IH] using node_ind. intros recursive.
  rewrite setNodeCollapsed_eq. cbv zeta.
  assert (Hn1 : forall cs,
             erase Collapse
               (set_children (if collapsible n then set_collapsed n collapsed_ else n) cs)
             = erase Collapse (set_children n cs)).
  { intros cs. destruct (collapsible n); [|reflexivity]. now rewrite !erase_eq. }
  destruct recursive; cbn [fst snd].
  - rewrite setChildrenCollapsed_eq. cbn [fst snd app]. rewrite Hn1.
    apply erase_set_children_self. rewrite map_map.
    apply map_ext_Forall. eapply Forall_impl; [|exact IH]. intros c Hc. apply Hc.
  - rewrite <- (set_children_same (if collapsible n then _ else _)).
    replace (children (if collapsible n then set_collapsed n collapsed_ else n))
      with (children n) by (destruct (collapsible n); reflexivity).
    rewrite Hn1. now rewrite set_children_same.
Qed.

Lemma collapsed_setNodeCollapsed n collapsed_ recursive :
  collapsed (fst (_setNodeCollapsed n collapsed_ recursive)) =
  if collapsible n then collapsed_ else collapsed n.
Proof.
  rewrite setNodeCollapsed_eq. cbv zeta.
  destruct recursive, (collapsible n); reflexivity.
Qed.

(** *** Recounting after a collapse change *)

Lemma updateNodeAfterCollapseChange_eq n result :
  _updateNodeAfterCollapseChange n result =
  if negb (visible n) then (n, 0, result)
  else if negb (collapsed n) then
    let out := updateChildrenAfterCollapseChange (children n) ([], 1, result ++ [nid n]) in
    (set_renderNodeCount (set_children n (fst (fst out))) (snd (fst out)),
     snd (fst out), snd out)
  else (set_renderNodeCount n 1, 1, result ++ [nid n]).
Proof.
  destruct n as [i p e cs d vcc vci cl co rnc vis fd].
  unfold updateChildrenAfterCollapseChange. cbn [_updateNodeAfterCollapseChange].
  cbn [visible collapsed children nid].
  destruct vis; [|reflexivity]. destruct co; [reflexivity|]. cbn [negb].
  match goal with
  | |- context [fold_left ?g ?l ?i] => destruct (fold_left g l i) as [[? ?] ?]
  end.
  reflexivity.
Qed.

Lemma revealedNodes_eq n :
  revealedNodes n =
  if visible n then
    nid n :: (if collapsed n then [] else flat_map (@revealedNodes _ _) (children n))
  else [].
Proof. now destruct n. Qed.

Lemma recount_eq n :
  recount n =
  if visible n then
    set_renderNodeCount
      (if collapsed n then n else set_children n (map (@recount _ _) (children n)))
      (Z.of_nat (length (revealedNodes n)))
  else n.
Proof. now destruct n. Qed.

Lemma updateChildrenAfterCollapseChange_eq (cs : list (node T TFilterData)) :
  Forall recounts cs ->
  forall acc k result,
    updateChildrenAfterCollapseChange cs (acc, k, result) =
    (acc ++ map (@recount _ _) cs,
     k + Z.of_nat (length (flat_map (@revealedNodes _ _) cs)),
     result ++ flat_map (@revealedNodes _ _) cs).
Proof.
  unfold updateChildrenAfterCollapseChange.
  induction 1 as [|c cs Hc _ IH]; intros acc k result; cbn [fold_left map flat_map].
  - now rewrite !app_nil_r, Z.add_0_r.
  - rewrite Hc, IH, <- !app_assoc, length_app. cbn [app]. do 2 f_equal. lia.
Qed.

Lemma updateNodeAfterCollapseChange_recount n : recounts n.
Proof.
  induction n as [n IH] using node_ind. intros result.
  rewrite updateNodeAfterCollapseChange_eq, recount_eq, revealedNodes_eq.
  destruct (visible n); cbn [negb]; [|now rewrite app_nil_r].
  destruct (collapsed n); cbn [negb]; [reflexivity|].
  rewrite updateChildrenAfterCollapseChange_eq by assumption.
  cbn [fst snd app length]. rewrite <- app_assoc. cbn [app].
  do 2 f_equal; [f_equal|]; lia.
Qed.

Lemma erase_recount w n : erase w (recount n) = erase w n.
Proof.
  induction n as [n IH] using node_ind. rewrite recount_eq.
  destruct (visible n); [|reflexivity]. rewrite erase_set_renderNodeCount.
  destruct (collapsed n); [reflexivity|].
  apply erase_set_children_self. rewrite map_map.
  apply map_ext_Forall. exact IH.
Qed.

Lemma visible_setNodeCollapsed n collapsed_ recursive :
  visible (fst (_setNodeCollapsed n collapsed_ recursive)) = visible n.
Proof.
  pose proof (erase_setNodeCollapsed n collapsed_ recursive) as H.
  rewrite !erase_eq in H. now injection H.
Qed.

(** *** [_setListNodeCollapsed] *)

Lemma setListNodeCollapsed_eq m path n listIndex revealed collapsed_ recursive :
  _setListNodeCollapsed m (Some (path, n)) listIndex revealed collapsed_ recursive =
  let n1 := fst (_setNodeCollapsed n collapsed_ recursive) in
  let result := snd (_setNodeCollapsed n collapsed_ recursive) in
  if negb revealed || negb (visible n) then
    (Ok result, set_root m (updateAt (root m) path (fun _ => n1)))
  else
    (Ok result,
     set_renderList
       (set_root m
          (_updateAncestorsRenderNodeCount
             (updateAt (root m) path (fun _ => recount n1)) (parentOf path)
             (Z.of_nat (length (revealedNodes n1)) - renderNodeCount n1)))
       (listSplice (renderList m) (listIndex + 1)
          (renderNodeCount n1 - (if listIndex =? -1 then 0 else 1))
          (tl (revealedNodes n1)))).
Proof.
  unfold _setListNodeCollapsed. cbv zeta.
  rewrite <- (visible_setNodeCollapsed n collapsed_ recursive).
  destruct (_setNodeCollapsed n collapsed_ recursive) as [n1 result]. cbn [fst snd].
  destruct (negb revealed || negb (visible n1)); [reflexivity|].
  unfold updateNodeAfterCollapseChange.
  rewrite updateNodeAfterCollapseChange_recount. cbn [app root set_root renderList].
  now rewrite updateAt_updateAt.
Qed.

(** Whatever the call does next, the tree differs from the one with the
    collapse flags written in render counts only; the options stay. *)
Lemma setListNodeCollapsed_erase m path n listIndex revealed collapsed_ recursive :
  let out := _setListNodeCollapsed m (Some (path, n)) listIndex revealed
               collapsed_ recursive in
  fst out = Ok (snd (_setNodeCollapsed n collapsed_ recursive)) /\
  erase Counts (root (snd out)) =
    erase Counts
      (updateAt (root m) path (fun _ => fst (_setNodeCollapsed n collapsed_ recursive))) /\
  autoExpandSingleChildren (snd out) = autoExpandSingleChildren m /\
  filter (snd out) = filter m /\
  collapseByDefault (snd out) = collapseByDefault m /\
  nextId (snd out) = nextId m.
Proof.
  rewrite setListNodeCollapsed_eq. cbv zeta.
  destruct (negb revealed || negb (visible n)); cbn [fst snd]; repeat split.
  cbn [root set_root set_renderList]. rewrite erase_updateAncestors.
  rewrite !erase_updateAt with (h := fun _ => erase Counts (fst (_setNodeCollapsed n collapsed_ recursive))); auto.
  intros. apply erase_recount.
Qed.

(** *** [_setCollapsed] at an existing node *)

Lemma getTreeNodeWithListIndex_exists rt path x :
  nodeAt rt path = Some x ->
  exists listIndex revealed vis,
    getTreeNodeWithListIndex rt (map Z.of_nat path) =
    Ok (mkNodeWithListIndex (Some (path, x)) listIndex revealed vis).
Proof.
  intros Hx. destruct path as [|i pp _] using rev_ind.
  - simpl in *. injection Hx as <-. eauto.
  - rewrite getTreeNodeWithListIndex_valid with (x := x) by assumption. eauto.
Qed.

Lemma height_eq n :
  height n = S (fold_right (fun c h => Nat.max (height c) h) O (children n)).
Proof. now destruct n. Qed.

Lemma height_pos n : (1 <= height n)%nat.
Proof. rewrite height_eq. lia. Qed.

Lemma height_child n i c :
  nth_error (children n) i = Some c -> (height c < height n)%nat.
Proof.
  rewrite (height_eq n). generalize (children n). intros cs. revert i.
  induction cs as [|x cs IH]; intros [|i] H; simpl in *; try discriminate.
  - injection H as <-. lia.
  - specialize (IH _ H). lia.
Qed.

Lemma height_erase w n : height (erase w n) = height n.
Proof.
  induction n as [n IH] using node_ind. rewrite erase_eq, (height_eq n), height_eq.
  cbn [children]. f_equal. induction IH as [|c cs Hc _ IHcs]; simpl; congruence.
Qed.

Lemma erase_erase w n : erase w (erase Counts n) = erase w n.
Proof.
  induction n as [n IH] using node_ind. rewrite (erase_eq Counts n), !erase_eq.
  cbn. f_equal. rewrite map_map. now apply map_ext_Forall.
Qed.

Lemma erase_of_Counts w n n' :
  erase Counts n = erase Counts n' -> erase w n = erase w n'.
Proof. intros H. now rewrite <- (erase_erase w n), H, erase_erase. Qed.

Lemma nodeAt_of_erase w rt rt' q x :
  erase w rt' = erase w rt ->
  nodeAt rt q = Some x ->
  exists x', nodeAt rt' q = Some x' /\ erase w x' = erase w x.
Proof.
  intros He Hx. pose proof (nodeAt_erase w rt' q) as H.
  rewrite He, nodeAt_erase, Hx in H. simpl in H.
  destruct (nodeAt rt' q) as [x'|]; [|discriminate]. simpl in H.
  exists x'. split; [reflexivity|congruence].
Qed.

Lemma collapsedAt_of_erase rt rt' q :
  erase Counts rt' = erase Counts rt -> collapsedAt rt' q = collapsedAt rt q.
Proof. intros H. now rewrite <- (collapsedAt_erase rt'), H, collapsedAt_erase. Qed.

Lemma onlyVisibleChildFrom_bounds (cs : list (node T TFilterData)) :
  forall i only,
    let r := onlyVisibleChildFrom cs i only in
    r = only \/ r = -1 \/ i <= r < i + Z.of_nat (length cs).
Proof.
  induction cs as [|c cs IH]; intros i only; cbn [onlyVisibleChildFrom length].
  - now left.
  - destruct (visible c).
    + destruct (only >? -1); [now right; left|].
      specialize (IH (i + 1) i). cbv zeta in IH. right. lia.
    + specialize (IH (i + 1) only). cbv zeta in IH. lia.
Qed.

Lemma onlyVisibleChild_valid n :
  (onlyVisibleChildFrom (children n) 0 (-1) >? -1) = true ->
  exists c, nth_error (children n) (Z.to_nat (onlyVisibleChildFrom (children n) 0 (-1)))
            = Some c.
Proof.
  intros H. apply Z.gtb_lt in H.
  pose proof (onlyVisibleChildFrom_bounds (children n) 0 (-1)) as B. cbv zeta in B.
  destruct (nth_error (children n) _) as [c|] eqn:Hc; [eauto|].
  apply nth_error_None in Hc. lia.
Qed.

(** A call on an existing node whose subtree is no higher than the fuel
    returns; it leaves the collapse state as it is everywhere but at the
    node and below it. *)
Lemma setCollapsed_at_node fuel :
  forall m path n collapsed_ recursive,
    nodeAt (root m) path = Some n ->
    (height n <= fuel)%nat ->
    exists m',
      _setCollapsed fuel m (map Z.of_nat path) collapsed_ recursive =
        Some (Ok (snd (_setNodeCollapsed n collapsed_ recursive)), m') /\
      erase Collapse (root m') = erase Collapse (root m) /\
      autoExpandSingleChildren m' = autoExpandSingleChildren m /\
      (forall q, (forall q', q <> path ++ q') ->
                 collapsedAt (root m') q = collapsedAt (root m) q) /\
      collapsedAt (root m') path = Some (if collapsible n then collapsed_ else collapsed n) /\
      (autoExpandSingleChildren m && negb collapsed_ && negb recursive = false ->
       erase Counts (root m') =
       erase Counts
         (updateAt (root m) path (fun _ => fst (_setNodeCollapsed n collapsed_ recursive)))).
Proof.
  induction fuel as [|fuel IH]; intros m path n collapsed_ recursive Hn Hfuel.
  - pose proof (height_pos n). lia.
  - cbn [_setCollapsed].
    destruct (getTreeNodeWithListIndex_exists _ _ Hn) as (li & rev & vis & ->).
    cbn [nodeRef n_listIndex n_revealed].
    pose proof (setListNodeCollapsed_erase m path n li rev collapsed_ recursive) as H1.
    cbv zeta in H1.
    destruct (_setListNodeCollapsed m (Some (path, n)) li rev collapsed_ recursive)
      as [out m1].
    cbn [fst snd] in H1. destruct H1 as (-> & Hcounts & Hauto & _).
    set (n1 := fst (_setNodeCollapsed n collapsed_ recursive)) in *.
    assert (Hcollapse : erase Collapse (root m1) = erase Collapse (root m)).
    { rewrite (erase_of_Counts Collapse _ _ Hcounts).
      apply erase_updateAt_same. intros p Hp.
      assert (p = n) by congruence. subst p. apply erase_setNodeCollapsed. }
    assert (Hoff : forall q, (forall q', q <> path ++ q') ->
                             collapsedAt (root m1) q = collapsedAt (root m) q).
    { intros q Hq. rewrite (collapsedAt_of_erase _ _ q Hcounts).
      now apply collapsedAt_updateAt_off. }
    assert (Hat : collapsedAt (root m1) path
                  = Some (if collapsible n then collapsed_ else collapsed n)).
    { rewrite (collapsedAt_of_erase _ _ path Hcounts).
      rewrite <- (app_nil_r path) at 2.
      rewrite collapsedAt_updateAt_on with (p := n) by assumption.
      unfold collapsedAt. cbn. f_equal. apply collapsed_setNodeCollapsed. }
    rewrite Hauto.
    destruct (autoExpandSingleChildren m && negb collapsed_ && negb recursive) eqn:Htrig.
    + destruct (nodeAt_of_erase Collapse _ _ _ Hcollapse Hn) as (n1' & Hn1' & En1').
      rewrite Hn1'.
      destruct (onlyVisibleChildFrom (children n1') 0 (-1) >? -1) eqn:Honly.
      * destruct (onlyVisibleChild_valid _ Honly) as [c Hc].
        set (i := onlyVisibleChildFrom (children n1') 0 (-1)) in *.
        apply Z.gtb_lt in Honly.
        assert (Hloc : map Z.of_nat path ++ [i] = map Z.of_nat (path ++ [Z.to_nat i])).
        { rewrite map_app. cbn [map]. now rewrite Z2Nat.id by lia. }
        rewrite Hloc.
        assert (Hc' : nodeAt (root m1) (path ++ [Z.to_nat i]) = Some c).
        { now rewrite nodeAt_snoc with (p := n1'). }
        assert (Hh : (height c <= fuel)%nat).
        { pose proof (height_child _ _ Hc) as Hlt.
          rewrite <- (height_erase Collapse n1'), En1', height_erase in Hlt. lia. }
        destruct (IH m1 _ c false false Hc' Hh) as (m2 & -> & E2 & A2 & Off2 & _).
        exists m2. repeat split.
        -- congruence.
        -- congruence.
        -- intros q Hq. rewrite Off2, Hoff; auto.
           intros q' ->. apply (Hq ([Z.to_nat i] ++ q')). now rewrite app_assoc.
        -- rewrite Off2; [exact Hat|].
           intros q' E. apply (f_equal (@length nat)) in E.
           rewrite !length_app in E. simpl in E. lia.
        -- discriminate.
      * exists m1. repeat split; auto; discriminate.
    + exists m1. repeat split; auto.
Qed.

Lemma height_nodeAt rt path n :
  nodeAt rt path = Some n -> (height n <= height rt)%nat.
Proof.
  revert rt; induction path as [|i path IH]; intros rt; simpl.
  - intros H. injection H as <-. lia.
  - destruct (nth_error (children rt) i) as [c|] eqn:Hc; [|discriminate].
    intros H. specialize (IH _ H). pose proof (height_child _ _ Hc). lia.
Qed.

Lemma collapsible_setNodeCollapsed n collapsed_ recursive :
  collapsible (fst (_setNodeCollapsed n collapsed_ recursive)) = collapsible n.
Proof.
  pose proof (erase_setNodeCollapsed n collapsed_ recursive) as H.
  rewrite !erase_eq in H. now injection H.
Qed.

Lemma children_setNodeCollapsed n collapsed_ recursive :
  children (fst (_setNodeCollapsed n collapsed_ recursive)) =
  if recursive then map (fun c => fst (_setNodeCollapsed c collapsed_ true)) (children n)
  else children n.
Proof.
  rewrite setNodeCollapsed_eq. cbv zeta.
  destruct recursive; cbn [fst]; [|now destruct (collapsible n)].
  now rewrite setChildrenCollapsed_eq.
Qed.

Lemma setNodeCollapsed_snd n collapsed_ recursive :
  snd (_setNodeCollapsed n collapsed_ recursive) =
  (if recursive
   then existsb (fun c => snd (_setNodeCollapsed c collapsed_ true)) (children n)
   else false)
  || (collapsible n && negb (Bool.eqb (collapsed n) collapsed_)).
Proof.
  rewrite setNodeCollapsed_eq. cbv zeta.
  destruct recursive; cbn [snd]; [|reflexivity].
  now rewrite setChildrenCollapsed_eq.
Qed.

Lemma existsb_map (A B : Type) (g : A -> B) (h : B -> bool) (l : list A) :
  existsb h (map g l) = existsb (fun x => h (g x)) l.
Proof. induction l; simpl; congruence. Qed.

Lemma existsb_ext_Forall (A : Type) (g h : A -> bool) (l : list A) :
  Forall (fun x => g x = h x) l -> existsb g l = existsb h l.
Proof. induction 1; simpl; congruence. Qed.

(** Doing it again changes nothing. *)
Lemma setNodeCollapsed_again n collapsed_ recursive :
  snd (_setNodeCollapsed (fst (_setNodeCollapsed n collapsed_ recursive))
         collapsed_ recursive) = false.
Proof.
  revert recursive. induction n as [n IH] using node_ind. intros recursive.
  rewrite setNodeCollapsed_snd, collapsible_setNodeCollapsed,
    collapsed_setNodeCollapsed, children_setNodeCollapsed.
  apply orb_false_iff. split.
  - destruct recursive; [|reflexivity].
    rewrite existsb_map.
    rewrite existsb_ext_Forall with (h := fun _ => false).
    + clear. induction (children n); simpl; auto.
    + eapply Forall_impl; [|exact IH]. intros c Hc. apply Hc.
  - destruct (collapsible n); [|reflexivity]. cbn [andb].
    now rewrite eqb_reflx.
Qed.

(** What a call reports does not depend on the render counts. *)
Lemma setNodeCollapsed_snd_erase n collapsed_ recursive :
  snd (_setNodeCollapsed (erase Counts n) collapsed_ recursive) =
  snd (_setNodeCollapsed n collapsed_ recursive).
Proof.
  revert recursive. induction n as [n IH] using node_ind. intros recursive.
  rewrite !setNodeCollapsed_snd, erase_eq. cbn [collapsible collapsed children].
  f_equal. destruct recursive; [|reflexivity].
  rewrite existsb_map. apply existsb_ext_Forall.
  eapply Forall_impl; [|exact IH]. intros c Hc. apply Hc.
Qed.

Lemma setCollapsed_at_node_top m path n collapsed_ recursive :
  nodeAt (root m) path = Some n ->
  exists m',
    setCollapsed m (map Z.of_nat path) (Some collapsed_) recursive =
      Some (Ok (snd (_setNodeCollapsed n collapsed_ recursive)), m') /\
    erase Collapse (root m') = erase Collapse (root m) /\
    autoExpandSingleChildren m' = autoExpandSingleChildren m /\
    (forall q, (forall q', q <> path ++ q') ->
               collapsedAt (root m') q = collapsedAt (root m) q) /\
    collapsedAt (root m') path = Some (if collapsible n then collapsed_ else collapsed n) /\
    (autoExpandSingleChildren m && negb collapsed_ && negb recursive = false ->
     erase Counts (root m') =
     erase Counts
       (updateAt (root m) path (fun _ => fst (_setNodeCollapsed n collapsed_ recursive)))).
Proof.
  intros Hn. unfold setCollapsed.
  rewrite getTreeNode_valid with (x := n) by assumption.
  apply setCollapsed_at_node; [assumption|].
  pose proof (height_nodeAt _ _ Hn). lia.
Qed.

(** *** Expanding never collapses *)

Lemma setNodeCollapsed_expands q :
  forall n recursive,
    collapsedAt n q = Some false ->
    collapsedAt (fst (_setNodeCollapsed n false recursive)) q = Some false.
Proof.
  unfold collapsedAt. induction q as [|i q IH]; intros n recursive H.
  - cbn in H |- *. injection H as H. rewrite collapsed_setNodeCollapsed, H.
    now destruct (collapsible n).
  - cbn [nodeAt] in H |- *. rewrite children_setNodeCollapsed.
    destruct recursive; [|assumption].
    rewrite nth_error_map. destruct (nth_error (children n) i) as [c|]; [|discriminate].
    cbn [option_map]. now apply IH.
Qed.

Lemma updateAt_expands rt path n n1 :
  nodeAt rt path = Some n ->
  (forall q, collapsedAt n q = Some false -> collapsedAt n1 q = Some false) ->
  forall q, collapsedAt rt q = Some false ->
            collapsedAt (updateAt rt path (fun _ => n1)) q = Some false.
Proof.
  intros Hn Hmono q Hq.
  destruct (list_eq_dec Nat.eq_dec (firstn (length path) q) path) as [Hpre|Hpre].
  - rewrite <- (firstn_skipn (length path) q), Hpre in Hq |- *.
    rewrite collapsedAt_updateAt_on with (p := n) by assumption.
    rewrite collapsedAt_on with (p := n) in Hq by assumption. now apply Hmono.
  - rewrite collapsedAt_updateAt_off; [assumption|].
    intros q' ->. apply Hpre.
    now rewrite firstn_app, firstn_all, Nat.sub_diag, firstn_O, app_nil_r.
Qed.

Lemma setListNodeCollapsed_expands m ref listIndex revealed recursive :
  (forall path n, ref = Some (path, n) -> nodeAt (root m) path = Some n) ->
  forall q,
    collapsedAt (root m) q = Some false ->
    collapsedAt
      (root (snd (_setListNodeCollapsed m ref listIndex revealed false recursive))) q
    = Some false.
Proof.
  intros Href q Hq. destruct ref as [[path n]|]; [|exact Hq].
  pose proof (setListNodeCollapsed_erase m path n listIndex revealed false recursive) as H.
  cbv zeta in H. destruct H as (_ & Hc & _).
  rewrite (collapsedAt_of_erase _ _ q Hc).
  apply updateAt_expands with (n := n); auto.
  intros q'. apply setNodeCollapsed_expands.
Qed.

Lemma setCollapsed_expands fuel :
  forall m location recursive out m',
    _setCollapsed fuel m location false recursive = Some (out, m') ->
    forall q, collapsedAt (root m) q = Some false -> collapsedAt (root m') q = Some false.
Proof.
  induction fuel as [|fuel IH]; intros m location recursive out m' Hrun q Hq;
    [discriminate|].
  cbn [_setCollapsed] in Hrun.
  destruct (getTreeNodeWithListIndex (root m) location) as [r|e] eqn:Hr.
  2: { now injection Hrun as <- <-. }
  pose proof (@setListNodeCollapsed_expands m (nodeRef r) (n_listIndex r) (n_revealed r)
                recursive) as H1.
  destruct (_setListNodeCollapsed m (nodeRef r) (n_listIndex r) (n_revealed r)
              false recursive) as [o m1].
  cbn [snd] in H1.
  specialize (H1 ltac:(intros path n Href; eapply getTreeNodeWithListIndex_ref; eauto)
                 q Hq).
  destruct o as [result|e]; [|now injection Hrun as <- <-].
  destruct (autoExpandSingleChildren m1 && negb false && negb recursive).
  - match type of Hrun with
    | (if ?b then _ else _) = _ => destruct b
    end.
    + destruct (_setCollapsed fuel m1 _ false false) as [[o2 m2]|] eqn:Hrec;
        [|discriminate].
      specialize (IH _ _ _ _ _ Hrec q H1).
      now destruct o2; injection Hrun as <- <-.
    + now injection Hrun as <- <-.
  - now injection Hrun as <- <-.
Qed.

(** A call that returns [true] has changed the collapse state of a node,
    whether it goes on to expand single children or not. *)
Lemma setCollapsed_true_changed m location collapsed_ recursive m' :
  setCollapsed m location (Some collapsed_) recursive = Some (Ok true, m') ->
  exists q, collapsedAt (root m) q <> collapsedAt (root m') q.
Proof.
  intros Hrun. unfold setCollapsed in Hrun.
  destruct (getTreeNode (root m) location [] (root m)) as [[h0 n0]|e];
    [|discriminate].
  cbn [_setCollapsed] in Hrun.
  destruct (getTreeNodeWithListIndex (root m) location) as [r|e] eqn:Hr;
    [|discriminate].
  destruct (nodeRef r) as [[path n]|] eqn:Href; [|discriminate].
  pose proof (getTreeNodeWithListIndex_ref _ _ Hr Href) as Hn.
  pose proof (setListNodeCollapsed_erase m path n (n_listIndex r) (n_revealed r)
                collapsed_ recursive) as H1.
  cbv zeta in H1.
  destruct (_setListNodeCollapsed m (Some (path, n)) (n_listIndex r) (n_revealed r)
              collapsed_ recursive) as [out m1].
  cbn [fst snd] in H1. destruct H1 as (-> & Hcounts & Hauto & _).
  assert (Hplain : forall result,
             Some (Ok result, m1) = Some (Ok true, m') ->
             snd (_setNodeCollapsed n collapsed_ recursive) = result ->
             exists q, collapsedAt (root m) q <> collapsedAt (root m') q).
  { intros result E Hres. injection E as -> <-.
    destruct (setNodeCollapsed_true _ _ _ Hres) as [q Hq].
    exists (path ++ q).
    rewrite (collapsedAt_of_erase _ _ (path ++ q) Hcounts).
    rewrite collapsedAt_on with (p := n) by assumption.
    now rewrite collapsedAt_updateAt_on with (p := n) by assumption. }
  destruct (autoExpandSingleChildren m1 && negb collapsed_ && negb recursive) eqn:Hopt;
    [|now apply Hplain with (result := snd (_setNodeCollapsed n collapsed_ recursive))].
  apply andb_prop in Hopt. destruct Hopt as [Hopt Hr0].
  apply andb_prop in Hopt. destruct Hopt as [_ Hc0].
  apply negb_true_iff in Hr0, Hc0. subst collapsed_ recursive.
  match type of Hrun with
  | (if ?b then _ else _) = _ => destruct b
  end; [|now apply Hplain with (result := snd (_setNodeCollapsed n false false))].
  destruct (_setCollapsed _ m1 _ false false) as [[o2 m2]|] eqn:Hrec; [|discriminate].
  destruct o2; [|discriminate]. injection Hrun as Hres <-.
  rewrite setNodeCollapsed_snd in Hres. cbn [orb] in Hres.
  apply andb_prop in Hres. destruct Hres as [Hcl Hne].
  assert (Hwas : collapsed n = true) by (now destruct (collapsed n)).
  exists path.
  assert (H1 : collapsedAt (root m1) path = Some false).
  { rewrite (collapsedAt_of_erase _ _ path Hcounts).
    rewrite <- (app_nil_r path) at 2.
    rewrite collapsedAt_updateAt_on with (p := n) by assumption.
    unfold collapsedAt. cbn. now rewrite collapsed_setNodeCollapsed, Hcl. }
  rewrite (setCollapsed_expands _ _ _ _ Hrec _ H1).
  unfold collapsedAt. rewrite Hn. cbn. rewrite Hwas. discriminate.
Qed.

(** C7 (amended): [setCollapsed] returns [true] only when the collapse
    state of some node has changed, whatever the options, and, with no
    auto-expansion of single children in play, exactly then;
    [setCollapsed(loc, true)] twice in a row changes the state at most the
    first time (it does when the node is collapsible and expanded) and
    returns [false] the second time; on a node that is not collapsible the
    call returns [false], no error, and leaves the node's collapse state
    as it is. *)
Theorem setCollapsed_reports_change :
  (forall m location collapsed_ recursive m',
     setCollapsed m location (Some collapsed_) recursive = Some (Ok true, m') ->
     exists q, collapsedAt (root m) q <> collapsedAt (root m') q) /\
  (forall m location collapsed_ recursive result m',
     autoExpandSingleChildren m && negb collapsed_ && negb recursive = false ->
     setCollapsed m location (Some collapsed_) recursive = Some (Ok result, m') ->
     (result = true <-> exists q, collapsedAt (root m) q <> collapsedAt (root m') q)) /\
  (forall m path n recursive,
     nodeAt (root m) path = Some n ->
     exists first m1 m2,
       setCollapsed m (map Z.of_nat path) (Some true) recursive = Some (Ok first, m1) /\
       (collapsible n = true -> collapsed n = false -> first = true) /\
       setCollapsed m1 (map Z.of_nat path) (Some true) recursive = Some (Ok false, m2)) /\
  (forall m path n collapsed_,
     nodeAt (root m) path = Some n ->
     collapsible n = false ->
     exists m',
       setCollapsed m (map Z.of_nat path) (Some collapsed_) false = Some (Ok false, m') /\
       collapsedAt (root m') path = Some (collapsed n)).
Proof.
  split; [intros m location collapsed_ recursive m' Hrun;
          now apply setCollapsed_true_changed with (1 := Hrun)|].
  split; [|split].
  - intros m location collapsed_ recursive result m' Hopt Hrun.
    unfold setCollapsed in Hrun.
    destruct (getTreeNode (root m) location [] (root m)) as [[h0 n0]|e];
      [|discriminate].
    cbn [_setCollapsed] in Hrun.
    destruct (getTreeNodeWithListIndex (root m) location) as [r|e] eqn:Hr;
      [|discriminate].
    destruct (nodeRef r) as [[path n]|] eqn:Href; [|discriminate].
    pose proof (getTreeNodeWithListIndex_ref _ _ Hr Href) as Hn.
    pose proof (setListNodeCollapsed_erase m path n (n_listIndex r) (n_revealed r)
                  collapsed_ recursive) as H1.
    cbv zeta in H1.
    destruct (_setListNodeCollapsed m (Some (path, n)) (n_listIndex r) (n_revealed r)
                collapsed_ recursive) as [out m1].
    cbn [fst snd] in H1. destruct H1 as (-> & Hcounts & Hauto & _).
    rewrite Hauto, Hopt in Hrun. injection Hrun as <- <-.
    split.
    + intros Htrue. destruct (setNodeCollapsed_true _ _ _ Htrue) as [q Hq].
      exists (path ++ q).
      rewrite (collapsedAt_of_erase _ _ (path ++ q) Hcounts).
      rewrite collapsedAt_on with (p := n) by assumption.
      now rewrite collapsedAt_updateAt_on with (p := n) by assumption.
    + intros [q Hq].
      destruct (snd (_setNodeCollapsed n collapsed_ recursive)) eqn:Hres;
        [reflexivity|].
      exfalso. apply Hq.
      rewrite (collapsedAt_of_erase _ _ q Hcounts).
      rewrite (setNodeCollapsed_false _ _ _ Hres).
      now rewrite updateAt_same.
  - intros m path n recursive Hn.
    destruct (setCollapsed_at_node_top m path true recursive Hn)
      as (m1 & Hrun1 & Hc1 & _ & _ & _ & Hcounts).
    assert (Hoff : autoExpandSingleChildren m && negb true && negb recursive = false)
      by (cbn [negb]; now rewrite andb_false_r).
    specialize (Hcounts Hoff).
    assert (Hn1 : nodeAt (updateAt (root m) path
                            (fun _ => fst (_setNodeCollapsed n true recursive))) path
                  = Some (fst (_setNodeCollapsed n true recursive)))
      by (now apply nodeAt_updateAt with (p := n)).
    destruct (nodeAt_of_erase Counts _ _ _ Hcounts Hn1) as (n1' & Hn1' & En1').
    destruct (setCollapsed_at_node_top m1 path true recursive Hn1') as (m2 & Hrun2 & _).
    exists (snd (_setNodeCollapsed n true recursive)), m1, m2.
    split; [exact Hrun1|]. split.
    + intros Hc He. rewrite setNodeCollapsed_snd, Hc, He. apply orb_true_r.
    + rewrite Hrun2. do 3 f_equal.
      now rewrite <- setNodeCollapsed_snd_erase, En1', setNodeCollapsed_snd_erase,
        setNodeCollapsed_again.
  - intros m path n collapsed_ Hn Hc.
    destruct (setCollapsed_at_node_top m path collapsed_ false Hn)
      as (m' & Hrun & _ & _ & _ & Hat & _).
    exists m'. rewrite Hrun, Hat, setNodeCollapsed_snd, Hc. auto.
Qed.

(** *** expandTo *)

Lemma collapsedAt_set_collapsed_below n b i q :
  collapsedAt (if collapsible n then set_collapsed n b else n) (i :: q)
  = collapsedAt n (i :: q).
Proof. unfold collapsedAt. now destruct (collapsible n). Qed.

(** One call that neither recurses nor expands single children writes the
    collapse state of the addressed node and of no other. *)
Lemma setCollapsed_one_node fuel m path n collapsed_ :
  autoExpandSingleChildren m = false ->
  nodeAt (root m) path = Some n ->
  (height n <= fuel)%nat ->
  exists result m',
    _setCollapsed fuel m (map Z.of_nat path) collapsed_ false = Some (Ok result, m') /\
    erase Collapse (root m') = erase Collapse (root m) /\
    autoExpandSingleChildren m' = false /\
    (forall q, q <> path -> collapsedAt (root m') q = collapsedAt (root m) q) /\
    collapsedAt (root m') path = Some (if collapsible n then collapsed_ else collapsed n).
Proof.
  intros Hauto Hn Hfuel.
  destruct (setCollapsed_at_node m path collapsed_ false Hn Hfuel)
    as (m' & Hrun & He & Ha & Hoff & Hat & Hcounts).
  rewrite Hauto in Hcounts. specialize (Hcounts eq_refl).
  exists (snd (_setNodeCollapsed n collapsed_ false)), m'.
  repeat split; try assumption; [congruence|].
  intros q Hq.
  destruct (list_eq_dec Nat.eq_dec (firstn (length path) q) path) as [Hpre|Hpre].
  - (* below the node *)
    rewrite <- (firstn_skipn (length path) q), Hpre.
    destruct (skipn (length path) q) as [|i q'] eqn:Hq'.
    + exfalso. apply Hq. now rewrite <- (firstn_skipn (length path) q), Hq', app_nil_r.
    + rewrite (collapsedAt_of_erase _ _ (path ++ i :: q') Hcounts).
      rewrite collapsedAt_updateAt_on with (p := n) by assumption.
      rewrite collapsedAt_on with (p := n) by assumption.
      rewrite setNodeCollapsed_eq. cbv zeta. cbn [fst].
      apply collapsedAt_set_collapsed_below.
  - apply Hoff. intros q' ->. apply Hpre.
    now rewrite firstn_app, firstn_all, Nat.sub_diag, firstn_O, app_nil_r.
Qed.

Lemma properPrefix_snoc q pp i :
  properPrefix q (pp ++ [i]) <-> q = pp \/ properPrefix q pp.
Proof.
  unfold properPrefix. split.
  - intros (q' & Hne & E).
    destruct q' as [|j q' _] using rev_ind; [congruence|].
    rewrite app_assoc in E. apply app_inj_tail in E. destruct E as [-> _].
    destruct q' as [|k q'].
    + left. now rewrite app_nil_r.
    + right. exists (k :: q'). split; [discriminate|reflexivity].
  - intros [->|(q' & Hne & ->)].
    + exists [i]. split; [discriminate|reflexivity].
    + exists (q' ++ [i]). split; [|now rewrite app_assoc].
      destruct q'; discriminate.
Qed.

Lemma properPrefix_nil q : ~ properPrefix q [].
Proof.
  intros (q' & Hne & E). symmetry in E. apply app_eq_nil in E. tauto.
Qed.

Lemma properPrefix_irrefl q : ~ properPrefix q q.
Proof.
  intros (q' & Hne & E). apply Hne.
  apply (f_equal (@length nat)) in E. rewrite length_app in E.
  destruct q'; [reflexivity|simpl in E; lia].
Qed.

Lemma removelast_map (A B : Type) (g : A -> B) (l : list A) :
  removelast (map g l) = map g (removelast l).
Proof.
  induction l as [|x l IH]; [reflexivity|].
  destruct l; [reflexivity|]. cbn [map removelast] in *. now rewrite IH.
Qed.

Lemma expandToLoop_at_node steps :
  forall m here x,
    autoExpandSingleChildren m = false ->
    length here = steps ->
    nodeAt (root m) here = Some x ->
    exists m',
      expandToLoop m here (map Z.of_nat here) steps = Some (Ok tt, m') /\
      erase Collapse (root m') = erase Collapse (root m) /\
      (forall q y, properPrefix q here -> nodeAt (root m') q = Some y ->
                   collapsible y = true -> collapsed y = false) /\
      (forall q, ~ properPrefix q here ->
                 collapsedAt (root m') q = collapsedAt (root m) q).
Proof.
  induction steps as [|steps IH]; intros m here x Hauto Hlen Hx.
  - exists m. destruct here; [|discriminate]. repeat split; auto.
    intros q y Hq. now apply properPrefix_nil in Hq.
  - destruct here as [|i pp _] using rev_ind; [discriminate|].
    rewrite length_app in Hlen. cbn in Hlen.
    cbn [expandToLoop]. rewrite removelast_map, removelast_last.
    rewrite nodeAt_app in Hx.
    destruct (nodeAt (root m) pp) as [p|] eqn:Hp; [|discriminate].
    assert (Hstep :
      exists m1,
        (if collapsed p then
           match _setCollapsed (S (height (root m))) m (map Z.of_nat pp) false false with
           | None => None
           | Some (Throw e, m1) => Some (Throw e, m1)
           | Some (Ok _, m1) => expandToLoop m1 pp (map Z.of_nat pp) steps
           end
         else expandToLoop m pp (map Z.of_nat pp) steps)
        = expandToLoop m1 pp (map Z.of_nat pp) steps /\
        erase Collapse (root m1) = erase Collapse (root m) /\
        autoExpandSingleChildren m1 = false /\
        (forall q, q <> pp -> collapsedAt (root m1) q = collapsedAt (root m) q) /\
        (collapsible p = true -> collapsedAt (root m1) pp = Some false)).
    { destruct (collapsed p) eqn:Hcol.
      - assert (Hh : (height p <= S (height (root m)))%nat)
          by (pose proof (height_nodeAt _ _ Hp); lia).
        destruct (setCollapsed_one_node m pp false Hauto Hp Hh)
          as (result & m1 & -> & He & Ha & Hoff & Hat).
        exists m1. repeat split; auto. intros Hc. now rewrite Hat, Hc.
      - exists m. repeat split; auto. intros _. unfold collapsedAt.
        now rewrite Hp, <- Hcol. }
    destruct Hstep as (m1 & -> & He1 & Ha1 & Hoff1 & Hat1).
    destruct (nodeAt_of_erase Collapse _ _ _ He1 Hp) as (p1 & Hp1 & Ep1).
    destruct (IH m1 pp p1 Ha1 ltac:(lia) Hp1) as (m' & -> & He' & Hanc & Hrest).
    exists m'. repeat split.
    + congruence.
    + intros q y Hq Hy Hc. apply properPrefix_snoc in Hq. destruct Hq as [->|Hq].
      * assert (Hcp : collapsible p = true).
        { destruct (nodeAt_of_erase Collapse _ _ _ (eq_trans He' He1) Hp)
            as (y' & Hy' & Ey').
          assert (y' = y) by congruence. subst y'.
          rewrite !erase_eq in Ey'. injection Ey'. congruence. }
        specialize (Hrest pp (@properPrefix_irrefl pp)).
        rewrite (Hat1 Hcp) in Hrest. unfold collapsedAt in Hrest.
        rewrite Hy in Hrest. simpl in Hrest. congruence.
      * eauto.
    + intros q Hq. rewrite properPrefix_snoc in Hq.
      rewrite Hrest by tauto. apply Hoff1. tauto.
Qed.

(** The loop of [expandTo], whatever the options. *)
Lemma expandToLoop_expands steps :
  forall m here x,
    length here = steps ->
    nodeAt (root m) here = Some x ->
    exists m',
      expandToLoop m here (map Z.of_nat here) steps = Some (Ok tt, m') /\
      erase Collapse (root m') = erase Collapse (root m) /\
      (forall q, collapsedAt (root m) q = Some false ->
                 collapsedAt (root m') q = Some false) /\
      (forall q y, properPrefix q here -> nodeAt (root m') q = Some y ->
                   collapsible y = true -> collapsed y = false).
Proof.
  induction steps as [|steps IH]; intros m here x Hlen Hx.
  - exists m. destruct here; [|discriminate]. repeat split; auto.
    intros q y Hq. now apply properPrefix_nil in Hq.
  - destruct here as [|i pp _] using rev_ind; [discriminate|].
    rewrite length_app in Hlen. cbn in Hlen.
    cbn [expandToLoop]. rewrite removelast_map, removelast_last.
    rewrite nodeAt_app in Hx.
    destruct (nodeAt (root m) pp) as [p|] eqn:Hp; [|discriminate].
    assert (Hstep :
      exists m1,
        (if collapsed p then
           match _setCollapsed (S (height (root m))) m (map Z.of_nat pp) false false with
           | None => None
           | Some (Throw e, m1) => Some (Throw e, m1)
           | Some (Ok _, m1) => expandToLoop m1 pp (map Z.of_nat pp) steps
           end
         else expandToLoop m pp (map Z.of_nat pp) steps)
        = expandToLoop m1 pp (map Z.of_nat pp) steps /\
        erase Collapse (root m1) = erase Collapse (root m) /\
        (forall q, collapsedAt (root m) q = Some false ->
                   collapsedAt (root m1) q = Some false) /\
        (collapsible p = true -> collapsedAt (root m1) pp = Some false)).
    { destruct (collapsed p) eqn:Hcol.
      - assert (Hh : (height p <= S (height (root m)))%nat)
          by (pose proof (height_nodeAt _ _ Hp); lia).
        destruct (setCollapsed_at_node m pp false false Hp Hh)
          as (m1 & Hrun & He & _ & _ & Hat & _).
        exists m1. rewrite Hrun. repeat split; auto.
        + intros q Hq. exact (setCollapsed_expands _ _ _ _ Hrun _ Hq).
        + intros Hc. now rewrite Hat, Hc.
      - exists m. repeat split; auto. intros _. unfold collapsedAt.
        now rewrite Hp, <- Hcol. }
    destruct Hstep as (m1 & -> & He1 & Hmono1 & Hat1).
    destruct (nodeAt_of_erase Collapse _ _ _ He1 Hp) as (p1 & Hp1 & Ep1).
    destruct (IH m1 pp p1 ltac:(lia) Hp1) as (m' & -> & He' & Hmono & Hanc).
    exists m'. repeat split.
    + congruence.
    + auto.
    + intros q y Hq Hy Hc. apply properPrefix_snoc in Hq. destruct Hq as [->|Hq].
      * assert (Hcp : collapsible p = true).
        { destruct (nodeAt_of_erase Collapse _ _ _ (eq_trans He' He1) Hp)
            as (y' & Hy' & Ey').
          assert (y' = y) by congruence. subst y'.
          rewrite !erase_eq in Ey'. injection Ey'. congruence. }
        pose proof (Hmono pp (Hat1 Hcp)) as Hfin. unfold collapsedAt in Hfin.
        rewrite Hy in Hfin. simpl in Hfin. congruence.
      * eauto.
Qed.

(** C9 (amended): whatever the options, [expandTo] at the location of
    an existing node returns, leaves every collapsible proper ancestor of
    the node expanded, and collapses no node; with the auto-expansion of
    single children off, it leaves the collapse state of every other
    node, the addressed node and the nodes of sibling subtrees among them,
    as it was. *)
Theorem expandTo_expands_ancestors m path n :
  nodeAt (root m) path = Some n ->
  exists m',
    expandTo m (map Z.of_nat path) = Some (Ok tt, m') /\
    (forall q y, properPrefix q path -> nodeAt (root m') q = Some y ->
                 collapsible y = true -> collapsed y = false) /\
    (forall q, collapsedAt (root m) q = Some false ->
               collapsedAt (root m') q = Some false) /\
    (autoExpandSingleChildren m = false ->
     forall q, ~ properPrefix q path ->
               collapsedAt (root m') q = collapsedAt (root m) q).
Proof.
  intros Hn. unfold expandTo.
  rewrite getTreeNode_valid with (x := n) by assumption. cbn [app].
  destruct (expandToLoop_expands m path eq_refl Hn) as (m' & Hrun & _ & H0 & H1).
  exists m'. split; [exact Hrun|]. split; [exact H1|]. split; [exact H0|].
  intros Hauto.
  destruct (expandToLoop_at_node m path Hauto eq_refl Hn) as (m2 & Hrun2 & _ & _ & H2).
  rewrite Hrun in Hrun2. now injection Hrun2 as <-.
Qed.

End CollapseFacts.

(** ** Identities and parents *)

Section IdentityFacts.

Variables T TFilterData : Type.
Implicit Types (n c p rt nd : node T TFilterData) (path q : list nat).
Implicit Types (m : model T TFilterData) (el : ITreeElement T).
Implicit Types (f : option (ITreeFilter T TFilterData)) (cbd : bool).

(** The number of objects of a list of identities with identity [x]. *)
Local Notation "'occ' x l" := (count_occ Nat.eq_dec l x) (at level 10, x at level 9, l at level 9).

Lemma ids_eq n : ids n = nid n :: flat_map (@ids _ _) (children n).
Proof. now destruct n. Qed.

Lemma parentsLinked_eq n :
  parentsLinked n =
  forallb
    (fun c =>
       match parent c with
       | Some pid => Nat.eqb pid (nid n)
       | None => false
       end && parentsLinked c)
    (children n).
Proof. now destruct n. Qed.

Lemma ids_erase w n : ids (erase w n) = ids n.
Proof.
  induction n as [n IH] using node_ind. rewrite erase_eq, (ids_eq n), ids_eq.
  cbn [nid children]. f_equal.
  induction IH as [|c cs Hc _ IHcs]; [reflexivity|]. cbn [map flat_map]. congruence.
Qed.

Lemma parentsLinked_erase w n : parentsLinked (erase w n) = parentsLinked n.
Proof.
  induction n as [n IH] using node_ind.
  rewrite erase_eq, (parentsLinked_eq n), parentsLinked_eq. cbn [nid children].
  induction IH as [|c cs Hc _ IHcs]; [reflexivity|]. cbn [map forallb].
  rewrite IHcs, Hc. now rewrite (erase_eq w c).
Qed.

Lemma parent_erase w n : parent (erase w n) = parent n.
Proof. now rewrite erase_eq. Qed.

Lemma nid_erase w n : nid (erase w n) = nid n.
Proof. now rewrite erase_eq. Qed.

Lemma identified_of_erase w m m' :
  erase w (root m') = erase w (root m) ->
  nextId m' = nextId m ->
  identified m -> identified m'.
Proof.
  intros He Hn (H1 & H2 & H3 & H4). unfold identified.
  rewrite <- (parent_erase w), <- (ids_erase w (root m')),
    <- (parentsLinked_erase w (root m')), He, Hn.
  now rewrite parent_erase, ids_erase, parentsLinked_erase.
Qed.

Lemma occ_flat_map_nth (cs : list (node T TFilterData)) i c x :
  nth_error cs i = Some c ->
  occ x (flat_map (@ids _ _) cs) =
  (occ x (flat_map (@ids _ _) (firstn i cs)) + occ x (ids c)
   + occ x (flat_map (@ids _ _) (skipn (S i) cs)))%nat.
Proof.
  intros H. rewrite (nth_error_split_firstn _ _ H) at 1.
  rewrite flat_map_app. cbn [flat_map]. rewrite !count_occ_app. lia.
Qed.

Lemma occ_flat_map_mapNth (cs : list (node T TFilterData)) i c g x :
  nth_error cs i = Some c ->
  occ x (flat_map (@ids _ _) (mapNth i g cs)) =
  (occ x (flat_map (@ids _ _) (firstn i cs)) + occ x (ids (g c))
   + occ x (flat_map (@ids _ _) (skipn (S i) cs)))%nat.
Proof.
  intros H. rewrite (mapNth_split g _ _ H).
  rewrite flat_map_app. cbn [flat_map]. rewrite !count_occ_app. lia.
Qed.

(** Writing at a path trades the objects of the old subtree for those of
    the new one. *)
Lemma occ_updateAt n path g p x :
  nodeAt n path = Some p ->
  (occ x (ids (updateAt n path g)) + occ x (ids p)
   = occ x (ids n) + occ x (ids (g p)))%nat.
Proof.
  revert n; induction path as [|i path IH]; intros n; cbn [nodeAt updateAt].
  - intros H. injection H as <-. lia.
  - destruct (nth_error (children n) i) as [c|] eqn:Hc; [|discriminate].
    intros Hp. specialize (IH _ Hp).
    rewrite (ids_eq n), (ids_eq (set_children _ _)). cbn [nid children set_children].
    cbn [count_occ].
    rewrite (occ_flat_map_nth _ _ x Hc), (occ_flat_map_mapNth _ _ _ x Hc).
    destruct (Nat.eq_dec (nid n) x); lia.
Qed.

Lemma parentsLinked_updateAt n path g p :
  nodeAt n path = Some p ->
  parentsLinked n = true ->
  nid (g p) = nid p -> parent (g p) = parent p -> parentsLinked (g p) = true ->
  parentsLinked (updateAt n path g) = true.
Proof.
  revert n; induction path as [|i path IH]; intros n; simpl.
  - intros H. now injection H as <-.
  - destruct (nth_error (children n) i) as [c|] eqn:Hc; [|discriminate].
    intros Hp Hn H1 H2 H3.
    rewrite parentsLinked_eq in *. cbn [nid children set_children].
    rewrite (mapNth_split _ _ _ Hc).
    rewrite (nth_error_split_firstn _ _ Hc) in Hn.
    rewrite forallb_app in *. cbn [forallb] in *.
    apply andb_prop in Hn. destruct Hn as [Ha Hn].
    apply andb_prop in Hn. destruct Hn as [Hn Hb].
    apply andb_prop in Hn. destruct Hn as [Hpc Hlc].
    rewrite Ha, Hb, (IH _ Hp Hlc H1 H2 H3), !andb_true_r. cbn [andb].
    destruct path as [|j path].
    + simpl in *. injection Hp as <-. now rewrite H2.
    + exact Hpc.
Qed.

(** *** The objects a splice creates *)

Lemma finishNode_fields node1 v rev
    (acc : list (node T TFilterData) * Z * Z * createState) :
  let cs := fst (fst (fst acc)) in
  let vcc := snd (fst (fst acc)) in
  let rnc := snd (fst acc) in
  let out := finishNode node1 v rev acc in
  let vis := if visibility_eqb v Recurse then vcc >? 0 else visibility_eqb v Visible in
  nid (fst out) = nid node1 /\ parent (fst out) = parent node1 /\
  element (fst out) = element node1 /\ children (fst out) = cs /\
  depth (fst out) = depth node1 /\ visibleChildrenCount (fst out) = vcc /\
  collapsed (fst out) = collapsed node1 /\
  collapsible (fst out) = collapsible node1 || (0 <? Z.of_nat (length cs)) /\
  visible (fst out) = vis /\
  renderNodeCount (fst out) =
    (if vis then if collapsed node1 then renderNodeCount node1 else rnc else 0) /\
  fst (snd out) = fst (snd acc) /\
  snd (snd out) =
    (if vis then snd (snd acc)
     else if rev then removelast (snd (snd acc)) else snd (snd acc)).
Proof.
  destruct acc as [[[cs vcc] rnc] [next tl]].
  unfold finishNode. cbn [visible set_visible fst snd].
  destruct (if visibility_eqb v Recurse then vcc >? 0 else visibility_eqb v Visible);
    cbn [negb].
  - cbn [collapsed set_visible set_visibleChildrenCount set_collapsible set_children].
    destruct (collapsed node1) eqn:E; cbn; rewrite ?E; repeat split.
  - cbn. repeat split.
Qed.

Lemma newNode_filtered cbd f el id pid pd pv :
  let node1 := fst (_filterNode f (newNode TFilterData cbd el id pid pd) pv) in
  nid node1 = id /\ parent node1 = Some pid /\ element node1 = el_element el /\
  children node1 = [] /\ depth node1 = pd + 1 /\ renderNodeCount node1 = 1 /\
  collapsed node1 =
    match el_collapsed el with None => cbd | Some c => c end.
Proof. rewrite filterNode_fst. cbn. repeat split. Qed.

Lemma ids_set_visibleChildIndex c i : ids (set_visibleChildIndex c i) = ids c.
Proof. now destruct c. Qed.

Lemma linkedTo_set_visibleChildIndex id c i :
  linkedTo id (set_visibleChildIndex c i) = linkedTo id c.
Proof. unfold linkedTo. now rewrite !(parentsLinked_eq (set_visibleChildIndex c i)), (parentsLinked_eq c). Qed.

Lemma freshIn_snoc lo mid hi (cs : list (node T TFilterData)) c :
  (lo <= mid)%nat -> (mid <= hi)%nat ->
  freshIn lo mid cs -> freshIn mid hi [c] -> freshIn lo hi (cs ++ [c]).
Proof.
  intros H1 H2 Hcs Hc x. specialize (Hcs x). specialize (Hc x).
  rewrite flat_map_app, count_occ_app. lia.
Qed.

Lemma freshIn_nil lo hi : freshIn lo hi (@nil (node T TFilterData)).
Proof. intros x. simpl. lia. Qed.

Lemma createChildren_identified cbd f id pd v cr lo els :
  Forall (createIdentified cbd f) els ->
  forall cs0 vcc0 rnc0 s0 tl0,
    (lo <= s0)%nat ->
    forallb (linkedTo id) cs0 = true ->
    freshIn lo s0 cs0 ->
    let out := createChildren cbd f id pd v cr els (cs0, vcc0, rnc0, (s0, tl0)) in
    forallb (linkedTo id) (fst (fst (fst out))) = true /\
    (s0 <= fst (snd out))%nat /\
    freshIn lo (fst (snd out)) (fst (fst (fst out))).
Proof.
  induction 1 as [|el els Hel _ IH]; intros cs0 vcc0 rnc0 s0 tl0 Hlo Hl Hf.
  - cbn. auto.
  - cbv zeta. rewrite createChildren_cons. cbn [fst snd].
    specialize (Hel id pd v cr s0 tl0). cbv zeta in Hel.
    destruct (createTreeNode cbd f el id pd v cr (s0, tl0)) as [c [s1 tl1]].
    cbn [fst snd] in *. destruct Hel as (Hc1 & Hc2 & Hc3).
    unfold pushChild.
    assert (P1 : (lo <= s1)%nat) by lia.
    assert (P2 : forallb (linkedTo id)
                   (cs0 ++ [if visible c then set_visibleChildIndex c vcc0 else c])
                 = true).
    { rewrite forallb_app, Hl. cbn [forallb]. rewrite andb_true_r.
      destruct (visible c); [now rewrite linkedTo_set_visibleChildIndex|assumption]. }
    assert (P3 : freshIn lo s1
                   (cs0 ++ [if visible c then set_visibleChildIndex c vcc0 else c])).
    { apply freshIn_snoc with (mid := s0); try lia; [assumption|].
      intros x. specialize (Hc3 x). cbn [flat_map] in *.
      destruct (visible c); [now rewrite ids_set_visibleChildIndex|assumption]. }
    destruct (IH _ (if visible c then vcc0 + 1 else vcc0) (rnc0 + renderNodeCount c)
                s1 tl1 P1 P2 P3) as (I1 & I2 & I3).
    split; [exact I1|]. split; [|exact I3].
    eapply Nat.le_trans; [|exact I2]. lia.
Qed.

Lemma createTreeNode_identified cbd f el : createIdentified cbd f el.
Proof.
  induction el as [el IH] using element_ind.
  intros pid pd pv rev id tl. cbv zeta. rewrite createTreeNode_eq. cbv zeta.
  pose proof (newNode_filtered cbd f el id pid pd (Some pv)) as Hn1. cbv zeta in Hn1.
  destruct Hn1 as (N1 & N2 & _).
  match goal with
  | |- context [createChildren cbd f id ?pd ?v ?cr _ (?a, ?b, ?c, (?s, ?t))] =>
      pose proof (@createChildren_identified cbd f id pd v cr (S id) _ IH a b c s t
                    (le_n _) eq_refl (freshIn_nil _ _)) as Hch;
      cbv zeta in Hch;
      destruct (createChildren cbd f id pd v cr (el_children el) (a, b, c, (s, t)))
        as [[[cs vcc] rnc] [next tl']] eqn:Hrun
  end.
  rewrite ?Hrun in Hch. cbn [fst snd] in Hch. destruct Hch as (C1 & C2 & C3).
  match goal with
  | |- context [finishNode ?n1 ?v ?r ?acc] =>
      pose proof (finishNode_fields n1 v r acc) as Hf;
      cbv zeta in Hf;
      destruct (finishNode n1 v r acc) as [n [next' tl'']] eqn:Hfin
  end.
  rewrite ?Hfin in Hf. cbn [fst snd] in *.
  destruct Hf as (F1 & F2 & _ & F4 & _ & _ & _ & _ & _ & _ & F11 & _).
  subst next'. split; [|split].
  - unfold linkedTo. rewrite F2, N2, Nat.eqb_refl, parentsLinked_eq, F4, F1, N1. exact C1.
  - lia.
  - intros x. cbn [flat_map]. rewrite app_nil_r, ids_eq, F1, N1, F4. cbn [count_occ].
    specialize (C3 x). destruct (Nat.eq_dec id x); lia.
Qed.

(** *** [splice], step by step *)

Lemma createNodesToInsert_cons m p revealed start el els init :
  createNodesToInsert m p revealed start (el :: els) init =
  createNodesToInsert m p revealed start els
    (pushInserted start (fst init)
       (fst (createTreeNode (collapseByDefault m) (filter m) el (nid p) (depth p)
               (if visible p then Visible else Hidden) revealed (snd init))),
     snd (createTreeNode (collapseByDefault m) (filter m) el (nid p) (depth p)
            (if visible p then Visible else Hidden) revealed (snd init))).
Proof.
  unfold createNodesToInsert. cbn [fold_left]. destruct init as [a s0]. cbn [fst snd].
  destruct (createTreeNode _ _ el _ _ _ _ s0). reflexivity.
Qed.

Lemma spliceNodes_eq m r lastIndex deleteCount toInsert :
  let p := parentNode r in
  let created :=
    createNodesToInsert m p (p_revealed r) (visibleChildStart (children p) lastIndex)
      toInsert ([], 0, 0, (nextId m, [])) in
  let inserted := fst (fst (fst created)) in
  let s := spliceStart (children p) lastIndex in
  let d := spliceCount (children p) lastIndex deleteCount in
  let deleted := firstn d (skipn s (children p)) in
  let cs1 := firstn s (children p) ++ inserted ++ skipn (s + d) (children p) in
  let cs2 :=
    if countVisible deleted =? 0 then cs1
    else shiftVisibleFrom (Z.to_nat (lastIndex + Z.of_nat (length inserted)))
           (countVisible deleted) cs1 in
  let p' :=
    set_visibleChildrenCount (set_children p cs2)
      (visibleChildrenCount p + (snd (fst (fst created)) - countVisible deleted)) in
  let root1 := updateAt (root m) (parentPath r) (fun _ => p') in
  spliceNodes m r lastIndex deleteCount toInsert =
  (deleted,
   if p_revealed r && p_visible r then
     mkModel
       (_updateAncestorsRenderNodeCount root1 (Some (parentPath r))
          (snd (fst created) - sumZ (map (@renderNodeCount _ _) deleted)))
       (listSplice (renderList m) (p_listIndex r)
          (sumZ (map (@renderNodeCount _ _) deleted)) (snd (snd created)))
       (fst (snd created)) (collapseByDefault m) (filter m) (autoExpandSingleChildren m)
   else
     mkModel root1 (renderList m) (fst (snd created)) (collapseByDefault m) (filter m)
       (autoExpandSingleChildren m)).
Proof.
  cbv zeta. unfold spliceNodes. cbv zeta.
  destruct (createNodesToInsert _ _ _ _ _ _) as [[[ins ivc] rnc] [next frag]].
  cbn [fst snd]. unfold arraySplice.
  destruct (p_revealed r && p_visible r); reflexivity.
Qed.

Lemma createNodesToInsert_identified m p revealed start lo els :
  forall cs0 ivc0 rnc0 s0 tl0,
    (lo <= s0)%nat ->
    forallb (linkedTo (nid p)) cs0 = true ->
    freshIn lo s0 cs0 ->
    let out := createNodesToInsert m p revealed start els (cs0, ivc0, rnc0, (s0, tl0)) in
    forallb (linkedTo (nid p)) (fst (fst (fst out))) = true /\
    (s0 <= fst (snd out))%nat /\
    freshIn lo (fst (snd out)) (fst (fst (fst out))).
Proof.
  induction els as [|el els IH]; intros cs0 ivc0 rnc0 s0 tl0 Hlo Hl Hf.
  - cbn. auto.
  - cbv zeta. rewrite createNodesToInsert_cons. cbn [fst snd].
    pose proof (createTreeNode_identified (collapseByDefault m) (filter m) el
                  (nid p) (depth p) (if visible p then Visible else Hidden)
                  revealed s0 tl0) as Hel.
    cbv zeta in Hel.
    destruct (createTreeNode _ _ el _ _ _ _ (s0, tl0)) as [c [s1 tl1]].
    cbn [fst snd] in *. destruct Hel as (Hc1 & Hc2 & Hc3).
    unfold pushInserted.
    assert (P1 : (lo <= s1)%nat) by lia.
    assert (P2 : forallb (linkedTo (nid p))
                   (cs0 ++ [if visible c then set_visibleChildIndex c (start + ivc0)
                            else c]) = true).
    { rewrite forallb_app, Hl. cbn [forallb]. rewrite andb_true_r.
      destruct (visible c); [now rewrite linkedTo_set_visibleChildIndex|assumption]. }
    assert (P3 : freshIn lo s1
                   (cs0 ++ [if visible c then set_visibleChildIndex c (start + ivc0)
                            else c])).
    { apply freshIn_snoc with (mid := s0); try lia; [assumption|].
      intros x. specialize (Hc3 x). cbn [flat_map] in *.
      destruct (visible c); [now rewrite ids_set_visibleChildIndex|assumption]. }
    destruct (IH _ (if visible c then ivc0 + 1 else ivc0) (rnc0 + renderNodeCount c)
                s1 tl1 P1 P2 P3) as (I1 & I2 & I3).
    split; [exact I1|]. split; [|exact I3].
    eapply Nat.le_trans; [|exact I2]. lia.
Qed.

Lemma flat_map_ids_shiftVisibleFrom k d (cs : list (node T TFilterData)) :
  flat_map (@ids _ _) (shiftVisibleFrom k d cs) = flat_map (@ids _ _) cs.
Proof.
  unfold shiftVisibleFrom. rewrite <- (firstn_skipn k cs) at 3.
  rewrite !flat_map_app. f_equal.
  induction (skipn k cs) as [|c l IH]; [reflexivity|]. cbn [map flat_map].
  rewrite IH. now destruct (visible c); rewrite ?ids_set_visibleChildIndex.
Qed.

Lemma forallb_linkedTo_shiftVisibleFrom id k d (cs : list (node T TFilterData)) :
  forallb (linkedTo id) (shiftVisibleFrom k d cs) = forallb (linkedTo id) cs.
Proof.
  unfold shiftVisibleFrom. rewrite <- (firstn_skipn k cs) at 3.
  rewrite !forallb_app. f_equal.
  induction (skipn k cs) as [|c l IH]; [reflexivity|]. cbn [map forallb].
  rewrite IH. now destruct (visible c); rewrite ?linkedTo_set_visibleChildIndex.
Qed.

Lemma firstn_skipn_middle (A : Type) s d (l : list A) :
  l = firstn s l ++ firstn d (skipn s l) ++ skipn (s + d) l.
Proof.
  rewrite <- (firstn_skipn s l) at 1. f_equal.
  rewrite <- (firstn_skipn d (skipn s l)) at 1. f_equal.
  now rewrite skipn_skipn, Nat.add_comm.
Qed.

Lemma parent_updateAt n path g p :
  nodeAt n path = Some p -> parent (g p) = parent p ->
  parent (updateAt n path g) = parent n.
Proof.
  destruct path; simpl.
  - intros H. now injection H as <-.
  - reflexivity.
Qed.

Lemma identified_occ m x :
  identified m ->
  (occ x (ids (root m)) <= 1)%nat /\
  ((0 < occ x (ids (root m)))%nat -> (x < nextId m)%nat).
Proof.
  intros (_ & Hnd & Hlt & _). split.
  - now apply (NoDup_count_occ Nat.eq_dec).
  - intros H. apply (count_occ_In Nat.eq_dec) in H. rewrite Forall_forall in Hlt. auto.
Qed.

Lemma occ_subtree n path p x :
  nodeAt n path = Some p -> (occ x (ids p) <= occ x (ids n))%nat.
Proof.
  revert n; induction path as [|i path IH]; intros n; cbn [nodeAt].
  - intros H. injection H as <-. lia.
  - destruct (nth_error (children n) i) as [c|] eqn:Hc; [|discriminate].
    intros Hp. specialize (IH _ Hp). rewrite (ids_eq n). cbn [count_occ].
    rewrite (occ_flat_map_nth _ _ x Hc).
    destruct (Nat.eq_dec (nid n) x); lia.
Qed.

Lemma parentsLinked_nodeAt n path p :
  nodeAt n path = Some p -> parentsLinked n = true -> parentsLinked p = true.
Proof.
  revert n; induction path as [|i path IH]; intros n; simpl.
  - intros H. now injection H as <-.
  - destruct (nth_error (children n) i) as [c|] eqn:Hc; [|discriminate].
    intros Hp Hn. apply (IH _ Hp). rewrite parentsLinked_eq in Hn.
    apply nth_error_In in Hc. eapply forallb_forall in Hn; [|exact Hc].
    now apply andb_prop in Hn.
Qed.

(** [splice] keeps the objects distinct and linked. *)
Lemma spliceNodes_identified m r lastIndex deleteCount toInsert :
  nodeAt (root m) (parentPath r) = Some (parentNode r) ->
  identified m ->
  identified (snd (spliceNodes m r lastIndex deleteCount toInsert)).
Proof.
  intros Hp Hid. rewrite spliceNodes_eq. cbv zeta.
  set (p := parentNode r) in *.
  pose proof (@createNodesToInsert_identified m p (p_revealed r)
                (visibleChildStart (children p) lastIndex) (nextId m) toInsert
                [] 0 0 (nextId m) [] (le_n _) eq_refl (freshIn_nil _ _)) as Hnew.
  cbv zeta in Hnew.
  destruct (createNodesToInsert _ _ _ _ _ _) as [[[ins ivc] rnc] [next frag]].
  cbn [fst snd] in *. destruct Hnew as (N1 & N2 & N3).
  set (s := spliceStart (children p) lastIndex).
  set (d := spliceCount (children p) lastIndex deleteCount).
  set (deleted := firstn d (skipn s (children p))).
  set (cs1 := firstn s (children p) ++ ins ++ skipn (s + d) (children p)).
  set (cs2 := if countVisible deleted =? 0 then cs1 else _).
  set (p' := set_visibleChildrenCount (set_children p cs2) _).
  set (root1 := updateAt (root m) (parentPath r) (fun _ => p')).
  assert (Hcs2 : flat_map (@ids _ _) cs2 = flat_map (@ids _ _) cs1).
  { unfold cs2. destruct (countVisible deleted =? 0); [reflexivity|].
    apply flat_map_ids_shiftVisibleFrom. }
  assert (Hl2 : forallb (linkedTo (nid p)) cs2 = forallb (linkedTo (nid p)) cs1).
  { unfold cs2. destruct (countVisible deleted =? 0); [reflexivity|].
    apply forallb_linkedTo_shiftVisibleFrom. }
  pose proof (parentsLinked_nodeAt _ _ Hp (proj2 (proj2 (proj2 Hid)))) as Hlp.
  rewrite parentsLinked_eq in Hlp. fold (@linkedTo T TFilterData (nid p)) in Hlp.
  assert (Hocc : forall x,
             (occ x (ids p') <= occ x (ids p) + occ x (flat_map (@ids _ _) ins))%nat).
  { intros x. rewrite (ids_eq p), (ids_eq p').
    change (children p') with cs2. change (nid p') with (nid p).
    cbn [count_occ]. rewrite Hcs2.
    assert (E : occ x (flat_map (@ids _ _) (children p)) =
                (occ x (flat_map (@ids _ _) (firstn s (children p)))
                 + occ x (flat_map (@ids _ _) deleted)
                 + occ x (flat_map (@ids _ _) (skipn (s + d) (children p))))%nat).
    { rewrite (firstn_skipn_middle s d (children p)) at 1.
      rewrite !flat_map_app, !count_occ_app. fold deleted. lia. }
    unfold cs1. rewrite !flat_map_app, !count_occ_app.
    destruct (Nat.eq_dec (nid p) x); lia. }
  assert (Hroot1 : identified (mkModel root1 (renderList m) next (collapseByDefault m)
                                 (filter m) (autoExpandSingleChildren m))).
  { assert (Hx : forall x, (occ x (ids root1) <= 1)%nat /\
                           ((0 < occ x (ids root1))%nat -> (x < next)%nat)).
    { intros x. pose proof (identified_occ x Hid) as [Ho1 Ho2].
      pose proof (occ_updateAt (root m) (parentPath r) (fun _ => p') x Hp) as E.
      pose proof (occ_subtree _ _ x Hp) as Hsub.
      specialize (Hocc x). specialize (N3 x). fold root1 in E. fold p in E, Hsub.
      lia. }
    unfold identified. cbn [root nextId]. split; [|split; [|split]].
    - unfold root1. rewrite parent_updateAt with (p := p); [apply Hid|assumption|reflexivity].
    - apply (NoDup_count_occ Nat.eq_dec). intros x. apply Hx.
    - apply Forall_forall. intros x Hin. apply Hx.
      now apply (count_occ_In Nat.eq_dec).
    - unfold root1. apply parentsLinked_updateAt with (p := p);
        [assumption|apply Hid|reflexivity|reflexivity|].
      rewrite parentsLinked_eq.
      change (children p') with cs2. change (nid p') with (nid p).
      fold (@linkedTo T TFilterData (nid p)). rewrite Hl2. unfold cs1.
      rewrite (firstn_skipn_middle s d (children p)) in Hlp.
      rewrite !forallb_app in Hlp. rewrite !forallb_app.
      apply andb_prop in Hlp. destruct Hlp as [Ha Hlp].
      apply andb_prop in Hlp. destruct Hlp as [_ Hb].
      now rewrite Ha, N1, Hb. }
  destruct (p_revealed r && p_visible r); cbn [snd]; [|exact Hroot1].
  eapply identified_of_erase with (w := Counts); [| |exact Hroot1]; cbn [root nextId].
  - apply erase_updateAncestors.
  - reflexivity.
Qed.

(** *** The other operations do not touch identities *)

Lemma setListNodeCollapsed_fields m ref listIndex revealed collapsed_ recursive :
  (forall path n, ref = Some (path, n) -> nodeAt (root m) path = Some n) ->
  let out := _setListNodeCollapsed m ref listIndex revealed collapsed_ recursive in
  erase Collapse (root (snd out)) = erase Collapse (root m) /\
  nextId (snd out) = nextId m /\
  autoExpandSingleChildren (snd out) = autoExpandSingleChildren m.
Proof.
  intros Href. destruct ref as [[path n]|]; [|cbn; auto].
  pose proof (setListNodeCollapsed_erase m path n listIndex revealed collapsed_ recursive)
    as H.
  cbv zeta in *. destruct H as (_ & Hc & Ha & _ & _ & Hn).
  split; [|auto].
  rewrite (erase_of_Counts Collapse _ _ Hc).
  apply erase_updateAt_same. intros p Hp.
  rewrite (Href _ _ eq_refl) in Hp. injection Hp as <-. apply erase_setNodeCollapsed.
Qed.

Lemma setCollapsed_fields fuel :
  forall m location collapsed_ recursive out m',
    _setCollapsed fuel m location collapsed_ recursive = Some (out, m') ->
    erase Collapse (root m') = erase Collapse (root m) /\ nextId m' = nextId m.
Proof.
  induction fuel as [|fuel IH]; intros m location collapsed_ recursive out m' Hrun;
    [discriminate|].
  cbn [_setCollapsed] in Hrun.
  destruct (getTreeNodeWithListIndex (root m) location) as [r|e] eqn:Hr.
  2: { injection Hrun as <- <-. auto. }
  pose proof (@setListNodeCollapsed_fields m (nodeRef r) (n_listIndex r) (n_revealed r)
                collapsed_ recursive) as H1.
  cbv zeta in H1.
  destruct (_setListNodeCollapsed m (nodeRef r) (n_listIndex r) (n_revealed r)
              collapsed_ recursive) as [o m1].
  cbn [snd] in H1.
  destruct H1 as (E1 & N1 & _).
  { intros path n Href. eapply getTreeNodeWithListIndex_ref; eauto. }
  destruct o as [result|e]; [|injection Hrun as <- <-; auto].
  destruct (autoExpandSingleChildren m1 && negb collapsed_ && negb recursive).
  - match type of Hrun with
    | (if ?b then _ else _) = _ => destruct b
    end.
    + destruct (_setCollapsed fuel m1 _ false false) as [[o2 m2]|] eqn:Hrec;
        [|discriminate].
      apply IH in Hrec. destruct Hrec as [E2 N2].
      destruct o2; injection Hrun as <- <-; split; congruence.
    + injection Hrun as <- <-. auto.
  - injection Hrun as <- <-. auto.
Qed.

Lemma expandToLoop_fields steps :
  forall m here location out m',
    expandToLoop m here location steps = Some (out, m') ->
    erase Collapse (root m') = erase Collapse (root m) /\ nextId m' = nextId m.
Proof.
  induction steps as [|steps IH]; intros m here location out m' Hrun.
  - cbn in Hrun. injection Hrun as <- <-. auto.
  - cbn [expandToLoop] in Hrun.
    destruct (nodeAt (root m) (removelast here)) as [n|];
      [|injection Hrun as <- <-; auto].
    destruct (collapsed n); [|eauto].
    destruct (_setCollapsed _ m _ false false) as [[o m1]|] eqn:Hset; [|discriminate].
    apply setCollapsed_fields in Hset. destruct Hset as [E1 N1].
    destruct o.
    + apply IH in Hrun. destruct Hrun. split; congruence.
    + injection Hrun as <- <-. auto.
Qed.

Lemma erase_Filter_set_visible n b : erase Filter (set_visible n b) = erase Filter n.
Proof. now rewrite !erase_eq. Qed.

Lemma erase_Filter_set_visibleChildIndex n i :
  erase Filter (set_visibleChildIndex n i) = erase Filter n.
Proof. now rewrite !erase_eq. Qed.

Lemma finishRefiltered_erase isRoot v revealed len n3 hvd result :
  erase Filter (fst (fst (finishRefiltered isRoot v revealed len n3 hvd result)))
  = erase Filter n3.
Proof.
  unfold finishRefiltered.
  set (n4 := if isRoot then n3 else _).
  assert (H4 : erase Filter n4 = erase Filter n3).
  { unfold n4. destruct isRoot; [reflexivity|]. apply erase_Filter_set_visible. }
  destruct (negb (visible n4)); [|destruct (negb (collapsed n4))]; cbn [fst];
    rewrite ?erase_set_renderNodeCount; exact H4.
Qed.

Lemma refilterChildren_erase f v cr cs :
  Forall (refilterErases f) cs ->
  forall init,
    map (erase Filter) (fst (fst (fst (refilterChildren f v cr cs init))))
    = map (erase Filter) (fst (fst (fst init))) ++ map (erase Filter) cs.
Proof.
  induction 1 as [|c cs Hc _ IH]; intros init.
  - cbn. now rewrite app_nil_r.
  - rewrite refilterChildren_cons, IH. specialize (Hc v (snd init) cr).
    destruct init as [[[cs0 vci0] hvd0] res0].
    destruct (_updateNodeAfterFilterChange f false c v _ cr) as [[c' b] res1].
    cbn [fst snd pushRefiltered] in *.
    rewrite map_app, <- app_assoc. cbn [map app].
    destruct (visible c'); [|now rewrite Hc].
    now rewrite erase_Filter_set_visibleChildIndex, Hc.
Qed.

Lemma refilterNode_erase f n : refilterErases f n.
Proof.
  induction n as [n IH] using node_ind. intros pv result revealed.
  rewrite refilterNode_eq. cbv zeta. rewrite filterNode_fst.
  destruct (isHidden _).
  - cbn [fst]. rewrite !erase_eq. reflexivity.
  - match goal with
    | |- context [refilterChildren f ?v ?cr ?cs ?init] =>
        pose proof (refilterChildren_erase v cr IH init) as Hch;
        destruct (refilterChildren f v cr cs init) as [[[cs' vci] hvd] res]
    end.
    cbn [fst map app] in Hch. rewrite finishRefiltered_erase.
    rewrite !erase_eq. cbn. now rewrite Hch.
Qed.

Lemma refilter_erase m : erase Filter (root (refilter m)) = erase Filter (root m).
Proof.
  unfold refilter, updateNodeAfterFilterChange. rewrite refilterRoot_eq. cbv zeta.
  match goal with
  | |- context [refilterChildren ?f ?v ?cr ?cs ?init] =>
      assert (Hch : map (erase Filter) (fst (fst (fst (refilterChildren f v cr cs init))))
                    = map (erase Filter) cs)
        by (rewrite refilterChildren_erase;
            [reflexivity|apply Forall_forall; intros; apply refilterNode_erase]);
      destruct (refilterChildren f v cr cs init) as [[[cs' vci] hvd] res]
  end.
  cbn [fst] in Hch.
  match goal with
  | |- context [finishRefiltered ?a ?b ?c ?d ?e ?g ?h] =>
      pose proof (finishRefiltered_erase a b c d e g h) as Hfin;
      destruct (finishRefiltered a b c d e g h) as [[n' b'] res']
  end.
  cbn [fst root set_root set_renderList] in *.
  rewrite erase_updateAncestors, Hfin, !erase_eq. cbn. now rewrite Hch.
Qed.

(** Every model that a sequence of operations leads to has distinct,
    linked node objects. *)
Lemma reachable_identified m : reachable m -> identified m.
Proof.
  induction 1 as [e o|m m' _ IH Hstep].
  - unfold identified. cbn. repeat split.
    + constructor; [intros []|constructor].
    + repeat constructor.
  - destruct Hstep as [m location deleteCount toInsert
                      |m location collapsed_ recursive out m' Hrun
                      |m location out m' Hrun
                      |m|m filter_].
    + unfold splice. destruct location as [|i rest]; [exact IH|].
      destruct (getParentNodeWithListIndex _ _ _ _ _ _ _) as [r|e] eqn:Hr; [|exact IH].
      apply getParentNodeWithListIndex_ref in Hr; [|reflexivity].
      pose proof (@spliceNodes_identified m r (last (i :: rest) 0) deleteCount toInsert
                    Hr IH) as H.
      destruct (spliceNodes _ _ _ _ _). exact H.
    + unfold setCollapsed in Hrun.
      destruct (getTreeNode _ _ _ _) as [[h n]|e].
      * apply setCollapsed_fields in Hrun. destruct Hrun as [E N].
        eapply identified_of_erase; eauto.
      * injection Hrun as <- <-. exact IH.
    + unfold expandTo in Hrun.
      destruct (getTreeNode _ _ _ _) as [[h n]|e].
      * apply expandToLoop_fields in Hrun. destruct Hrun as [E N].
        eapply identified_of_erase; eauto.
      * injection Hrun as <- <-. exact IH.
    + eapply identified_of_erase; [apply refilter_erase| |exact IH].
      unfold refilter. now destruct (updateNodeAfterFilterChange _ _).
    + exact IH.
Qed.

(** *** From a node back to its location *)

Lemma findNode_eq id n :
  findNode id n =
  if Nat.eqb (nid n) id then Some n
  else
    (fix first (cs : list (node T TFilterData)) : option (node T TFilterData) :=
       match cs with
       | [] => None
       | c :: r =>
           match findNode id c with
           | Some x => Some x
           | None => first r
           end
       end) (children n).
Proof. now destruct n. Qed.

Lemma occ_ids_self n : (1 <= occ (nid n) (ids n))%nat.
Proof. rewrite ids_eq. cbn [count_occ]. destruct (Nat.eq_dec (nid n) (nid n)); [lia|congruence]. Qed.

Lemma findNode_absent id n : occ id (ids n) = 0%nat -> findNode id n = None.
Proof.
  induction n as [n IH] using node_ind. rewrite findNode_eq, ids_eq. cbn [count_occ].
  destruct (Nat.eq_dec (nid n) id) as [E|E]; [discriminate|].
  apply Nat.eqb_neq in E. rewrite E. clear E.
  induction IH as [|c cs Hc _ IHcs]; [reflexivity|].
  cbn [flat_map]. rewrite count_occ_app. intros H.
  rewrite Hc by lia. apply IHcs. lia.
Qed.

Lemma findNode_at n path p :
  (forall x, (occ x (ids n) <= 1)%nat) ->
  nodeAt n path = Some p ->
  findNode (nid p) n = Some p.
Proof.
  revert n; induction path as [|i path IH]; intros n Hnd; cbn [nodeAt].
  - intros H. injection H as <-. now rewrite findNode_eq, Nat.eqb_refl.
  - destruct (nth_error (children n) i) as [c|] eqn:Hc; [|discriminate].
    intros Hp. rewrite findNode_eq.
    pose proof (Hnd (nid p)) as H1. rewrite ids_eq in H1. cbn [count_occ] in H1.
    rewrite (occ_flat_map_nth _ _ (nid p) Hc) in H1.
    pose proof (occ_subtree _ _ (nid p) Hp) as H2.
    pose proof (occ_ids_self p) as H3.
    destruct (Nat.eq_dec (nid n) (nid p)) as [E|E]; [lia|].
    apply Nat.eqb_neq in E. rewrite E.
    assert (Hc' : forall x, (occ x (ids c) <= 1)%nat).
    { intros x. specialize (Hnd x). rewrite ids_eq in Hnd. cbn [count_occ] in Hnd.
      rewrite (occ_flat_map_nth _ _ x Hc) in Hnd.
      destruct (Nat.eq_dec (nid n) x); lia. }
    specialize (IH c Hc' Hp).
    assert (Hbefore : occ (nid p) (flat_map (@ids _ _) (firstn i (children n))) = 0%nat)
      by lia.
    rewrite (nth_error_split_firstn _ _ Hc).
    revert Hbefore. generalize (firstn i (children n)). intros l.
    induction l as [|c0 l IHl]; cbn [app flat_map]; intros H0.
    + now rewrite IH.
    + rewrite count_occ_app in H0. rewrite findNode_absent by lia. apply IHl. lia.
Qed.

Lemma indexOf_at (cs : list (node T TFilterData)) :
  forall i c k,
    (forall x, (occ x (flat_map (@ids _ _) cs) <= 1)%nat) ->
    nth_error cs i = Some c ->
    indexOf cs (nid c) k = k + Z.of_nat i.
Proof.
  induction cs as [|c0 cs IH]; intros i c k Hnd Hc; [destruct i; discriminate|].
  cbn [indexOf]. destruct i as [|i].
  - simpl in Hc. injection Hc as ->. rewrite Nat.eqb_refl. lia.
  - simpl in Hc.
    pose proof (Hnd (nid c)) as H1. cbn [flat_map] in H1. rewrite count_occ_app in H1.
    rewrite (occ_flat_map_nth _ _ (nid c) Hc) in H1.
    pose proof (occ_ids_self c) as H2. pose proof (occ_ids_self c0) as H3.
    destruct (Nat.eqb (nid c0) (nid c)) eqn:E.
    + apply Nat.eqb_eq in E. rewrite E in H3. lia.
    + rewrite IH with (i := i); [lia| |assumption].
      intros x. specialize (Hnd x). cbn [flat_map] in Hnd.
      rewrite count_occ_app in Hnd. lia.
Qed.

Lemma parent_of_child n i c :
  parentsLinked n = true -> nth_error (children n) i = Some c ->
  parent c = Some (nid n).
Proof.
  rewrite parentsLinked_eq. intros Hl Hc. apply nth_error_In in Hc.
  eapply forallb_forall in Hl; [|exact Hc]. apply andb_prop in Hl.
  destruct Hl as [Hl _]. destruct (parent c) as [pid|]; [|discriminate].
  apply Nat.eqb_eq in Hl. congruence.
Qed.

Lemma depth_nodeAt rt path n :
  nodeAt rt path = Some n -> (length path + height n <= height rt)%nat.
Proof.
  revert rt; induction path as [|i path IH]; intros rt; cbn [nodeAt length].
  - intros H. injection H as <-. lia.
  - destruct (nth_error (children rt) i) as [c|] eqn:Hc; [|discriminate].
    intros H. specialize (IH _ H). pose proof (height_child _ _ Hc). lia.
Qed.

Lemma getNodeLocationLoop_at rt :
  parent rt = None ->
  (forall x, (occ x (ids rt) <= 1)%nat) ->
  parentsLinked rt = true ->
  forall path n fuel location,
    nodeAt rt path = Some n ->
    (length path <= fuel)%nat ->
    getNodeLocationLoop fuel rt n location =
    Some (location ++ rev (map Z.of_nat path)).
Proof.
  intros Hroot Hnd Hl path.
  induction path as [|i pp IH] using rev_ind; intros n fuel location Hn Hfuel.
  - simpl in Hn. injection Hn as <-.
    destruct fuel; cbn [getNodeLocationLoop]; rewrite Hroot; cbn; now rewrite app_nil_r.
  - rewrite nodeAt_app in Hn.
    destruct (nodeAt rt pp) as [p|] eqn:Hp; [|discriminate].
    cbn [nodeAt] in Hn.
    destruct (nth_error (children p) i) as [c|] eqn:Hc; [|discriminate].
    injection Hn as <-.
    rewrite length_app in Hfuel. cbn [length] in Hfuel.
    destruct fuel as [|fuel]; [lia|].
    cbn [getNodeLocationLoop].
    pose proof (parentsLinked_nodeAt _ _ Hp Hl) as Hlp.
    rewrite parent_of_child with (n := p) (i := i) by assumption.
    rewrite findNode_at with (path := pp) by assumption.
    rewrite IH with (n := p) by (reflexivity || lia).
    rewrite indexOf_at with (i := i); [|intros x|assumption].
    + rewrite map_app, rev_app_distr, <- app_assoc. reflexivity.
    + pose proof (Hnd x) as H1. pose proof (occ_subtree _ _ x Hp) as H2.
      rewrite (ids_eq p) in H2. cbn [count_occ] in H2.
      destruct (Nat.eq_dec (nid p) x); lia.
Qed.

(** C10: in every model that operations lead to, the location of an
    existing node resolves to the node, and following the parents of that
    node, recording the index of each step among its siblings, gives the
    location back; the empty location and the root are a case of it. *)
Theorem getNodeLocation_getNode m path n :
  reachable m ->
  nodeAt (root m) path = Some n ->
  getNode m (map Z.of_nat path) = Ok n /\
  getNodeLocation m n = Some (map Z.of_nat path).
Proof.
  intros Hreach Hn. apply reachable_identified in Hreach.
  destruct Hreach as (Hroot & Hnd & _ & Hl). split.
  - unfold getNode. now rewrite getTreeNode_valid with (x := n).
  - unfold getNodeLocation.
    rewrite getNodeLocationLoop_at with (path := path); try assumption.
    + cbn. now rewrite rev_involutive.
    + intros x. now apply (NoDup_count_occ Nat.eq_dec).
    + pose proof (depth_nodeAt _ _ Hn). pose proof (height_pos n). lia.
Qed.

End IdentityFacts.

(** ** Render counts *)

Section CountFacts.

Variables T TFilterData : Type.
Implicit Types (n c p rt nd : node T TFilterData) (path q : list nat).
Implicit Types (m : model T TFilterData) (el : ITreeElement T).
Implicit Types (f : option (ITreeFilter T TFilterData)) (cbd : bool).
Implicit Types (cs : list (node T TFilterData)).

Lemma countsSettled_eq n :
  countsSettled n =
  if visible n then forallb (@countsSettled _ _) (children n)
  else renderNodeCount n =? 0.
Proof. now destruct n. Qed.

Lemma countsExact_eq n :
  countsExact n =
  if visible n then
    if collapsed n then
      (renderNodeCount n =? 1) && forallb (@countsSettled _ _) (children n)
    else
      (renderNodeCount n =? 1 + rows (children n))
      && forallb (@countsExact _ _) (children n)
  else renderNodeCount n =? 0.
Proof. now destruct n. Qed.

Lemma forallb_impl_Forall (A : Type) (g h : A -> bool) (l : list A) :
  Forall (fun x => g x = true -> h x = true) l ->
  forallb g l = true -> forallb h l = true.
Proof.
  induction 1 as [|x l Hx _ IH]; [reflexivity|]. cbn [forallb].
  intros H. apply andb_prop in H. destruct H as [H1 H2]. now rewrite Hx, IH.
Qed.

Lemma countsExact_settled n : countsExact n = true -> countsSettled n = true.
Proof.
  induction n as [n IH] using node_ind. rewrite countsExact_eq, countsSettled_eq.
  destruct (visible n); [|auto]. destruct (collapsed n); intros H;
    apply andb_prop in H; destruct H as [_ H]; [assumption|].
  revert H. now apply forallb_impl_Forall.
Qed.

Lemma forallb_exact_settled cs :
  forallb (@countsExact _ _) cs = true -> forallb (@countsSettled _ _) cs = true.
Proof.
  apply forallb_impl_Forall. apply Forall_forall. intros c _.
  apply countsExact_settled.
Qed.

Lemma sumZ_app (l1 l2 : list Z) : sumZ (l1 ++ l2) = sumZ l1 + sumZ l2.
Proof. induction l1; simpl; lia. Qed.

Lemma rows_app cs1 cs2 : rows (cs1 ++ cs2) = rows cs1 + rows cs2.
Proof. unfold rows. now rewrite map_app, sumZ_app. Qed.

Lemma rows_cons c cs : rows (c :: cs) = renderNodeCount c + rows cs.
Proof. reflexivity. Qed.

Lemma rows_mapNth cs i c g :
  nth_error cs i = Some c ->
  rows (mapNth i g cs) = rows cs - renderNodeCount c + renderNodeCount (g c).
Proof.
  intros H. rewrite (mapNth_split g _ _ H).
  assert (E : rows cs = rows (firstn i cs) + (renderNodeCount c + rows (skipn (S i) cs))).
  { rewrite (nth_error_split_firstn _ _ H) at 1. now rewrite rows_app, rows_cons. }
  rewrite E, rows_app, rows_cons. lia.
Qed.

Lemma forallb_mapNth (h : node T TFilterData -> bool) cs i c g :
  nth_error cs i = Some c ->
  forallb h cs = true -> h (g c) = true -> forallb h (mapNth i g cs) = true.
Proof.
  intros H Hall Hg. rewrite (mapNth_split g _ _ H).
  rewrite (nth_error_split_firstn _ _ H) in Hall.
  rewrite forallb_app in *. cbn [forallb] in *.
  apply andb_prop in Hall. destruct Hall as [H1 H2].
  apply andb_prop in H2. destruct H2 as [_ H2]. now rewrite H1, Hg, H2.
Qed.

Lemma forallb_nth_error (h : node T TFilterData -> bool) cs i c :
  nth_error cs i = Some c -> forallb h cs = true -> h c = true.
Proof.
  intros H Hall. apply nth_error_In in H. eapply forallb_forall in Hall; eauto.
Qed.

(** The fields that the count predicates do not look at. *)
Lemma countsExact_set_visibleChildIndex n i :
  countsExact (set_visibleChildIndex n i) = countsExact n.
Proof. now rewrite !countsExact_eq. Qed.

Lemma countsSettled_set_visibleChildIndex n i :
  countsSettled (set_visibleChildIndex n i) = countsSettled n.
Proof. now rewrite !countsSettled_eq. Qed.

(** An exact count is the number of rows. *)
Lemma countsExact_rows n :
  countsExact n = true -> renderNodeCount n = Z.of_nat (length (revealedNodes n)).
Proof.
  induction n as [n IH] using node_ind. rewrite countsExact_eq, revealedNodes_eq.
  destruct (visible n); [|intros H; apply Z.eqb_eq in H; rewrite H; reflexivity].
  destruct (collapsed n); intros H; apply andb_prop in H; destruct H as [H1 H2];
    apply Z.eqb_eq in H1; rewrite H1; [reflexivity|].
  cbn [length]. rewrite Nat2Z.inj_succ. unfold Z.succ. rewrite Z.add_comm. f_equal.
  clear H1. induction IH as [|c cs Hc _ IHcs]; [reflexivity|].
  cbn [forallb] in H2. apply andb_prop in H2. destruct H2 as [Hc2 Hcs2].
  cbn [flat_map]. rewrite rows_cons, length_app, Nat2Z.inj_add, <- (Hc Hc2), <- (IHcs Hcs2).
  reflexivity.
Qed.

Lemma rows_exact cs :
  forallb (@countsExact _ _) cs = true ->
  rows cs = Z.of_nat (length (flat_map (@revealedNodes _ _) cs)).
Proof.
  induction cs as [|c cs IH]; [reflexivity|]. cbn [forallb flat_map].
  intros H. apply andb_prop in H. destruct H as [H1 H2].
  rewrite rows_cons, length_app, Nat2Z.inj_add, <- (countsExact_rows _ H1), <- (IH H2).
  reflexivity.
Qed.

(** *** Created nodes *)

Lemma createChildren_exact cbd f id pd v cr base els :
  Forall (createExact cbd f) els ->
  forall init,
    forallb (@countsExact _ _) (fst (fst (fst init))) = true ->
    snd (fst init) = base + rows (fst (fst (fst init))) ->
    let out := createChildren cbd f id pd v cr els init in
    forallb (@countsExact _ _) (fst (fst (fst out))) = true /\
    snd (fst out) = base + rows (fst (fst (fst out))).
Proof.
  induction 1 as [|el els Hel _ IH]; intros init H1 H2; [cbn; auto|].
  cbv zeta. rewrite createChildren_cons. apply IH.
  - specialize (Hel id pd v cr (snd init)).
    destruct init as [[[cs0 vcc0] rnc0] st0].
    destruct (createTreeNode cbd f el id pd v cr _) as [c s1].
    cbn [fst snd pushChild] in *. rewrite forallb_app, H1. cbn [forallb].
    rewrite andb_true_r.
    destruct (visible c); [now rewrite countsExact_set_visibleChildIndex|assumption].
  - destruct init as [[[cs0 vcc0] rnc0] st0].
    destruct (createTreeNode cbd f el id pd v cr _) as [c s1].
    cbn [fst snd pushChild] in *. rewrite rows_app, H2. unfold rows at 3.
    cbn [map sumZ]. destruct (visible c); cbn [renderNodeCount set_visibleChildIndex]; lia.
Qed.

Lemma createTreeNode_exact cbd f el : createExact cbd f el.
Proof.
  induction el as [el IH] using element_ind.
  intros pid pd pv rev [id tl]. rewrite createTreeNode_eq. cbv zeta.
  pose proof (newNode_filtered cbd f el id pid pd (Some pv)) as Hn1. cbv zeta in Hn1.
  destruct Hn1 as (_ & _ & _ & _ & _ & N6 & _).
  match goal with
  | |- context [createChildren cbd f id ?pd ?v ?cr ?els ?init] =>
      pose proof (@createChildren_exact cbd f id pd v cr 1 els IH init eq_refl eq_refl)
        as Hch;
      cbv zeta in Hch;
      set (created := createChildren cbd f id pd v cr els init) in *
  end.
  destruct Hch as [C1 C2].
  match goal with
  | |- context [finishNode ?n1 ?v ?r created] =>
      pose proof (finishNode_fields n1 v r created) as Hf; cbv zeta in Hf;
      set (out := finishNode n1 v r created) in *
  end.
  destruct Hf as (_ & _ & _ & F4 & _ & _ & F7 & _ & F9 & F10 & _).
  rewrite countsExact_eq, F9, F10, F4, F7, N6.
  destruct (if visibility_eqb _ Recurse then _ else _); [|reflexivity].
  destruct (collapsed _).
  - cbn [Z.eqb andb]. now apply forallb_exact_settled.
  - now rewrite C2, Z.eqb_refl, C1.
Qed.

Lemma createNodesToInsert_exact m p revealed start els :
  forall init,
    forallb (@countsExact _ _) (fst (fst (fst init))) = true ->
    snd (fst init) = rows (fst (fst (fst init))) ->
    let out := createNodesToInsert m p revealed start els init in
    forallb (@countsExact _ _) (fst (fst (fst out))) = true /\
    snd (fst out) = rows (fst (fst (fst out))).
Proof.
  induction els as [|el els IH]; intros init H1 H2; [cbn; auto|].
  cbv zeta. rewrite createNodesToInsert_cons. apply IH.
  - pose proof (@createTreeNode_exact (collapseByDefault m) (filter m) el (nid p)
                  (depth p) (if visible p then Visible else Hidden) revealed (snd init))
      as Hel.
    destruct init as [[[cs0 vcc0] rnc0] st0].
    destruct (createTreeNode _ _ el _ _ _ _ _) as [c s1].
    cbn [fst snd pushInserted] in *. rewrite forallb_app, H1. cbn [forallb].
    rewrite andb_true_r.
    destruct (visible c); [now rewrite countsExact_set_visibleChildIndex|assumption].
  - destruct init as [[[cs0 vcc0] rnc0] st0].
    destruct (createTreeNode _ _ el _ _ _ _ _) as [c s1].
    cbn [fst snd pushInserted] in *. rewrite rows_app, H2. unfold rows at 3.
    cbn [map sumZ]. destruct (visible c); cbn [renderNodeCount set_visibleChildIndex]; lia.
Qed.

(** *** Recounting *)

Lemma revealedNodes_erase n : revealedNodes (erase Counts n) = revealedNodes n.
Proof.
  induction n as [n IH] using node_ind. rewrite erase_eq, (revealedNodes_eq n), revealedNodes_eq.
  cbn [visible collapsed nid children]. destruct (visible n); [|reflexivity].
  destruct (collapsed n); [reflexivity|]. f_equal.
  induction IH as [|c cs Hc _ IHcs]; [reflexivity|]. cbn [map flat_map]. congruence.
Qed.

Lemma revealedNodes_recount n : revealedNodes (recount n) = revealedNodes n.
Proof. now rewrite <- revealedNodes_erase, erase_recount, revealedNodes_erase. Qed.

Lemma flat_map_revealedNodes_recount cs :
  flat_map (@revealedNodes _ _) (map (@recount _ _) cs) = flat_map (@revealedNodes _ _) cs.
Proof.
  induction cs as [|c cs IH]; [reflexivity|]. cbn [map flat_map].
  now rewrite revealedNodes_recount, IH.
Qed.

Lemma recount_exact n : countsSettled n = true -> countsExact (recount n) = true.
Proof.
  induction n as [n IH] using node_ind. rewrite countsSettled_eq, recount_eq.
  destruct (visible n) eqn:Hv; [|rewrite countsExact_eq, Hv; auto].
  intros Hs. rewrite countsExact_eq, revealedNodes_eq, Hv.
  destruct (collapsed n) eqn:Hc; cbn [visible collapsed set_renderNodeCount set_children
    renderNodeCount children length]; rewrite Hv, Hc.
  - now rewrite Hs.
  - assert (He : forallb (@countsExact _ _) (map (@recount _ _) (children n)) = true).
    { clear Hv Hc. induction IH as [|c cs Hc _ IHcs]; [reflexivity|].
      cbn [forallb map] in *. apply andb_prop in Hs. destruct Hs as [H1 H2].
      now rewrite Hc, IHcs. }
    rewrite He, andb_true_r, (rows_exact _ He), flat_map_revealedNodes_recount.
    apply Z.eqb_eq. lia.
Qed.

Lemma renderNodeCount_recount n :
  visible n = true ->
  renderNodeCount (recount n) = Z.of_nat (length (revealedNodes n)).
Proof. intros H. rewrite recount_eq, H. now destruct (collapsed n). Qed.

Lemma recount_flags n :
  visible (recount n) = visible n /\ collapsed (recount n) = collapsed n.
Proof.
  pose proof (erase_recount Counts n) as H. rewrite !erase_eq in H. now injection H.
Qed.

(** *** Writing the collapse state leaves the counts *)

Lemma renderNodeCount_setNodeCollapsed n collapsed_ recursive :
  renderNodeCount (fst (_setNodeCollapsed n collapsed_ recursive)) = renderNodeCount n.
Proof.
  rewrite setNodeCollapsed_eq. cbv zeta.
  destruct recursive, (collapsible n); reflexivity.
Qed.

Lemma countsSettled_setNodeCollapsed n collapsed_ recursive :
  countsSettled (fst (_setNodeCollapsed n collapsed_ recursive)) = countsSettled n.
Proof.
  revert recursive. induction n as [n IH] using node_ind. intros recursive.
  rewrite (countsSettled_eq n), countsSettled_eq, visible_setNodeCollapsed,
    renderNodeCount_setNodeCollapsed, children_setNodeCollapsed.
  destruct (visible n); [|reflexivity]. destruct recursive; [|reflexivity].
  induction IH as [|c cs Hc _ IHcs]; [reflexivity|]. cbn [map forallb].
  now rewrite Hc, IHcs.
Qed.

(** *** Paths on screen *)

Lemma onScreen_split n path p :
  nodeAt n path = Some p ->
  expandedAlong n path && visibleAlong n path =
  onScreenAbove n path && (visible p && negb (collapsed p)).
Proof.
  revert n; induction path as [|i path IH]; intros n; simpl.
  - intros H. injection H as <-. destruct (visible n), (collapsed n); reflexivity.
  - destruct (nth_error (children n) i) as [c|]; [|discriminate]. intros H.
    specialize (IH _ H).
    destruct (visible n), (collapsed n); cbn; rewrite ?andb_false_r; auto.
Qed.

Lemma onScreenAbove_snoc n path i p :
  nodeAt n path = Some p ->
  onScreenAbove n (path ++ [i]) =
  onScreenAbove n path && (visible p && negb (collapsed p)).
Proof.
  revert n; induction path as [|j path IH]; intros n; simpl.
  - intros H. injection H as <-.
    now destruct (nth_error (children n) i); rewrite andb_true_r.
  - destruct (nth_error (children n) j) as [c|]; [|discriminate]. intros H.
    rewrite (IH _ H). now rewrite !andb_assoc.
Qed.

Lemma onScreenAbove_visibleAbove n path :
  onScreenAbove n path = true -> visibleAbove n path = true.
Proof.
  revert n; induction path as [|i path IH]; intros n; simpl; [auto|].
  destruct (visible n); [|discriminate]. destruct (collapsed n); [discriminate|].
  simpl. destruct (nth_error (children n) i); auto.
Qed.

Lemma countsExact_at n path p :
  nodeAt n path = Some p -> countsExact n = true -> onScreenAbove n path = true ->
  countsExact p = true.
Proof.
  revert n; induction path as [|i path IH]; intros n; simpl.
  - congruence.
  - destruct (nth_error (children n) i) as [c|] eqn:Hc; [|discriminate].
    intros Hp He Hon. rewrite countsExact_eq in He.
    destruct (visible n); [|discriminate]. destruct (collapsed n); [discriminate|].
    apply andb_prop in He. destruct He as [_ He]. simpl in Hon.
    apply (IH c); auto. eapply forallb_nth_error; eauto.
Qed.

Lemma countsSettled_at n path p :
  nodeAt n path = Some p -> countsSettled n = true -> visibleAbove n path = true ->
  countsSettled p = true.
Proof.
  revert n; induction path as [|i path IH]; intros n; simpl.
  - congruence.
  - destruct (nth_error (children n) i) as [c|] eqn:Hc; [|discriminate].
    intros Hp He Hon. rewrite countsSettled_eq in He.
    destruct (visible n); [|discriminate]. simpl in Hon.
    apply (IH c); auto. eapply forallb_nth_error; eauto.
Qed.

(** *** Writing where no row is *)

Lemma renderNodeCount_updateAt n path g p :
  nodeAt n path = Some p -> renderNodeCount (g p) = renderNodeCount p ->
  renderNodeCount (updateAt n path g) = renderNodeCount n.
Proof. destruct path; simpl; [congruence|reflexivity]. Qed.

Lemma visible_updateAt n path g p :
  nodeAt n path = Some p -> visible (g p) = visible p ->
  visible (updateAt n path g) = visible n.
Proof. destruct path; simpl; [congruence|reflexivity]. Qed.

Lemma collapsed_updateAt n path g p :
  nodeAt n path = Some p -> collapsed (g p) = collapsed p ->
  collapsed (updateAt n path g) = collapsed n.
Proof. destruct path; simpl; [congruence|reflexivity]. Qed.

(** A write that keeps the render count and the visibility of the node
    it is made at, and keeps that node settled, keeps the tree settled. *)
Lemma updateAt_settled g p path :
  renderNodeCount (g p) = renderNodeCount p ->
  visible (g p) = visible p ->
  (countsSettled p = true -> countsSettled (g p) = true) ->
  forall n,
    nodeAt n path = Some p -> countsSettled n = true ->
    countsSettled (updateAt n path g) = true.
Proof.
  intros Hc Hv Hs. induction path as [|i path IH]; intros n; simpl.
  - intros H. injection H as ->. exact Hs.
  - destruct (nth_error (children n) i) as [c|] eqn:Hi; [|discriminate].
    intros Hp. rewrite !countsSettled_eq. cbn [visible children renderNodeCount set_children].
    destruct (visible n); [|auto]. intros Hall.
    apply forallb_mapNth with (c := c); auto.
    apply IH; auto. eapply forallb_nth_error; eauto.
Qed.

(** It keeps the tree exact when, in case every node above is on screen,
    it keeps the node exact. *)
Lemma updateAt_exact g p path :
  renderNodeCount (g p) = renderNodeCount p ->
  visible (g p) = visible p ->
  (countsSettled p = true -> countsSettled (g p) = true) ->
  forall n,
    nodeAt n path = Some p -> countsExact n = true ->
    (onScreenAbove n path = true -> countsExact p = true -> countsExact (g p) = true) ->
    countsExact (updateAt n path g) = true.
Proof.
  intros Hc Hv Hs. induction path as [|i path IH]; intros n;
    cbn [nodeAt updateAt onScreenAbove].
  - intros H. injection H as ->. intros He Hon. now apply Hon.
  - destruct (nth_error (children n) i) as [c|] eqn:Hi; [|discriminate].
    intros Hp Hall Hon. rewrite countsExact_eq in Hall |- *.
    cbn [visible collapsed children renderNodeCount set_children].
    destruct (visible n); [|auto]. destruct (collapsed n);
      apply andb_prop in Hall; destruct Hall as [H1 H2]; rewrite andb_true_iff; split.
    + assumption.
    + apply forallb_mapNth with (c := c); auto.
      apply updateAt_settled with (p := p); auto. eapply forallb_nth_error; eauto.
    + rewrite rows_mapNth with (c := c) by assumption.
      rewrite renderNodeCount_updateAt with (p := p) by assumption.
      apply Z.eqb_eq in H1. apply Z.eqb_eq. lia.
    + apply forallb_mapNth with (c := c); auto.
      pose proof (forallb_nth_error _ _ _ Hi H2) as Hce.
      apply IH; auto.
Qed.

(** *** Writing where rows are *)

Lemma renderNodeCount_replaceBumping n path d p p' :
  nodeAt n path = Some p ->
  renderNodeCount p' = renderNodeCount p + d ->
  renderNodeCount (replaceBumping n path d p') = renderNodeCount n + d.
Proof.
  destruct path; simpl; [|reflexivity]. intros H. injection H as ->. auto.
Qed.

(** Replacing a node on screen by an exact one with [d] more rows, and
    raising the render counts above it by [d], keeps the tree exact. *)
Lemma replaceBumping_exact d p p' path :
  renderNodeCount p' = renderNodeCount p + d ->
  countsExact p' = true ->
  forall n,
    nodeAt n path = Some p -> countsExact n = true -> onScreenAbove n path = true ->
    countsExact (replaceBumping n path d p') = true.
Proof.
  intros Hc He. induction path as [|i path IH]; intros n;
    cbn [nodeAt replaceBumping onScreenAbove]; [auto|].
  destruct (nth_error (children n) i) as [c|] eqn:Hi; [|discriminate].
  intros Hp Hall Hon. rewrite countsExact_eq in Hall |- *.
  cbn [visible collapsed children renderNodeCount set_children set_renderNodeCount].
  destruct (visible n); [|discriminate]. destruct (collapsed n); [discriminate|].
  cbn [andb negb] in Hon. apply andb_prop in Hall. destruct Hall as [H1 H2].
  rewrite andb_true_iff; split.
  - rewrite rows_mapNth with (c := c) by assumption.
    rewrite renderNodeCount_replaceBumping with (p := p) by assumption.
    apply Z.eqb_eq in H1. apply Z.eqb_eq. lia.
  - apply forallb_mapNth with (c := c); auto.
    apply IH; auto. eapply forallb_nth_error; eauto.
Qed.

Lemma bumpAlong_replaceBumping d p' path :
  forall n,
    bumpAlong (updateAt n path (fun _ => p')) path d =
    replaceBumping n path d (set_renderNodeCount p' (renderNodeCount p' + d)).
Proof.
  induction path as [|i path IH]; intros n; [reflexivity|].
  cbn [updateAt bumpAlong replaceBumping children set_children renderNodeCount].
  rewrite mapNth_mapNth.
  rewrite mapNth_ext
    with (g := fun c => bumpAlong (updateAt c path (fun _ => p')) path d)
         (h := fun c => replaceBumping c path d
                          (set_renderNodeCount p' (renderNodeCount p' + d)))
    by (intros; apply IH).
  now destruct n.
Qed.

Lemma bumpAlong_zero path : forall n, bumpAlong n path 0 = n.
Proof.
  induction path as [|i path IH]; intros n; cbn [bumpAlong]; rewrite Z.add_0_r.
  - now destruct n.
  - rewrite mapNth_ext with (h := fun c => c) by (intros; apply IH).
    rewrite mapNth_id. now destruct n.
Qed.

Lemma updateAncestors_replaceBumping n path d p' :
  _updateAncestorsRenderNodeCount (updateAt n path (fun _ => p')) (Some path) d =
  replaceBumping n path d (set_renderNodeCount p' (renderNodeCount p' + d)).
Proof.
  rewrite <- bumpAlong_replaceBumping. unfold _updateAncestorsRenderNodeCount.
  destruct (d =? 0) eqn:Hd; [|reflexivity].
  apply Z.eqb_eq in Hd. subst d. now rewrite bumpAlong_zero.
Qed.

(** *** The root, whose own render count is left aside *)

Lemma exactBelow_exact n :
  exactBelow n = true -> renderNodeCount n = 1 + rows (children n) ->
  countsExact n = true.
Proof.
  unfold exactBelow. rewrite countsExact_eq. intros H E.
  apply andb_prop in H. destruct H as [H H3]. apply andb_prop in H. destruct H as [H1 H2].
  rewrite H1. destruct (collapsed n); [discriminate|]. rewrite H3, andb_true_r.
  now apply Z.eqb_eq.
Qed.

Lemma countsExact_below n :
  countsExact n = true -> visible n = true -> collapsed n = false ->
  exactBelow n = true /\ renderNodeCount n = 1 + rows (children n).
Proof.
  unfold exactBelow. rewrite countsExact_eq. intros H Hv Hc. rewrite Hv, Hc in *.
  apply andb_prop in H. destruct H as [H1 H2]. apply Z.eqb_eq in H1. now rewrite H2.
Qed.

Lemma exactBelow_children n :
  exactBelow n = true ->
  visible n = true /\ collapsed n = false /\
  forallb (@countsExact _ _) (children n) = true.
Proof.
  unfold exactBelow. intros H.
  apply andb_prop in H. destruct H as [H H3]. apply andb_prop in H. destruct H as [H1 H2].
  destruct (collapsed n); [discriminate|]. auto.
Qed.

Lemma exactBelow_at n path p :
  exactBelow n = true -> nodeAt n path = Some p -> onScreenAbove n path = true ->
  path <> [] -> countsExact p = true.
Proof.
  intros Hb Hp Hon Hne. destruct path as [|i path]; [congruence|].
  apply exactBelow_children in Hb. destruct Hb as (Hv & Hc & Hall).
  cbn [nodeAt onScreenAbove] in *.
  destruct (nth_error (children n) i) as [c|] eqn:Hi; [|discriminate].
  rewrite Hv, Hc in Hon. eapply countsExact_at; eauto. eapply forallb_nth_error; eauto.
Qed.

Lemma exactBelow_on_screen n path p :
  exactBelow n = true -> nodeAt n path = Some p -> onScreenAbove n path = true ->
  visible p = true -> collapsed p = false ->
  exactBelow p = true /\ (path <> [] -> renderNodeCount p = 1 + rows (children p)).
Proof.
  intros Hb Hp Hon Hv Hc. destruct path as [|i path].
  - cbn in Hp. injection Hp as <-. split; [assumption|congruence].
  - assert (He : countsExact p = true) by (eapply exactBelow_at; eauto; discriminate).
    destruct (countsExact_below _ He Hv Hc). auto.
Qed.

Lemma updateAt_exactBelow g p path :
  renderNodeCount (g p) = renderNodeCount p ->
  visible (g p) = visible p ->
  (countsSettled p = true -> countsSettled (g p) = true) ->
  forall n,
    nodeAt n path = Some p -> exactBelow n = true ->
    (onScreenAbove n path = true -> path <> [] -> countsExact p = true ->
     countsExact (g p) = true) ->
    (path = [] -> exactBelow (g p) = true) ->
    exactBelow (updateAt n path g) = true.
Proof.
  intros Hc Hv Hs n Hp Hb Hon Hroot. destruct path as [|i path].
  { cbn in Hp |- *. injection Hp as ->. now apply Hroot. }
  apply exactBelow_children in Hb. destruct Hb as (Hvn & Hcn & Hall).
  cbn [nodeAt updateAt onScreenAbove] in *. unfold exactBelow.
  cbn [visible collapsed children set_children]. rewrite Hvn, Hcn in *.
  destruct (nth_error (children n) i) as [c|] eqn:Hi; [|discriminate].
  apply forallb_mapNth with (c := c); auto.
  apply updateAt_exact with (p := p); auto.
  - eapply forallb_nth_error; eauto.
  - intros H1 H2. apply Hon; auto. discriminate.
Qed.

Lemma replaceBumping_exactBelow d p p' path :
  renderNodeCount p' = renderNodeCount p + d ->
  forall n,
    nodeAt n path = Some p -> exactBelow n = true -> onScreenAbove n path = true ->
    (path <> [] -> countsExact p' = true) ->
    (path = [] -> exactBelow p' = true) ->
    exactBelow (replaceBumping n path d p') = true.
Proof.
  intros Hc n Hp Hb Hon He Hroot. destruct path as [|i path].
  { cbn. now apply Hroot. }
  apply exactBelow_children in Hb. destruct Hb as (Hvn & Hcn & Hall).
  cbn [nodeAt replaceBumping onScreenAbove] in *. unfold exactBelow.
  cbn [visible collapsed children set_children set_renderNodeCount].
  rewrite Hvn, Hcn in *.
  destruct (nth_error (children n) i) as [c|] eqn:Hi; [|discriminate].
  apply forallb_mapNth with (c := c); auto.
  apply replaceBumping_exact with (p := p); auto.
  - apply He. discriminate.
  - eapply forallb_nth_error; eauto.
Qed.

(** *** [splice] *)

Lemma forallb_firstn (h : node T TFilterData -> bool) k cs :
  forallb h cs = true -> forallb h (firstn k cs) = true.
Proof.
  intros H. rewrite <- (firstn_skipn k cs), forallb_app in H.
  now apply andb_prop in H.
Qed.

Lemma forallb_skipn (h : node T TFilterData -> bool) k cs :
  forallb h cs = true -> forallb h (skipn k cs) = true.
Proof.
  intros H. rewrite <- (firstn_skipn k cs), forallb_app in H.
  now apply andb_prop in H.
Qed.

Lemma forallb_shiftVisibleFrom (h : node T TFilterData -> bool) from by_ cs :
  (forall c i, h (set_visibleChildIndex c i) = h c) ->
  forallb h (shiftVisibleFrom from by_ cs) = forallb h cs.
Proof.
  intros Hh. unfold shiftVisibleFrom.
  rewrite <- (firstn_skipn from cs) at 3. rewrite !forallb_app. f_equal.
  induction (skipn from cs) as [|c l IH]; [reflexivity|]. cbn [map forallb].
  rewrite IH. now destruct (visible c); rewrite ?Hh.
Qed.

Lemma rows_shiftVisibleFrom from by_ cs : rows (shiftVisibleFrom from by_ cs) = rows cs.
Proof.
  unfold shiftVisibleFrom.
  rewrite <- (firstn_skipn from cs) at 3. rewrite !rows_app. f_equal.
  induction (skipn from cs) as [|c l IH]; [reflexivity|]. cbn [map].
  rewrite !rows_cons, IH. now destruct (visible c).
Qed.

(** The children after a splice: [b] tells whether the visible indices
    are shifted. *)
Lemma forallb_spliced (h : node T TFilterData -> bool) (b : bool) from by_ s d cs ins :
  (forall c i, h (set_visibleChildIndex c i) = h c) ->
  forallb h cs = true -> forallb h ins = true ->
  forallb h
    (if b then firstn s cs ++ ins ++ skipn (s + d) cs
     else shiftVisibleFrom from by_ (firstn s cs ++ ins ++ skipn (s + d) cs)) = true.
Proof.
  intros Hh Hcs Hins.
  assert (H : forallb h (firstn s cs ++ ins ++ skipn (s + d) cs) = true).
  { now rewrite !forallb_app, forallb_firstn, Hins, forallb_skipn. }
  destruct b; [assumption|]. now rewrite forallb_shiftVisibleFrom.
Qed.

Lemma rows_spliced (b : bool) from by_ s d cs ins :
  rows (if b then firstn s cs ++ ins ++ skipn (s + d) cs
        else shiftVisibleFrom from by_ (firstn s cs ++ ins ++ skipn (s + d) cs)) =
  rows cs - rows (firstn d (skipn s cs)) + rows ins.
Proof.
  assert (H : rows (firstn s cs ++ ins ++ skipn (s + d) cs) =
              rows cs - rows (firstn d (skipn s cs)) + rows ins).
  { assert (E1 : rows cs = rows (firstn s cs) + rows (skipn s cs))
      by now rewrite <- rows_app, firstn_skipn.
    assert (E2 : rows (skipn s cs) =
                 rows (firstn d (skipn s cs)) + rows (skipn (s + d) cs))
      by now rewrite <- (Nat.add_comm d s), <- skipn_skipn, <- rows_app, firstn_skipn.
    rewrite !rows_app. lia. }
  destruct b; [assumption|]. now rewrite rows_shiftVisibleFrom.
Qed.

Lemma splice_valid m pp p k deleteCount toInsert :
  nodeAt (root m) pp = Some p -> (k <= length (children p))%nat ->
  snd (splice m (map Z.of_nat pp ++ [Z.of_nat k]) deleteCount toInsert) =
  snd (spliceNodes m
         (mkParentWithListIndex pp p (0 + listOffset (root m) pp k)
            (true && expandedAlong (root m) pp) (true && visibleAlong (root m) pp))
         (Z.of_nat k) deleteCount toInsert).
Proof.
  intros Hp Hk. unfold splice.
  destruct (map Z.of_nat pp ++ [Z.of_nat k]) eqn:Hloc; [destruct pp; discriminate|].
  rewrite <- Hloc. rewrite getParentNodeWithListIndex_valid with (p := p) by assumption.
  rewrite last_last. cbn [app]. now destruct (spliceNodes _ _ _ _ _).
Qed.

Lemma spliceNodes_exactBelow m pp p li lastIndex deleteCount toInsert :
  nodeAt (root m) pp = Some p -> exactBelow (root m) = true ->
  let r := mkParentWithListIndex pp p li
             (true && expandedAlong (root m) pp) (true && visibleAlong (root m) pp) in
  let m' := snd (spliceNodes m r lastIndex deleteCount toInsert) in
  exactBelow (root m') = true /\ collapsible (root m') = collapsible (root m).
Proof.
  intros Hp Hb r m'. subst m'. rewrite spliceNodes_eq. cbv zeta. subst r.
  cbn [parentNode parentPath p_revealed p_visible p_listIndex andb snd].
  match goal with
  | |- context [createNodesToInsert m p ?rev ?start toInsert ?init] =>
      pose proof (@createNodesToInsert_exact m p rev start toInsert init eq_refl eq_refl)
        as Hcr;
      cbv zeta in Hcr;
      set (created := createNodesToInsert m p rev start toInsert init) in *
  end.
  destruct Hcr as [Hins Hrnc].
  set (s := spliceStart (children p) lastIndex).
  set (d := spliceCount (children p) lastIndex deleteCount).
  set (deleted := firstn d (skipn s (children p))).
  set (b := countVisible deleted =? 0).
  set (from := Z.to_nat (lastIndex + Z.of_nat (length (fst (fst (fst created)))))).
  set (cs2 := if b then _ else _).
  set (vcc := visibleChildrenCount p + _).
  fold (rows deleted).
  assert (Hrows : rows cs2 = rows (children p) - rows deleted + rows (fst (fst (fst created))))
    by apply rows_spliced.
  rewrite (onScreen_split _ _ Hp).
  destruct (onScreenAbove (root m) pp && (visible p && negb (collapsed p))) eqn:Hon;
    cbn [root].
  - apply andb_prop in Hon. destruct Hon as [Hon Hvc].
    apply andb_prop in Hvc. destruct Hvc as [Hv Hc]. apply negb_true_iff in Hc.
    destruct (exactBelow_on_screen _ _ Hb Hp Hon Hv Hc) as [Hbp Hcount].
    apply exactBelow_children in Hbp. destruct Hbp as (_ & _ & Hall).
    rewrite updateAncestors_replaceBumping.
    assert (Hb2 : exactBelow
                    (set_renderNodeCount (set_visibleChildrenCount (set_children p cs2) vcc)
                       (renderNodeCount p + (snd (fst created) - rows deleted))) = true).
    { unfold exactBelow. cbn [visible collapsed children set_renderNodeCount
        set_visibleChildrenCount set_children]. rewrite Hv, Hc. cbn [andb negb].
      apply forallb_spliced; auto using countsExact_set_visibleChildIndex. }
    split.
    + apply replaceBumping_exactBelow with (p := p); auto.
      intros Hne. apply exactBelow_exact; [exact Hb2|].
      cbn [renderNodeCount children set_renderNodeCount set_visibleChildrenCount
        set_children]. rewrite Hrows, (Hcount Hne), Hrnc. lia.
    + destruct pp as [|i pp]; [cbn in Hp |- *; now injection Hp as ->|reflexivity].
  - split.
    + apply updateAt_exactBelow with (p := p); auto.
      * rewrite !countsSettled_eq.
        cbn [visible renderNodeCount children set_visibleChildrenCount set_children].
        destruct (visible p); [|auto]. intros Hall.
        apply forallb_spliced; auto using countsSettled_set_visibleChildIndex.
        now apply forallb_exact_settled.
      * intros Hon' _. rewrite Hon' in Hon. cbn [andb] in Hon.
        rewrite !countsExact_eq.
        cbn [visible collapsed renderNodeCount children set_visibleChildrenCount
          set_children].
        destruct (visible p); [|auto]. destruct (collapsed p); [|discriminate].
        intros Hall. apply andb_prop in Hall. destruct Hall as [H1 H2].
        rewrite H1. cbn [andb].
        apply forallb_spliced; auto using countsSettled_set_visibleChildIndex.
        now apply forallb_exact_settled.
      * intros ->. cbn in Hp. injection Hp as <-. cbn [onScreenAbove andb] in Hon.
        apply exactBelow_children in Hb. destruct Hb as (Hv & Hc & _).
        rewrite Hv, Hc in Hon. discriminate.
    + destruct pp as [|i pp]; [cbn in Hp |- *; now injection Hp as ->|reflexivity].
Qed.

(** *** [setCollapsed] *)

Lemma bumpAlong_replaceBumping_snoc d x i path :
  forall n,
    bumpAlong (updateAt n (path ++ [i]) (fun _ => x)) path d =
    replaceBumping n (path ++ [i]) d x.
Proof.
  induction path as [|j path IH]; intros n.
  - cbn [app updateAt bumpAlong replaceBumping]. now destruct n.
  - cbn [app updateAt bumpAlong replaceBumping children set_children renderNodeCount].
    rewrite mapNth_mapNth.
    rewrite mapNth_ext
      with (g := fun c => bumpAlong (updateAt c (path ++ [i]) (fun _ => x)) path d)
           (h := fun c => replaceBumping c (path ++ [i]) d x)
      by (intros; apply IH).
    now destruct n.
Qed.

Lemma updateAncestors_replaceBumping_snoc n path i d x :
  _updateAncestorsRenderNodeCount (updateAt n (path ++ [i]) (fun _ => x))
    (parentOf (path ++ [i])) d =
  replaceBumping n (path ++ [i]) d x.
Proof.
  rewrite <- bumpAlong_replaceBumping_snoc. unfold _updateAncestorsRenderNodeCount, parentOf.
  destruct (path ++ [i]) eqn:E; [destruct path; discriminate|]. rewrite <- E.
  rewrite removelast_snoc.
  destruct (d =? 0) eqn:Hd; [|reflexivity].
  apply Z.eqb_eq in Hd. subst d. now rewrite bumpAlong_zero.
Qed.

Lemma visibleAlong_erase n path : visibleAlong (erase Collapse n) path = visibleAlong n path.
Proof.
  revert n; induction path as [|i path IH]; intros n; rewrite erase_eq; cbn; [reflexivity|].
  rewrite nth_error_map. destruct (nth_error (children n) i); cbn; now rewrite ?IH.
Qed.

Lemma onlyVisibleChildFrom_visible cs :
  forall i only,
    let k := onlyVisibleChildFrom cs i only in
    -1 < k -> 0 <= i ->
    k = only \/
    (i <= k /\ exists c, nth_error cs (Z.to_nat (k - i)) = Some c /\ visible c = true).
Proof.
  induction cs as [|c cs IH]; intros i only; cbn [onlyVisibleChildFrom]; [auto|].
  destruct (visible c) eqn:Hv.
  - destruct (only >? -1); [lia|]. intros Hk Hi.
    destruct (IH (i + 1) i Hk ltac:(lia)) as [E|(Hle & c' & Hc' & Hv')].
    + right. rewrite E, Z.sub_diag. split; [lia|]. exists c. auto.
    + right. split; [lia|]. exists c'. split; [|assumption].
      replace (Z.to_nat (onlyVisibleChildFrom cs (i + 1) i - i))
        with (S (Z.to_nat (onlyVisibleChildFrom cs (i + 1) i - (i + 1)))) by lia.
      exact Hc'.
  - intros Hk Hi.
    destruct (IH (i + 1) only Hk ltac:(lia)) as [E|(Hle & c' & Hc' & Hv')]; [auto|].
    right. split; [lia|]. exists c'. split; [|assumption].
    replace (Z.to_nat (onlyVisibleChildFrom cs (i + 1) only - i))
      with (S (Z.to_nat (onlyVisibleChildFrom cs (i + 1) only - (i + 1)))) by lia.
    exact Hc'.
Qed.

Lemma onlyVisibleChild_visible n c :
  -1 < onlyVisibleChildFrom (children n) 0 (-1) ->
  nth_error (children n) (Z.to_nat (onlyVisibleChildFrom (children n) 0 (-1))) = Some c ->
  visible c = true.
Proof.
  intros Hk Hc.
  destruct (@onlyVisibleChildFrom_visible (children n) 0 (-1) Hk ltac:(lia))
    as [E|(_ & c' & Hc' & Hv')]; [lia|].
  rewrite Z.sub_0_r in Hc'. congruence.
Qed.

Lemma getTreeNodeWithListIndex_at rt path x :
  nodeAt rt path = Some x ->
  exists listIndex vis,
    getTreeNodeWithListIndex rt (map Z.of_nat path) =
    Ok (mkNodeWithListIndex (Some (path, x)) listIndex
          (match path with [] => true | _ => expandedAlong rt (removelast path) end)
          vis).
Proof.
  intros Hx. destruct path as [|i pp _] using rev_ind.
  - simpl in *. injection Hx as <-. eauto.
  - rewrite getTreeNodeWithListIndex_valid with (x := x) by assumption.
    rewrite removelast_snoc. destruct (pp ++ [i]) eqn:E; [destruct pp; discriminate|].
    eauto.
Qed.

(** One call of [_setListNodeCollapsed] on a node that has no rows, or
    that is visible with all the nodes above it. *)
Lemma setListNodeCollapsed_exactBelow m path n listIndex collapsed_ recursive :
  nodeAt (root m) path = Some n ->
  exactBelow (root m) = true -> collapsible (root m) = false ->
  let revealed :=
    match path with [] => true | _ => expandedAlong (root m) (removelast path) end in
  (revealed && visible n = true -> visibleAlong (root m) path = true) ->
  exactBelow
    (root (snd (_setListNodeCollapsed m (Some (path, n)) listIndex revealed
                  collapsed_ recursive))) = true.
Proof.
  intros Hn Hb Hroot revealed Hvis. rewrite setListNodeCollapsed_eq. cbv zeta.
  set (n1 := fst (_setNodeCollapsed n collapsed_ recursive)).
  assert (Hc1 : renderNodeCount n1 = renderNodeCount n)
    by apply renderNodeCount_setNodeCollapsed.
  assert (Hv1 : visible n1 = visible n) by apply visible_setNodeCollapsed.
  assert (Hs1 : countsSettled n1 = countsSettled n)
    by apply countsSettled_setNodeCollapsed.
  destruct (exactBelow_children _ Hb) as (Hvr & Hcr & Hall).
  destruct (negb revealed || negb (visible n)) eqn:Hoff; cbn [snd root set_root set_renderList].
  - apply updateAt_exactBelow with (p := n); auto; [congruence| |].
    + intros Hon Hne. rewrite !countsExact_eq, Hv1, Hc1.
      destruct (visible n) eqn:Hv; [|auto]. exfalso.
      destruct path as [|i pp _] using rev_ind; [congruence|].
      subst revealed. rewrite removelast_snoc in Hoff.
      destruct (pp ++ [i]) eqn:E; [destruct pp; discriminate|]. rewrite <- E in *.
      rewrite nodeAt_app in Hn. destruct (nodeAt (root m) pp) as [p|] eqn:Hp; [|discriminate].
      rewrite onScreenAbove_snoc with (p := p) in Hon by assumption.
      rewrite <- onScreen_split in Hon by assumption.
      apply andb_prop in Hon. destruct Hon as [He _]. rewrite He in Hoff. discriminate.
    + intros ->. subst revealed. cbn in Hn. injection Hn as <-.
      rewrite Hvr in Hoff. discriminate.
  - apply orb_false_iff in Hoff. destruct Hoff as [Hrev Hv].
    apply negb_false_iff in Hrev, Hv. rewrite Hrev, Hv in Hvis. specialize (Hvis eq_refl).
    assert (Hrc : renderNodeCount (recount n1) = Z.of_nat (length (revealedNodes n1)))
      by (apply renderNodeCount_recount; congruence).
    destruct path as [|i pp _] using rev_ind.
    + cbn in Hn. injection Hn as <-.
      unfold _updateAncestorsRenderNodeCount, parentOf. cbn [updateAt].
      assert (He : countsExact (recount n1) = true).
      { apply recount_exact. rewrite Hs1, countsSettled_eq, Hvr.
        now apply forallb_exact_settled. }
      assert (E : exactBelow (recount n1) = true).
      { apply countsExact_below; auto.
        - destruct (recount_flags n1) as [-> _]. congruence.
        - destruct (recount_flags n1) as [_ ->]. subst n1.
          rewrite collapsed_setNodeCollapsed, Hroot. assumption. }
      now destruct (_ =? 0).
    + rewrite updateAncestors_replaceBumping_snoc.
      subst revealed. rewrite removelast_snoc in Hrev.
      destruct (pp ++ [i]) eqn:E; [destruct pp; discriminate|]. rewrite <- E in *.
      pose proof Hn as Hn'.
      rewrite nodeAt_app in Hn'.
      destruct (nodeAt (root m) pp) as [p|] eqn:Hp; [|discriminate].
      rewrite visibleAlong_snoc with (x := n) in Hvis by assumption.
      apply andb_prop in Hvis. destruct Hvis as [Hva _].
      assert (Hon : onScreenAbove (root m) (pp ++ [i]) = true).
      { rewrite onScreenAbove_snoc with (p := p) by assumption.
        rewrite <- onScreen_split by assumption. now rewrite Hrev, Hva. }
      assert (Hne : pp ++ [i] <> []) by (rewrite E; discriminate).
      pose proof (exactBelow_at _ Hb Hn Hon Hne) as Hen.
      apply replaceBumping_exactBelow with (p := n); auto.
      * rewrite Hrc. lia.
      * intros _. apply recount_exact. rewrite Hs1. now apply countsExact_settled.
Qed.

Lemma collapsible_of_erase w n n' :
  erase w n = erase w n' -> collapsible n = collapsible n'.
Proof. rewrite !erase_eq. intros H. now injection H. Qed.

(** *** [refilter] *)

Lemma hidesOnlyEmpty_eq f pv n :
  hidesOnlyEmpty f pv n =
  match snd (filterResult f (element n) pv) with
  | Hidden => renderNodeCount n =? 0
  | v => forallb (hidesOnlyEmpty f (Some v)) (children n)
  end.
Proof. now destruct n. Qed.

Lemma countsFor_set_visibleChildIndex revealed n i :
  countsFor revealed (set_visibleChildIndex n i) = countsFor revealed n.
Proof.
  destruct revealed;
    [apply countsExact_set_visibleChildIndex|apply countsSettled_set_visibleChildIndex].
Qed.

Lemma revealedNodes_set_visibleChildIndex n i :
  revealedNodes (set_visibleChildIndex n i) = revealedNodes n.
Proof. now rewrite !revealedNodes_eq. Qed.

Lemma rowsFor_app revealed cs1 cs2 :
  rowsFor revealed (cs1 ++ cs2) = rowsFor revealed cs1 ++ rowsFor revealed cs2.
Proof. destruct revealed; [apply flat_map_app|reflexivity]. Qed.

Lemma rowsFor_hidden revealed cs :
  existsb (@visible _ _) cs = false -> rowsFor revealed cs = [].
Proof.
  destruct revealed; [|reflexivity]. cbn [rowsFor].
  induction cs as [|c cs IH]; [reflexivity|]. cbn [existsb flat_map].
  intros H. apply orb_false_iff in H. destruct H as [Hc Hcs].
  rewrite revealedNodes_eq, Hc. now apply IH.
Qed.

Lemma refilterChildren_exact f v cr base cs :
  Forall (refilterExact f) cs ->
  forallb (hidesOnlyEmpty f v) cs = true ->
  forall init,
    forallb (countsFor cr) (fst (fst (fst init))) = true ->
    snd init = base ++ rowsFor cr (fst (fst (fst init))) ->
    snd (fst init) = existsb (@visible _ _) (fst (fst (fst init))) ->
    let out := refilterChildren f v cr cs init in
    forallb (countsFor cr) (fst (fst (fst out))) = true /\
    snd out = base ++ rowsFor cr (fst (fst (fst out))) /\
    snd (fst out) = existsb (@visible _ _) (fst (fst (fst out))).
Proof.
  induction 1 as [|c cs Hc _ IH]; intros Hh init H1 H2 H3; [cbn; auto|].
  cbv zeta. rewrite refilterChildren_cons.
  cbn [forallb] in Hh. apply andb_prop in Hh. destruct Hh as [Hhc Hhcs].
  specialize (Hc v (snd init) cr Hhc). cbv zeta in Hc.
  destruct (refilterNode_resolves f c v (snd init) cr) as (_ & Hb & _).
  destruct init as [[[cs0 vci0] hvd0] res0].
  destruct (_updateNodeAfterFilterChange f false c v _ cr) as [[c' b] res1].
  cbn [fst snd pushRefiltered] in *. destruct Hc as [Hc1 Hc2].
  apply IH; [assumption|..]; cbn [fst snd].
  - rewrite forallb_app, H1. cbn [forallb]. rewrite andb_true_r.
    destruct (visible c'); [now rewrite countsFor_set_visibleChildIndex|assumption].
  - rewrite rowsFor_app, Hc2, H2, <- app_assoc. do 2 f_equal.
    destruct cr; [|reflexivity]. cbn [rowsFor flat_map].
    now destruct (visible c'); rewrite ?revealedNodes_set_visibleChildIndex.
  - rewrite existsb_app, H3, Hb. cbn [existsb]. rewrite orb_false_r.
    destruct (visible c') eqn:Hv; cbn [visible set_visibleChildIndex]; rewrite ?Hv;
      apply orb_comm.
Qed.

Lemma rowsFor_nil revealed : rowsFor revealed (@nil (node T TFilterData)) = [].
Proof. now destruct revealed. Qed.

(** The end of [_updateNodeAfterFilterChange] on a node that is left
    visible, its children being done. *)
Lemma finishRefiltered_shown v (revealed : bool) result result1 n3 hvd res2 :
  match v with Recurse => hvd | Visible => true | Hidden => false end = true ->
  renderNodeCount n3 = 1 ->
  result1 = (if revealed then result ++ [nid n3] else result) ->
  forallb (countsFor (revealed && negb (collapsed n3))) (children n3) = true ->
  res2 = result1 ++ rowsFor (revealed && negb (collapsed n3)) (children n3) ->
  let out := finishRefiltered false (Some v) revealed (length result1) n3 hvd res2 in
  countsFor revealed (fst (fst out)) = true /\
  snd out = result ++ rowsFor revealed [fst (fst out)].
Proof.
  intros Hv Hc -> Hall Hres. cbv zeta. unfold finishRefiltered.
  rewrite Hv. cbn [visible set_visible negb collapsed].
  destruct (collapsed n3) eqn:Hcol, revealed; cbn [negb andb fst snd] in *;
    unfold countsFor, rowsFor in *; cbn [flat_map];
    rewrite ?countsExact_eq, ?countsSettled_eq, ?revealedNodes_eq;
    cbn [visible collapsed renderNodeCount children nid set_visible set_renderNodeCount];
    rewrite ?Hcol, ?Hc, ?app_nil_r in *; subst res2.
  - split; [assumption|reflexivity].
  - split; [assumption|reflexivity].
  - change (forallb (@countsExact _ _) (children n3) = true) in Hall.
    rewrite Hall, andb_true_r. split.
    + rewrite (rows_exact _ Hall), !length_app. apply Z.eqb_eq. lia.
    + now rewrite <- app_assoc.
  - split; [assumption|reflexivity].
Qed.

(** The same on a node that is left hidden. *)
Lemma finishRefiltered_hidden v (revealed : bool) result n3 hvd res2 :
  match v with Recurse => hvd | Visible => true | Hidden => false end = false ->
  res2 = (if revealed then result ++ [nid n3] else result) ->
  forall k,
    let out := finishRefiltered false (Some v) revealed k n3 hvd res2 in
    countsFor revealed (fst (fst out)) = true /\
    snd out = result ++ rowsFor revealed [fst (fst out)].
Proof.
  intros Hv Hres k. cbv zeta. unfold finishRefiltered.
  rewrite Hv. cbn [visible set_visible negb fst snd]. subst res2.
  destruct revealed; unfold countsFor, rowsFor; cbn [flat_map];
    rewrite ?countsExact_eq, ?countsSettled_eq, ?revealedNodes_eq;
    cbn [visible renderNodeCount set_visible set_renderNodeCount];
    rewrite ?removelast_snoc, ?app_nil_r; auto.
Qed.

Lemma refilterNode_exact f n : refilterExact f n.
Proof.
  induction n as [n IH] using node_ind.
  intros pv result revealed Hh. rewrite hidesOnlyEmpty_eq in Hh.
  rewrite refilterNode_eq. cbv zeta. rewrite filterNode_fst.
  destruct (snd (filterResult f (element n) pv)) eqn:Ev; cbn [isHidden].
  - cbn [fst snd]. split.
    + unfold countsFor. rewrite countsExact_eq, countsSettled_eq.
      cbn [visible set_visible set_filterData renderNodeCount]. now destruct revealed.
    + unfold rowsFor. destruct revealed; cbn [flat_map]; rewrite ?revealedNodes_eq;
        cbn [visible set_visible]; now rewrite ?app_nil_r.
  - match goal with
    | |- context [refilterChildren f ?v ?cr ?cs ?init] =>
        pose proof (@refilterChildren_exact f v cr (snd init) cs IH Hh init eq_refl) as Hfold;
        cbv zeta in Hfold;
        specialize (Hfold ltac:(cbn [fst snd]; now rewrite rowsFor_nil, app_nil_r) eq_refl);
        destruct (refilterChildren f v cr cs init) as [[[cs' vci] hvd] res2]
    end.
    cbn [fst snd] in Hfold. destruct Hfold as (F1 & F2 & F3).
    apply finishRefiltered_shown with (result := result);
      [reflexivity|reflexivity|reflexivity|exact F1|exact F2].
  - match goal with
    | |- context [refilterChildren f ?v ?cr ?cs ?init] =>
        pose proof (@refilterChildren_exact f v cr (snd init) cs IH Hh init eq_refl) as Hfold;
        cbv zeta in Hfold;
        specialize (Hfold ltac:(cbn [fst snd]; now rewrite rowsFor_nil, app_nil_r) eq_refl);
        destruct (refilterChildren f v cr cs init) as [[[cs' vci] hvd] res2]
    end.
    cbn [fst snd] in Hfold. destruct Hfold as (F1 & F2 & F3).
    destruct hvd eqn:Hhvd.
    + apply finishRefiltered_shown with (result := result);
        [reflexivity|reflexivity|reflexivity|exact F1|exact F2].
    + apply finishRefiltered_hidden with (result := result); [reflexivity|].
      rewrite F2, rowsFor_hidden by auto. now rewrite app_nil_r.
Qed.

Lemma refilter_exactBelow m :
  exactBelow (root m) = true ->
  forallb (hidesOnlyEmpty (filter m) None) (children (root m)) = true ->
  exactBelow (root (refilter m)) = true.
Proof.
  intros Hb Hh. destruct (exactBelow_children _ Hb) as (Hv & Hc & _).
  unfold refilter, updateNodeAfterFilterChange. rewrite refilterRoot_eq. cbv zeta.
  match goal with
  | |- context [refilterChildren ?f ?v ?cr ?cs ?init] =>
      pose proof (@refilterChildren_exact f v cr [] cs) as Hfold;
      specialize (Hfold ltac:(apply Forall_forall; intros; apply refilterNode_exact)
                        Hh init eq_refl);
      cbv zeta in Hfold;
      specialize (Hfold ltac:(cbn [fst snd]; now rewrite rowsFor_nil) eq_refl);
      destruct (refilterChildren f v cr cs init) as [[[cs' vci] hvd] res2]
  end.
  cbn [fst snd] in Hfold. destruct Hfold as (F1 & _). rewrite Hc in F1.
  unfold finishRefiltered, _updateAncestorsRenderNodeCount.
  cbn [visible collapsed set_visibleChildrenCount set_children set_renderNodeCount].
  rewrite Hv, Hc. cbn [negb].
  destruct (_ =? 0); cbn [root set_root set_renderList]; unfold exactBelow;
    cbn [visible collapsed children set_visibleChildrenCount set_children
      set_renderNodeCount]; rewrite Hv, Hc; exact F1.
Qed.

(** *** Hidden nodes have no rows *)

Lemma hiddenEmpty_eq n :
  hiddenEmpty n =
  (visible n || (renderNodeCount n =? 0)) && forallb (@hiddenEmpty _ _) (children n).
Proof. now destruct n. Qed.

Lemma hiddenEmpty_set_visibleChildIndex n i :
  hiddenEmpty (set_visibleChildIndex n i) = hiddenEmpty n.
Proof. now rewrite !hiddenEmpty_eq. Qed.

Lemma hiddenEmpty_children n :
  hiddenEmpty n = true -> forallb (@hiddenEmpty _ _) (children n) = true.
Proof. rewrite hiddenEmpty_eq. intros H. now apply andb_prop in H. Qed.

Lemma hiddenEmpty_hidden n :
  hiddenEmpty n = true -> visible n = false -> renderNodeCount n = 0.
Proof.
  rewrite hiddenEmpty_eq. intros H Hv. rewrite Hv in H.
  apply andb_prop in H. destruct H as [H _]. now apply Z.eqb_eq.
Qed.

Lemma hiddenEmpty_at n path p :
  hiddenEmpty n = true -> nodeAt n path = Some p -> hiddenEmpty p = true.
Proof.
  revert n; induction path as [|i path IH]; intros n Hn; cbn [nodeAt].
  - congruence.
  - destruct (nth_error (children n) i) as [c|] eqn:Hi; [|discriminate].
    apply IH. eapply forallb_nth_error; eauto using hiddenEmpty_children.
Qed.

Lemma updateAt_hiddenEmpty g p path :
  renderNodeCount (g p) = renderNodeCount p ->
  visible (g p) = visible p ->
  forallb (@hiddenEmpty _ _) (children (g p)) = true ->
  forall n,
    nodeAt n path = Some p -> hiddenEmpty n = true ->
    hiddenEmpty (updateAt n path g) = true.
Proof.
  intros Hc Hv Hcs. induction path as [|i path IH]; intros n; cbn [nodeAt updateAt].
  - intros H. injection H as ->. rewrite !hiddenEmpty_eq, Hc, Hv, Hcs.
    now destruct (visible p || _).
  - destruct (nth_error (children n) i) as [c|] eqn:Hi; [|discriminate].
    intros Hp. rewrite !hiddenEmpty_eq. cbn [visible renderNodeCount children set_children].
    intros H. apply andb_prop in H. destruct H as [-> H].
    apply forallb_mapNth with (c := c); auto.
    apply IH; auto. eapply forallb_nth_error; eauto.
Qed.

Lemma replaceBumping_hiddenEmpty d p p' path :
  hiddenEmpty p' = true ->
  forall n,
    nodeAt n path = Some p -> visibleAbove n path = true -> hiddenEmpty n = true ->
    hiddenEmpty (replaceBumping n path d p') = true.
Proof.
  intros Hp'. induction path as [|i path IH]; intros n;
    cbn [nodeAt replaceBumping visibleAbove]; [auto|].
  destruct (nth_error (children n) i) as [c|] eqn:Hi; [|discriminate].
  intros Hp Hv. apply andb_prop in Hv. destruct Hv as [Hv Hva].
  rewrite !hiddenEmpty_eq.
  cbn [visible renderNodeCount children set_children set_renderNodeCount].
  rewrite Hv. cbn [orb andb]. intros H.
  apply forallb_mapNth with (c := c); auto.
  apply IH; auto. eapply forallb_nth_error; eauto.
Qed.

Lemma visibleAlong_visibleAbove n path :
  visibleAlong n path = true -> visibleAbove n path = true.
Proof.
  revert n; induction path as [|i path IH]; intros n; cbn; [auto|].
  destruct (visible n); [|discriminate]. cbn.
  destruct (nth_error (children n) i); auto.
Qed.

Lemma createChildren_forallb (h : node T TFilterData -> bool) cbd f id pd v cr els :
  (forall c i, h (set_visibleChildIndex c i) = h c) ->
  Forall (fun el => forall pid pd pv rev st,
            h (fst (createTreeNode cbd f el pid pd pv rev st)) = true) els ->
  forall init,
    forallb h (fst (fst (fst init))) = true ->
    forallb h (fst (fst (fst (createChildren cbd f id pd v cr els init)))) = true.
Proof.
  intros Hh. induction 1 as [|el els Hel _ IH]; intros init H1; [assumption|].
  rewrite createChildren_cons. apply IH.
  specialize (Hel id pd v cr (snd init)).
  destruct init as [[[cs0 vcc0] rnc0] st0].
  destruct (createTreeNode cbd f el id pd v cr _) as [c s1].
  cbn [fst snd pushChild] in *. rewrite forallb_app, H1. cbn [forallb].
  rewrite andb_true_r. now destruct (visible c); rewrite ?Hh.
Qed.

Lemma createTreeNode_hiddenEmpty cbd f el :
  forall pid pd pv rev st,
    hiddenEmpty (fst (createTreeNode cbd f el pid pd pv rev st)) = true.
Proof.
  induction el as [el IH] using element_ind.
  intros pid pd pv rev [id tl]. rewrite createTreeNode_eq. cbv zeta.
  match goal with
  | |- context [createChildren cbd f id ?pd ?v ?cr ?els ?init] =>
      pose proof (@createChildren_forallb (@hiddenEmpty _ _) cbd f id pd v cr els
                    hiddenEmpty_set_visibleChildIndex IH init eq_refl) as Hch;
      set (created := createChildren cbd f id pd v cr els init) in *
  end.
  match goal with
  | |- context [finishNode ?n1 ?v ?r created] =>
      pose proof (finishNode_fields n1 v r created) as Hf; cbv zeta in Hf;
      set (out := finishNode n1 v r created) in *
  end.
  destruct Hf as (_ & _ & _ & F4 & _ & _ & _ & _ & F9 & F10 & _).
  rewrite hiddenEmpty_eq, F9, F10, F4, Hch.
  now destruct (if visibility_eqb _ Recurse then _ else _).
Qed.

Lemma createNodesToInsert_hiddenEmpty m p revealed start els :
  forall init,
    forallb (@hiddenEmpty _ _) (fst (fst (fst init))) = true ->
    forallb (@hiddenEmpty _ _)
      (fst (fst (fst (createNodesToInsert m p revealed start els init)))) = true.
Proof.
  induction els as [|el els IH]; intros init H1; [assumption|].
  rewrite createNodesToInsert_cons. apply IH.
  pose proof (@createTreeNode_hiddenEmpty (collapseByDefault m) (filter m) el (nid p)
                (depth p) (if visible p then Visible else Hidden) revealed (snd init))
    as Hel.
  destruct init as [[[cs0 vcc0] rnc0] st0].
  destruct (createTreeNode _ _ el _ _ _ _ _) as [c s1].
  cbn [fst snd pushInserted] in *. rewrite forallb_app, H1. cbn [forallb].
  rewrite andb_true_r.
  now destruct (visible c); rewrite ?hiddenEmpty_set_visibleChildIndex.
Qed.

Lemma spliceNodes_hiddenEmpty m pp p li lastIndex deleteCount toInsert :
  nodeAt (root m) pp = Some p -> hiddenEmpty (root m) = true ->
  let r := mkParentWithListIndex pp p li
             (true && expandedAlong (root m) pp) (true && visibleAlong (root m) pp) in
  hiddenEmpty (root (snd (spliceNodes m r lastIndex deleteCount toInsert))) = true.
Proof.
  intros Hp Hh r. rewrite spliceNodes_eq. cbv zeta. subst r.
  cbn [parentNode parentPath p_revealed p_visible p_listIndex andb snd].
  match goal with
  | |- context [createNodesToInsert m p ?rev ?start toInsert ?init] =>
      pose proof (@createNodesToInsert_hiddenEmpty m p rev start toInsert init eq_refl)
        as Hins;
      set (created := createNodesToInsert m p rev start toInsert init) in *
  end.
  set (s := spliceStart (children p) lastIndex).
  set (d := spliceCount (children p) lastIndex deleteCount).
  set (deleted := firstn d (skipn s (children p))).
  set (b := countVisible deleted =? 0).
  set (from := Z.to_nat (lastIndex + Z.of_nat (length (fst (fst (fst created)))))).
  set (cs2 := if b then _ else _).
  set (vcc := visibleChildrenCount p + _).
  pose proof (hiddenEmpty_at _ _ Hh Hp) as Hhp.
  assert (Hcs2 : forallb (@hiddenEmpty _ _) cs2 = true).
  { apply forallb_spliced; auto using hiddenEmpty_set_visibleChildIndex, hiddenEmpty_children. }
  rewrite (onScreen_split _ _ Hp).
  destruct (onScreenAbove (root m) pp && (visible p && negb (collapsed p))) eqn:Hon;
    cbn [root].
  - apply andb_prop in Hon. destruct Hon as [Hon Hvc].
    apply andb_prop in Hvc. destruct Hvc as [Hv _].
    rewrite updateAncestors_replaceBumping.
    apply replaceBumping_hiddenEmpty with (p := p); auto using onScreenAbove_visibleAbove.
    rewrite hiddenEmpty_eq.
    cbn [visible renderNodeCount children set_renderNodeCount set_visibleChildrenCount
      set_children]. now rewrite Hv, Hcs2.
  - apply updateAt_hiddenEmpty with (p := p); auto.
Qed.

Lemma hiddenEmpty_setNodeCollapsed n collapsed_ recursive :
  hiddenEmpty (fst (_setNodeCollapsed n collapsed_ recursive)) = hiddenEmpty n.
Proof.
  revert recursive. induction n as [n IH] using node_ind. intros recursive.
  rewrite (hiddenEmpty_eq n), hiddenEmpty_eq, visible_setNodeCollapsed,
    renderNodeCount_setNodeCollapsed, children_setNodeCollapsed.
  f_equal. destruct recursive; [|reflexivity].
  induction IH as [|c cs Hc _ IHcs]; [reflexivity|]. cbn [map forallb].
  now rewrite Hc, IHcs.
Qed.

Lemma hiddenEmpty_recount n : hiddenEmpty n = true -> hiddenEmpty (recount n) = true.
Proof.
  induction n as [n IH] using node_ind. rewrite recount_eq, (hiddenEmpty_eq n).
  destruct (visible n) eqn:Hv; [|now rewrite hiddenEmpty_eq, Hv].
  cbn [orb andb]. intros Hall. rewrite hiddenEmpty_eq.
  destruct (collapsed n);
    cbn [visible children set_renderNodeCount set_children]; rewrite Hv; [assumption|].
  cbn [orb andb]. induction IH as [|c cs Hc _ IHcs]; [reflexivity|].
  cbn [forallb map] in *. apply andb_prop in Hall. destruct Hall as [H1 H2].
  now rewrite Hc, IHcs.
Qed.

Lemma setListNodeCollapsed_hiddenEmpty m path n listIndex revealed collapsed_ recursive :
  nodeAt (root m) path = Some n -> hiddenEmpty (root m) = true ->
  (revealed && visible n = true -> visibleAlong (root m) path = true) ->
  hiddenEmpty
    (root (snd (_setListNodeCollapsed m (Some (path, n)) listIndex revealed
                  collapsed_ recursive))) = true.
Proof.
  intros Hn Hh Hvis. rewrite setListNodeCollapsed_eq. cbv zeta.
  set (n1 := fst (_setNodeCollapsed n collapsed_ recursive)).
  assert (Hh1 : hiddenEmpty n1 = true).
  { unfold n1. rewrite hiddenEmpty_setNodeCollapsed. eapply hiddenEmpty_at; eauto. }
  destruct (negb revealed || negb (visible n)) eqn:Hoff; cbn [snd root set_root set_renderList].
  - apply updateAt_hiddenEmpty with (p := n); auto using hiddenEmpty_children.
    + apply renderNodeCount_setNodeCollapsed.
    + apply visible_setNodeCollapsed.
  - apply orb_false_iff in Hoff. destruct Hoff as [Hrev Hv].
    apply negb_false_iff in Hrev, Hv. rewrite Hrev, Hv in Hvis. specialize (Hvis eq_refl).
    destruct path as [|i pp _] using rev_ind.
    + unfold _updateAncestorsRenderNodeCount, parentOf. cbn [updateAt].
      destruct (_ =? 0); now apply hiddenEmpty_recount.
    + rewrite updateAncestors_replaceBumping_snoc.
      apply replaceBumping_hiddenEmpty with (p := n);
        auto using hiddenEmpty_recount, visibleAlong_visibleAbove.
Qed.

Lemma refilterChildren_hiddenEmpty f v cr cs :
  Forall (refilterHidden f) cs ->
  forallb (hidesOnlyEmpty f v) cs = true ->
  forallb (@hiddenEmpty _ _) cs = true ->
  forall init,
    forallb (@hiddenEmpty _ _) (fst (fst (fst init))) = true ->
    forallb (@hiddenEmpty _ _) (fst (fst (fst (refilterChildren f v cr cs init)))) = true.
Proof.
  induction 1 as [|c cs Hc _ IH]; intros Ho Hh init H1; [assumption|].
  rewrite refilterChildren_cons.
  cbn [forallb] in Ho, Hh.
  apply andb_prop in Ho. destruct Ho as [Hoc Hocs].
  apply andb_prop in Hh. destruct Hh as [Hhc Hhcs].
  specialize (Hc v (snd init) cr Hoc Hhc).
  destruct init as [[[cs0 vci0] hvd0] res0].
  destruct (_updateNodeAfterFilterChange f false c v _ cr) as [[c' b] res1].
  cbn [fst snd pushRefiltered] in *.
  apply IH; auto. cbn [fst]. rewrite forallb_app, H1. cbn [forallb].
  rewrite andb_true_r.
  now destruct (visible c'); rewrite ?hiddenEmpty_set_visibleChildIndex.
Qed.

Lemma finishRefiltered_hiddenEmpty isRoot v revealed k n3 hvd res :
  forallb (@hiddenEmpty _ _) (children n3) = true ->
  hiddenEmpty (fst (fst (finishRefiltered isRoot v revealed k n3 hvd res))) = true.
Proof.
  intros Hcs. unfold finishRefiltered.
  match goal with |- context [if negb (visible ?x) then _ else _] => set (n4 := x) end.
  assert (H4 : children n4 = children n3) by (unfold n4; now destruct isRoot).
  destruct (visible n4) eqn:Hv; cbn [negb].
  - destruct (collapsed n4); cbn [negb fst]; rewrite hiddenEmpty_eq;
      cbn [visible renderNodeCount children set_renderNodeCount];
      now rewrite Hv, H4, Hcs.
  - cbn [fst]. rewrite hiddenEmpty_eq.
    cbn [visible renderNodeCount children set_renderNodeCount].
    now rewrite H4, Hcs, orb_true_r.
Qed.

Lemma refilterNode_hiddenEmpty f n : refilterHidden f n.
Proof.
  induction n as [n IH] using node_ind.
  intros pv result revealed Ho Hh. rewrite hidesOnlyEmpty_eq in Ho.
  pose proof (hiddenEmpty_children _ Hh) as Hcs.
  rewrite refilterNode_eq. cbv zeta. rewrite filterNode_fst.
  destruct (snd (filterResult f (element n) pv)) eqn:Ev; cbn [isHidden].
  - cbn [fst]. rewrite hiddenEmpty_eq.
    cbn [visible renderNodeCount children set_visible set_filterData].
    now rewrite Ho, Hcs.
  - match goal with
    | |- context [refilterChildren f ?v ?cr ?cs ?init] =>
        pose proof (@refilterChildren_hiddenEmpty f v cr cs IH Ho Hcs init eq_refl) as Hfold;
        destruct (refilterChildren f v cr cs init) as [[[cs' vci] hvd] res2]
    end.
    now apply finishRefiltered_hiddenEmpty.
  - match goal with
    | |- context [refilterChildren f ?v ?cr ?cs ?init] =>
        pose proof (@refilterChildren_hiddenEmpty f v cr cs IH Ho Hcs init eq_refl) as Hfold;
        destruct (refilterChildren f v cr cs init) as [[[cs' vci] hvd] res2]
    end.
    now apply finishRefiltered_hiddenEmpty.
Qed.

Lemma hiddenEmpty_updateAncestors_None n d :
  _updateAncestorsRenderNodeCount n None d = n.
Proof. unfold _updateAncestorsRenderNodeCount. now destruct (d =? 0). Qed.

Lemma refilter_hiddenEmpty m :
  hiddenEmpty (root m) = true ->
  forallb (hidesOnlyEmpty (filter m) None) (children (root m)) = true ->
  hiddenEmpty (root (refilter m)) = true.
Proof.
  intros Hh Ho. pose proof (hiddenEmpty_children _ Hh) as Hcs.
  unfold refilter, updateNodeAfterFilterChange. rewrite refilterRoot_eq. cbv zeta.
  match goal with
  | |- context [refilterChildren ?f ?v ?cr ?cs ?init] =>
      pose proof (@refilterChildren_hiddenEmpty f v cr cs) as Hfold;
      specialize (Hfold ltac:(apply Forall_forall; intros; apply refilterNode_hiddenEmpty)
                        Ho Hcs init eq_refl);
      destruct (refilterChildren f v cr cs init) as [[[cs' vci] hvd] res2]
  end.
  cbn [fst] in Hfold.
  match goal with
  | |- context [finishRefiltered ?a ?b ?c ?d ?e ?g ?h] =>
      pose proof (@finishRefiltered_hiddenEmpty a b c d e g h Hfold) as Hfin;
      destruct (finishRefiltered a b c d e g h) as [[n' b'] res']
  end.
  cbn [fst root set_root set_renderList] in *.
  now rewrite hiddenEmpty_updateAncestors_None.
Qed.

(** *** The invariant *)

Lemma setCollapsed_counts fuel :
  forall m path n collapsed_ recursive out m',
    nodeAt (root m) path = Some n ->
    exactBelow (root m) = true -> collapsible (root m) = false ->
    hiddenEmpty (root m) = true ->
    visibleAlong (root m) path = true \/
    (autoExpandSingleChildren m && negb collapsed_ && negb recursive = false /\
     expandedAlong (root m) (removelast path) && visible n = false /\
     path <> []) ->
    _setCollapsed fuel m (map Z.of_nat path) collapsed_ recursive = Some (out, m') ->
    exactBelow (root m') = true /\ collapsible (root m') = false /\
    hiddenEmpty (root m') = true.
Proof.
  induction fuel as [|fuel IH];
    intros m path n collapsed_ recursive out m' Hn Hb Hroot Hh Hreg Hrun; [discriminate|].
  cbn [_setCollapsed] in Hrun.
  destruct (getTreeNodeWithListIndex_at _ _ Hn) as (li & vis & E). rewrite E in Hrun.
  cbn [nodeRef n_listIndex n_revealed] in Hrun.
  pose proof (@setListNodeCollapsed_exactBelow m path n li collapsed_ recursive Hn Hb Hroot)
    as H1.
  cbv zeta in H1.
  match type of H1 with
  | context [_setListNodeCollapsed m _ li ?rev _ _] =>
      pose proof (setListNodeCollapsed_erase m path n li rev collapsed_ recursive) as H2;
      pose proof (@setListNodeCollapsed_hiddenEmpty m path n li rev collapsed_ recursive
                    Hn Hh) as H3
  end.
  cbv zeta in H2.
  destruct (_setListNodeCollapsed m (Some (path, n)) li _ collapsed_ recursive) as [o m1].
  cbn [fst snd] in H1, H2, H3. destruct H2 as (-> & Hcounts & Hauto & _).
  assert (Hvis : (match path with
                  | [] => true
                  | _ :: _ => expandedAlong (root m) (removelast path)
                  end) && visible n = true -> visibleAlong (root m) path = true).
  { intros Hrv. destruct Hreg as [|(_ & Hoff & Hne)]; [assumption|].
    destruct path as [|a l]; [congruence|]. cbv iota in Hrv.
    rewrite Hoff in Hrv. discriminate. }
  assert (Hb1 : exactBelow (root m1) = true) by exact (H1 Hvis).
  assert (Hh1 : hiddenEmpty (root m1) = true) by exact (H3 Hvis).
  assert (Hcollapse : erase Collapse (root m1) = erase Collapse (root m)).
  { rewrite (erase_of_Counts Collapse _ _ Hcounts).
    apply erase_updateAt_same. intros p Hp.
    assert (p = n) by congruence. subst p. apply erase_setNodeCollapsed. }
  assert (Hroot1 : collapsible (root m1) = false).
  { now rewrite (collapsible_of_erase _ _ _ Hcollapse). }
  rewrite Hauto in Hrun.
  destruct (autoExpandSingleChildren m && negb collapsed_ && negb recursive) eqn:Htrig.
  - destruct (nodeAt_of_erase Collapse _ _ _ Hcollapse Hn) as (n1' & Hn1' & En1').
    rewrite Hn1' in Hrun.
    destruct (onlyVisibleChildFrom (children n1') 0 (-1) >? -1) eqn:Honly.
    + destruct (onlyVisibleChild_valid _ Honly) as [ch Hch].
      apply Z.gtb_lt in Honly.
      pose proof (onlyVisibleChild_visible _ Honly Hch) as Hvch.
      set (i := onlyVisibleChildFrom (children n1') 0 (-1)) in *.
      assert (Hloc : map Z.of_nat path ++ [i] = map Z.of_nat (path ++ [Z.to_nat i])).
      { rewrite map_app. cbn [map]. now rewrite Z2Nat.id by lia. }
      rewrite Hloc in Hrun.
      assert (Hch' : nodeAt (root m1) (path ++ [Z.to_nat i]) = Some ch).
      { now rewrite nodeAt_snoc with (p := n1'). }
      destruct (_setCollapsed fuel m1 _ false false) as [[o2 m2]|] eqn:Hrec;
        [|discriminate].
      assert (H2 : exactBelow (root m2) = true /\ collapsible (root m2) = false /\
                   hiddenEmpty (root m2) = true).
      { apply (IH m1 (path ++ [Z.to_nat i]) ch false false o2 m2 Hch' Hb1 Hroot1 Hh1);
          [|exact Hrec].
        left. rewrite visibleAlong_snoc with (x := ch) by assumption.
        rewrite Hvch, andb_true_r.
        rewrite <- visibleAlong_erase, Hcollapse, visibleAlong_erase.
        destruct Hreg as [|(Hno & _)]; [assumption|congruence]. }
      destruct o2; injection Hrun as <- <-; exact H2.
    + injection Hrun as <- <-. auto.
  - injection Hrun as <- <-. auto.
Qed.

Lemma regularStep_counts m m' :
  regularStep m m' ->
  exactBelow (root m) = true /\ collapsible (root m) = false /\
  hiddenEmpty (root m) = true ->
  exactBelow (root m') = true /\ collapsible (root m') = false /\
  hiddenEmpty (root m') = true.
Proof.
  intros Hstep (Hb & Hroot & Hh).
  destruct Hstep as [m pp p k deleteCount toInsert Hp Hk
                    |m path n collapsed_ recursive out m' Hn Hreg Hrun
                    |m Ho
                    |m filter_].
  - rewrite splice_valid with (p := p) by assumption.
    destruct (@spliceNodes_exactBelow m pp p (0 + listOffset (root m) pp k) (Z.of_nat k)
                deleteCount toInsert Hp Hb) as [H1 H2].
    split; [exact H1|]. split; [congruence|]. now apply spliceNodes_hiddenEmpty.
  - unfold setCollapsed in Hrun.
    rewrite getTreeNode_valid with (x := n) in Hrun by assumption.
    eapply setCollapsed_counts; eauto.
  - split; [now apply refilter_exactBelow|]. split; [|now apply refilter_hiddenEmpty].
    now rewrite (collapsible_of_erase _ _ _ (refilter_erase m)).
  - auto.
Qed.

Lemma regularlyReachable_counts m :
  regularlyReachable m ->
  exactBelow (root m) = true /\ collapsible (root m) = false /\
  hiddenEmpty (root m) = true.
Proof.
  induction 1 as [e o|m m' _ IH Hstep]; [repeat split|].
  eapply regularStep_counts; eauto.
Qed.

(** C2 (amended): after any sequence of splices at positions among the
    children of existing nodes, of [setCollapsed] calls on existing nodes
    that are visible with all their ancestors (or that have no rows and do
    not go on to expand single children), and of [refilter] calls that hide
    no node that has rows, every node that is not visible has a render
    count of 0, and every visible node below the root whose ancestors are
    all visible and expanded has a render count of 1 when it is collapsed
    and of 1 plus the render counts of its children when it is expanded. *)
Theorem renderNodeCount_on_screen m :
  regularlyReachable m ->
  forall path n,
    nodeAt (root m) path = Some n ->
    (visible n = false -> renderNodeCount n = 0) /\
    (path <> [] -> visible n = true -> onScreenAbove (root m) path = true ->
     renderNodeCount n =
     if collapsed n then 1
     else 1 + sumZ (map (@renderNodeCount _ _) (children n))).
Proof.
  intros Hm path n Hn. destruct (regularlyReachable_counts Hm) as (Hb & _ & Hh). split.
  - apply hiddenEmpty_hidden. eapply hiddenEmpty_at; eauto.
  - intros Hne Hv Hon. pose proof (exactBelow_at _ Hb Hn Hon Hne) as He.
    rewrite countsExact_eq, Hv in He.
    destruct (collapsed n); apply andb_prop in He; destruct He as [He _];
      now apply Z.eqb_eq in He.
Qed.

End CountFacts.

(** ** The render list *)

Section ProjectionFacts.

Variables T TFilterData : Type.
Implicit Types (n c p x rt nd : node T TFilterData) (path pp q : list nat).
Implicit Types (m : model T TFilterData) (el : ITreeElement T).
Implicit Types (f : option (ITreeFilter T TFilterData)) (cbd : bool).
Implicit Types (cs : list (node T TFilterData)).

Local Ltac lists := repeat (rewrite <- app_assoc || rewrite <- app_comm_cons).

Lemma revealedNodes_shown n :
  visible n = true -> collapsed n = false -> revealedNodes n = nid n :: rowsBelow n.
Proof. intros Hv Hc. now rewrite revealedNodes_eq, Hv, Hc. Qed.

Lemma flat_map_revealedNodes_erase cs :
  flat_map (@revealedNodes _ _) (map (erase Counts) cs) = flat_map (@revealedNodes _ _) cs.
Proof.
  induction cs as [|c cs IH]; [reflexivity|]. cbn [map flat_map].
  now rewrite revealedNodes_erase, IH.
Qed.

Lemma rowsBelow_erase n : rowsBelow (erase Counts n) = rowsBelow n.
Proof. unfold rowsBelow. rewrite erase_eq. cbn [children]. apply flat_map_revealedNodes_erase. Qed.

Lemma rowsBelow_of_erase n n' :
  erase Counts n = erase Counts n' -> rowsBelow n = rowsBelow n'.
Proof. intros H. now rewrite <- (rowsBelow_erase n), H, rowsBelow_erase. Qed.

Lemma flat_map_revealedNodes_shiftVisibleFrom k d cs :
  flat_map (@revealedNodes _ _) (shiftVisibleFrom k d cs) = flat_map (@revealedNodes _ _) cs.
Proof.
  unfold shiftVisibleFrom. rewrite <- (firstn_skipn k cs) at 3.
  rewrite !flat_map_app. f_equal.
  induction (skipn k cs) as [|c l IH]; [reflexivity|]. cbn [map flat_map].
  rewrite IH. now destruct (visible c); rewrite ?revealedNodes_set_visibleChildIndex.
Qed.

(** *** Splicing a list in the middle *)

Lemma listSplice_middle (A : Type) (X D Y items : list A) start deleteCount :
  start = Z.of_nat (length X) -> deleteCount = Z.of_nat (length D) ->
  listSplice (X ++ D ++ Y) start deleteCount items = X ++ items ++ Y.
Proof.
  intros -> ->. unfold listSplice, arraySplice. cbn [fst].
  assert (Hs : spliceStart (X ++ D ++ Y) (Z.of_nat (length X)) = length X).
  { unfold spliceStart. rewrite !length_app.
    destruct (Z.of_nat (length X) <? 0) eqn:E; [apply Z.ltb_lt in E; lia|]. lia. }
  assert (Hd : spliceCount (X ++ D ++ Y) (Z.of_nat (length X)) (Z.of_nat (length D))
               = length D).
  { unfold spliceCount. rewrite Hs, !length_app. lia. }
  rewrite Hs, Hd, firstn_app, Nat.sub_diag, firstn_all, firstn_O, app_nil_r.
  f_equal. f_equal. rewrite app_assoc, skipn_app, length_app.
  replace (length X + length D - (length X + length D))%nat with O by lia.
  rewrite skipn_all2 by (rewrite length_app; lia). reflexivity.
Qed.

Lemma listSplice_all (A : Type) (L items : list A) deleteCount :
  Z.of_nat (length L) <= deleteCount -> listSplice L 0 deleteCount items = items.
Proof.
  intros H. replace L with ([] ++ L ++ []) at 1 by now rewrite app_nil_r.
  unfold listSplice, arraySplice. cbn [fst app]. rewrite app_nil_r.
  assert (Hs : spliceStart L 0 = O) by (unfold spliceStart; cbn; lia).
  assert (Hd : spliceCount L 0 deleteCount = length L).
  { unfold spliceCount. rewrite Hs. lia. }
  rewrite Hs, Hd. cbn [firstn app Nat.add]. rewrite skipn_all. apply app_nil_r.
Qed.

(** *** The rows around a node on screen *)

Lemma listOffset_snoc pp : forall n j p k,
  nodeAt n (pp ++ [j]) = Some p ->
  listOffset n (pp ++ [j]) k = listOffset n pp j + 1 + rows (firstn k (children p)).
Proof.
  induction pp as [|i pp IH]; intros n j p k; cbn [app nodeAt listOffset].
  - destruct (nth_error (children n) j) as [c|]; [|discriminate].
    intros H. injection H as ->. reflexivity.
  - destruct (nth_error (children n) i) as [c|]; [|discriminate].
    intros H. rewrite (IH _ _ _ _ H). lia.
Qed.

(** The rows below [n] around the rows of the node [x] at a path on
    screen: [listOffset] rows come before them, and a write at [x] changes
    the rows of [x] only. *)
Lemma rows_context pp : forall n i x,
  nodeAt n (pp ++ [i]) = Some x ->
  onScreenAbove n (pp ++ [i]) = true ->
  forallb (@countsExact _ _) (children n) = true ->
  exists X Y,
    Z.of_nat (length X) = listOffset n pp i /\
    rowsBelow n = X ++ revealedNodes x ++ Y /\
    forall x',
      rowsBelow (updateAt n (pp ++ [i]) (fun _ => x')) = X ++ revealedNodes x' ++ Y.
Proof.
  induction pp as [|j pp IH]; intros n i x;
    cbn [app nodeAt onScreenAbove listOffset updateAt].
  - destruct (nth_error (children n) i) as [c|] eqn:Hi; [|discriminate].
    intros H _ Hall. injection H as ->.
    exists (flat_map (@revealedNodes _ _) (firstn i (children n))),
           (flat_map (@revealedNodes _ _) (skipn (S i) (children n))).
    split; [|split].
    + symmetry. apply rows_exact. now apply forallb_firstn.
    + unfold rowsBelow. rewrite (nth_error_split_firstn _ _ Hi) at 1.
      now rewrite flat_map_app.
    + intros x'. unfold rowsBelow. cbn [children set_children].
      rewrite (mapNth_split _ _ _ Hi). now rewrite flat_map_app.
  - destruct (nth_error (children n) j) as [c|] eqn:Hj; [|discriminate].
    intros Hx Hon Hall.
    apply andb_prop in Hon. destruct Hon as [_ Hon].
    pose proof (forallb_nth_error _ _ _ Hj Hall) as Hc.
    assert (Hvc : visible c = true /\ collapsed c = false).
    { destruct (pp ++ [i]) eqn:E; [destruct pp; discriminate|].
      cbn [onScreenAbove] in Hon. destruct (visible c); [|discriminate].
      destruct (collapsed c); [discriminate|]. auto. }
    destruct Hvc as [Hv Hcol].
    destruct (countsExact_below _ Hc Hv Hcol) as [Hb _].
    apply exactBelow_children in Hb. destruct Hb as (_ & _ & Hcs).
    destruct (IH c i x Hx Hon Hcs) as (X & Y & HX & HL & Hrep).
    exists (flat_map (@revealedNodes _ _) (firstn j (children n)) ++ nid c :: X),
           (Y ++ flat_map (@revealedNodes _ _) (skipn (S j) (children n))).
    split; [|split].
    + rewrite length_app. cbn [length].
      rewrite Nat2Z.inj_add, Nat2Z.inj_succ, HX,
        <- (rows_exact _ (forallb_firstn _ j _ Hall)).
      fold (rows (firstn j (children n))). lia.
    + unfold rowsBelow at 1. rewrite (nth_error_split_firstn _ _ Hj) at 1.
      rewrite flat_map_app. cbn [flat_map].
      rewrite (revealedNodes_shown _ Hv Hcol), HL. lists. reflexivity.
    + intros x'. unfold rowsBelow at 1. cbn [children set_children].
      rewrite (mapNth_split _ _ _ Hj), flat_map_app. cbn [flat_map].
      assert (Hne : pp ++ [i] <> []) by (destruct pp; discriminate).
      destruct (updateAt_fields c (fun _ => x') Hne)
        as (Hid & _ & _ & _ & _ & _ & _ & Hc' & _ & Hv' & _).
      rewrite revealedNodes_shown by congruence.
      rewrite Hrep, Hid. lists. reflexivity.
Qed.

(** *** The rows of created nodes *)

Lemma rowsFor_one revealed n :
  rowsFor revealed [n] = if revealed then revealedNodes n else [].
Proof. destruct revealed; [apply app_nil_r|reflexivity]. Qed.

Lemma rowsFor_set_visibleChildIndex revealed n i :
  rowsFor revealed [set_visibleChildIndex n i] = rowsFor revealed [n].
Proof. now rewrite !rowsFor_one, revealedNodes_set_visibleChildIndex. Qed.

Lemma createChildren_rows cbd f id pd v cr base els :
  Forall (createRows cbd f) els ->
  forall init,
    snd (snd init) = base ++ rowsFor cr (fst (fst (fst init))) ->
    snd (fst (fst init)) = countVisible (fst (fst (fst init))) ->
    let out := createChildren cbd f id pd v cr els init in
    snd (snd out) = base ++ rowsFor cr (fst (fst (fst out))) /\
    snd (fst (fst out)) = countVisible (fst (fst (fst out))).
Proof.
  induction 1 as [|el els Hel _ IH]; intros init H1 H2; [cbn; auto|].
  cbv zeta. rewrite createChildren_cons. apply IH.
  - specialize (Hel id pd v cr (snd init)).
    destruct init as [[[cs0 vcc0] rnc0] st0].
    destruct (createTreeNode cbd f el id pd v cr _) as [c s1].
    cbn [fst snd pushChild] in *. rewrite Hel, H1, rowsFor_app. lists. f_equal. f_equal.
    now destruct (visible c); rewrite ?rowsFor_set_visibleChildIndex.
  - destruct init as [[[cs0 vcc0] rnc0] st0].
    destruct (createTreeNode cbd f el id pd v cr _) as [c s1].
    cbn [fst snd pushChild] in *. rewrite countVisible_app, countVisible_one, H2.
    destruct (visible c) eqn:Hv; cbn [visible set_visibleChildIndex]; rewrite ?Hv; lia.
Qed.

Lemma createTreeNode_rows cbd f el : createRows cbd f el.
Proof.
  induction el as [el IH] using element_ind.
  intros pid pd pv rev [id tl]. rewrite createTreeNode_eq. cbv zeta. cbn [snd].
  pose proof (newNode_filtered cbd f el id pid pd (Some pv)) as Hn1. cbv zeta in Hn1.
  destruct Hn1 as (N1 & _).
  set (node1 := fst (_filterNode f (newNode TFilterData cbd el id pid pd) (Some pv))) in *.
  set (v := snd (filterResult f (el_element el) (Some pv))).
  match goal with
  | |- context [createChildren cbd f id ?pd ?v ?cr ?els ?init] =>
      pose proof (@createChildren_rows cbd f id pd v cr (if rev then tl ++ [id] else tl)
                    els IH init) as Hch;
      cbv zeta in Hch;
      specialize (Hch ltac:(cbn [fst snd]; now rewrite rowsFor_nil, app_nil_r) eq_refl);
      set (created := createChildren cbd f id pd v cr els init) in *
  end.
  destruct Hch as [C1 C2].
  match goal with
  | |- context [finishNode ?n1 ?v ?r created] =>
      pose proof (finishNode_fields n1 v r created) as Hf; cbv zeta in Hf;
      set (out := finishNode n1 v r created) in *
  end.
  destruct Hf as (F1 & _ & _ & F4 & _ & _ & F7 & _ & F9 & _ & _ & F12).
  rewrite F12, C1, rowsFor_one, revealedNodes_eq, F9, F1, F7, N1.
  unfold rowsBelow. rewrite F4.
  clearbody out created node1 v.
  destruct rev; cbn [andb rowsFor];
    [|now destruct (if visibility_eqb v Recurse then _ else _); rewrite !app_nil_r].
  destruct v; cbn [visibility_eqb negb andb rowsFor].
  - now rewrite app_nil_r, removelast_snoc, app_nil_r.
  - destruct (collapsed node1); cbn [rowsFor]; lists; now rewrite ?app_nil_r.
  - destruct (snd (fst (fst created)) >? 0) eqn:Hpos.
    + destruct (collapsed node1); cbn [rowsFor]; lists; now rewrite ?app_nil_r.
    + rewrite rowsFor_hidden, app_nil_r, removelast_snoc, app_nil_r; [reflexivity|].
      now rewrite <- countVisible_pos, <- C2.
Qed.

Lemma createNodesToInsert_rows m p revealed start base els :
  forall init,
    snd (snd init) = base ++ rowsFor revealed (fst (fst (fst init))) ->
    snd (snd (createNodesToInsert m p revealed start els init)) =
    base ++ rowsFor revealed (fst (fst (fst (createNodesToInsert m p revealed start els init)))).
Proof.
  induction els as [|el els IH]; intros init H1; [assumption|].
  rewrite createNodesToInsert_cons. apply IH.
  pose proof (@createTreeNode_rows (collapseByDefault m) (filter m) el (nid p)
                (depth p) (if visible p then Visible else Hidden) revealed (snd init))
    as Hel.
  destruct init as [[[cs0 vcc0] rnc0] st0].
  destruct (createTreeNode _ _ el _ _ _ _ _) as [c s1].
  cbn [fst snd pushInserted] in *. rewrite Hel, H1, rowsFor_app. lists. f_equal. f_equal.
  now destruct (visible c); rewrite ?rowsFor_set_visibleChildIndex.
Qed.

(** *** Writes that leave the rows *)

Lemma flat_map_mapNth (B : Type) (h : node T TFilterData -> list B) g i cs :
  (forall c, nth_error cs i = Some c -> h (g c) = h c) ->
  flat_map h (mapNth i g cs) = flat_map h cs.
Proof.
  revert i; induction cs as [|c cs IH]; intros i Hg; [now destruct i|].
  destruct i as [|i]; cbn [mapNth flat_map].
  - now rewrite Hg.
  - rewrite IH; [reflexivity|]. intros c' Hc'. now apply Hg.
Qed.

Lemma updateAt_revealedNodes g p path :
  forall n,
    nodeAt n path = Some p ->
    (onScreenAbove n path = true -> revealedNodes (g p) = revealedNodes p) ->
    revealedNodes (updateAt n path g) = revealedNodes n.
Proof.
  induction path as [|i path IH]; intros n; cbn [nodeAt updateAt onScreenAbove].
  - intros H. injection H as ->. auto.
  - destruct (nth_error (children n) i) as [c|] eqn:Hi; [|discriminate].
    intros Hp Hon. rewrite (revealedNodes_eq n), revealedNodes_eq.
    cbn [visible collapsed nid children set_children].
    destruct (visible n); [|reflexivity]. destruct (collapsed n); [reflexivity|].
    f_equal. apply flat_map_mapNth. intros c' Hc'.
    assert (c' = c) by congruence. subst c'. apply IH; auto.
Qed.

Lemma updateAt_rowsBelow g p path n :
  nodeAt n path = Some p -> path <> [] ->
  visible n = true -> collapsed n = false ->
  (onScreenAbove n path = true -> revealedNodes (g p) = revealedNodes p) ->
  rowsBelow (updateAt n path g) = rowsBelow n.
Proof.
  intros Hp Hne Hv Hc Hon.
  pose proof (updateAt_revealedNodes g path n Hp Hon) as H.
  destruct (updateAt_fields n g Hne) as (_ & _ & _ & _ & _ & _ & _ & Hc' & _ & Hv' & _).
  rewrite !revealedNodes_shown in H by congruence. now injection H.
Qed.

Lemma rows_children_updateAt g p path n :
  nodeAt n path = Some p -> path <> [] ->
  renderNodeCount (g p) = renderNodeCount p ->
  rows (children (updateAt n path g)) = rows (children n) /\
  renderNodeCount (updateAt n path g) = renderNodeCount n.
Proof.
  intros Hp Hne Hc. destruct path as [|i path]; [congruence|].
  cbn [nodeAt updateAt children set_children renderNodeCount] in *.
  destruct (nth_error (children n) i) as [c|] eqn:Hi; [|discriminate].
  split; [|reflexivity].
  rewrite rows_mapNth with (c := c) by assumption.
  rewrite renderNodeCount_updateAt with (p := p) by assumption. lia.
Qed.

Lemma rows_children_replaceBumping d p p' path n :
  nodeAt n path = Some p ->
  renderNodeCount p' = renderNodeCount p + d ->
  (path = [] -> rows (children p') = rows (children p) + d) ->
  rows (children (replaceBumping n path d p')) = rows (children n) + d /\
  renderNodeCount (replaceBumping n path d p') = renderNodeCount n + d.
Proof.
  intros Hp Hc Hroot. destruct path as [|i path].
  - cbn in *. injection Hp as ->. auto.
  - cbn [nodeAt replaceBumping children set_children renderNodeCount
         set_renderNodeCount] in *.
    destruct (nth_error (children n) i) as [c|] eqn:Hi; [|discriminate].
    split; [|reflexivity].
    rewrite rows_mapNth with (c := c) by assumption.
    rewrite renderNodeCount_replaceBumping with (p := p) by assumption. lia.
Qed.

(** *** [splice] *)

Lemma spliceStart_nat (A : Type) (l : list A) (k : nat) :
  (k <= length l)%nat -> spliceStart l (Z.of_nat k) = k.
Proof.
  intros H. unfold spliceStart.
  destruct (Z.of_nat k <? 0) eqn:E; [apply Z.ltb_lt in E; lia|]. lia.
Qed.

Lemma split_at_splice (B : Type) (h : node T TFilterData -> list B) s d cs :
  flat_map h cs =
  flat_map h (firstn s cs) ++ flat_map h (firstn d (skipn s cs))
  ++ flat_map h (skipn (s + d) cs).
Proof.
  rewrite <- !flat_map_app. f_equal.
  rewrite <- (Nat.add_comm d s), <- skipn_skipn, firstn_skipn, firstn_skipn. reflexivity.
Qed.

Lemma flat_map_spliced (b : bool) from by_ s d cs ins :
  flat_map (@revealedNodes _ _)
    (if b then firstn s cs ++ ins ++ skipn (s + d) cs
     else shiftVisibleFrom from by_ (firstn s cs ++ ins ++ skipn (s + d) cs)) =
  flat_map (@revealedNodes _ _) (firstn s cs) ++ flat_map (@revealedNodes _ _) ins
  ++ flat_map (@revealedNodes _ _) (skipn (s + d) cs).
Proof.
  destruct b; rewrite ?flat_map_revealedNodes_shiftVisibleFrom, !flat_map_app; reflexivity.
Qed.

Lemma spliceNodes_projected m pp p k deleteCount toInsert :
  nodeAt (root m) pp = Some p -> (k <= length (children p))%nat ->
  exactBelow (root m) = true -> projected m ->
  let r := mkParentWithListIndex pp p (0 + listOffset (root m) pp k)
             (true && expandedAlong (root m) pp) (true && visibleAlong (root m) pp) in
  projected (snd (spliceNodes m r (Z.of_nat k) deleteCount toInsert)).
Proof.
  intros Hp Hk Hb [HL Hroot] r. rewrite spliceNodes_eq. cbv zeta. subst r.
  cbn [parentNode parentPath p_revealed p_visible p_listIndex andb snd].
  destruct (exactBelow_children _ Hb) as (Hvr & Hcr & Hallr).
  match goal with
  | |- context [createNodesToInsert m p ?rev ?start toInsert ?init] =>
      pose proof (@createNodesToInsert_exact _ _ m p rev start toInsert init eq_refl eq_refl)
        as Hcr1;
      pose proof (@createNodesToInsert_rows m p rev start [] toInsert init
                    ltac:(cbn [fst snd app]; now rewrite rowsFor_nil))
        as Hfrag;
      cbv zeta in Hcr1;
      set (created := createNodesToInsert m p rev start toInsert init) in *
  end.
  destruct Hcr1 as [Hins Hrnc].
  rewrite (spliceStart_nat _ Hk).
  set (d := spliceCount (children p) (Z.of_nat k) deleteCount).
  set (deleted := firstn d (skipn k (children p))).
  set (b := countVisible deleted =? 0).
  set (from := Z.to_nat (Z.of_nat k + Z.of_nat (length (fst (fst (fst created)))))).
  set (cs2 := if b then _ else _).
  set (vcc := visibleChildrenCount p + _).
  fold (rows deleted).
  assert (Hrows : rows cs2 = rows (children p) - rows deleted + rows (fst (fst (fst created))))
    by apply rows_spliced.
  assert (Hfm : flat_map (@revealedNodes _ _) cs2 =
                flat_map (@revealedNodes _ _) (firstn k (children p))
                ++ flat_map (@revealedNodes _ _) (fst (fst (fst created)))
                ++ flat_map (@revealedNodes _ _) (skipn (k + d) (children p)))
    by apply flat_map_spliced.
  pose proof (onScreen_split _ _ Hp) as Hsplit.
  destruct (expandedAlong (root m) pp) eqn:Hea; cbn [andb] in *.
  2: { (* under a collapsed node: the list is left as it is *)
    cbn [root renderList]. split; cbn [root renderList].
    - rewrite HL. symmetry.
      destruct pp as [|i pp]; [cbn in Hp, Hea; injection Hp as <-; rewrite Hcr in Hea; discriminate|].
      apply updateAt_rowsBelow with (p := p); auto; [discriminate|].
      intros Hon. rewrite Hon in Hsplit. cbn [andb] in Hsplit.
      rewrite (revealedNodes_eq p), revealedNodes_eq.
      cbn [visible collapsed nid children set_visibleChildrenCount set_children].
      destruct (visible p); [|reflexivity]. destruct (collapsed p); [reflexivity|discriminate].
    - destruct pp as [|i pp]; [cbn in Hp, Hea; injection Hp as <-; rewrite Hcr in Hea; discriminate|].
      destruct (@rows_children_updateAt
                  (fun _ => set_visibleChildrenCount (set_children p cs2) vcc) p (i :: pp)
                  (root m) Hp ltac:(discriminate) eq_refl) as [-> ->].
      exact Hroot. }
  destruct (visibleAlong (root m) pp) eqn:Hva.
  2: { (* under a node that is not visible *)
    cbn [root renderList]. split; cbn [root renderList].
    - rewrite HL. symmetry.
      destruct pp as [|i pp]; [cbn in Hp, Hva; injection Hp as <-; rewrite Hvr in Hva; discriminate|].
      apply updateAt_rowsBelow with (p := p); auto; [discriminate|].
      intros Hon. rewrite Hon in Hsplit. cbn [andb] in Hsplit.
      rewrite (revealedNodes_eq p), revealedNodes_eq.
      cbn [visible collapsed nid children set_visibleChildrenCount set_children].
      destruct (visible p); [|reflexivity]. destruct (collapsed p); [reflexivity|discriminate].
    - destruct pp as [|i pp]; [cbn in Hp, Hva; injection Hp as <-; rewrite Hvr in Hva; discriminate|].
      destruct (@rows_children_updateAt
                  (fun _ => set_visibleChildrenCount (set_children p cs2) vcc) p (i :: pp)
                  (root m) Hp ltac:(discriminate) eq_refl) as [-> ->].
      exact Hroot. }
  symmetry in Hsplit. apply andb_prop in Hsplit. destruct Hsplit as [Hon Hvc].
  apply andb_prop in Hvc. destruct Hvc as [Hv Hc]. apply negb_true_iff in Hc.
  destruct (exactBelow_on_screen _ _ Hb Hp Hon Hv Hc) as [Hbp Hcount].
  apply exactBelow_children in Hbp. destruct Hbp as (_ & _ & Hall).
  cbn [fst snd] in Hfrag. cbn [rowsFor app] in Hfrag.
  assert (Hdel : rows deleted = Z.of_nat (length (flat_map (@revealedNodes _ _) deleted))).
  { apply rows_exact. unfold deleted. now apply forallb_firstn, forallb_skipn. }
  assert (Hpre : rows (firstn k (children p)) =
                 Z.of_nat (length (flat_map (@revealedNodes _ _) (firstn k (children p))))).
  { apply rows_exact. now apply forallb_firstn. }
  rewrite updateAncestors_replaceBumping. cbn [root renderList]. split; cbn [root renderList].
  - rewrite <- updateAncestors_replaceBumping.
    rewrite (rowsBelow_of_erase _ _ (erase_updateAncestors Counts _ _ _)).
    rewrite Hfrag, HL.
    destruct pp as [|j pp _] using rev_ind.
    + cbn in Hp. injection Hp as <-. cbn [updateAt listOffset].
      unfold rowsBelow at 1 2. cbn [children set_visibleChildrenCount set_children].
      rewrite Hfm, (split_at_splice (@revealedNodes _ _) k d (children (root m))).
      fold deleted. apply listSplice_middle; [|assumption].
      fold (rows (firstn k (children (root m)))). lia.
    + assert (Hon' : onScreenAbove (root m) (pp ++ [j]) = true) by exact Hon.
      destruct (rows_context pp (root m) j Hp Hon' Hallr) as (X & Y & HX & HLr & Hrep).
      rewrite Hrep, HLr, !revealedNodes_shown by assumption.
      unfold rowsBelow. cbn [children set_visibleChildrenCount set_children nid].
      rewrite Hfm, (split_at_splice (@revealedNodes _ _) k d (children p)).
      fold deleted.
      rewrite (listOffset_snoc pp (root m) j k Hp).
      match goal with
      | |- listSplice ?L ?start ?dc ?items = _ =>
          replace L
            with ((X ++ nid p :: flat_map (@revealedNodes _ _) (firstn k (children p)))
                  ++ flat_map (@revealedNodes _ _) deleted
                  ++ (flat_map (@revealedNodes _ _) (skipn (k + d) (children p)) ++ Y))
            by (lists; reflexivity)
      end.
      rewrite listSplice_middle.
      * lists. reflexivity.
      * rewrite length_app. cbn [length]. rewrite Nat2Z.inj_add, Nat2Z.inj_succ. lia.
      * assumption.
  - match goal with
    | |- rows (children (replaceBumping ?n ?path ?dd ?p')) <= _ =>
        destruct (@rows_children_replaceBumping dd p p' path n Hp) as [E1 E2]
    end.
    + cbn [renderNodeCount set_renderNodeCount set_visibleChildrenCount set_children]. lia.
    + intros _. cbn [children set_renderNodeCount set_visibleChildrenCount set_children].
      rewrite Hrows, Hrnc. lia.
    + rewrite E1, E2. lia.
Qed.

(** *** [setCollapsed] *)

Lemma revealedNodes_visible n :
  visible n = true -> revealedNodes n = nid n :: tl (revealedNodes n).
Proof. intros H. now rewrite revealedNodes_eq, H. Qed.

Lemma nid_setNodeCollapsed n collapsed_ recursive :
  nid (fst (_setNodeCollapsed n collapsed_ recursive)) = nid n.
Proof.
  pose proof (erase_setNodeCollapsed n collapsed_ recursive) as H.
  rewrite !erase_eq in H. now injection H.
Qed.

Lemma getTreeNodeWithListIndex_found rt path x :
  nodeAt rt path = Some x ->
  exists vis,
    getTreeNodeWithListIndex rt (map Z.of_nat path) =
    Ok (mkNodeWithListIndex (Some (path, x))
          (match path with
           | [] => -1
           | _ => listOffset rt (removelast path) (last path 0%nat)
           end)
          (match path with [] => true | _ => expandedAlong rt (removelast path) end)
          vis).
Proof.
  intros Hx. destruct path as [|i pp _] using rev_ind.
  - simpl in *. injection Hx as <-. eauto.
  - rewrite getTreeNodeWithListIndex_valid with (x := x) by assumption.
    rewrite removelast_snoc, last_last.
    destruct (pp ++ [i]) eqn:E; [destruct pp; discriminate|]. eauto.
Qed.

Lemma setListNodeCollapsed_projected m path n collapsed_ recursive :
  nodeAt (root m) path = Some n ->
  exactBelow (root m) = true -> collapsible (root m) = false -> projected m ->
  let listIndex :=
    match path with
    | [] => -1
    | _ => listOffset (root m) (removelast path) (last path 0%nat)
    end in
  let revealed :=
    match path with [] => true | _ => expandedAlong (root m) (removelast path) end in
  (revealed && visible n = true -> visibleAlong (root m) path = true) ->
  projected (snd (_setListNodeCollapsed m (Some (path, n)) listIndex revealed
                    collapsed_ recursive)).
Proof.
  intros Hn Hb Hcoll [HL Hroot] listIndex revealed Hvis.
  rewrite setListNodeCollapsed_eq. cbv zeta.
  set (n1 := fst (_setNodeCollapsed n collapsed_ recursive)).
  assert (Hc1 : renderNodeCount n1 = renderNodeCount n)
    by apply renderNodeCount_setNodeCollapsed.
  assert (Hv1 : visible n1 = visible n) by apply visible_setNodeCollapsed.
  assert (Hs1 : countsSettled n1 = countsSettled n)
    by apply countsSettled_setNodeCollapsed.
  assert (Hid1 : nid n1 = nid n) by apply nid_setNodeCollapsed.
  destruct (exactBelow_children _ Hb) as (Hvr & Hcr & Hall).
  destruct (negb revealed || negb (visible n)) eqn:Hoff; cbn [snd].
  - (* no row is shown for the node *)
    assert (Hne : path <> []).
    { intros ->. subst revealed. cbn in Hn. injection Hn as <-.
      rewrite Hvr in Hoff. discriminate. }
    split; cbn [root renderList set_root].
    + rewrite HL. symmetry. apply updateAt_rowsBelow with (p := n); auto.
      intros Hon. rewrite !revealedNodes_eq, Hv1.
      destruct (visible n) eqn:Hv; [|reflexivity]. exfalso.
      destruct path as [|i pp _] using rev_ind; [congruence|].
      subst revealed. rewrite removelast_snoc in Hoff.
      destruct (pp ++ [i]) eqn:E; [destruct pp; discriminate|]. rewrite <- E in *.
      rewrite nodeAt_app in Hn. destruct (nodeAt (root m) pp) as [p|] eqn:Hp; [|discriminate].
      rewrite onScreenAbove_snoc with (p := p) in Hon by assumption.
      rewrite <- onScreen_split in Hon by assumption.
      apply andb_prop in Hon. destruct Hon as [He _]. rewrite He in Hoff. discriminate.
    + destruct (@rows_children_updateAt (fun _ => n1) n path (root m) Hn Hne Hc1)
        as [-> ->]. exact Hroot.
  - apply orb_false_iff in Hoff. destruct Hoff as [Hrev Hv].
    apply negb_false_iff in Hrev, Hv. rewrite Hrev, Hv in Hvis. specialize (Hvis eq_refl).
    assert (Hrc : renderNodeCount (recount n1) = Z.of_nat (length (revealedNodes n1)))
      by (apply renderNodeCount_recount; congruence).
    destruct path as [|i pp _] using rev_ind.
    + (* the root *)
      cbn in Hn. injection Hn as <-. subst listIndex.
      unfold _updateAncestorsRenderNodeCount, parentOf. cbn [updateAt].
      assert (Hcol1 : collapsed n1 = false).
      { unfold n1. now rewrite collapsed_setNodeCollapsed, Hcoll. }
      assert (He : countsExact (recount n1) = true).
      { apply recount_exact. rewrite Hs1, countsSettled_eq, Hvr.
        now apply forallb_exact_settled. }
      destruct (recount_flags n1) as [Hrv Hrc'].
      destruct (countsExact_below _ He ltac:(congruence) ltac:(congruence)) as [Hb' Hcount'].
      apply exactBelow_children in Hb'. destruct Hb' as (_ & _ & Hall').
      assert (E : root
                    (set_renderList
                       (set_root m
                          (if Z.of_nat (length (revealedNodes n1)) - renderNodeCount n1 =? 0
                           then recount n1 else recount n1))
                       (listSplice (renderList m) (-1 + 1)
                          (renderNodeCount n1 - (if -1 =? -1 then 0 else 1))
                          (tl (revealedNodes n1)))) = recount n1)
        by now destruct (_ =? 0).
      split; cbn [renderList set_renderList]; rewrite E.
      * rewrite (rowsBelow_of_erase _ _ (erase_recount Counts n1)).
        rewrite revealedNodes_shown by congruence. cbn [tl].
        change (-1 + 1) with 0. change (-1 =? -1) with true. cbv iota.
        apply listSplice_all. rewrite HL. unfold rowsBelow.
        rewrite <- (rows_exact _ Hall). lia.
      * lia.
    + subst listIndex revealed. rewrite removelast_snoc, last_last in *.
      destruct (pp ++ [i]) eqn:E; [destruct pp; discriminate|]. rewrite <- E in *.
      rewrite updateAncestors_replaceBumping_snoc.
      pose proof Hn as Hn'.
      rewrite nodeAt_app in Hn'.
      destruct (nodeAt (root m) pp) as [p|] eqn:Hp; [|discriminate].
      rewrite visibleAlong_snoc with (x := n) in Hvis by assumption.
      apply andb_prop in Hvis. destruct Hvis as [Hva _].
      assert (Hon : onScreenAbove (root m) (pp ++ [i]) = true).
      { rewrite onScreenAbove_snoc with (p := p) by assumption.
        rewrite <- onScreen_split by assumption. now rewrite Hrev, Hva. }
      assert (Hne : pp ++ [i] <> []) by (rewrite E; discriminate).
      pose proof (exactBelow_at _ Hb Hn Hon Hne) as Hen.
      destruct (rows_context pp (root m) i Hn Hon Hall) as (X & Y & HX & HLr & Hrep).
      split; cbn [root renderList set_root set_renderList].
      * rewrite <- updateAncestors_replaceBumping_snoc.
        rewrite (rowsBelow_of_erase _ _ (erase_updateAncestors Counts _ _ _)).
        rewrite Hrep, revealedNodes_recount, HL, HLr.
        rewrite (revealedNodes_visible n Hv).
        rewrite (revealedNodes_visible n1) at 2 by congruence. rewrite Hid1.
        assert (Hli : (listOffset (root m) pp i =? -1) = false) by (apply Z.eqb_neq; lia).
        rewrite Hli.
        match goal with
        | |- listSplice ?L ?start ?dc ?items = _ =>
            replace L with ((X ++ [nid n]) ++ tl (revealedNodes n) ++ Y)
              by (lists; reflexivity)
        end.
        rewrite listSplice_middle.
        -- lists. reflexivity.
        -- rewrite length_app. cbn [length]. lia.
        -- rewrite Hc1, (countsExact_rows _ Hen), (revealedNodes_visible n Hv) at 1.
           cbn [length tl]. lia.
      * match goal with
        | |- rows (children (replaceBumping ?rt ?path ?dd ?p')) <= _ =>
            destruct (@rows_children_replaceBumping dd n p' path rt Hn) as [E1 E2]
        end.
        -- rewrite Hrc. lia.
        -- intros Habs. congruence.
        -- rewrite E1, E2. lia.
Qed.

Lemma setCollapsed_projected fuel :
  forall m path n collapsed_ recursive out m',
    nodeAt (root m) path = Some n ->
    exactBelow (root m) = true -> collapsible (root m) = false -> projected m ->
    visibleAlong (root m) path = true \/
    (autoExpandSingleChildren m && negb collapsed_ && negb recursive = false /\
     expandedAlong (root m) (removelast path) && visible n = false /\
     path <> []) ->
    _setCollapsed fuel m (map Z.of_nat path) collapsed_ recursive = Some (out, m') ->
    exactBelow (root m') = true /\ collapsible (root m') = false /\ projected m'.
Proof.
  induction fuel as [|fuel IH];
    intros m path n collapsed_ recursive out m' Hn Hb Hroot Hpr Hreg Hrun; [discriminate|].
  cbn [_setCollapsed] in Hrun.
  destruct (getTreeNodeWithListIndex_found _ _ Hn) as (vis & E). rewrite E in Hrun.
  cbn [nodeRef n_listIndex n_revealed] in Hrun.
  pose proof (@setListNodeCollapsed_projected m path n collapsed_ recursive Hn Hb Hroot Hpr)
    as H3.
  cbv zeta in H3.
  match type of H3 with
  | context [_setListNodeCollapsed m _ ?li ?rev _ _] =>
      pose proof (setListNodeCollapsed_erase m path n li rev collapsed_ recursive) as H2;
      pose proof (@setListNodeCollapsed_exactBelow _ _ m path n li collapsed_ recursive
                    Hn Hb Hroot) as H1
  end.
  cbv zeta in H1, H2.
  destruct (_setListNodeCollapsed m (Some (path, n)) _ _ collapsed_ recursive) as [o m1].
  cbn [fst snd] in H1, H2, H3. destruct H2 as (-> & Hcounts & Hauto & _).
  assert (Hvis : (match path with
                  | [] => true
                  | _ :: _ => expandedAlong (root m) (removelast path)
                  end) && visible n = true -> visibleAlong (root m) path = true).
  { intros Hrv. destruct Hreg as [|(_ & Hoff & Hne)]; [assumption|].
    destruct path as [|a l]; [congruence|]. cbv iota in Hrv.
    rewrite Hoff in Hrv. discriminate. }
  assert (Hb1 : exactBelow (root m1) = true) by exact (H1 Hvis).
  assert (Hp1 : projected m1) by exact (H3 Hvis).
  assert (Hcollapse : erase Collapse (root m1) = erase Collapse (root m)).
  { rewrite (erase_of_Counts Collapse _ _ Hcounts).
    apply erase_updateAt_same. intros p Hp.
    assert (p = n) by congruence. subst p. apply erase_setNodeCollapsed. }
  assert (Hroot1 : collapsible (root m1) = false).
  { now rewrite (collapsible_of_erase _ _ _ Hcollapse). }
  rewrite Hauto in Hrun.
  destruct (autoExpandSingleChildren m && negb collapsed_ && negb recursive) eqn:Htrig.
  - destruct (nodeAt_of_erase Collapse _ _ _ Hcollapse Hn) as (n1' & Hn1' & En1').
    rewrite Hn1' in Hrun.
    destruct (onlyVisibleChildFrom (children n1') 0 (-1) >? -1) eqn:Honly.
    + destruct (onlyVisibleChild_valid _ Honly) as [ch Hch].
      apply Z.gtb_lt in Honly.
      pose proof (onlyVisibleChild_visible _ Honly Hch) as Hvch.
      set (i := onlyVisibleChildFrom (children n1') 0 (-1)) in *.
      assert (Hloc : map Z.of_nat path ++ [i] = map Z.of_nat (path ++ [Z.to_nat i])).
      { rewrite map_app. cbn [map]. now rewrite Z2Nat.id by lia. }
      rewrite Hloc in Hrun.
      assert (Hch' : nodeAt (root m1) (path ++ [Z.to_nat i]) = Some ch).
      { now rewrite nodeAt_snoc with (p := n1'). }
      destruct (_setCollapsed fuel m1 _ false false) as [[o2 m2]|] eqn:Hrec;
        [|discriminate].
      assert (H2 : exactBelow (root m2) = true /\ collapsible (root m2) = false /\
                   projected m2).
      { apply (IH m1 (path ++ [Z.to_nat i]) ch false false o2 m2 Hch' Hb1 Hroot1 Hp1);
          [|exact Hrec].
        left. rewrite visibleAlong_snoc with (x := ch) by assumption.
        rewrite Hvch, andb_true_r.
        rewrite <- visibleAlong_erase, Hcollapse, visibleAlong_erase.
        destruct Hreg as [|(Hno & _)]; [assumption|congruence]. }
      destruct o2; injection Hrun as <- <-; exact H2.
    + injection Hrun as <- <-. auto.
  - injection Hrun as <- <-. auto.
Qed.

(** *** [refilter] *)

Lemma refilter_projected m :
  exactBelow (root m) = true -> projected m ->
  forallb (hidesOnlyEmpty (filter m) None) (children (root m)) = true ->
  projected (refilter m).
Proof.
  intros Hb [HL Hroot] Hh. destruct (exactBelow_children _ Hb) as (Hv & Hc & Hall).
  unfold refilter, updateNodeAfterFilterChange. rewrite refilterRoot_eq. cbv zeta.
  match goal with
  | |- context [refilterChildren ?f ?v ?cr ?cs ?init] =>
      pose proof (@refilterChildren_exact _ _ f v cr [] cs) as Hfold;
      specialize (Hfold ltac:(apply Forall_forall; intros; apply refilterNode_exact)
                        Hh init eq_refl);
      cbv zeta in Hfold;
      specialize (Hfold ltac:(cbn [fst snd]; now rewrite rowsFor_nil) eq_refl);
      destruct (refilterChildren f v cr cs init) as [[[cs' vci] hvd] res2]
  end.
  cbn [fst snd] in Hfold. destruct Hfold as (F1 & F2 & _). rewrite Hc in F1, F2.
  cbn [andb negb app rowsFor] in F1, F2.
  unfold finishRefiltered.
  cbn [visible collapsed set_visibleChildrenCount set_children set_renderNodeCount].
  rewrite Hv, Hc. cbn [negb]. rewrite hiddenEmpty_updateAncestors_None.
  split; cbn [root renderList set_root set_renderList children renderNodeCount
              set_renderNodeCount set_visibleChildrenCount set_children].
  - unfold rowsBelow.
    cbn [children set_renderNodeCount set_visibleChildrenCount set_children].
    rewrite <- F2. apply listSplice_all.
    rewrite HL. unfold rowsBelow. rewrite <- (rows_exact _ Hall). lia.
  - change (forallb (@countsExact _ _) cs' = true) in F1.
    rewrite (rows_exact _ F1), <- F2. cbn [length]. lia.
Qed.

(** *** The invariant *)

Lemma regularStep_projected m m' :
  regularStep m m' ->
  exactBelow (root m) = true -> collapsible (root m) = false -> projected m ->
  projected m'.
Proof.
  intros Hstep Hb Hroot Hpr.
  destruct Hstep as [m pp p k deleteCount toInsert Hp Hk
                    |m path n collapsed_ recursive out m' Hn Hreg Hrun
                    |m Ho
                    |m filter_].
  - rewrite splice_valid with (p := p) by assumption.
    now apply spliceNodes_projected.
  - unfold setCollapsed in Hrun.
    rewrite getTreeNode_valid with (x := n) in Hrun by assumption.
    eapply setCollapsed_projected; eauto.
  - now apply refilter_projected.
  - exact Hpr.
Qed.

Lemma regularlyReachable_projected m : regularlyReachable m -> projected m.
Proof.
  induction 1 as [e o|m m' Hm IH Hstep]; [split; cbn; [reflexivity|lia]|].
  destruct (regularlyReachable_counts Hm) as (Hb & Hroot & _).
  eapply regularStep_projected; eauto.
Qed.

(** The rows of [c] are the nodes from [c] down that are visible and
    have, from [c] on, visible and expanded nodes above them only. *)
Lemma In_revealedNodes (id : nat) c :
  In id (revealedNodes c) <->
  exists q x, nodeAt c q = Some x /\ nid x = id /\ visible x = true /\
              onScreenAbove c q = true.
Proof.
  induction c as [c IH] using node_ind. rewrite Forall_forall in IH.
  rewrite revealedNodes_eq. split.
  - destruct (visible c) eqn:Hv; [|intros []].
    intros [Hid|Hin].
    + exists [], c. repeat split; auto.
    + destruct (collapsed c) eqn:Hc; [destruct Hin|].
      apply in_flat_map in Hin. destruct Hin as (ch & Hch & Hin).
      destruct (In_nth_error _ _ Hch) as [i Hi].
      apply (IH ch Hch) in Hin. destruct Hin as (q & x & Hx & Hid & Hvx & Hon).
      exists (i :: q), x. cbn [nodeAt onScreenAbove]. rewrite Hi, Hv, Hc.
      repeat split; auto.
  - intros (q & x & Hx & Hid & Hvx & Hon). destruct q as [|i q].
    + cbn in Hx. injection Hx as <-. rewrite Hvx. now left.
    + cbn [nodeAt onScreenAbove] in Hx, Hon.
      destruct (nth_error (children c) i) as [ch|] eqn:Hi; [|discriminate].
      apply andb_prop in Hon. destruct Hon as [Hon Hq].
      apply andb_prop in Hon. destruct Hon as [Hv Hc].
      apply negb_true_iff in Hc. rewrite Hv, Hc. right.
      apply in_flat_map. exists ch. split; [eapply nth_error_In; eauto|].
      apply (IH ch (nth_error_In _ _ Hi)). exists q, x. repeat split; auto.
Qed.

Lemma on_screen_iff rt pp i n :
  nodeAt rt (pp ++ [i]) = Some n ->
  onScreenAbove rt (pp ++ [i]) && visible n =
  visibleAlong rt (pp ++ [i]) && expandedAlong rt pp.
Proof.
  intros Hn. rewrite visibleAlong_snoc with (x := n) by assumption.
  rewrite nodeAt_app in Hn. destruct (nodeAt rt pp) as [p|] eqn:Hp; [|discriminate].
  rewrite onScreenAbove_snoc with (p := p) by assumption.
  rewrite <- onScreen_split by assumption.
  now destruct (expandedAlong rt pp), (visibleAlong rt pp), (visible n).
Qed.

Lemma In_traversal m (id : nat) :
  visible (root m) = true -> collapsed (root m) = false ->
  (In id (traversal m) <->
   exists path n,
     path <> [] /\ nodeAt (root m) path = Some n /\ nid n = id /\
     visibleAlong (root m) path = true /\
     expandedAlong (root m) (removelast path) = true).
Proof.
  intros Hv Hc. unfold traversal. split.
  - intros Hin. apply in_flat_map in Hin. destruct Hin as (ch & Hch & Hin).
    destruct (In_nth_error _ _ Hch) as [i Hi].
    apply In_revealedNodes in Hin. destruct Hin as (q & x & Hx & Hid & Hvx & Hon).
    assert (Hat : nodeAt (root m) (i :: q) = Some x) by (cbn [nodeAt]; now rewrite Hi).
    assert (Hon' : onScreenAbove (root m) (i :: q) = true)
      by (cbn [onScreenAbove]; now rewrite Hi, Hv, Hc).
    exists (i :: q), x. split; [discriminate|]. split; [assumption|]. split; [assumption|].
    destruct (i :: q) as [|j pp _] eqn:E using rev_ind; [discriminate|].
    rewrite removelast_snoc.
    pose proof (on_screen_iff _ _ _ Hat) as H. rewrite Hon', Hvx in H.
    symmetry in H. now apply andb_prop in H.
  - intros (path & n & Hne & Hn & Hid & Hva & Hex).
    destruct path as [|j pp _] using rev_ind; [congruence|].
    rewrite removelast_snoc in Hex.
    pose proof (on_screen_iff _ _ _ Hn) as H. rewrite Hva, Hex in H.
    apply andb_prop in H. destruct H as [Hon Hvn].
    destruct (pp ++ [j]) as [|i q] eqn:E; [destruct pp; discriminate|].
    cbn [nodeAt onScreenAbove] in Hn, Hon.
    destruct (nth_error (children (root m)) i) as [ch|] eqn:Hi; [|discriminate].
    rewrite Hv, Hc in Hon. cbn [negb andb] in Hon.
    apply in_flat_map. exists ch. split; [eapply nth_error_In; eauto|].
    apply In_revealedNodes. exists q, n. repeat split; auto.
Qed.

(** X1: after any sequence of regular calls, the render list is the
    depth-first traversal in sibling order that goes below a node only
    when it is visible and not collapsed; its rows are exactly the nodes
    below the root that are visible together with all their ancestors and
    have no collapsed ancestor. *)
Theorem renderList_traversal m :
  regularlyReachable m ->
  renderList m = traversal m /\
  forall id : nat,
    In id (renderList m) <->
    exists path n,
      path <> [] /\ nodeAt (root m) path = Some n /\ nid n = id /\
      visibleAlong (root m) path = true /\
      expandedAlong (root m) (removelast path) = true.
Proof.
  intros H. pose proof (proj1 (regularlyReachable_projected H)) as Hp.
  split; [exact Hp|]. intros id. rewrite Hp.
  destruct (regularlyReachable_counts H) as (Hb & _ & _).
  apply exactBelow_children in Hb. destruct Hb as (Hv & Hc & _).
  now apply In_traversal.
Qed.

Lemma on_screen_path rt pp i n :
  nodeAt rt (pp ++ [i]) = Some n ->
  visibleAlong rt (pp ++ [i]) = true -> expandedAlong rt pp = true ->
  onScreenAbove rt (pp ++ [i]) = true /\ visible n = true.
Proof.
  intros Hn Hva He. rewrite visibleAlong_snoc with (x := n) in Hva by assumption.
  apply andb_prop in Hva. destruct Hva as [Hva Hv]. split; [|assumption].
  rewrite nodeAt_app in Hn. destruct (nodeAt rt pp) as [p|] eqn:Hp; [|discriminate].
  rewrite onScreenAbove_snoc with (p := p) by assumption.
  rewrite <- onScreen_split by assumption. now rewrite He, Hva.
Qed.

(** The rows of a node on screen, where [getListIndex] says. *)
Lemma rows_at_listIndex m pp i n :
  regularlyReachable m ->
  nodeAt (root m) (pp ++ [i]) = Some n ->
  visibleAlong (root m) (pp ++ [i]) = true ->
  expandedAlong (root m) pp = true ->
  exists X Y,
    getTreeNodeWithListIndex (root m) (map Z.of_nat (pp ++ [i])) =
      Ok (mkNodeWithListIndex (Some (pp ++ [i], n)) (Z.of_nat (length X)) true true) /\
    renderNodeCount n = Z.of_nat (length (revealedNodes n)) /\
    renderList m = X ++ revealedNodes n ++ Y.
Proof.
  intros Hm Hn Hva He.
  destruct (regularlyReachable_counts Hm) as (Hb & _ & _).
  destruct (regularlyReachable_projected Hm) as [HL _].
  destruct (exactBelow_children _ Hb) as (_ & _ & Hall).
  destruct (on_screen_path _ _ _ Hn Hva He) as [Hon Hv].
  destruct (rows_context pp (root m) i Hn Hon Hall) as (X & Y & HX & HLr & _).
  exists X, Y. split; [|split].
  - rewrite getTreeNodeWithListIndex_valid with (x := n) by assumption.
    now rewrite HX, He, Hva.
  - apply countsExact_rows. apply exactBelow_at with (n := root m) (path := pp ++ [i]); auto.
    destruct pp; discriminate.
  - now rewrite HL.
Qed.

(** X2: in a model that regular calls lead to, for a node that is visible
    with all its ancestors and lies under no collapsed node,
    [getListIndex] is the position in the render list at which the rows of
    the node start, and [getListRenderCount] is their number. *)
Theorem getListIndex_rows m path n :
  regularlyReachable m ->
  nodeAt (root m) path = Some n -> path <> [] ->
  visibleAlong (root m) path = true ->
  expandedAlong (root m) (removelast path) = true ->
  exists X Y,
    getListIndex m (map Z.of_nat path) = Ok (Z.of_nat (length X)) /\
    getListRenderCount m (map Z.of_nat path) = Ok (Z.of_nat (length (revealedNodes n))) /\
    renderList m = X ++ revealedNodes n ++ Y.
Proof.
  intros Hm Hn Hne Hva He. destruct path as [|i pp _] using rev_ind; [congruence|].
  rewrite removelast_snoc in He.
  destruct (rows_at_listIndex pp i Hm Hn Hva He) as (X & Y & Hr & Hc & HL).
  exists X, Y. split; [|split; [|assumption]].
  - unfold getListIndex. now rewrite Hr.
  - unfold getListRenderCount. rewrite getTreeNode_valid with (x := n) by assumption.
    cbn [bind snd]. now rewrite Hc.
Qed.

(** X3: [rerender] at the empty location throws; in a model that regular
    calls lead to, [rerender] at a node that is visible with all its
    ancestors and lies under no collapsed node puts the node in its own
    row: the rows of the list are as they were. *)
Theorem rerender_row m :
  rerender m [] = Throw InvalidTreeLocation /\
  (regularlyReachable m ->
   forall path n,
     nodeAt (root m) path = Some n -> path <> [] ->
     visibleAlong (root m) path = true ->
     expandedAlong (root m) (removelast path) = true ->
     rerender m (map Z.of_nat path) = Ok (map Some (renderList m))).
Proof.
  split; [reflexivity|].
  intros Hm path n Hn Hne Hva He. destruct path as [|i pp _] using rev_ind; [congruence|].
  rewrite removelast_snoc in He.
  destruct (rows_at_listIndex pp i Hm Hn Hva He) as (X & Y & Hr & Hc & HL).
  destruct (on_screen_path _ _ _ Hn Hva He) as [_ Hv].
  unfold rerender. destruct (map Z.of_nat (pp ++ [i])) eqn:E.
  { destruct pp; discriminate. }
  rewrite <- E in *. rewrite Hr. cbn [bind n_revealed n_listIndex nodeRef option_map snd].
  f_equal. rewrite HL, (revealedNodes_visible n Hv), !map_app. cbn [map].
  match goal with
  | |- listSplice ?L _ _ _ = _ =>
      replace L
        with (map Some X ++ [Some (nid n)]
              ++ (map Some (tl (revealedNodes n)) ++ map Some Y))
        by (lists; reflexivity)
  end.
  rewrite listSplice_middle; [reflexivity|now rewrite length_map|reflexivity].
Qed.

End ProjectionFacts.

(** ** Elements in and out *)

Section ElementFacts.

Variables T TFilterData : Type.
Implicit Types (n c p x rt nd : node T TFilterData) (path pp q : list nat).
Implicit Types (m : model T TFilterData) (el : ITreeElement T).
Implicit Types (f : option (ITreeFilter T TFilterData)) (cbd : bool).
Implicit Types (cs : list (node T TFilterData)).

Lemma treeNodeToElement_eq n :
  treeNodeToElement n =
  mkElement (element n) (map (@treeNodeToElement _ _) (children n)) None
    (Some (collapsed n)).
Proof. now destruct n. Qed.

Lemma createdElement_eq cbd el :
  createdElement cbd el =
  mkElement (el_element el) (map (createdElement cbd) (el_children el)) None
    (Some (match el_collapsed el with None => cbd | Some c => c end)).
Proof. now destruct el. Qed.

Lemma skeleton_eq n :
  skeleton n =
  mkNode (nid n) (parent n) (element n) (map skeleton (children n)) (depth n)
    (visibleChildrenCount n) 0 (collapsible n) (collapsed n) 0 (visible n)
    (filterData n).
Proof. now destruct n. Qed.

Lemma treeNodeToElement_set_visibleChildIndex n i :
  treeNodeToElement (set_visibleChildIndex n i) = treeNodeToElement n.
Proof. now rewrite !treeNodeToElement_eq. Qed.

Lemma createChildren_elements cbd f id pd v cr els :
  Forall (createElements cbd f) els ->
  forall init,
    map (@treeNodeToElement _ _) (fst (fst (fst (createChildren cbd f id pd v cr els init))))
    = map (@treeNodeToElement _ _) (fst (fst (fst init))) ++ map (createdElement cbd) els.
Proof.
  induction 1 as [|el els Hel _ IH]; intros init; [now rewrite app_nil_r|].
  rewrite createChildren_cons, IH.
  specialize (Hel id pd v cr (snd init)).
  destruct init as [[[cs0 vcc0] rnc0] st0].
  destruct (createTreeNode cbd f el id pd v cr _) as [c s1].
  cbn [fst snd pushChild map] in *. rewrite map_app, <- app_assoc. cbn [map app].
  now destruct (visible c); rewrite ?treeNodeToElement_set_visibleChildIndex, Hel.
Qed.

Lemma createTreeNode_elements cbd f el : createElements cbd f el.
Proof.
  induction el as [el IH] using element_ind.
  intros pid pd pv rev [id tl]. rewrite createTreeNode_eq. cbv zeta.
  pose proof (newNode_filtered cbd f el id pid pd (Some pv)) as Hn1. cbv zeta in Hn1.
  destruct Hn1 as (_ & _ & N3 & _ & _ & _ & N7).
  match goal with
  | |- context [createChildren cbd f id ?pd ?v ?cr ?els ?init] =>
      pose proof (@createChildren_elements cbd f id pd v cr els IH init) as Hch;
      set (created := createChildren cbd f id pd v cr els init) in *
  end.
  match goal with
  | |- context [finishNode ?n1 ?v ?r created] =>
      pose proof (finishNode_fields n1 v r created) as Hf; cbv zeta in Hf;
      set (out := finishNode n1 v r created) in *
  end.
  destruct Hf as (_ & _ & F3 & F4 & _ & _ & F7 & _).
  rewrite treeNodeToElement_eq, createdElement_eq, F3, F4, F7, N3, N7, Hch.
  reflexivity.
Qed.

(** X4: the element of a node just made from a tree element is that tree
    element again: the same payload, the children in the same order, with
    the collapse state given, or the model's default where none is. *)
Theorem treeNodeToElement_createTreeNode cbd f el pid pd pv rev st :
  treeNodeToElement (fst (createTreeNode cbd f el pid pd pv rev st))
  = createdElement cbd el.
Proof. apply createTreeNode_elements. Qed.

(** *** The skeleton of a tree *)

Lemma skeleton_set_visibleChildIndex n i :
  skeleton (set_visibleChildIndex n i) = skeleton n.
Proof. now rewrite !skeleton_eq. Qed.

Lemma skeleton_set_renderNodeCount n k :
  skeleton (set_renderNodeCount n k) = skeleton n.
Proof. now rewrite !skeleton_eq. Qed.

Lemma skeleton_erase n : skeleton (erase Counts n) = skeleton n.
Proof.
  induction n as [n IH] using node_ind. rewrite erase_eq, (skeleton_eq n), skeleton_eq.
  cbn [nid parent element children depth visibleChildrenCount collapsible collapsed
       visible filterData]. f_equal. rewrite map_map. now apply map_ext_Forall.
Qed.

Lemma skeleton_of_erase n n' : erase Counts n = erase Counts n' -> skeleton n = skeleton n'.
Proof. intros H. now rewrite <- (skeleton_erase n), H, skeleton_erase. Qed.

Lemma nodeAt_skeleton n q : nodeAt (skeleton n) q = option_map skeleton (nodeAt n q).
Proof.
  revert n; induction q as [|i q IH]; intros n; [reflexivity|].
  rewrite skeleton_eq. cbn [nodeAt children]. rewrite nth_error_map.
  destruct (nth_error (children n) i); cbn; auto.
Qed.

Lemma skeleton_updateAt n path g h :
  (forall p, nodeAt n path = Some p -> skeleton (g p) = h (skeleton p)) ->
  skeleton (updateAt n path g) = updateAt (skeleton n) path h.
Proof.
  revert n; induction path as [|i path IH]; intros n Hg; cbn [updateAt].
  - now apply Hg.
  - rewrite !(skeleton_eq n), skeleton_eq. unfold set_children. simpl.
    f_equal. apply map_mapNth. intros c Hc. apply IH. intros p Hp. apply Hg.
    cbn [nodeAt]. now rewrite Hc.
Qed.

Lemma revealedNodes_skeleton n : revealedNodes (skeleton n) = revealedNodes n.
Proof.
  induction n as [n IH] using node_ind.
  rewrite skeleton_eq, (revealedNodes_eq n), revealedNodes_eq.
  cbn [visible collapsed nid children]. destruct (visible n); [|reflexivity].
  destruct (collapsed n); [reflexivity|]. f_equal.
  induction IH as [|c cs Hc _ IHcs]; [reflexivity|]. cbn [map flat_map]. congruence.
Qed.

Lemma treeNodeToElement_skeleton n : treeNodeToElement (skeleton n) = treeNodeToElement n.
Proof.
  induction n as [n IH] using node_ind.
  rewrite skeleton_eq, (treeNodeToElement_eq n), treeNodeToElement_eq.
  cbn [element collapsed children]. f_equal. rewrite map_map. now apply map_ext_Forall.
Qed.

Lemma map_treeNodeToElement_skeleton cs cs' :
  map skeleton cs = map skeleton cs' ->
  map (@treeNodeToElement _ _) cs = map (@treeNodeToElement _ _) cs'.
Proof.
  intros H. apply (f_equal (map (@treeNodeToElement _ _))) in H.
  rewrite !map_map in H.
  erewrite map_ext in H by (intros; apply treeNodeToElement_skeleton).
  symmetry in H. erewrite map_ext in H by (intros; apply treeNodeToElement_skeleton).
  now symmetry.
Qed.

Lemma countVisible_skeleton cs cs' :
  map skeleton cs = map skeleton cs' -> countVisible cs = countVisible cs'.
Proof.
  revert cs'; induction cs as [|c cs IH]; intros [|c' cs'] H; try discriminate;
    [reflexivity|].
  cbn [map] in H. injection H as Hc Hcs.
  change (c :: cs) with ([c] ++ cs). change (c' :: cs') with ([c'] ++ cs').
  rewrite !countVisible_app, !countVisible_one, (IH _ Hcs).
  rewrite !skeleton_eq in Hc. injection Hc as _ _ _ _ _ _ _ _ Hv _. now rewrite Hv.
Qed.

Lemma map_skeleton_shiftVisibleFrom k d cs :
  map skeleton (shiftVisibleFrom k d cs) = map skeleton cs.
Proof.
  unfold shiftVisibleFrom. rewrite <- (firstn_skipn k cs) at 3.
  rewrite !map_app. f_equal.
  induction (skipn k cs) as [|c l IH]; [reflexivity|]. cbn [map].
  rewrite IH. now destruct (visible c); rewrite ?skeleton_set_visibleChildIndex.
Qed.

(** *** What [splice] does to the children *)

Lemma createNodesToInsert_made m p revealed start els :
  forall init,
    snd (fst (fst init)) = countVisible (fst (fst (fst init))) ->
    let out := createNodesToInsert m p revealed start els init in
    length (fst (fst (fst out))) = (length (fst (fst (fst init))) + length els)%nat /\
    snd (fst (fst out)) = countVisible (fst (fst (fst out))) /\
    map (@treeNodeToElement _ _) (fst (fst (fst out))) =
      map (@treeNodeToElement _ _) (fst (fst (fst init)))
      ++ map (createdElement (collapseByDefault m)) els.
Proof.
  induction els as [|el els IH]; intros init H1.
  - cbn. rewrite app_nil_r. auto.
  - cbv zeta. rewrite createNodesToInsert_cons.
    pose proof (@createTreeNode_elements (collapseByDefault m) (filter m) el (nid p)
                  (depth p) (if visible p then Visible else Hidden) revealed (snd init))
      as Hel.
    match goal with
    | |- context [createNodesToInsert m p revealed start els ?i] =>
        specialize (IH i); cbv zeta in IH
    end.
    destruct init as [[[cs0 vcc0] rnc0] st0].
    destruct (createTreeNode _ _ el _ _ _ _ _) as [c s1].
    cbn [fst snd pushInserted] in *.
    destruct IH as (I1 & I2 & I3).
    { rewrite countVisible_app, countVisible_one, H1.
      destruct (visible c) eqn:Hv; cbn [visible set_visibleChildIndex]; rewrite ?Hv; lia. }
    split; [|split; [assumption|]].
    + rewrite I1, length_app. cbn [length]. lia.
    + rewrite I3, map_app, <- app_assoc. cbn [map app]. do 2 f_equal.
      now destruct (visible c); rewrite ?treeNodeToElement_set_visibleChildIndex.
Qed.

Lemma skeleton_updateAncestors n (path : option (list nat)) d :
  skeleton (_updateAncestorsRenderNodeCount n path d) = skeleton n.
Proof. apply skeleton_of_erase, erase_updateAncestors. Qed.

(** The tree after [splice], render counts and visible child indices
    apart: the parent has its children replaced. *)
Lemma spliceNodes_skeleton m r lastIndex deleteCount toInsert :
  let p := parentNode r in
  let created :=
    createNodesToInsert m p (p_revealed r) (visibleChildStart (children p) lastIndex)
      toInsert ([], 0, 0, (nextId m, [])) in
  let s := spliceStart (children p) lastIndex in
  let d := spliceCount (children p) lastIndex deleteCount in
  let deleted := firstn d (skipn s (children p)) in
  skeleton (root (snd (spliceNodes m r lastIndex deleteCount toInsert))) =
  updateAt (skeleton (root m)) (parentPath r)
    (fun _ =>
       skeleton
         (set_visibleChildrenCount
            (set_children p
               (firstn s (children p) ++ fst (fst (fst created))
                ++ skipn (s + d) (children p)))
            (visibleChildrenCount p + (snd (fst (fst created)) - countVisible deleted)))).
Proof.
  cbv zeta. rewrite spliceNodes_eq. cbv zeta. cbn [snd].
  match goal with
  | |- skeleton (root (if ?b then _ else _)) = _ => destruct b
  end; cbn [root]; rewrite ?skeleton_updateAncestors;
    apply skeleton_updateAt; intros p' _; rewrite !skeleton_eq;
    cbn [nid parent element children depth visibleChildrenCount collapsible collapsed
         visible filterData set_visibleChildrenCount set_children];
    f_equal;
    match goal with
    | |- map skeleton (if ?b then _ else _) = _ =>
        destruct b; [reflexivity|apply map_skeleton_shiftVisibleFrom]
    end.
Qed.

Lemma splice_at m pp p k deleteCount toInsert :
  nodeAt (root m) pp = Some p -> (k <= length (children p))%nat ->
  let r := mkParentWithListIndex pp p (0 + listOffset (root m) pp k)
             (true && expandedAlong (root m) pp) (true && visibleAlong (root m) pp) in
  splice m (map Z.of_nat pp ++ [Z.of_nat k]) deleteCount toInsert =
  (Ok (map (@treeNodeToElement _ _)
         (fst (spliceNodes m r (Z.of_nat k) deleteCount toInsert))),
   snd (spliceNodes m r (Z.of_nat k) deleteCount toInsert)).
Proof.
  intros Hp Hk. cbv zeta. unfold splice.
  destruct (map Z.of_nat pp ++ [Z.of_nat k]) eqn:Hloc; [destruct pp; discriminate|].
  rewrite <- Hloc. rewrite getParentNodeWithListIndex_valid with (p := p) by assumption.
  rewrite last_last. cbn [app]. now destruct (spliceNodes _ _ _ _ _).
Qed.

Lemma spliceCount_nat (A : Type) (l : list A) (k : nat) deleteCount :
  (k <= length l)%nat ->
  spliceCount l (Z.of_nat k) deleteCount = Nat.min (Z.to_nat deleteCount) (length l - k).
Proof.
  intros H. unfold spliceCount. rewrite (spliceStart_nat _ H). lia.
Qed.

Lemma splice_children_at m pp p k deleteCount toInsert :
  nodeAt (root m) pp = Some p -> (k <= length (children p))%nat ->
  let d := Nat.min (Z.to_nat deleteCount) (length (children p) - k) in
  let out := splice m (map Z.of_nat pp ++ [Z.of_nat k]) deleteCount toInsert in
  fst out = Ok (map (@treeNodeToElement _ _) (firstn d (skipn k (children p)))) /\
  exists p',
    nodeAt (root (snd out)) pp = Some p' /\
    element p' = element p /\
    map (@treeNodeToElement _ _) (children p') =
      map (@treeNodeToElement _ _) (firstn k (children p))
      ++ map (createdElement (collapseByDefault m)) toInsert
      ++ map (@treeNodeToElement _ _) (skipn (k + d) (children p)).
Proof.
  intros Hp Hk. cbv zeta. rewrite splice_at with (p := p) by assumption. cbv zeta. cbn [fst snd].
  split.
  - rewrite spliceNodes_eq. cbv zeta. cbn [fst parentNode].
    now rewrite (spliceStart_nat _ Hk), (spliceCount_nat _ _ Hk).
  - pose proof (spliceNodes_skeleton m
                  (mkParentWithListIndex pp p (0 + listOffset (root m) pp k)
                     (true && expandedAlong (root m) pp)
                     (true && visibleAlong (root m) pp))
                  (Z.of_nat k) deleteCount toInsert) as Hs.
    cbv zeta in Hs. cbn [parentNode parentPath p_revealed] in Hs.
    rewrite (spliceStart_nat _ Hk), (spliceCount_nat _ _ Hk) in Hs.
    match type of Hs with
    | context [createNodesToInsert m p ?rev ?start toInsert ?init] =>
        pose proof (@createNodesToInsert_made m p rev start toInsert init eq_refl) as Hmade;
        cbv zeta in Hmade;
        set (created := createNodesToInsert m p rev start toInsert init) in *
    end.
    destruct Hmade as (_ & _ & Hels). cbn [fst map app] in Hels.
    assert (Hat : nodeAt (skeleton (root m)) pp = Some (skeleton p))
      by now rewrite nodeAt_skeleton, Hp.
    pose proof (f_equal (fun t => nodeAt t pp) Hs) as Hat'. cbv beta in Hat'.
    rewrite nodeAt_skeleton in Hat'.
    rewrite nodeAt_updateAt with (p := skeleton p) in Hat' by assumption.
    destruct (nodeAt (root (snd (spliceNodes _ _ _ _ _))) pp) as [p'|]; [|discriminate].
    cbn [option_map] in Hat'. injection Hat' as Hp'.
    exists p'. split; [reflexivity|].
    apply (f_equal (@treeNodeToElement _ _)) in Hp'.
    rewrite !treeNodeToElement_skeleton, !treeNodeToElement_eq in Hp'.
    cbn [element children collapsed set_visibleChildrenCount set_children] in Hp'.
    injection Hp' as He Hc _. split; [assumption|].
    rewrite Hc, map_map.
    rewrite map_ext with (g := @treeNodeToElement T TFilterData)
      by (intros; apply treeNodeToElement_skeleton).
    now rewrite !map_app, Hels.
Qed.

(** X5: [splice] at a position [k] among the children of an existing
    node returns the elements of the children it removes, at most
    [deleteCount] of them from [k] on, in order; the node then has, as
    elements, the children before [k], the new elements, and the children
    after the removed ones. *)
Theorem splice_children m pp p k deleteCount toInsert :
  nodeAt (root m) pp = Some p -> (k <= length (children p))%nat ->
  let d := Nat.min (Z.to_nat deleteCount) (length (children p) - k) in
  let out := splice m (map Z.of_nat pp ++ [Z.of_nat k]) deleteCount toInsert in
  fst out = Ok (map (@treeNodeToElement _ _) (firstn d (skipn k (children p)))) /\
  exists p',
    nodeAt (root (snd out)) pp = Some p' /\
    element p' = element p /\
    map (@treeNodeToElement _ _) (children p') =
      map (@treeNodeToElement _ _) (firstn k (children p))
      ++ map (createdElement (collapseByDefault m)) toInsert
      ++ map (@treeNodeToElement _ _) (skipn (k + d) (children p)).
Proof. intros Hp Hk. now apply splice_children_at. Qed.

(** *** Inserting and deleting again *)

Lemma splice_parts (A : Type) (X I Y : list A) :
  firstn (length X) (X ++ I ++ Y) = X /\
  skipn (length X + length I) (X ++ I ++ Y) = Y /\
  firstn (length I) (skipn (length X) (X ++ I ++ Y)) = I.
Proof.
  split; [|split].
  - rewrite firstn_app, Nat.sub_diag, firstn_all. cbn. apply app_nil_r.
  - rewrite app_assoc, skipn_app, length_app, Nat.sub_diag, skipn_all2
      by (rewrite length_app; lia). reflexivity.
  - rewrite skipn_app, Nat.sub_diag, skipn_all. cbn [skipn app].
    rewrite firstn_app, Nat.sub_diag, firstn_all. cbn. apply app_nil_r.
Qed.

Lemma Some_eq (A : Type) (a b : A) : Some a = Some b -> a = b.
Proof. congruence. Qed.

Lemma rowsBelow_skeleton n : rowsBelow (skeleton n) = rowsBelow n.
Proof.
  unfold rowsBelow. rewrite skeleton_eq. cbn [children].
  induction (children n) as [|c cs IH]; [reflexivity|]. cbn [map flat_map].
  now rewrite revealedNodes_skeleton, IH.
Qed.

Lemma spliceNodes_options m r lastIndex deleteCount toInsert :
  collapseByDefault (snd (spliceNodes m r lastIndex deleteCount toInsert))
  = collapseByDefault m.
Proof.
  rewrite spliceNodes_eq. cbv zeta. cbn [snd].
  now destruct (p_revealed r && p_visible r).
Qed.

Lemma splice_insert_delete m pp p k els :
  regularlyReachable m ->
  nodeAt (root m) pp = Some p -> (k <= length (children p))%nat ->
  let location := map Z.of_nat pp ++ [Z.of_nat k] in
  let m1 := snd (splice m location 0 els) in
  let out := splice m1 location (Z.of_nat (length els)) [] in
  fst out = Ok (map (createdElement (collapseByDefault m)) els) /\
  skeleton (root (snd out)) = skeleton (root m) /\
  renderList (snd out) = renderList m.
Proof.
  intros Hm Hp Hk location m1 out.
  (* the first call *)
  assert (Hm1 : regularlyReachable m1).
  { apply regularly_step with (m := m); [assumption|]. now apply regular_splice with (p := p). }
  pose proof (spliceNodes_skeleton m
                (mkParentWithListIndex pp p (0 + listOffset (root m) pp k)
                   (true && expandedAlong (root m) pp)
                   (true && visibleAlong (root m) pp))
                (Z.of_nat k) 0 els) as S1.
  cbv zeta in S1. cbn [parentNode parentPath p_revealed] in S1.
  rewrite (spliceStart_nat _ Hk), (spliceCount_nat _ _ Hk) in S1.
  change (Z.to_nat 0) with O in S1. cbn [Nat.min firstn] in S1.
  change (countVisible []) with 0 in S1.
  match type of S1 with
  | context [createNodesToInsert m p ?rev ?start els ?init] =>
      pose proof (@createNodesToInsert_made m p rev start els init eq_refl) as Hmade;
      cbv zeta in Hmade;
      set (created := createNodesToInsert m p rev start els init) in *
  end.
  destruct Hmade as (Hlen & Hivc & Hels). cbn [fst snd map app length Nat.add] in Hlen, Hels.
  set (ins1 := fst (fst (fst created))) in *.
  assert (E1 : skeleton (root m1) = _) by (unfold m1, location;
    rewrite splice_at with (p := p) by assumption; exact S1).
  clear S1.
  assert (Hat : nodeAt (skeleton (root m)) pp = Some (skeleton p))
    by now rewrite nodeAt_skeleton, Hp.
  pose proof (f_equal (fun t => nodeAt t pp) E1) as Hat1. cbv beta in Hat1.
  rewrite nodeAt_skeleton in Hat1.
  rewrite nodeAt_updateAt with (p := skeleton p) in Hat1 by assumption.
  destruct (nodeAt (root m1) pp) as [p1|] eqn:Hp1; [|discriminate].
  cbn [option_map] in Hat1. apply Some_eq in Hat1. rename Hat1 into Hsk1.
  rewrite (skeleton_eq p1), skeleton_eq in Hsk1.
  cbn [nid parent element children depth visibleChildrenCount collapsible collapsed
       visible filterData set_visibleChildrenCount set_children] in Hsk1.
  injection Hsk1 as Hnid Hpar Hel Hcs Hdep Hvcc Hcol Hcd Hvis Hfd.
  rewrite Nat.add_0_r in Hcs.
  assert (HlenA : length (map skeleton (firstn k (children p))) = k).
  { rewrite length_map, length_firstn. lia. }
  assert (HlenI : length (map skeleton ins1) = length els) by now rewrite length_map.
  rewrite !map_app in Hcs.
  destruct (splice_parts (map skeleton (firstn k (children p))) (map skeleton ins1)
              (map skeleton (skipn k (children p)))) as (P1 & P2 & P3).
  rewrite <- Hcs in P1, P2, P3. rewrite HlenA in P1, P2, P3. rewrite HlenI in P2, P3.
  rewrite firstn_map in P1. rewrite skipn_map in P2. rewrite skipn_map, firstn_map in P3.
  assert (Hk1 : (k <= length (children p1))%nat).
  { apply (f_equal (@length _)) in Hcs. rewrite !length_app, !length_map in Hcs.
    rewrite length_firstn in Hcs. lia. }
  assert (Hd : Nat.min (Z.to_nat (Z.of_nat (length els))) (length (children p1) - k)
               = length els).
  { apply (f_equal (@length _)) in Hcs. rewrite !length_app, !length_map in Hcs.
    rewrite length_firstn, length_skipn in Hcs. lia. }
  (* the second call *)
  assert (Hm2 : regularlyReachable (snd out)).
  { apply regularly_step with (m := m1); [assumption|]. now apply regular_splice with (p := p1). }
  destruct (@splice_children_at m1 pp p1 k (Z.of_nat (length els)) [] Hp1 Hk1)
    as [Hfst _].
  fold out in Hfst. rewrite Hd in Hfst.
  pose proof (spliceNodes_skeleton m1
                (mkParentWithListIndex pp p1 (0 + listOffset (root m1) pp k)
                   (true && expandedAlong (root m1) pp)
                   (true && visibleAlong (root m1) pp))
                (Z.of_nat k) (Z.of_nat (length els)) []) as S2.
  cbv zeta in S2. cbn [parentNode parentPath p_revealed createNodesToInsert fold_left
                       fst snd app] in S2.
  rewrite (spliceStart_nat _ Hk1), (spliceCount_nat _ _ Hk1), Hd in S2.
  assert (E2 : skeleton (root (snd out)) = _) by (unfold out, location;
    rewrite splice_at with (p := p1) by assumption; exact S2).
  clear S2.
  split; [|split].
  - unfold out, location. rewrite Hfst. f_equal. rewrite <- Hels.
    apply map_treeNodeToElement_skeleton. exact P3.
  - rewrite E2, E1, updateAt_updateAt. apply updateAt_same. rewrite Hat. f_equal.
    rewrite (skeleton_eq p), skeleton_eq.
    cbn [nid parent element children depth visibleChildrenCount collapsible collapsed
         visible filterData set_visibleChildrenCount set_children].
    rewrite Hnid, Hpar, Hel, Hdep, Hcol, Hcd, Hvis, Hfd.
    f_equal.
    + rewrite map_app, P1, P2, <- map_app, firstn_skipn. reflexivity.
    + rewrite (countVisible_skeleton _ _ P3). fold ins1 in Hivc. lia.
  - rewrite (proj1 (regularlyReachable_projected Hm2)).
    rewrite (proj1 (regularlyReachable_projected Hm)).
    rewrite <- (rowsBelow_skeleton (root (snd out))), <- (rowsBelow_skeleton (root m)).
    f_equal.
    rewrite E2, E1, updateAt_updateAt. apply updateAt_same. rewrite Hat. f_equal.
    rewrite (skeleton_eq p), skeleton_eq.
    cbn [nid parent element children depth visibleChildrenCount collapsible collapsed
         visible filterData set_visibleChildrenCount set_children].
    rewrite Hnid, Hpar, Hel, Hdep, Hcol, Hcd, Hvis, Hfd.
    f_equal.
    + rewrite map_app, P1, P2, <- map_app, firstn_skipn. reflexivity.
    + rewrite (countVisible_skeleton _ _ P3). fold ins1 in Hivc. lia.
Qed.

(** X6: in a model that regular calls lead to, inserting elements at a
    position among the children of an existing node and then deleting as
    many children at the same position returns the elements inserted, and
    leaves the render list as it was and the tree as it was, render
    counts and visible child indices apart. *)
Theorem splice_roundtrip m pp p k els :
  regularlyReachable m ->
  nodeAt (root m) pp = Some p -> (k <= length (children p))%nat ->
  let location := map Z.of_nat pp ++ [Z.of_nat k] in
  let m1 := snd (splice m location 0 els) in
  let out := splice m1 location (Z.of_nat (length els)) [] in
  fst out = Ok (map (createdElement (collapseByDefault m)) els) /\
  skeleton (root (snd out)) = skeleton (root m) /\
  renderList (snd out) = renderList m.
Proof. intros Hm Hp Hk. now apply splice_insert_delete with (p := p). Qed.

End ElementFacts.

(** ** Reading after writing *)

Section QueryFacts.

Variables T TFilterData : Type.
Implicit Types (n c p x rt nd : node T TFilterData) (path pp q : list nat).
Implicit Types (m : model T TFilterData) (el : ITreeElement T).
Implicit Types (f : option (ITreeFilter T TFilterData)) (cbd : bool).
Implicit Types (cs : list (node T TFilterData)).

(** X7: [setCollapsed] on an existing node returns; [isCollapsed] at the
    same location then gives the state that was asked for when the node is
    collapsible, the state it had otherwise, and [isCollapsible] gives what
    it gave before; with [collapsed] left out the call is the call with the
    negation of the state of the node. *)
Theorem isCollapsed_setCollapsed m path n collapsed_ recursive :
  nodeAt (root m) path = Some n ->
  (exists changed m',
     setCollapsed m (map Z.of_nat path) (Some collapsed_) recursive
       = Some (Ok changed, m') /\
     isCollapsed m' (map Z.of_nat path)
       = Ok (if collapsible n then collapsed_ else collapsed n) /\
     isCollapsible m' (map Z.of_nat path) = Ok (collapsible n)) /\
  setCollapsed m (map Z.of_nat path) None recursive
    = setCollapsed m (map Z.of_nat path) (Some (negb (collapsed n))) recursive.
Proof.
  intros Hn. split.
  - destruct (setCollapsed_at_node_top m path collapsed_ recursive Hn)
      as (m' & Hrun & He & _ & _ & Hat & _).
    exists (snd (_setNodeCollapsed n collapsed_ recursive)), m'.
    split; [assumption|].
    destruct (nodeAt_of_erase Collapse _ _ _ He Hn) as (n' & Hn' & En').
    unfold collapsedAt in Hat. rewrite Hn' in Hat. cbn [option_map] in Hat.
    unfold isCollapsed, isCollapsible.
    rewrite getTreeNode_valid with (x := n') by assumption. cbn [bind snd].
    split; [congruence|]. f_equal. exact (collapsible_of_erase _ _ _ En').
  - unfold setCollapsed. now rewrite getTreeNode_valid with (x := n) by assumption.
Qed.

Lemma collapse_calls_erase m :
  (forall location collapsed_ recursive out m',
     setCollapsed m location collapsed_ recursive = Some (out, m') ->
     erase Collapse (root m') = erase Collapse (root m)) /\
  (forall location out m',
     expandTo m location = Some (out, m') ->
     erase Collapse (root m') = erase Collapse (root m)).
Proof.
  split.
  - intros location collapsed_ recursive out m' Hrun. unfold setCollapsed in Hrun.
    destruct (getTreeNode _ _ _ _) as [[h n]|e].
    + now apply setCollapsed_fields in Hrun.
    + now injection Hrun as <- <-.
  - intros location out m' Hrun. unfold expandTo in Hrun.
    destruct (getTreeNode _ _ _ _) as [[h n]|e].
    + now apply expandToLoop_fields in Hrun.
    + now injection Hrun as <- <-.
Qed.

(** X8: whatever the location and the outcome, [setCollapsed] and
    [expandTo] write collapse states and render counts only: the nodes,
    their elements, children, depths, visibility and filter data are as
    they were. *)
Theorem collapse_calls_keep_tree m :
  (forall location collapsed_ recursive out m',
     setCollapsed m location collapsed_ recursive = Some (out, m') ->
     erase Collapse (root m') = erase Collapse (root m)) /\
  (forall location out m',
     expandTo m location = Some (out, m') ->
     erase Collapse (root m') = erase Collapse (root m)).
Proof. exact (collapse_calls_erase m). Qed.

(** X9: [refilter] writes the visibility, the counts and indices of
    visible children, the filter data and the render counts only: the
    nodes, their elements, children, depths and collapse states are as they
    were, and so are the options of the model. *)
Theorem refilter_keeps_tree m :
  erase Filter (root (refilter m)) = erase Filter (root m) /\
  filter (refilter m) = filter m /\
  collapseByDefault (refilter m) = collapseByDefault m /\
  autoExpandSingleChildren (refilter m) = autoExpandSingleChildren m /\
  nextId (refilter m) = nextId m.
Proof.
  split; [apply refilter_erase|].
  unfold refilter. destruct (updateNodeAfterFilterChange _ _). repeat split.
Qed.

(** X10: [getListIndex] is -1 at the root, and at an existing node that is
    not visible, or has an ancestor that is not visible or is collapsed. *)
Theorem getListIndex_hidden m :
  getListIndex m [] = Ok (-1) /\
  (forall path n,
     nodeAt (root m) path = Some n -> path <> [] ->
     visibleAlong (root m) path && expandedAlong (root m) (removelast path) = false ->
     getListIndex m (map Z.of_nat path) = Ok (-1)).
Proof.
  split; [reflexivity|].
  intros path n Hn Hne Hoff. destruct path as [|i pp _] using rev_ind; [congruence|].
  rewrite removelast_snoc in Hoff. unfold getListIndex.
  rewrite getTreeNodeWithListIndex_valid with (x := n) by assumption.
  cbn [bind n_visible n_revealed n_listIndex]. now rewrite Hoff.
Qed.

End QueryFacts.

(** ** Depths and counts of visible children *)

Section LayoutFacts.

Variables T TFilterData : Type.
Implicit Types (n c p x rt nd : node T TFilterData) (path pp q : list nat).
Implicit Types (m : model T TFilterData) (el : ITreeElement T).
Implicit Types (f : option (ITreeFilter T TFilterData)) (cbd : bool).
Implicit Types (cs : list (node T TFilterData)).

Lemma laidOut_eq d n :
  laidOut d n =
  (depth n =? d) && (visibleChildrenCount n =? countVisible (children n))
  && forallb (laidOut (d + 1)) (children n).
Proof. destruct n; reflexivity. Qed.

Lemma laidOut_reading d n :
  laidOut d n = true ->
  depth n = d /\ visibleChildrenCount n = countVisible (children n) /\
  forallb (laidOut (d + 1)) (children n) = true.
Proof.
  rewrite laidOut_eq. intros H.
  apply andb_prop in H. destruct H as [H H3].
  apply andb_prop in H. destruct H as [H1 H2].
  apply Z.eqb_eq in H1, H2. auto.
Qed.

Lemma laidOut_intro d n :
  depth n = d -> visibleChildrenCount n = countVisible (children n) ->
  forallb (laidOut (d + 1)) (children n) = true -> laidOut d n = true.
Proof.
  intros H1 H2 H3. rewrite laidOut_eq, H3.
  apply Z.eqb_eq in H1, H2. now rewrite H1, H2.
Qed.

Lemma laidOut_set_visibleChildIndex d n i :
  laidOut d (set_visibleChildIndex n i) = laidOut d n.
Proof. now rewrite !laidOut_eq. Qed.

Lemma visible_set_visibleChildIndex n i : visible (set_visibleChildIndex n i) = visible n.
Proof. now destruct n. Qed.

Lemma laidOut_set_renderNodeCount d n k :
  laidOut d (set_renderNodeCount n k) = laidOut d n.
Proof. now rewrite !laidOut_eq. Qed.

Lemma countVisible_map_erase w cs :
  w <> Filter -> countVisible (map (erase w) cs) = countVisible cs.
Proof.
  intros Hw. unfold countVisible. f_equal.
  induction cs as [|c cs IH]; [reflexivity|]. cbn [map List.filter].
  replace (visible (erase w c)) with (visible c)
    by (rewrite erase_eq; now destruct w).
  destruct (visible c); cbn [length]; now rewrite IH.
Qed.

Lemma laidOut_erase w n :
  w <> Filter -> forall d, laidOut d (erase w n) = laidOut d n.
Proof.
  intros Hw. induction n as [n IH] using node_ind. intros d.
  rewrite (laidOut_eq d n), laidOut_eq, erase_eq.
  cbn [depth visibleChildrenCount children].
  rewrite countVisible_map_erase by assumption.
  replace (match w with Filter => 0 | _ => visibleChildrenCount n end)
    with (visibleChildrenCount n) by now destruct w.
  f_equal.
  induction IH as [|c cs Hc _ IHcs]; [reflexivity|].
  cbn [map forallb]. now rewrite Hc, IHcs.
Qed.

Lemma laidOut_of_erase w n n' d :
  w <> Filter -> erase w n' = erase w n -> laidOut d n' = laidOut d n.
Proof.
  intros Hw He. rewrite <- (laidOut_erase n' Hw), <- (laidOut_erase n Hw). now rewrite He.
Qed.

Lemma laidOut_at n path x :
  forall d, laidOut d n = true -> nodeAt n path = Some x ->
            laidOut (d + Z.of_nat (length path)) x = true.
Proof.
  revert n; induction path as [|i path IH]; intros n d Hn Hx.
  - cbn in Hx. injection Hx as <-. cbn [length]. now rewrite Z.add_0_r.
  - cbn [nodeAt] in Hx. destruct (nth_error (children n) i) as [c|] eqn:Hc; [|discriminate].
    apply laidOut_reading in Hn. destruct Hn as (_ & _ & Hcs).
    pose proof (forallb_nth_error _ _ _ Hc Hcs) as Hlc.
    specialize (IH c (d + 1) Hlc Hx). cbn [length].
    now replace (d + Z.of_nat (S (length path))) with (d + 1 + Z.of_nat (length path)) by lia.
Qed.

Lemma updateAt_laidOut g p path :
  forall n d,
    laidOut d n = true -> nodeAt n path = Some p ->
    (forall dp, laidOut dp p = true -> laidOut dp (g p) = true) ->
    visible (g p) = visible p ->
    laidOut d (updateAt n path g) = true.
Proof.
  induction path as [|i path IH]; intros n d Hn Hp Hg Hv.
  - cbn in Hp |- *. injection Hp as ->. now apply Hg.
  - cbn [nodeAt updateAt] in *.
    destruct (nth_error (children n) i) as [c|] eqn:Hc; [|discriminate].
    apply laidOut_reading in Hn. destruct Hn as (H1 & H2 & Hcs).
    pose proof (forallb_nth_error _ _ _ Hc Hcs) as Hlc.
    specialize (IH c (d + 1) Hlc Hp Hg Hv).
    set (cs' := mapNth i (fun c0 => updateAt c0 path g) (children n)).
    assert (E1 : depth (set_children n cs') = depth n) by now destruct n.
    assert (E2 : visibleChildrenCount (set_children n cs') = visibleChildrenCount n)
      by now destruct n.
    assert (E3 : children (set_children n cs') = cs') by now destruct n.
    apply laidOut_intro; rewrite ?E1, ?E2, ?E3; [assumption| |].
    + rewrite H2. unfold cs'. rewrite (mapNth_split _ _ _ Hc).
      rewrite (nth_error_split_firstn _ _ Hc) at 1.
      change (?a :: ?l) with ([a] ++ l).
      rewrite !countVisible_app, !countVisible_one.
      now rewrite (@visible_updateAt _ _ c path g p Hp Hv).
    + now apply forallb_mapNth with (c := c).
Qed.

(** *** Created nodes *)

Lemma createChildren_laidOut cbd f id pd v cr els :
  Forall (fun el => forall pid pd pv rev st,
            laidOut (pd + 1) (fst (createTreeNode cbd f el pid pd pv rev st)) = true) els ->
  forall init,
    forallb (laidOut (pd + 1)) (fst (fst (fst init))) = true ->
    snd (fst (fst init)) = countVisible (fst (fst (fst init))) ->
    let out := createChildren cbd f id pd v cr els init in
    forallb (laidOut (pd + 1)) (fst (fst (fst out))) = true /\
    snd (fst (fst out)) = countVisible (fst (fst (fst out))).
Proof.
  induction 1 as [|el els Hel _ IH]; intros init H1 H2; [now split|].
  cbv zeta. rewrite createChildren_cons. apply IH.
  - specialize (Hel id pd v cr (snd init)).
    destruct init as [[[cs0 vcc0] rnc0] st0].
    destruct (createTreeNode cbd f el id pd v cr _) as [c s1].
    cbn [fst snd pushChild] in *. rewrite forallb_app, H1. cbn [forallb].
    rewrite andb_true_r. now destruct (visible c); rewrite ?laidOut_set_visibleChildIndex.
  - destruct init as [[[cs0 vcc0] rnc0] st0].
    destruct (createTreeNode cbd f el id pd v cr _) as [c s1].
    cbn [fst snd pushChild] in *. rewrite countVisible_app, countVisible_one, H2.
    destruct (visible c) eqn:E; [|now rewrite E, Z.add_0_r].
    now rewrite visible_set_visibleChildIndex, E.
Qed.

Lemma createTreeNode_laidOut cbd f el :
  forall pid pd pv rev st,
    laidOut (pd + 1) (fst (createTreeNode cbd f el pid pd pv rev st)) = true.
Proof.
  induction el as [el IH] using element_ind.
  intros pid pd pv rev [id tl]. rewrite createTreeNode_eq. cbv zeta.
  pose proof (newNode_filtered cbd f el id pid pd (Some pv)) as Hn. cbv zeta in Hn.
  destruct Hn as (_ & _ & _ & _ & N5 & _).
  match goal with
  | |- context [createChildren cbd f id ?pd1 ?v ?cr ?els ?init] =>
      pose proof (@createChildren_laidOut cbd f id pd1 v cr els IH init eq_refl eq_refl)
        as Hch; cbv zeta in Hch;
      set (created := createChildren cbd f id pd1 v cr els init) in *
  end.
  match goal with
  | |- context [finishNode ?n1 ?v ?r created] =>
      pose proof (finishNode_fields n1 v r created) as Hf; cbv zeta in Hf;
      set (out := finishNode n1 v r created) in *
  end.
  destruct Hf as (_ & _ & _ & F4 & F5 & F6 & _).
  destruct Hch as [Hc1 Hc2].
  apply laidOut_intro; rewrite ?F4, ?F5, ?F6; assumption.
Qed.

Lemma createNodesToInsert_laidOut m p revealed start els :
  forall init,
    forallb (laidOut (depth p + 1)) (fst (fst (fst init))) = true ->
    snd (fst (fst init)) = countVisible (fst (fst (fst init))) ->
    let out := createNodesToInsert m p revealed start els init in
    forallb (laidOut (depth p + 1)) (fst (fst (fst out))) = true /\
    snd (fst (fst out)) = countVisible (fst (fst (fst out))).
Proof.
  induction els as [|el els IH]; intros init H1 H2; [now split|].
  cbv zeta. rewrite createNodesToInsert_cons. apply IH.
  - pose proof (@createTreeNode_laidOut (collapseByDefault m) (filter m) el (nid p)
                  (depth p) (if visible p then Visible else Hidden) revealed (snd init))
      as Hel.
    destruct init as [[[cs0 vcc0] rnc0] st0].
    destruct (createTreeNode _ _ el _ _ _ _ _) as [c s1].
    cbn [fst snd pushInserted] in *. rewrite forallb_app, H1. cbn [forallb].
    rewrite andb_true_r. now destruct (visible c); rewrite ?laidOut_set_visibleChildIndex.
  - destruct init as [[[cs0 vcc0] rnc0] st0].
    destruct (createTreeNode _ _ el _ _ _ _ _) as [c s1].
    cbn [fst snd pushInserted] in *. rewrite countVisible_app, countVisible_one, H2.
    destruct (visible c) eqn:E; [|now rewrite E, Z.add_0_r].
    now rewrite visible_set_visibleChildIndex, E.
Qed.

(** *** [splice] *)

Lemma countVisible_shiftVisibleFrom from by_ cs :
  countVisible (shiftVisibleFrom from by_ cs) = countVisible cs.
Proof.
  unfold shiftVisibleFrom.
  rewrite <- (firstn_skipn from cs) at 3. rewrite !countVisible_app. f_equal.
  induction (skipn from cs) as [|c l IH]; [reflexivity|]. cbn [map].
  change (?a :: ?l) with ([a] ++ l).
  rewrite !countVisible_app, !countVisible_one, IH.
  destruct (visible c) eqn:E; [|now rewrite E].
  now rewrite visible_set_visibleChildIndex, E.
Qed.

Lemma countVisible_spliced (b : bool) from by_ s d cs ins :
  countVisible (if b then firstn s cs ++ ins ++ skipn (s + d) cs
                else shiftVisibleFrom from by_ (firstn s cs ++ ins ++ skipn (s + d) cs)) =
  countVisible cs - countVisible (firstn d (skipn s cs)) + countVisible ins.
Proof.
  assert (H : countVisible (firstn s cs ++ ins ++ skipn (s + d) cs) =
              countVisible cs - countVisible (firstn d (skipn s cs)) + countVisible ins).
  { assert (E1 : countVisible cs = countVisible (firstn s cs) + countVisible (skipn s cs))
      by now rewrite <- countVisible_app, firstn_skipn.
    assert (E2 : countVisible (skipn s cs) =
                 countVisible (firstn d (skipn s cs)) + countVisible (skipn (s + d) cs))
      by now rewrite <- (Nat.add_comm d s), <- skipn_skipn, <- countVisible_app, firstn_skipn.
    rewrite !countVisible_app. lia. }
  destruct b; [assumption|]. now rewrite countVisible_shiftVisibleFrom.
Qed.

Lemma spliceNodes_laidOut m r lastIndex deleteCount toInsert :
  nodeAt (root m) (parentPath r) = Some (parentNode r) ->
  laidOut 0 (root m) = true ->
  laidOut 0 (root (snd (spliceNodes m r lastIndex deleteCount toInsert))) = true.
Proof.
  intros Hp Hl. rewrite spliceNodes_eq. cbv zeta. cbn [snd].
  set (p := parentNode r) in *.
  match goal with
  | |- context [createNodesToInsert m p ?rev ?start toInsert ?init] =>
      pose proof (@createNodesToInsert_laidOut m p rev start toInsert init eq_refl eq_refl)
        as Hins; cbv zeta in Hins;
      set (created := createNodesToInsert m p rev start toInsert init) in *
  end.
  destruct Hins as [Hi1 Hi2].
  set (s := spliceStart (children p) lastIndex).
  set (d := spliceCount (children p) lastIndex deleteCount).
  set (deleted := firstn d (skipn s (children p))).
  set (b := countVisible deleted =? 0).
  set (from := Z.to_nat (lastIndex + Z.of_nat (length (fst (fst (fst created)))))).
  set (cs2 := if b then _ else _).
  set (vcc := visibleChildrenCount p + _).
  set (p' := set_visibleChildrenCount (set_children p cs2) vcc).
  assert (Hroot1 : laidOut 0 (updateAt (root m) (parentPath r) (fun _ => p')) = true).
  { apply updateAt_laidOut with (p := p); [assumption|assumption| |reflexivity].
    intros dp Hdp. apply laidOut_reading in Hdp. destruct Hdp as (D1 & D2 & D3).
    apply laidOut_intro; cbn [p' depth visibleChildrenCount children
                               set_visibleChildrenCount set_children].
    - assumption.
    - unfold vcc, cs2. rewrite countVisible_spliced. fold deleted. lia.
    - unfold cs2. rewrite <- D1 in *.
      apply forallb_spliced; auto using laidOut_set_visibleChildIndex. }
  destruct (p_revealed r && p_visible r); cbn [root]; [|assumption].
  rewrite laidOut_of_erase with (w := Counts) (n := updateAt (root m) (parentPath r) (fun _ => p'));
    [assumption|discriminate|apply erase_updateAncestors].
Qed.

Lemma splice_laidOut m location deleteCount toInsert :
  laidOut 0 (root m) = true ->
  laidOut 0 (root (snd (splice m location deleteCount toInsert))) = true.
Proof.
  intros Hl. unfold splice. destruct location as [|i rest]; [assumption|].
  destruct (getParentNodeWithListIndex _ _ _ _ _ _ _) as [r|e] eqn:Hr; [|assumption].
  pose proof (@getParentNodeWithListIndex_ref _ _ (root m) (i :: rest) [] (root m) 0 true
                true r eq_refl Hr) as Hp.
  pose proof (@spliceNodes_laidOut m r (last (i :: rest) 0) deleteCount toInsert Hp Hl) as H.
  now destruct (spliceNodes m r _ deleteCount toInsert).
Qed.

(** *** [refilter] *)

Lemma laidOut_set_visible d n b : laidOut d (set_visible n b) = laidOut d n.
Proof. now rewrite !laidOut_eq. Qed.

Lemma laidOut_set_filterData d n (fd : option TFilterData) :
  laidOut d (set_filterData n fd) = laidOut d n.
Proof. now rewrite !laidOut_eq. Qed.

Lemma finishRefiltered_laidOut d isRoot v revealed k n3 hvd res :
  laidOut d (fst (fst (finishRefiltered isRoot v revealed k n3 hvd res))) = laidOut d n3.
Proof.
  unfold finishRefiltered.
  match goal with |- context [if negb (visible ?x) then _ else _] => set (n4 := x) end.
  assert (H4 : laidOut d n4 = laidOut d n3)
    by (unfold n4; destruct isRoot; [reflexivity|apply laidOut_set_visible]).
  destruct (negb (visible n4)); [|destruct (negb (collapsed n4))]; cbn [fst];
    now rewrite ?laidOut_set_renderNodeCount.
Qed.

Lemma refilterChildren_laidOut f v cr d cs :
  Forall (fun c => forall pv result revealed d,
            laidOut d c = true ->
            laidOut d (fst (fst (_updateNodeAfterFilterChange f false c pv result revealed)))
            = true) cs ->
  forallb (laidOut d) cs = true ->
  forall init,
    forallb (laidOut d) (fst (fst (fst init))) = true ->
    snd (fst (fst init)) = countVisible (fst (fst (fst init))) ->
    let out := refilterChildren f v cr cs init in
    forallb (laidOut d) (fst (fst (fst out))) = true /\
    snd (fst (fst out)) = countVisible (fst (fst (fst out))).
Proof.
  induction 1 as [|c cs Hc _ IH]; intros Hl init H1 H2; [now split|].
  cbv zeta. rewrite refilterChildren_cons.
  cbn [forallb] in Hl. apply andb_prop in Hl. destruct Hl as [Hlc Hlcs].
  specialize (Hc v (snd init) cr d Hlc).
  destruct init as [[[cs0 vci0] hvd0] res0].
  destruct (_updateNodeAfterFilterChange f false c v _ cr) as [[c' b] res1].
  cbn [fst snd pushRefiltered] in *.
  apply IH; [assumption| |]; cbn [fst snd].
  - rewrite forallb_app, H1. cbn [forallb]. rewrite andb_true_r.
    now destruct (visible c'); rewrite ?laidOut_set_visibleChildIndex.
  - rewrite countVisible_app, countVisible_one, H2.
    destruct (visible c') eqn:E; [|now rewrite E, Z.add_0_r].
    now rewrite visible_set_visibleChildIndex, E.
Qed.

Lemma refilterNode_laidOut f n :
  forall pv result revealed d,
    laidOut d n = true ->
    laidOut d (fst (fst (_updateNodeAfterFilterChange f false n pv result revealed))) = true.
Proof.
  induction n as [n IH] using node_ind.
  intros pv result revealed d Hl.
  pose proof (laidOut_reading _ _ Hl) as (D1 & D2 & D3).
  rewrite refilterNode_eq. cbv zeta. rewrite filterNode_fst.
  destruct (isHidden (Some (snd (filterResult f (element n) pv)))).
  - cbn [fst]. now rewrite laidOut_set_visible, laidOut_set_filterData.
  - match goal with
    | |- context [refilterChildren f ?v ?cr ?cs ?init] =>
        pose proof (@refilterChildren_laidOut f v cr (d + 1) cs IH D3 init eq_refl eq_refl)
          as Hfold; cbv zeta in Hfold;
        destruct (refilterChildren f v cr cs init) as [[[cs' vci] hvd] res2]
    end.
    cbn [fst snd] in Hfold. destruct Hfold as [F1 F2].
    rewrite finishRefiltered_laidOut. now apply laidOut_intro.
Qed.

Lemma refilter_laidOut m :
  laidOut 0 (root m) = true -> laidOut 0 (root (refilter m)) = true.
Proof.
  intros Hl. pose proof (laidOut_reading _ _ Hl) as (D1 & D2 & D3).
  unfold refilter, updateNodeAfterFilterChange. rewrite refilterRoot_eq. cbv zeta.
  match goal with
  | |- context [refilterChildren ?f ?v ?cr ?cs ?init] =>
      pose proof (@refilterChildren_laidOut f v cr (0 + 1) cs) as Hfold;
      specialize (Hfold ltac:(apply Forall_forall; intros; now apply refilterNode_laidOut)
                        D3 init eq_refl eq_refl);
      cbv zeta in Hfold;
      destruct (refilterChildren f v cr cs init) as [[[cs' vci] hvd] res2]
  end.
  cbn [fst snd] in Hfold. destruct Hfold as [F1 F2].
  match goal with
  | |- context [finishRefiltered ?a ?b ?c ?d ?e ?g ?h] =>
      pose proof (@finishRefiltered_laidOut 0 a b c d e g h) as Hfin;
      destruct (finishRefiltered a b c d e g h) as [[n' b'] res']
  end.
  cbn [fst root set_root set_renderList] in *.
  rewrite laidOut_of_erase with (w := Counts) (n := n');
    [|discriminate|apply erase_updateAncestors].
  rewrite Hfin. now apply laidOut_intro.
Qed.

(** *** The invariant *)

Lemma step_laidOut m m' :
  step m m' -> laidOut 0 (root m) = true -> laidOut 0 (root m') = true.
Proof.
  intros Hs Hl. destruct Hs as [m location deleteCount toInsert
                               |m location collapsed_ recursive out m' Hrun
                               |m location out m' Hrun|m|m filter_].
  - now apply splice_laidOut.
  - rewrite laidOut_of_erase with (w := Collapse) (n := root m);
      [assumption|discriminate|].
    eapply (proj1 (collapse_calls_erase m)); eassumption.
  - rewrite laidOut_of_erase with (w := Collapse) (n := root m);
      [assumption|discriminate|].
    eapply (proj2 (collapse_calls_erase m)); eassumption.
  - now apply refilter_laidOut.
  - assumption.
Qed.

Lemma reachable_laidOut m : reachable m -> laidOut 0 (root m) = true.
Proof.
  induction 1 as [rootElement options|m m' _ IH Hs]; [reflexivity|].
  now apply step_laidOut with (m := m).
Qed.

(** X11: in every model that a sequence of calls leads to, whatever their
    arguments and outcomes, the [depth] of the node at a path is the length
    of the path, and its [visibleChildrenCount] is the number of its
    children that are visible. *)
Theorem depth_and_visibleChildrenCount m path n :
  reachable m -> nodeAt (root m) path = Some n ->
  depth n = Z.of_nat (length path) /\
  visibleChildrenCount n = countVisible (children n).
Proof.
  intros Hm Hn. apply reachable_laidOut in Hm.
  pose proof (laidOut_at _ _ _ Hm Hn) as H. apply laidOut_reading in H.
  destruct H as (H1 & H2 & _). now split.
Qed.

End LayoutFacts.

(** ** Looking nodes up *)

Section LookupFacts.

Variables T TFilterData : Type.
Implicit Types (n c p x rt nd : node T TFilterData) (path pp q : list nat).
Implicit Types (m : model T TFilterData) (el : ITreeElement T).
Implicit Types (cs : list (node T TFilterData)).

Lemma getTreeNode_app rt path :
  forall rest here nd x,
    nodeAt nd path = Some x ->
    getTreeNode rt (map Z.of_nat path ++ rest) here nd =
    getTreeNode rt rest (here ++ path) x.
Proof.
  induction path as [|i path IH]; intros rest here nd x Hx.
  - cbn in Hx |- *. injection Hx as ->. now rewrite app_nil_r.
  - cbn [nodeAt] in Hx.
    destruct (nth_error (children nd) i) as [c|] eqn:Hc; [|discriminate].
    cbn [map app getTreeNode].
    rewrite (inBounds_of_nat _ _ Hc), child_of_nat, Nat2Z.id, Hc,
      (IH rest (here ++ [i]) c x Hx).
    now rewrite <- app_assoc.
Qed.

Lemma getNode_at m path p rest :
  nodeAt (root m) path = Some p ->
  getNode m (map Z.of_nat path ++ rest) =
  (x <- getTreeNode (root m) rest path p ;; Ok (snd x)).
Proof.
  intros Hp. unfold getNode. now rewrite getTreeNode_app with (x := p) by assumption.
Qed.

(** X12: [getNode] at the path of an existing node returns it.  One
    index further, an index that is negative or greater than the number of
    children throws the invalid-location error, whatever follows; an index
    equal to the number of children does not throw: the walk goes on from
    the root with the rest of the location. *)
Theorem getNode_walk m path p :
  nodeAt (root m) path = Some p ->
  getNode m (map Z.of_nat path) = Ok p /\
  (forall index rest,
     index < 0 \/ Z.of_nat (length (children p)) < index ->
     getNode m (map Z.of_nat path ++ index :: rest) = Throw InvalidTreeLocation) /\
  (forall rest,
     getNode m (map Z.of_nat path ++ Z.of_nat (length (children p)) :: rest)
     = getNode m rest).
Proof.
  intros Hp. split; [|split].
  - rewrite <- (app_nil_r (map Z.of_nat path)).
    now rewrite getNode_at with (p := p) by assumption.
  - intros index rest Hout. rewrite getNode_at with (p := p) by assumption.
    cbn [getTreeNode].
    replace (outOfBounds p index) with true; [reflexivity|].
    symmetry. apply outOfBounds_spec. lia.
  - intros rest. rewrite getNode_at with (p := p) by assumption.
    cbn [getTreeNode].
    rewrite outOfBounds_le, child_of_nat by apply le_n.
    replace (nth_error (children p) (length (children p))) with (@None (node T TFilterData))
      by (symmetry; now apply nth_error_None).
    reflexivity.
Qed.

(** *** The last element *)

Lemma nodes_nonempty n : nodes n <> [].
Proof. destruct n; discriminate. Qed.

Lemma last_nonempty (A : Type) (l : list A) d d' : l <> [] -> last l d = last l d'.
Proof.
  induction l as [|a l IH]; [congruence|]. intros _.
  destruct l as [|b l]; [reflexivity|]. cbn [last] in *. apply IH. discriminate.
Qed.

Lemma last_app_nonempty (A : Type) (l1 l2 : list A) d :
  l2 <> [] -> last (l1 ++ l2) d = last l2 d.
Proof.
  intros H2. induction l1 as [|a l1 IH]; [reflexivity|].
  cbn [app]. destruct (l1 ++ l2) eqn:E.
  - apply app_eq_nil in E. now destruct E.
  - cbn [last]. exact IH.
Qed.

Lemma getLastElementAncestor_nodes n :
  _getLastElementAncestor n = element (last (nodes n) n).
Proof.
  induction n as [n IH] using node_ind.
  destruct n as [i p e cs d vcc vci cl co rnc vis fd]. cbn [children] in IH.
  cbn [_getLastElementAncestor nodes children element].
  set (n0 := mkNode i p e cs d vcc vci cl co rnc vis fd).
  destruct cs as [|c cs _] using rev_ind; [reflexivity|].
  rewrite map_app, flat_map_app. cbn [map flat_map]. rewrite app_nil_r.
  rewrite last_last.
  apply Forall_app in IH. destruct IH as [_ IH]. inversion IH as [|? ? Hc _]; subst.
  rewrite Hc.
  change (n0 :: flat_map (@nodes _ _) cs ++ nodes c)
    with ((n0 :: flat_map (@nodes _ _) cs) ++ nodes c).
  rewrite last_app_nonempty by apply nodes_nonempty.
  f_equal. apply last_nonempty, nodes_nonempty.
Qed.

(** X13: [getLastElementAncestor] at an existing node is [undefined]
    when the node has no children, and otherwise the element of the last
    node below it, in depth-first order. *)
Theorem getLastElementAncestor_last m path n :
  nodeAt (root m) path = Some n ->
  getLastElementAncestor m (map Z.of_nat path) =
  Ok (match children n with
      | [] => None
      | _ :: _ => Some (element (last (nodes n) n))
      end).
Proof.
  intros Hn. unfold getLastElementAncestor.
  rewrite getTreeNode_valid with (x := n) by assumption. cbn [bind snd].
  destruct (children n); [reflexivity|]. now rewrite getLastElementAncestor_nodes.
Qed.

(** *** Looking up what was inserted *)

Lemma nth_error_map_inv (A B : Type) (g : A -> B) (l : list A) i b :
  nth_error (map g l) i = Some b -> exists a, nth_error l i = Some a /\ g a = b.
Proof.
  rewrite nth_error_map. destruct (nth_error l i) as [a|]; [|discriminate].
  intros H. injection H as <-. now exists a.
Qed.

Lemma getNode_inserted_at m pp p k deleteCount els i el :
  nodeAt (root m) pp = Some p -> (k <= length (children p))%nat ->
  nth_error els i = Some el ->
  let m' := snd (splice m (map Z.of_nat pp ++ [Z.of_nat k]) deleteCount els) in
  (exists n,
     getNode m' (map Z.of_nat (pp ++ [(k + i)%nat])) = Ok n /\
     treeNodeToElement n = createdElement (collapseByDefault m) el) /\
  (k = 0%nat -> i = 0%nat ->
   getFirstElementChild m' (map Z.of_nat pp) = Ok (Some (el_element el))).
Proof.
  intros Hp Hk Hel m'.
  destruct (@splice_children_at _ _ m pp p k deleteCount els Hp Hk) as (_ & p' & Hp' & _ & Hcs).
  fold m' in Hp'.
  assert (Hnth : nth_error (map (@treeNodeToElement _ _) (children p')) (k + i)
                 = Some (createdElement (collapseByDefault m) el)).
  { rewrite Hcs. rewrite nth_error_app2 by (rewrite length_map, length_firstn; lia).
    rewrite length_map, length_firstn.
    replace (k + i - Nat.min k (length (children p)))%nat with i by lia.
    rewrite nth_error_app1
      by (rewrite length_map; apply nth_error_Some; congruence).
    now rewrite nth_error_map, Hel. }
  apply nth_error_map_inv in Hnth. destruct Hnth as (n & Hn & En).
  assert (Hat : nodeAt (root m') (pp ++ [(k + i)%nat]) = Some n)
    by (rewrite nodeAt_app, Hp'; cbn [nodeAt]; now rewrite Hn).
  split.
  - exists n. split; [|assumption]. unfold getNode.
    now rewrite getTreeNode_valid with (x := n) by assumption.
  - intros -> ->. unfold getFirstElementChild.
    rewrite getTreeNode_valid with (x := p') by assumption. cbn [bind snd].
    cbn [Nat.add] in Hn. destruct (children p') as [|c cs]; [discriminate|].
    cbn in Hn. injection Hn as ->.
    rewrite treeNodeToElement_eq, createdElement_eq in En. now injection En as ->.
Qed.

(** X14: after a [splice] at a position [k] among the children of an
    existing node, [getNode] one step below that node at [k + i] returns
    the node made from the [i]-th inserted element; inserted at the front,
    the first inserted element is what [getFirstElementChild] gives. *)
Theorem getNode_inserted m pp p k deleteCount els i el :
  nodeAt (root m) pp = Some p -> (k <= length (children p))%nat ->
  nth_error els i = Some el ->
  let m' := snd (splice m (map Z.of_nat pp ++ [Z.of_nat k]) deleteCount els) in
  (exists n,
     getNode m' (map Z.of_nat (pp ++ [(k + i)%nat])) = Ok n /\
     treeNodeToElement n = createdElement (collapseByDefault m) el) /\
  (k = 0%nat -> i = 0%nat ->
   getFirstElementChild m' (map Z.of_nat pp) = Ok (Some (el_element el))).
Proof. intros Hp Hk Hel. now apply getNode_inserted_at with (p := p). Qed.

End LookupFacts.

(** ** What a splice leaves alone *)

Section FrameFacts.

Variables T TFilterData : Type.
Implicit Types (n c p x rt nd : node T TFilterData) (path pp q : list nat).
Implicit Types (m : model T TFilterData) (el : ITreeElement T).
Implicit Types (cs : list (node T TFilterData)).

Lemma nodeAt_updateAt_beside g (i j : nat) r s :
  i <> j ->
  forall (pre : list nat) n,
    nodeAt (updateAt n (pre ++ j :: s) g) (pre ++ i :: r) = nodeAt n (pre ++ i :: r).
Proof.
  intros Hij. induction pre as [|a pre IH]; intros n; cbn [app updateAt nodeAt].
  - replace (children (set_children n (mapNth j (fun c0 => updateAt c0 s g) (children n))))
      with (mapNth j (fun c0 => updateAt c0 s g) (children n)) by now destruct n.
    now rewrite nth_error_mapNth_neq by congruence.
  - replace (children (set_children n
               (mapNth a (fun c0 => updateAt c0 (pre ++ j :: s) g) (children n))))
      with (mapNth a (fun c0 => updateAt c0 (pre ++ j :: s) g) (children n))
      by now destruct n.
    rewrite nth_error_mapNth_eq.
    destruct (nth_error (children n) a); cbn [option_map]; auto.
Qed.

Lemma children_bump n d cs :
  children (set_children (set_renderNodeCount n d) cs) = cs.
Proof. now destruct n. Qed.

Lemma nodeAt_bumpAlong_beside d (i j : nat) r s :
  i <> j ->
  forall (pre : list nat) n,
    nodeAt (bumpAlong n (pre ++ j :: s) d) (pre ++ i :: r) = nodeAt n (pre ++ i :: r).
Proof.
  intros Hij. induction pre as [|a pre IH]; intros n; cbn [app bumpAlong nodeAt];
    rewrite children_bump.
  - now rewrite nth_error_mapNth_neq by congruence.
  - rewrite nth_error_mapNth_eq.
    destruct (nth_error (children n) a); cbn [option_map]; auto.
Qed.

Lemma nodeAt_bumpAlong_below d (i : nat) r :
  forall path n, nodeAt (bumpAlong n path d) (path ++ i :: r) = nodeAt n (path ++ i :: r).
Proof.
  induction path as [|a path IH]; intros n; cbn [app bumpAlong nodeAt].
  - now destruct n.
  - rewrite children_bump, nth_error_mapNth_eq.
    destruct (nth_error (children n) a); cbn [option_map]; auto.
Qed.

Lemma nodeAt_updateAncestors_beside n (pre : list nat) (i j : nat) r s d :
  i <> j ->
  nodeAt (_updateAncestorsRenderNodeCount n (Some (pre ++ j :: s)) d) (pre ++ i :: r)
  = nodeAt n (pre ++ i :: r).
Proof.
  intros Hij. unfold _updateAncestorsRenderNodeCount.
  destruct (d =? 0); [reflexivity|]. now apply nodeAt_bumpAlong_beside.
Qed.

Lemma nodeAt_updateAncestors_below n path (i : nat) r d :
  nodeAt (_updateAncestorsRenderNodeCount n (Some path) d) (path ++ i :: r)
  = nodeAt n (path ++ i :: r).
Proof.
  unfold _updateAncestorsRenderNodeCount.
  destruct (d =? 0); [reflexivity|]. apply nodeAt_bumpAlong_below.
Qed.

(** The root after a splice among the children of the node at [pp]: the
    node is replaced, and render counts are written above it. *)
Lemma spliceNodes_root m r lastIndex deleteCount toInsert :
  let p := parentNode r in
  let created :=
    createNodesToInsert m p (p_revealed r) (visibleChildStart (children p) lastIndex)
      toInsert ([], 0, 0, (nextId m, [])) in
  let inserted := fst (fst (fst created)) in
  let s := spliceStart (children p) lastIndex in
  let d := spliceCount (children p) lastIndex deleteCount in
  let deleted := firstn d (skipn s (children p)) in
  let cs1 := firstn s (children p) ++ inserted ++ skipn (s + d) (children p) in
  let cs2 :=
    if countVisible deleted =? 0 then cs1
    else shiftVisibleFrom (Z.to_nat (lastIndex + Z.of_nat (length inserted)))
           (countVisible deleted) cs1 in
  let p' :=
    set_visibleChildrenCount (set_children p cs2)
      (visibleChildrenCount p + (snd (fst (fst created)) - countVisible deleted)) in
  exists diff : option Z,
    root (snd (spliceNodes m r lastIndex deleteCount toInsert)) =
    match diff with
    | Some k =>
        _updateAncestorsRenderNodeCount
          (updateAt (root m) (parentPath r) (fun _ => p')) (Some (parentPath r)) k
    | None => updateAt (root m) (parentPath r) (fun _ => p')
    end.
Proof.
  cbv zeta. rewrite spliceNodes_eq. cbv zeta. cbn [snd].
  destruct (p_revealed r && p_visible r); cbn [root].
  - now eexists (Some _).
  - now exists None.
Qed.

Lemma nth_error_shiftVisibleFrom_before from by_ cs i :
  (i < from)%nat -> nth_error (shiftVisibleFrom from by_ cs) i = nth_error cs i.
Proof.
  intros Hi. unfold shiftVisibleFrom.
  destruct (Nat.lt_ge_cases i (length cs)) as [Hl|Hl].
  - rewrite nth_error_app1 by (rewrite length_firstn; lia).
    rewrite nth_error_firstn. now apply Nat.ltb_lt in Hi as ->.
  - rewrite (proj2 (nth_error_None cs i)) by assumption.
    apply nth_error_None. rewrite length_app, length_map, length_firstn, length_skipn. lia.
Qed.

Lemma nth_error_shiftVisibleFrom_after from by_ cs i :
  (from <= i)%nat ->
  nth_error (shiftVisibleFrom from by_ cs) i =
  option_map
    (fun c => if visible c then set_visibleChildIndex c (visibleChildIndex c - by_) else c)
    (nth_error cs i).
Proof.
  intros Hi. unfold shiftVisibleFrom.
  destruct (Nat.lt_ge_cases i (length cs)) as [Hl|Hl].
  - rewrite nth_error_app2 by (rewrite length_firstn; lia).
    rewrite length_firstn, nth_error_map, nth_error_skipn. do 2 f_equal. lia.
  - rewrite (proj2 (nth_error_None cs i)) by assumption.
    apply nth_error_None. rewrite length_app, length_map, length_firstn, length_skipn. lia.
Qed.

Lemma splice_frame m pp p k deleteCount toInsert :
  nodeAt (root m) pp = Some p -> (k <= length (children p))%nat ->
  let d := Nat.min (Z.to_nat deleteCount) (length (children p) - k) in
  let m' := snd (splice m (map Z.of_nat pp ++ [Z.of_nat k]) deleteCount toInsert) in
  (forall (pre : list nat) i j r s,
     pp = pre ++ j :: s -> i <> j ->
     nodeAt (root m') (pre ++ i :: r) = nodeAt (root m) (pre ++ i :: r)) /\
  (forall i r,
     (i < k)%nat -> nodeAt (root m') (pp ++ i :: r) = nodeAt (root m) (pp ++ i :: r)) /\
  (forall j x,
     nth_error (children p) (k + d + j) = Some x ->
     exists x',
       nodeAt (root m') (pp ++ [(k + length toInsert + j)%nat]) = Some x' /\
       children x' = children x /\
       set_visibleChildIndex x' 0 = set_visibleChildIndex x 0).
Proof.
  intros Hp Hk d m'. subst m'. rewrite splice_valid with (p := p) by assumption.
  match goal with
  | |- context [spliceNodes m ?r ?li deleteCount toInsert] =>
      destruct (spliceNodes_root m r li deleteCount toInsert) as [diff Hroot];
      cbv zeta in Hroot; cbn [parentNode parentPath p_revealed] in Hroot;
      set (m' := snd (spliceNodes m r li deleteCount toInsert)) in *
  end.
  rewrite (spliceStart_nat _ Hk), (spliceCount_nat _ _ Hk) in Hroot. fold d in Hroot.
  match type of Hroot with
  | context [createNodesToInsert m p ?rev ?start toInsert ?init] =>
      destruct (@createNodesToInsert_made _ _ m p rev start toInsert init eq_refl)
        as (Hlen & _ & _);
      set (created := createNodesToInsert m p rev start toInsert init) in *
  end.
  cbn [fst length Nat.add] in Hlen.
  set (ins := fst (fst (fst created))) in *.
  set (deleted := firstn d (skipn k (children p))) in *.
  set (cs1 := firstn k (children p) ++ ins ++ skipn (k + d) (children p)) in *.
  replace (Z.to_nat (Z.of_nat k + Z.of_nat (length ins))) with (k + length ins)%nat
    in Hroot by lia.
  set (cs2 := if countVisible deleted =? 0 then cs1 else _) in *.
  set (p' := set_visibleChildrenCount (set_children p cs2) _) in *.
  assert (Hbefore : forall i, (i < k)%nat -> nth_error cs2 i = nth_error (children p) i).
  { intros i Hi.
    assert (H1 : nth_error cs1 i = nth_error (children p) i).
    { unfold cs1. rewrite nth_error_app1 by (rewrite length_firstn; lia).
      rewrite nth_error_firstn. now apply Nat.ltb_lt in Hi as ->. }
    unfold cs2. destruct (countVisible deleted =? 0); [assumption|].
    rewrite nth_error_shiftVisibleFrom_before by lia. assumption. }
  assert (Hafter1 : forall j,
             nth_error cs1 (k + length toInsert + j) = nth_error (children p) (k + d + j)).
  { intros j. unfold cs1.
    rewrite nth_error_app2 by (rewrite length_firstn; lia).
    rewrite length_firstn, nth_error_app2 by lia.
    rewrite nth_error_skipn. f_equal. lia. }
  assert (Hchildren : children p' = cs2) by (unfold p'; now destruct p).
  assert (Hat : forall i r, nodeAt (root m') (pp ++ i :: r) = nodeAt p' (i :: r)).
  { intros i r. rewrite Hroot.
    assert (H0 : nodeAt (updateAt (root m) pp (fun _ => p')) (pp ++ i :: r)
                 = nodeAt p' (i :: r))
      by now rewrite nodeAt_app, nodeAt_updateAt with (p := p).
    destruct diff as [z|]; [|assumption].
    now rewrite nodeAt_updateAncestors_below. }
  split; [|split].
  - intros pre i j r s -> Hij. rewrite Hroot.
    destruct diff as [z|]; rewrite ?nodeAt_updateAncestors_beside by assumption;
      now apply nodeAt_updateAt_beside.
  - intros i r Hi. rewrite Hat. cbn [nodeAt]. rewrite Hchildren, Hbefore by assumption.
    now rewrite nodeAt_app, Hp.
  - intros j x Hx. rewrite Hat. cbn [nodeAt]. rewrite Hchildren.
    unfold cs2. destruct (countVisible deleted =? 0).
    + rewrite Hafter1, Hx. now exists x.
    + rewrite nth_error_shiftVisibleFrom_after by lia. rewrite Hafter1, Hx.
      cbn [option_map]. eexists. split; [reflexivity|].
      now destruct (visible x); destruct x.
Qed.


(** X15: a [splice] at a position [k] among the children of an existing
    node leaves every node that is beside the path to that node as it was,
    with all that is below it, and so the children before [k]; a child
    after the removed ones is found [length toInsert - d] places further,
    with the same children and the same fields, its [visibleChildIndex]
    apart. *)
Theorem splice_leaves_rest m pp p k deleteCount toInsert :
  nodeAt (root m) pp = Some p -> (k <= length (children p))%nat ->
  let d := Nat.min (Z.to_nat deleteCount) (length (children p) - k) in
  let m' := snd (splice m (map Z.of_nat pp ++ [Z.of_nat k]) deleteCount toInsert) in
  (forall (pre : list nat) i j r s,
     pp = pre ++ j :: s -> i <> j ->
     nodeAt (root m') (pre ++ i :: r) = nodeAt (root m) (pre ++ i :: r)) /\
  (forall i r,
     (i < k)%nat -> nodeAt (root m') (pp ++ i :: r) = nodeAt (root m) (pp ++ i :: r)) /\
  (forall j x,
     nth_error (children p) (k + d + j) = Some x ->
     exists x',
       nodeAt (root m') (pp ++ [(k + length toInsert + j)%nat]) = Some x' /\
       children x' = children x /\
       set_visibleChildIndex x' 0 = set_visibleChildIndex x 0).
Proof. intros Hp Hk. now apply splice_frame. Qed.

End FrameFacts.

Section AncestorFacts.

Variables T TFilterData : Type.
Implicit Types (n c p x rt nd : node T TFilterData) (path pp q : list nat).
Implicit Types (m : model T TFilterData).

Lemma nodeAt_updateAt_prefix g (s : list nat) :
  forall q n x,
    nodeAt n q = Some x ->
    nodeAt (updateAt n (q ++ s) g) q = Some (updateAt x s g).
Proof.
  induction q as [|a q IH]; intros n x Hx.
  - cbn in Hx |- *. now injection Hx as ->.
  - cbn [nodeAt app updateAt] in *.
    destruct (nth_error (children n) a) as [c0|] eqn:Hc; [|discriminate].
    replace (children (set_children n
               (mapNth a (fun c1 => updateAt c1 (q ++ s) g) (children n))))
      with (mapNth a (fun c1 => updateAt c1 (q ++ s) g) (children n))
      by now destruct n.
    rewrite nth_error_mapNth_eq, Hc. cbn [option_map]. now apply IH.
Qed.

Lemma splice_ancestors m pp p k deleteCount toInsert q (s : list nat) x :
  nodeAt (root m) pp = Some p -> (k <= length (children p))%nat ->
  pp = q ++ s -> nodeAt (root m) q = Some x ->
  let m' := snd (splice m (map Z.of_nat pp ++ [Z.of_nat k]) deleteCount toInsert) in
  exists x',
    nodeAt (root m') q = Some x' /\
    nid x' = nid x /\ parent x' = parent x /\ element x' = element x /\
    depth x' = depth x /\ collapsible x' = collapsible x /\
    collapsed x' = collapsed x /\ visible x' = visible x /\
    visibleChildIndex x' = visibleChildIndex x /\ filterData x' = filterData x.
Proof.
  intros Hp Hk Hpp Hx m'. subst m'. rewrite splice_valid with (p := p) by assumption.
  match goal with
  | |- context [spliceNodes m ?r ?li deleteCount toInsert] =>
      destruct (spliceNodes_root m r li deleteCount toInsert) as [diff Hroot];
      cbv zeta in Hroot; cbn [parentNode parentPath p_revealed] in Hroot;
      set (m' := snd (spliceNodes m r li deleteCount toInsert)) in *
  end.
  match type of Hroot with
  | context [updateAt (root m) pp (fun _ => ?P)] => set (p' := P) in *
  end.
  assert (He : erase Counts (root m') = erase Counts (updateAt (root m) pp (fun _ => p')))
    by (rewrite Hroot; destruct diff; [apply erase_updateAncestors|reflexivity]).
  assert (Hat : nodeAt (updateAt (root m) pp (fun _ => p')) q
                = Some (updateAt x s (fun _ => p')))
    by (rewrite Hpp; now apply nodeAt_updateAt_prefix).
  destruct (nodeAt_of_erase Counts _ _ q He Hat) as (x' & Hx' & Ex').
  exists x'. split; [assumption|].
  assert (Hf : nid (updateAt x s (fun _ => p')) = nid x /\
               parent (updateAt x s (fun _ => p')) = parent x /\
               element (updateAt x s (fun _ => p')) = element x /\
               depth (updateAt x s (fun _ => p')) = depth x /\
               collapsible (updateAt x s (fun _ => p')) = collapsible x /\
               collapsed (updateAt x s (fun _ => p')) = collapsed x /\
               visible (updateAt x s (fun _ => p')) = visible x /\
               visibleChildIndex (updateAt x s (fun _ => p')) = visibleChildIndex x /\
               filterData (updateAt x s (fun _ => p')) = filterData x).
  { destruct s as [|a s].
    - rewrite app_nil_r in Hpp. subst q. rewrite Hp in Hx. injection Hx as <-.
      cbn [updateAt]. unfold p'. now destruct p.
    - pose proof (@updateAt_fields _ _ x (a :: s) (fun _ => p') ltac:(discriminate)) as H.
      cbv zeta in H. tauto. }
  rewrite !erase_eq in Ex'. injection Ex' as E1 E2 E3 _ E5 _ E7 E8 E9 E10 E11.
  destruct Hf as (F1 & F2 & F3 & F4 & F5 & F6 & F7 & F8 & F9).
  repeat split; congruence.
Qed.

(** X19: a [splice] at a position among the children of an existing node
    leaves that node and every node above it with the identity, parent,
    element, depth, collapsible flag, collapse state, visibility, visible
    child index and filter data it had: the call does not ask the filter
    about them again, nor does a first child make a node collapsible. *)
Theorem splice_keeps_ancestors m pp p k deleteCount toInsert q (s : list nat) x :
  nodeAt (root m) pp = Some p -> (k <= length (children p))%nat ->
  pp = q ++ s -> nodeAt (root m) q = Some x ->
  let m' := snd (splice m (map Z.of_nat pp ++ [Z.of_nat k]) deleteCount toInsert) in
  exists x',
    nodeAt (root m') q = Some x' /\
    nid x' = nid x /\ parent x' = parent x /\ element x' = element x /\
    depth x' = depth x /\ collapsible x' = collapsible x /\
    collapsed x' = collapsed x /\ visible x' = visible x /\
    visibleChildIndex x' = visibleChildIndex x /\ filterData x' = filterData x.
Proof. intros Hp Hk Hpp Hx. now apply splice_ancestors with (p := p) (s := s). Qed.

End AncestorFacts.

(** ** Collapsing a whole subtree *)

Section RecursiveFacts.

Variables T TFilterData : Type.
Implicit Types (n c p x rt nd : node T TFilterData) (path pp q : list nat).
Implicit Types (m : model T TFilterData).

Lemma collapsedAt_setNodeCollapsed_below collapsed_ q :
  forall n x,
    nodeAt n q = Some x ->
    collapsedAt (fst (_setNodeCollapsed n collapsed_ true)) q
    = Some (if collapsible x then collapsed_ else collapsed x).
Proof.
  unfold collapsedAt. induction q as [|i q IH]; intros n x Hx.
  - cbn in Hx |- *. injection Hx as ->. now rewrite collapsed_setNodeCollapsed.
  - cbn [nodeAt] in Hx |- *. rewrite children_setNodeCollapsed, nth_error_map.
    destruct (nth_error (children n) i) as [c|]; [|discriminate].
    cbn [option_map]. now apply IH.
Qed.

Lemma setCollapsed_recursive_at m path n collapsed_ :
  nodeAt (root m) path = Some n ->
  exists result m',
    setCollapsed m (map Z.of_nat path) (Some collapsed_) true = Some (Ok result, m') /\
    (forall q x,
       nodeAt n q = Some x ->
       collapsedAt (root m') (path ++ q)
       = Some (if collapsible x then collapsed_ else collapsed x)) /\
    (forall q, (forall q', q <> path ++ q') ->
               collapsedAt (root m') q = collapsedAt (root m) q).
Proof.
  intros Hn.
  destruct (setCollapsed_at_node_top m path collapsed_ true Hn)
    as (m' & Hrun & _ & _ & Hoff & _ & Hcounts).
  rewrite andb_false_r in Hcounts. specialize (Hcounts eq_refl).
  exists (snd (_setNodeCollapsed n collapsed_ true)), m'.
  split; [assumption|]. split; [|assumption].
  intros q x Hx.
  rewrite (collapsedAt_of_erase _ _ (path ++ q) Hcounts).
  rewrite collapsedAt_updateAt_on with (p := n) by assumption.
  now apply collapsedAt_setNodeCollapsed_below.
Qed.

(** X16: a recursive [setCollapsed] on an existing node returns, and
    leaves every collapsible node at or below that node in the state asked
    for; the nodes there that are not collapsible, and all the nodes
    elsewhere, keep their state. *)
Theorem setCollapsed_recursive m path n collapsed_ :
  nodeAt (root m) path = Some n ->
  exists result m',
    setCollapsed m (map Z.of_nat path) (Some collapsed_) true = Some (Ok result, m') /\
    (forall q x,
       nodeAt n q = Some x ->
       collapsedAt (root m') (path ++ q)
       = Some (if collapsible x then collapsed_ else collapsed x)) /\
    (forall q, (forall q', q <> path ++ q') ->
               collapsedAt (root m') q = collapsedAt (root m) q).
Proof. apply setCollapsed_recursive_at. Qed.

End RecursiveFacts.

(** ** Collapsing twice *)

Section CollapseTwice.

Variables T TFilterData : Type.
Implicit Types (n c p x rt nd : node T TFilterData) (path pp q : list nat).
Implicit Types (m : model T TFilterData).

Lemma recount_of_exact n : countsExact n = true -> recount n = n.
Proof.
  induction n as [n IH] using node_ind. intros He.
  pose proof (countsExact_rows _ He) as Hr.
  rewrite recount_eq, <- Hr. rewrite countsExact_eq in He.
  destruct (visible n); [|reflexivity].
  destruct (collapsed n); [now destruct n|].
  apply andb_prop in He. destruct He as [_ Hcs].
  rewrite map_ext_Forall with (h := fun c => c).
  - rewrite map_id. now destruct n.
  - clear Hr. induction IH as [|c cs Hc _ IHcs]; [constructor|].
    cbn [forallb] in Hcs. apply andb_prop in Hcs. destruct Hcs as [H1 H2].
    constructor; auto.
Qed.

(** A call that does not go on to expand single children is one call of
    [_setListNodeCollapsed]. *)
Lemma setCollapsed_plain m path n collapsed_ recursive :
  nodeAt (root m) path = Some n ->
  autoExpandSingleChildren m && negb collapsed_ && negb recursive = false ->
  exists listIndex,
    let out :=
      _setListNodeCollapsed m (Some (path, n)) listIndex
        (match path with [] => true | _ => expandedAlong (root m) (removelast path) end)
        collapsed_ recursive in
    setCollapsed m (map Z.of_nat path) (Some collapsed_) recursive
    = Some (Ok (snd (_setNodeCollapsed n collapsed_ recursive)), snd out).
Proof.
  intros Hn Hopt. destruct (getTreeNodeWithListIndex_at _ _ Hn) as (li & vis & Hr).
  exists li. cbv zeta. unfold setCollapsed.
  rewrite getTreeNode_valid with (x := n) by assumption.
  cbn [_setCollapsed]. rewrite Hr. cbn [nodeRef n_listIndex n_revealed].
  match goal with
  | |- context [_setListNodeCollapsed m ?ref ?l ?rev collapsed_ recursive] =>
      pose proof (setListNodeCollapsed_erase m path n l rev collapsed_ recursive) as H1;
      cbv zeta in H1;
      destruct (_setListNodeCollapsed m ref l rev collapsed_ recursive) as [o m1]
  end.
  cbn [fst snd] in H1 |- *. destruct H1 as (-> & _ & Ha & _).
  now rewrite Ha, Hopt.
Qed.

Lemma setCollapsed_again m path n collapsed_ recursive :
  regularlyReachable m ->
  nodeAt (root m) path = Some n -> path <> [] ->
  visibleAlong (root m) path = true ->
  autoExpandSingleChildren m && negb collapsed_ && negb recursive = false ->
  exists result m1,
    setCollapsed m (map Z.of_nat path) (Some collapsed_) recursive = Some (Ok result, m1) /\
    setCollapsed m1 (map Z.of_nat path) (Some collapsed_) recursive = Some (Ok false, m1).
Proof.
  intros Hm Hn Hne Hva Hopt.
  destruct (setCollapsed_at_node_top m path collapsed_ recursive Hn)
    as (m1 & Hrun & He & Ha & _ & _ & Hcounts).
  specialize (Hcounts Hopt).
  exists (snd (_setNodeCollapsed n collapsed_ recursive)), m1. split; [assumption|].
  assert (Hm1 : regularlyReachable m1).
  { apply regularly_step with (m := m); [assumption|].
    eapply regular_setCollapsed with (collapsed_ := Some collapsed_); eauto. }
  (* the node after the first call *)
  destruct (nodeAt_of_erase Counts _ _ path Hcounts
              (nodeAt_updateAt _ _ (fun _ => fst (_setNodeCollapsed n collapsed_ recursive)) Hn))
    as (n1 & Hn1 & En1).
  assert (Hres : snd (_setNodeCollapsed n1 collapsed_ recursive) = false).
  { rewrite <- setNodeCollapsed_snd_erase, En1, setNodeCollapsed_snd_erase.
    apply setNodeCollapsed_again. }
  pose proof (setNodeCollapsed_false _ _ _ Hres) as Hfst.
  assert (Hva1 : visibleAlong (root m1) path = true)
    by now rewrite <- visibleAlong_erase, He, visibleAlong_erase.
  rewrite <- Ha in Hopt.
  destruct (setCollapsed_plain m1 path collapsed_ recursive Hn1 Hopt) as (li & Hrun2).
  cbv zeta in Hrun2. rewrite Hres in Hrun2.
  assert (Hm2 : regularlyReachable
                  (snd (_setListNodeCollapsed m1 (Some (path, n1)) li
                          (match path with
                           | [] => true
                           | _ => expandedAlong (root m1) (removelast path)
                           end) collapsed_ recursive))).
  { apply regularly_step with (m := m1); [assumption|].
    eapply regular_setCollapsed with (collapsed_ := Some collapsed_); eauto. }
  rewrite Hrun2. do 2 f_equal.
  pose proof (proj1 (regularlyReachable_projected Hm1)) as Hp1.
  pose proof (proj1 (regularlyReachable_projected Hm2)) as Hp2.
  rewrite setListNodeCollapsed_eq in Hp2 |- *. cbv zeta in Hp2 |- *.
  rewrite Hfst in Hp2 |- *.
  destruct (negb _ || negb (visible n1)) eqn:Hbranch.
  - rewrite updateAt_same by assumption. now destruct m1.
  - apply orb_false_iff in Hbranch. destruct Hbranch as [Hrev Hv1].
    apply negb_false_iff in Hrev, Hv1.
    destruct path as [|i pp _] using rev_ind; [congruence|].
    rewrite removelast_snoc in Hrev.
    destruct (pp ++ [i]) as [|j l] eqn:Epath; [destruct pp; discriminate|].
    rewrite <- Epath in *.
    destruct (on_screen_path _ _ _ Hn1 Hva1 Hrev) as [Hon _].
    destruct (regularlyReachable_counts Hm1) as (Hb & _ & _).
    assert (Hex : countsExact n1 = true)
      by (eapply exactBelow_at; eauto; destruct pp; discriminate).
    rewrite (recount_of_exact _ Hex) in Hp2 |- *.
    rewrite <- (countsExact_rows _ Hex) in Hp2 |- *.
    rewrite Z.sub_diag in Hp2 |- *.
    unfold _updateAncestorsRenderNodeCount in Hp2 |- *. cbn [Z.eqb] in Hp2 |- *.
    rewrite updateAt_same in Hp2 |- * by assumption.
    cbn [snd] in Hp2 |- *.
    unfold set_renderList, set_root in Hp2 |- *. cbn [renderList root] in Hp2 |- *.
    rewrite Hp2, <- Hp1. now destruct m1.
Qed.

(** X18: in a model that regular calls lead to, a [setCollapsed] that
    does not go on to expand single children, on a node below the root
    that is visible with all its ancestors, returns; the same call again
    returns [false] and leaves the model as the first call left it. *)
Theorem setCollapsed_idempotent m path n collapsed_ recursive :
  regularlyReachable m ->
  nodeAt (root m) path = Some n -> path <> [] ->
  visibleAlong (root m) path = true ->
  autoExpandSingleChildren m && negb collapsed_ && negb recursive = false ->
  exists result m1,
    setCollapsed m (map Z.of_nat path) (Some collapsed_) recursive = Some (Ok result, m1) /\
    setCollapsed m1 (map Z.of_nat path) (Some collapsed_) recursive = Some (Ok false, m1).
Proof. apply setCollapsed_again. Qed.

End CollapseTwice.

(** ** Refiltering twice *)

Section RefilterTwice.

Variables T TFilterData : Type.
Implicit Types (n c p x rt nd : node T TFilterData) (path pp q : list nat).
Implicit Types (m : model T TFilterData).
Implicit Types (f : option (ITreeFilter T TFilterData)).
Implicit Types (cs : list (node T TFilterData)).

Lemma set_visibleChildIndex_own n : set_visibleChildIndex n (visibleChildIndex n) = n.
Proof. now destruct n. Qed.

Lemma set_visibleChildIndex_twice n i j :
  set_visibleChildIndex (set_visibleChildIndex n i) j = set_visibleChildIndex n j.
Proof. now destruct n. Qed.

Lemma refilterChildren_stable f v cr cs :
  Forall (refilterStable f) cs ->
  forall vci0, exists S V (H : bool) (Dc : list nat),
    (forall cs0 hvd0 res0,
       refilterChildren f v cr cs (cs0, vci0, hvd0, res0)
       = (cs0 ++ S, vci0 + V, H || hvd0, res0 ++ Dc)) /\
    (H = false -> Dc = []) /\
    (forall cs0 hvd0 res0,
       refilterChildren f v cr S (cs0, vci0, hvd0, res0)
       = (cs0 ++ S, vci0 + V, H || hvd0, res0 ++ Dc)).
Proof.
  induction 1 as [|c cs Hc _ IH]; intros vci0.
  - exists [], 0, false, []. repeat split; intros;
      cbn; now rewrite ?app_nil_r, Z.add_0_r.
  - destruct (Hc v cr) as (n' & b & D & H1 & H2 & H3).
    set (s := if visible n' then set_visibleChildIndex n' vci0 else n').
    set (vci1 := if visible n' then vci0 + 1 else vci0).
    destruct (IH vci1) as (S' & V' & H' & Dc' & I1 & I2 & I3).
    exists (s :: S'), ((if visible n' then 1 else 0) + V'), (H' || b), (D ++ Dc').
    split; [|split].
    + intros cs0 hvd0 res0. rewrite refilterChildren_cons. cbn [snd]. rewrite H1.
      cbn [pushRefiltered]. fold s. fold vci1. rewrite I1.
      replace (vci1 + V') with (vci0 + ((if visible n' then 1 else 0) + V'))
        by (unfold vci1; destruct (visible n'); lia).
      now rewrite <- !app_assoc, orb_assoc.
    + intros Hh. apply orb_false_iff in Hh. destruct Hh as [-> ->].
      now rewrite I2, H2.
    + intros cs0 hvd0 res0. rewrite refilterChildren_cons. cbn [snd].
      assert (Hs : _updateNodeAfterFilterChange f false s v res0 cr = (s, b, res0 ++ D)).
      { unfold s. destruct (visible n'); [apply H3|].
        rewrite <- (set_visibleChildIndex_own n') at 1 2. apply H3. }
      rewrite Hs. cbn [pushRefiltered].
      assert (Hv : visible s = visible n')
        by (unfold s; destruct (visible n') eqn:E; [now destruct n'|assumption]).
      rewrite Hv.
      replace (if visible n' then set_visibleChildIndex s vci0 else s) with s
        by (unfold s; destruct (visible n'); [now rewrite set_visibleChildIndex_twice|reflexivity]).
      fold vci1. rewrite I3.
      replace (vci1 + V') with (vci0 + ((if visible n' then 1 else 0) + V'))
        by (unfold vci1; destruct (visible n'); lia).
      now rewrite <- !app_assoc, orb_assoc.
Qed.

Lemma refilterNode_stable f n : refilterStable f n.
Proof.
  induction n as [n IH] using node_ind.
  intros pv revealed.
  destruct n as [i0 p e cs d vcc vci cl co rnc vis0 fd0]. cbn [children] in IH.
  destruct (filterResult f e pv) as [fd v] eqn:Hfr.
  destruct (isHidden (Some v)) eqn:Hh.
  - exists (mkNode i0 p e cs d vcc vci cl co rnc false fd), false, [].
    split; [|split; [reflexivity|]].
    + intros result. rewrite refilterNode_eq. cbv zeta. rewrite filterNode_fst.
      cbn [element]. rewrite Hfr. cbn [fst snd]. rewrite Hh. now rewrite app_nil_r.
    + intros i result. rewrite refilterNode_eq. cbv zeta. rewrite filterNode_fst.
      cbn [element set_visibleChildIndex]. rewrite Hfr. cbn [fst snd]. rewrite Hh.
      now rewrite app_nil_r.
  - destruct (@refilterChildren_stable f (Some v) (revealed && negb co) cs IH 0)
      as (S & V & H & Dc & I1 & I2 & I3).
    set (vis := match v with Recurse => H | Visible => true | Hidden => false end).
    exists (mkNode i0 p e S d V vci cl co
              (if vis then if co then 1 else 1 + Z.of_nat (length Dc) else 0) vis fd),
      vis, (if vis then (if revealed then [i0] else []) ++ Dc else []).
    split; [|split].
    + intros result. rewrite refilterNode_eq. cbv zeta. rewrite filterNode_fst.
      cbn [element]. rewrite Hfr. cbn [fst snd]. rewrite Hh.
      cbn [collapsed set_renderNodeCount set_filterData children nid].
      rewrite I1. cbn [app]. rewrite orb_false_r. unfold finishRefiltered.
      cbn [visible set_visible set_visibleChildrenCount set_children collapsed
           renderNodeCount set_renderNodeCount].
      fold vis. destruct vis eqn:Hvis; cbn [negb].
      * destruct co; cbn [negb]; [now destruct revealed; rewrite <- ?app_assoc|].
        rewrite length_app.
        replace (1 + (Z.of_nat (length (if revealed then result ++ [i0] else result)
                               + length Dc)
                      - Z.of_nat (length (if revealed then result ++ [i0] else result))))
          with (1 + Z.of_nat (length Dc)) by lia.
        now destruct revealed; rewrite <- ?app_assoc.
      * assert (HDc : Dc = []).
        { apply I2. unfold vis in Hvis. destruct v; try discriminate; assumption. }
        rewrite HDc, !app_nil_r.
        destruct revealed; [now rewrite removelast_snoc|reflexivity].
    + now destruct vis.
    + intros i result. unfold set_visibleChildIndex.
      cbn [nid parent element children depth visibleChildrenCount collapsible collapsed
           renderNodeCount visible filterData].
      rewrite refilterNode_eq. cbv zeta. rewrite filterNode_fst.
      cbn [element]. rewrite Hfr. cbn [fst snd]. rewrite Hh.
      cbn [collapsed set_renderNodeCount set_filterData children nid].
      rewrite I3. cbn [app]. rewrite orb_false_r. unfold finishRefiltered.
      cbn [visible set_visible set_visibleChildrenCount set_children collapsed
           renderNodeCount set_renderNodeCount].
      fold vis. destruct vis eqn:Hvis; cbn [negb].
      * destruct co; cbn [negb]; [now destruct revealed; rewrite <- ?app_assoc|].
        rewrite length_app.
        replace (1 + (Z.of_nat (length (if revealed then result ++ [i0] else result)
                               + length Dc)
                      - Z.of_nat (length (if revealed then result ++ [i0] else result))))
          with (1 + Z.of_nat (length Dc)) by lia.
        now destruct revealed; rewrite <- ?app_assoc.
      * assert (HDc : Dc = []).
        { apply I2. unfold vis in Hvis. destruct v; try discriminate; assumption. }
        rewrite HDc, !app_nil_r.
        destruct revealed; [now rewrite removelast_snoc|reflexivity].
Qed.

Lemma refilterRoot_stable f rt :
  visible rt = true -> collapsed rt = false ->
  exists rt' (Dc : list nat),
    renderNodeCount rt' = Z.of_nat (length Dc) /\
    (forall pv, _updateNodeAfterFilterChange f true rt pv [] true = (rt', true, Dc)) /\
    (forall pv, _updateNodeAfterFilterChange f true rt' pv [] true = (rt', true, Dc)).
Proof.
  destruct rt as [i0 p e cs d vcc vci cl co rnc vis0 fd0]. cbn [visible collapsed].
  intros -> ->.
  destruct (@refilterChildren_stable f None true cs) with (vci0 := 0)
    as (S & V & H & Dc & I1 & _ & I3).
  { apply Forall_forall. intros c _. apply refilterNode_stable. }
  exists (mkNode i0 p e S d V vci cl false (Z.of_nat (length Dc)) true fd0), Dc.
  split; [reflexivity|]. split; intros pv; rewrite refilterRoot_eq; cbv zeta;
    cbn [collapsed children negb andb set_renderNodeCount]; rewrite ?I1, ?I3;
    cbn [app]; unfold finishRefiltered;
    cbn [visible set_visible set_visibleChildrenCount set_children collapsed
         renderNodeCount set_renderNodeCount negb length];
    replace (0 + (Z.of_nat (length Dc) - Z.of_nat 0)) with (Z.of_nat (length Dc)) by lia;
    reflexivity.
Qed.

Lemma listSplice_again (A : Type) (L D : list A) (k : Z) :
  listSplice (listSplice L 0 k D) 0 (Z.of_nat (length D)) D = listSplice L 0 k D.
Proof.
  assert (E : listSplice L 0 k D = [] ++ D ++ skipn (spliceCount L 0 k) L).
  { unfold listSplice, arraySplice. cbn [fst].
    replace (spliceStart L 0) with 0%nat by (unfold spliceStart; cbn; lia).
    reflexivity. }
  rewrite E. now apply listSplice_middle.
Qed.

Lemma refilter_twice m :
  visible (root m) = true -> collapsed (root m) = false ->
  refilter (refilter m) = refilter m.
Proof.
  intros Hv Hc.
  destruct (refilterRoot_stable (filter m) _ Hv Hc) as (rt' & Dc & Hn & H1 & H2).
  assert (E1 : refilter m =
               mkModel rt' (listSplice (renderList m) 0 (renderNodeCount (root m)) Dc)
                 (nextId m) (collapseByDefault m) (filter m) (autoExpandSingleChildren m)).
  { unfold refilter, updateNodeAfterFilterChange. rewrite H1.
    now rewrite hiddenEmpty_updateAncestors_None. }
  rewrite E1. unfold refilter, updateNodeAfterFilterChange.
  cbn [root filter renderList]. rewrite H2, hiddenEmpty_updateAncestors_None.
  cbn [set_root set_renderList]. now rewrite Hn, listSplice_again.
Qed.

End RefilterTwice.

(** ** Locations outside the tree *)

Section ErrorFacts.

Variables T TFilterData : Type.
Implicit Types (n c p x rt nd : node T TFilterData) (path pp q : list nat).
Implicit Types (m : model T TFilterData).

Lemma getTreeNode_invalid rt (pre : list nat) p index rest here nd :
  nodeAt nd pre = Some p -> outOfBounds p index = true ->
  getTreeNode rt (map Z.of_nat pre ++ index :: rest) here nd = Throw InvalidTreeLocation.
Proof.
  intros Hp Hout. rewrite getTreeNode_app with (x := p) by assumption.
  cbn [getTreeNode]. now rewrite Hout.
Qed.

Lemma getTreeNodeWithListIndex_invalid rt (pre : list nat) p index rest :
  nodeAt rt pre = Some p -> outOfBounds p index = true ->
  getTreeNodeWithListIndex rt (map Z.of_nat pre ++ index :: rest)
  = Throw InvalidTreeLocation.
Proof.
  intros Hp Hout. unfold getTreeNodeWithListIndex.
  destruct (map Z.of_nat pre ++ index :: rest) eqn:E; [destruct pre; discriminate|].
  rewrite <- E. now rewrite getParentNodeWithListIndex_invalid with (p := p).
Qed.

(** X20: at a location that leaves the tree, by an index that is negative
    or greater than the number of children of the node reached so far, the
    queries throw the invalid-location error, and so do [setCollapsed] and
    [expandTo], which leave the model as it is. *)
Theorem invalid_location_throws m (pre : list nat) p index rest :
  nodeAt (root m) pre = Some p ->
  index < 0 \/ Z.of_nat (length (children p)) < index ->
  let location := map Z.of_nat pre ++ index :: rest in
  isCollapsible m location = Throw InvalidTreeLocation /\
  isCollapsed m location = Throw InvalidTreeLocation /\
  getListRenderCount m location = Throw InvalidTreeLocation /\
  getFirstElementChild m location = Throw InvalidTreeLocation /\
  getLastElementAncestor m location = Throw InvalidTreeLocation /\
  getListIndex m location = Throw InvalidTreeLocation /\
  rerender m location = Throw InvalidTreeLocation /\
  (forall collapsed_ recursive,
     setCollapsed m location collapsed_ recursive = Some (Throw InvalidTreeLocation, m)) /\
  expandTo m location = Some (Throw InvalidTreeLocation, m).
Proof.
  intros Hp Hout location.
  assert (Ho : outOfBounds p index = true) by (apply outOfBounds_spec; lia).
  assert (H1 : getTreeNode (root m) location [] (root m) = Throw InvalidTreeLocation)
    by now apply getTreeNode_invalid with (p := p).
  assert (H2 : getTreeNodeWithListIndex (root m) location = Throw InvalidTreeLocation)
    by now apply getTreeNodeWithListIndex_invalid with (p := p).
  unfold isCollapsible, isCollapsed, getListRenderCount, getFirstElementChild,
    getLastElementAncestor, getListIndex, rerender, setCollapsed, expandTo.
  rewrite H1, H2. cbn [bind].
  repeat split.
  unfold location. now destruct (map Z.of_nat pre ++ index :: rest) eqn:E;
    [destruct pre; discriminate|].
Qed.

End ErrorFacts.

Section PastLastChild.

Variables T TFilterData : Type.
Implicit Types (n c p x rt nd : node T TFilterData) (path pp q : list nat).
Implicit Types (m : model T TFilterData).

Lemma getTreeNode_past_last rt pp p :
  nodeAt rt pp = Some p ->
  getTreeNode rt (map Z.of_nat pp ++ [Z.of_nat (length (children p))]) [] rt
  = Ok ([], rt).
Proof.
  intros Hp. rewrite getTreeNode_app with (x := p) by assumption.
  cbn [getTreeNode]. rewrite outOfBounds_le, child_of_nat by apply le_n.
  replace (nth_error (children p) (length (children p))) with (@None (node T TFilterData))
    by (symmetry; now apply nth_error_None).
  reflexivity.
Qed.

Lemma setCollapsed_past_last m pp p collapsed_ recursive :
  nodeAt (root m) pp = Some p ->
  let location := map Z.of_nat pp ++ [Z.of_nat (length (children p))] in
  setCollapsed m location collapsed_ recursive = Some (Throw TypeError, m) /\
  expandTo m location = Some (Ok tt, m).
Proof.
  intros Hp location. unfold setCollapsed, expandTo, location.
  rewrite getTreeNode_past_last by assumption. split; [|reflexivity].
  cbn [_setCollapsed]. unfold getTreeNodeWithListIndex.
  destruct (map Z.of_nat pp ++ [Z.of_nat (length (children p))]) eqn:E;
    [destruct pp; discriminate|].
  rewrite <- E.
  rewrite getParentNodeWithListIndex_valid with (p := p) by (assumption || apply le_n).
  cbn [bind parentNode p_visible p_listIndex p_revealed]. rewrite last_last.
  rewrite outOfBounds_le, child_of_nat by apply le_n.
  replace (nth_error (children p) (length (children p))) with (@None (node T TFilterData))
    by (symmetry; now apply nth_error_None).
  now destruct (true && visibleAlong (root m) pp).
Qed.

(** X22: at the location one past the last child of an existing node,
    which [splice] accepts to append, [setCollapsed] fails with a
    [TypeError], not with the invalid-location error, and [expandTo]
    returns without an error; both leave the model as it is. *)
Theorem setCollapsed_past_last_child m pp p collapsed_ recursive :
  nodeAt (root m) pp = Some p ->
  let location := map Z.of_nat pp ++ [Z.of_nat (length (children p))] in
  setCollapsed m location collapsed_ recursive = Some (Throw TypeError, m) /\
  expandTo m location = Some (Ok tt, m).
Proof. apply setCollapsed_past_last. Qed.

End PastLastChild.

(** ** The root *)

Section RootFacts.

Variables T TFilterData : Type.
Implicit Types (n c p x rt nd : node T TFilterData) (path pp q : list nat).
Implicit Types (m : model T TFilterData).

Lemma rootFlags_of_erase_Counts rt rt' :
  erase Counts rt' = erase Counts rt ->
  visible rt' = visible rt /\ collapsed rt' = collapsed rt /\
  collapsible rt' = collapsible rt.
Proof. rewrite !erase_eq. intros H. now injection H. Qed.

Lemma rootFlags_updateAt rt path g p :
  nodeAt rt path = Some p ->
  (path = [] ->
   visible (g p) = visible p /\ collapsed (g p) = collapsed p /\
   collapsible (g p) = collapsible p) ->
  visible (updateAt rt path g) = visible rt /\
  collapsed (updateAt rt path g) = collapsed rt /\
  collapsible (updateAt rt path g) = collapsible rt.
Proof.
  intros Hp Hg. destruct path as [|i path].
  - cbn in Hp |- *. injection Hp as ->. auto.
  - cbn [updateAt]. now destruct rt.
Qed.

Lemma splice_rootFlags m location deleteCount toInsert :
  let m' := snd (splice m location deleteCount toInsert) in
  visible (root m') = visible (root m) /\ collapsed (root m') = collapsed (root m) /\
  collapsible (root m') = collapsible (root m).
Proof.
  cbv zeta. unfold splice. destruct location as [|i rest]; [auto|].
  destruct (getParentNodeWithListIndex _ _ _ _ _ _ _) as [r|e] eqn:Hr; [|auto].
  pose proof (@getParentNodeWithListIndex_ref _ _ (root m) (i :: rest) [] (root m) 0 true
                true r eq_refl Hr) as Hp.
  destruct (spliceNodes_root m r (last (i :: rest) 0) deleteCount toInsert) as [diff Hroot].
  cbv zeta in Hroot.
  destruct (spliceNodes m r _ deleteCount toInsert) as [deleted m']. cbn [snd] in *.
  match type of Hroot with
  | context [updateAt (root m) (parentPath r) (fun _ => ?P)] => set (p' := P) in *
  end.
  assert (He : erase Counts (root m')
               = erase Counts (updateAt (root m) (parentPath r) (fun _ => p')))
    by (rewrite Hroot; destruct diff; [apply erase_updateAncestors|reflexivity]).
  destruct (rootFlags_of_erase_Counts _ _ He) as (-> & -> & ->).
  apply rootFlags_updateAt with (p := parentNode r); [assumption|].
  intros _. unfold p'. now destruct (parentNode r).
Qed.

Lemma setListNodeCollapsed_rootFlags m ref listIndex revealed collapsed_ recursive :
  (forall path n, ref = Some (path, n) -> nodeAt (root m) path = Some n) ->
  collapsible (root m) = false ->
  let out := _setListNodeCollapsed m ref listIndex revealed collapsed_ recursive in
  visible (root (snd out)) = visible (root m) /\
  collapsed (root (snd out)) = collapsed (root m) /\
  collapsible (root (snd out)) = collapsible (root m).
Proof.
  intros Href Hroot. destruct ref as [[path n]|]; [|cbn; auto].
  pose proof (setListNodeCollapsed_erase m path n listIndex revealed collapsed_ recursive)
    as H.
  cbv zeta in *. destruct H as (_ & Hc & _).
  destruct (rootFlags_of_erase_Counts _ _ Hc) as (-> & -> & ->).
  specialize (Href _ _ eq_refl).
  apply rootFlags_updateAt with (p := n); [assumption|].
  intros ->. cbn in Href. injection Href as <-.
  now rewrite visible_setNodeCollapsed, collapsed_setNodeCollapsed,
    collapsible_setNodeCollapsed, Hroot.
Qed.

Lemma setCollapsed_rootFlags fuel :
  forall m location collapsed_ recursive out m',
    collapsible (root m) = false ->
    _setCollapsed fuel m location collapsed_ recursive = Some (out, m') ->
    visible (root m') = visible (root m) /\ collapsed (root m') = collapsed (root m) /\
    collapsible (root m') = collapsible (root m).
Proof.
  induction fuel as [|fuel IH]; intros m location collapsed_ recursive out m' Hroot Hrun;
    [discriminate|].
  cbn [_setCollapsed] in Hrun.
  destruct (getTreeNodeWithListIndex (root m) location) as [r|e] eqn:Hr.
  2: { injection Hrun as <- <-. auto. }
  pose proof (@setListNodeCollapsed_rootFlags m (nodeRef r) (n_listIndex r) (n_revealed r)
                collapsed_ recursive) as H1.
  cbv zeta in H1.
  destruct (_setListNodeCollapsed m (nodeRef r) (n_listIndex r) (n_revealed r)
              collapsed_ recursive) as [o m1].
  cbn [snd] in H1.
  destruct H1 as (V1 & C1 & B1); [|assumption|].
  { intros path n Href. eapply getTreeNodeWithListIndex_ref; eauto. }
  destruct o as [result|e]; [|injection Hrun as <- <-; auto].
  destruct (autoExpandSingleChildren m1 && negb collapsed_ && negb recursive).
  - match type of Hrun with
    | (if ?b then _ else _) = _ => destruct b
    end.
    + destruct (_setCollapsed fuel m1 _ false false) as [[o2 m2]|] eqn:Hrec;
        [|discriminate].
      apply IH in Hrec; [|congruence]. destruct Hrec as (V2 & C2 & B2).
      destruct o2; injection Hrun as <- <-; repeat split; congruence.
    + injection Hrun as <- <-. auto.
  - injection Hrun as <- <-. auto.
Qed.

Lemma expandToLoop_rootFlags steps :
  forall m here location out m',
    collapsible (root m) = false ->
    expandToLoop m here location steps = Some (out, m') ->
    visible (root m') = visible (root m) /\ collapsed (root m') = collapsed (root m) /\
    collapsible (root m') = collapsible (root m).
Proof.
  induction steps as [|steps IH]; intros m here location out m' Hroot Hrun.
  - cbn in Hrun. injection Hrun as <- <-. auto.
  - cbn [expandToLoop] in Hrun.
    destruct (nodeAt (root m) (removelast here)) as [n|];
      [|injection Hrun as <- <-; auto].
    destruct (collapsed n); [|eauto].
    destruct (_setCollapsed _ m _ false false) as [[o m1]|] eqn:Hset; [|discriminate].
    apply setCollapsed_rootFlags in Hset; [|assumption]. destruct Hset as (V1 & C1 & B1).
    destruct o.
    + apply IH in Hrun; [|congruence]. destruct Hrun as (V2 & C2 & B2).
      repeat split; congruence.
    + injection Hrun as <- <-. auto.
Qed.

Lemma refilter_rootFlags m :
  visible (root (refilter m)) = visible (root m) /\
  collapsed (root (refilter m)) = collapsed (root m) /\
  collapsible (root (refilter m)) = collapsible (root m).
Proof.
  pose proof (refilter_erase m) as He. rewrite !erase_eq in He.
  injection He as _ _ _ _ _ Hb Hc. split; [|auto].
  unfold refilter, updateNodeAfterFilterChange. rewrite refilterRoot_eq. cbv zeta.
  destruct (refilterChildren _ _ _ _ _) as [[[cs vci] hvd] res].
  unfold finishRefiltered.
  match goal with |- context [if ?b then _ else _] => destruct b end;
    [|match goal with |- context [if ?b then _ else _] => destruct b end];
    cbn [fst root set_root set_renderList]; rewrite hiddenEmpty_updateAncestors_None;
    now destruct (root m).
Qed.

Lemma reachable_rootFlags m :
  reachable m ->
  visible (root m) = true /\ collapsed (root m) = false /\ collapsible (root m) = false.
Proof.
  induction 1 as [rootElement options|m m' _ IH Hs]; [repeat split|].
  destruct IH as (V & C & B).
  destruct Hs as [m location deleteCount toInsert
                 |m location collapsed_ recursive out m' Hrun
                 |m location out m' Hrun|m|m filter_].
  - destruct (splice_rootFlags m location deleteCount toInsert) as (-> & -> & ->). auto.
  - unfold setCollapsed in Hrun.
    destruct (getTreeNode _ _ _ _) as [[h n]|e]; [|injection Hrun as <- <-; auto].
    apply setCollapsed_rootFlags in Hrun; [|assumption].
    destruct Hrun as (-> & -> & ->). auto.
  - unfold expandTo in Hrun.
    destruct (getTreeNode _ _ _ _) as [[h n]|e]; [|injection Hrun as <- <-; auto].
    apply expandToLoop_rootFlags in Hrun; [|assumption].
    destruct Hrun as (-> & -> & ->). auto.
  - destruct (refilter_rootFlags m) as (-> & -> & ->). auto.
  - auto.
Qed.

(** X21: in every model that a sequence of calls leads to, whatever their
    arguments and outcomes, the root is visible, is not collapsed and is
    not collapsible. *)
Theorem root_stays_open m :
  reachable m ->
  visible (root m) = true /\ collapsed (root m) = false /\ collapsible (root m) = false.
Proof. apply reachable_rootFlags. Qed.

(** X17: in every model that a sequence of calls leads to, [refilter]
    twice in a row, the filter unchanged, leaves what the first call
    leaves: the same tree, counts included, and the same render list. *)
Theorem refilter_idempotent m : reachable m -> refilter (refilter m) = refilter m.
Proof.
  intros Hm. destruct (reachable_rootFlags Hm) as (Hv & Hc & _).
  now apply refilter_twice.
Qed.

End RootFacts.

(** ** Putting back what was removed *)

Section UndoFacts.

Variables T TFilterData : Type.
Implicit Types (n c p x rt nd : node T TFilterData) (path pp q : list nat).
Implicit Types (m : model T TFilterData).

Lemma createdElement_treeNodeToElement cbd n :
  createdElement cbd (treeNodeToElement n) = treeNodeToElement n.
Proof.
  induction n as [n IH] using node_ind.
  rewrite createdElement_eq, (treeNodeToElement_eq n).
  cbn [el_element el_children el_collapsed]. f_equal.
  rewrite map_map. now apply map_ext_Forall.
Qed.

Lemma put_back (A : Type) (L : list A) (k d : nat) :
  (k <= length L)%nat ->
  firstn k (firstn k L ++ skipn (k + d) L) ++ firstn d (skipn k L)
  ++ skipn k (firstn k L ++ skipn (k + d) L) = L.
Proof.
  intros Hk.
  assert (Hl : length (firstn k L) = k) by (rewrite length_firstn; lia).
  rewrite firstn_app, skipn_app, Hl, Nat.sub_diag. cbn [firstn skipn].
  rewrite app_nil_r.
  rewrite (@firstn_all2 _ k (firstn k L)), (@skipn_all2 _ k (firstn k L)) by lia.
  cbn [app].
  rewrite <- (firstn_skipn k L) at 4. f_equal.
  rewrite <- (firstn_skipn d (skipn k L)) at 2.
  now rewrite skipn_skipn, (Nat.add_comm d k).
Qed.

Lemma splice_options m pp p k deleteCount toInsert :
  nodeAt (root m) pp = Some p -> (k <= length (children p))%nat ->
  collapseByDefault (snd (splice m (map Z.of_nat pp ++ [Z.of_nat k]) deleteCount toInsert))
  = collapseByDefault m.
Proof.
  intros Hp Hk. rewrite splice_valid with (p := p) by assumption.
  apply spliceNodes_options.
Qed.

Lemma splice_put_back m pp p k deleteCount :
  nodeAt (root m) pp = Some p -> (k <= length (children p))%nat ->
  let location := map Z.of_nat pp ++ [Z.of_nat k] in
  let out1 := splice m location deleteCount [] in
  exists deleted,
    fst out1 = Ok deleted /\
    let out2 := splice (snd out1) location 0 deleted in
    fst out2 = Ok [] /\
    exists p2,
      nodeAt (root (snd out2)) pp = Some p2 /\ element p2 = element p /\
      map (@treeNodeToElement _ _) (children p2)
      = map (@treeNodeToElement _ _) (children p).
Proof.
  intros Hp Hk location out1.
  destruct (@splice_children_at _ _ m pp p k deleteCount [] Hp Hk)
    as (Hdel & p1 & Hp1 & He1 & Hcs1).
  fold location in Hdel, Hp1. fold out1 in Hdel, Hp1.
  set (d := Nat.min (Z.to_nat deleteCount) (length (children p) - k)) in *.
  cbn [map app] in Hcs1.
  exists (map (@treeNodeToElement _ _) (firstn d (skipn k (children p)))).
  split; [assumption|]. cbv zeta.
  assert (Hlen1 : length (children p1) = (length (children p) - d)%nat).
  { rewrite <- (length_map (@treeNodeToElement _ _)), Hcs1, length_app, !length_map,
      length_firstn, length_skipn. lia. }
  assert (Hk1 : (k <= length (children p1))%nat) by lia.
  destruct (@splice_children_at _ _ (snd out1) pp p1 k 0
              (map (@treeNodeToElement _ _) (firstn d (skipn k (children p)))) Hp1 Hk1)
    as (Hdel2 & p2 & Hp2 & He2 & Hcs2).
  fold location in Hdel2, Hp2.
  change (Z.to_nat 0) with 0%nat in Hdel2, Hcs2. cbn [Nat.min firstn map] in Hdel2, Hcs2.
  rewrite Nat.add_0_r in Hcs2.
  split; [assumption|]. exists p2. split; [assumption|]. split; [congruence|].
  rewrite Hcs2.
  unfold out1, location. rewrite splice_options with (p := p) by assumption.
  rewrite map_map.
  rewrite (map_ext (fun x => createdElement (collapseByDefault m) (treeNodeToElement x))
             (@treeNodeToElement T TFilterData))
    by (intros; apply createdElement_treeNodeToElement).
  rewrite <- !firstn_map, <- !skipn_map. fold location. fold out1. rewrite Hcs1.
  rewrite <- !firstn_map, <- !skipn_map.
  apply put_back. now rewrite length_map.
Qed.

(** X23: deleting children at a position with [splice] and inserting the
    returned elements again at the same position gives the node back, as
    elements, the children it had, in their order, with their subtrees
    and collapse states. *)
Theorem splice_undo m pp p k deleteCount :
  nodeAt (root m) pp = Some p -> (k <= length (children p))%nat ->
  let location := map Z.of_nat pp ++ [Z.of_nat k] in
  let out1 := splice m location deleteCount [] in
  exists deleted,
    fst out1 = Ok deleted /\
    let out2 := splice (snd out1) location 0 deleted in
    fst out2 = Ok [] /\
    exists p2,
      nodeAt (root (snd out2)) pp = Some p2 /\ element p2 = element p /\
      map (@treeNodeToElement _ _) (children p2)
      = map (@treeNodeToElement _ _) (children p).
Proof. intros Hp Hk. now apply splice_put_back. Qed.

End UndoFacts.

(** ** What is collapsible, and what a plain call collapses *)

Section CollapsibleFacts.

Variables T TFilterData : Type.
Implicit Types (n c p x rt nd : node T TFilterData) (path pp q : list nat).
Implicit Types (m : model T TFilterData) (el : ITreeElement T).
Implicit Types (f : option (ITreeFilter T TFilterData)) (cbd : bool).

Lemma createTreeNode_collapsible_eq cbd f el pid pd pv rev st :
  collapsible (fst (createTreeNode cbd f el pid pd pv rev st)) =
  (match el_collapsible el with
   | Some b => b
   | None => match el_collapsed el with Some _ => true | None => false end
   end) || negb (Nat.eqb (length (el_children el)) 0).
Proof.
  destruct st as [id tl]. rewrite createTreeNode_eq. cbv zeta.
  match goal with
  | |- context [createChildren cbd f id ?pd1 ?v ?cr ?els ?init] =>
      pose proof (@createChildren_elements _ _ cbd f id pd1 v cr els
                    ltac:(apply Forall_forall; intros; apply createTreeNode_elements)
                    init) as Hch;
      set (created := createChildren cbd f id pd1 v cr els init) in *
  end.
  match goal with
  | |- context [finishNode ?n1 ?v ?r created] =>
      pose proof (finishNode_fields n1 v r created) as Hf; cbv zeta in Hf;
      set (out := finishNode n1 v r created) in *
  end.
  destruct Hf as (_ & _ & _ & _ & _ & _ & _ & F8 & _).
  rewrite F8, filterNode_fst. cbn [fst map app] in Hch.
  apply (f_equal (@length _)) in Hch. rewrite !length_map in Hch. rewrite Hch.
  cbn [collapsible set_filterData newNode]. f_equal.
  destruct (length (el_children el)); reflexivity.
Qed.

(** X24: a node made from a tree element is collapsible exactly when the
    element has children, or says it is collapsible, or says nothing of
    that but gives a collapse state; so an element that has children
    makes a collapsible node even where it says it is not. *)
Theorem createTreeNode_collapsible cbd f el pid pd pv rev st :
  collapsible (fst (createTreeNode cbd f el pid pd pv rev st)) = true <->
  el_children el <> [] \/ el_collapsible el = Some true \/
  (el_collapsible el = None /\ el_collapsed el <> None).
Proof.
  rewrite createTreeNode_collapsible_eq, orb_true_iff.
  destruct (el_children el) as [|c cs]; cbn [length Nat.eqb negb];
    destruct (el_collapsible el) as [[|]|]; destruct (el_collapsed el);
    intuition (discriminate || congruence).
Qed.

Lemma setCollapsed_one_node_top m path n collapsed_ :
  autoExpandSingleChildren m = false ->
  nodeAt (root m) path = Some n ->
  exists result m',
    setCollapsed m (map Z.of_nat path) (Some collapsed_) false = Some (Ok result, m') /\
    (forall q, q <> path -> collapsedAt (root m') q = collapsedAt (root m) q) /\
    collapsedAt (root m') path = Some (if collapsible n then collapsed_ else collapsed n).
Proof.
  intros Hauto Hn.
  assert (Hfuel : (height n <= S (height (root m)))%nat)
    by (pose proof (height_nodeAt _ _ Hn); lia).
  destruct (@setCollapsed_one_node _ _ _ m path n collapsed_ Hauto Hn Hfuel)
    as (result & m' & Hrun & _ & _ & Hoff & Hat).
  exists result, m'. unfold setCollapsed.
  rewrite getTreeNode_valid with (x := n) by assumption. auto.
Qed.

(** X25: without the expansion of single children, a [setCollapsed] that
    is not recursive, on an existing node, returns and writes the collapse
    state of that node only: every other node, below it or elsewhere,
    keeps its state. *)
Theorem setCollapsed_only_there m path n collapsed_ :
  autoExpandSingleChildren m = false ->
  nodeAt (root m) path = Some n ->
  exists result m',
    setCollapsed m (map Z.of_nat path) (Some collapsed_) false = Some (Ok result, m') /\
    (forall q, q <> path -> collapsedAt (root m') q = collapsedAt (root m) q) /\
    collapsedAt (root m') path = Some (if collapsible n then collapsed_ else collapsed n).
Proof. apply setCollapsed_one_node_top. Qed.

End CollapsibleFacts.

(** ** The model at work *)

Section Evaluations.

Import Scenario.
Local Open Scope string_scope.

(** C4, as stated, fails where the index equals the number of children at
    the last level: that is how a child is appended, here the first child
    of an empty tree. *)
Lemma splice_at_children_length_accepted :
  Z.of_nat (length (children (root (emptyModel None false)))) = 0 /\
  fst (splice (emptyModel None false) [0] 0 [leaf "a"]) = Ok [] /\
  map (@element _ _) (children (root only_a)) = ["a"].
Proof. vm_compute. repeat split. Qed.

(** An index equal to the number of children at a level that is not the
    last is let through as well; the walk then goes on from the root. *)
Example splice_walks_on_from_root :
  Z.of_nat (length (children (root abc))) = 3 /\
  fst (splice abc [3; 0] 0 [leaf "x"]) = Ok [] /\
  map (@element _ _) (children (root (snd (splice abc [3; 0] 0 [leaf "x"]))))
    = ["x"; "a"; "b"; "c"] /\
  renderList (snd (splice abc [3; 0] 0 [leaf "x"])) = [1; 2; 3; 4]%nat.
Proof. vm_compute. repeat split. Qed.

(** C6: appending [b] after the visible child [a] gives both the visible
    child index 0. *)
Theorem splice_append_repeats_visibleChildIndex :
  fst (splice only_a [1] 0 [leaf "b"]) = Ok [] /\
  map (fun n => (element n, visible n, visibleChildIndex n)) (children (root a_then_b))
    = [("a", true, 0); ("b", true, 0)].
Proof. vm_compute. split; reflexivity. Qed.

(** C6: a child inserted before visible siblings takes the index of the
    sibling at the splice point, and that sibling keeps it. *)
Example splice_insert_first_repeats_visibleChildIndex :
  map (fun n => (element n, visible n, visibleChildIndex n))
      (children (root (snd (splice a_then_b [0] 0 [leaf "z"]))))
    = [("z", true, 0); ("a", true, 0); ("b", true, 0)].
Proof. vm_compute. reflexivity. Qed.

(** C1: once [refilter] has hidden [a], [a] keeps its render count of 1,
    the list index of the children of [b] is one too far, and the row of
    [x] lands behind [c]. *)
Theorem refilter_then_splice_breaks_projection :
  renderList abc_without_a = traversal abc_without_a /\
  map (fun n => (element n, visible n, renderNodeCount n)) (children (root abc_without_a))
    = [("a", false, 1); ("b", true, 1); ("c", true, 1)] /\
  fst (splice abc_without_a [1; 0] 0 [leaf "x"]) = Ok [] /\
  renderList abc_x_under_b = [2; 3; 4]%nat /\
  traversal abc_x_under_b = [2; 4; 3]%nat.
Proof. vm_compute. repeat split. Qed.

(** C7, as stated, fails with [autoExpandSingleChildren]: expanding [a],
    which is expanded already, returns [false], yet the call has gone on to
    expand [a1], the only visible child of [a]. *)
Lemma setCollapsed_unreported_change :
  autoExpandSingleChildren chain = true /\
  collapsedAt (root chain) [0%nat; 0%nat] = Some true /\
  exists m',
    setCollapsed chain [0] (Some false) false = Some (Ok false, m') /\
    collapsedAt (root m') [0%nat; 0%nat] = Some false.
Proof.
  split; [reflexivity|]. split; [reflexivity|].
  eexists. split; vm_compute; reflexivity.
Qed.

(** C9, as stated, fails with [autoExpandSingleChildren]: [expandTo] at
    [a1] expands [a], and with it [a1] itself, the only visible child
    of [a]. *)
Lemma expandTo_expands_addressed_node :
  autoExpandSingleChildren collapsedChain = true /\
  collapsedAt (root collapsedChain) [0%nat; 0%nat] = Some true /\
  exists m',
    expandTo collapsedChain [0; 0] = Some (Ok tt, m') /\
    collapsedAt (root m') [0%nat; 0%nat] = Some false.
Proof.
  split; [reflexivity|]. split; [reflexivity|].
  eexists. split; vm_compute; reflexivity.
Qed.

(** C1 again, with a filter that never changes: [a1] is visible below the
    hidden [a]; expanding it puts the row of [a11] into the projection,
    and raises the render count of the hidden [a], though neither [a] nor
    [a1] has a row. *)
Example setCollapsed_below_hidden_breaks_projection :
  renderList hidden_a = [] /\
  option_map
    (fun out : outcome bool * model string unit =>
       (fst out, renderList (snd out), traversal (snd out),
        map (fun n => (element n, visible n, renderNodeCount n))
          (children (root (snd out)))))
    (setCollapsed hidden_a [0; 0] (Some false) false)
  = Some (Ok true, [3%nat], [], [("a", false, 1)]).
Proof. split; vm_compute; reflexivity. Qed.

(** C3: after [refilter] has left the hidden [a] with a render count of 1,
    the list index of the end of the root's children is 3 with 2 rows in
    the projection: the row of the appended [x] goes to position 2, the
    deletion looks for it at position 3, and the row stays. *)
Theorem refilter_then_roundtrip_leaves_row :
  renderList abc_without_a = [2; 3]%nat /\
  fst (splice abc_without_a [3] 0 [leaf "x"]) = Ok [] /\
  fst (splice abc_x_appended [3] 1 [])
    = Ok [mkElement "x" [] None (Some false)] /\
  renderList (snd (splice abc_x_appended [3] 1 [])) = [2; 3; 4]%nat.
Proof. vm_compute. repeat split. Qed.

(** C2, as stated, fails below a collapsed node: [x] is inserted under the
    expanded [a1], which lies under the collapsed [a]; [a1] is visible and
    expanded with one child of render count 1, and its own render count
    stays 1. *)
Lemma splice_below_collapsed_keeps_count :
  fst (splice collapsed_a [0; 0; 0] 0 [leaf "x"]) = Ok [] /\
  exists n,
    nodeAt (root collapsed_a_x) [0; 0]%nat = Some n /\
    element n = "a1" /\ visible n = true /\ collapsed n = false /\
    renderNodeCount n = 1 /\
    map (@renderNodeCount _ _) (children n) = [1] /\
    renderNodeCount n <> 1 + sumZ (map (@renderNodeCount _ _) (children n)).
Proof.
  split; [vm_compute; reflexivity|].
  destruct (nodeAt (root collapsed_a_x) [0; 0]%nat) as [n|] eqn:Hn;
    [|vm_compute in Hn; discriminate].
  exists n. split; [reflexivity|].
  vm_compute in Hn. injection Hn as <-. vm_compute. repeat split. discriminate.
Qed.

End Evaluations.

Section Witnesses.

Import Scenario.
Local Open Scope string_scope.

Lemma splice_invalid_location_witness :
  nodeAt (root abc) [1%nat] <> None /\
  fst (splice abc [1; 1; 0] 0 [leaf "x"]) = Throw InvalidTreeLocation.
Proof.
  split; [discriminate|].
  destruct (nodeAt (root abc) [1%nat]) as [p|] eqn:Hp; [|discriminate].
  apply (proj2 (splice_invalid_location abc 0 [leaf "x"]) [1%nat] p 1 [0] Hp).
  right. vm_compute in Hp. injection Hp as <-. vm_compute. reflexivity.
Defined.

Lemma splice_invalid_location_no_mutation_witness :
  snd (splice abc [4] 1 [leaf "x"]) = abc.
Proof.
  apply splice_invalid_location_no_mutation. vm_compute. reflexivity.
Defined.

Lemma setCollapsed_reports_change_witness :
  setCollapsed collapsed_a [0] (Some false) false = Some (Ok true, collapsed_a_expanded) /\
  collapsedAt (root collapsed_a) [0%nat] = Some true /\
  collapsedAt (root collapsed_a_expanded) [0%nat] = Some false /\
  (exists q, collapsedAt (root collapsed_a) q <> collapsedAt (root collapsed_a_expanded) q) /\
  exists m1 m2,
    setCollapsed collapsed_a_expanded (map Z.of_nat [0%nat]) (Some true) false
      = Some (Ok true, m1) /\
    setCollapsed m1 (map Z.of_nat [0%nat]) (Some true) false = Some (Ok false, m2).
Proof.
  assert (Hrun : setCollapsed collapsed_a [0] (Some false) false
                 = Some (Ok true, collapsed_a_expanded)) by (vm_compute; reflexivity).
  split; [exact Hrun|]. split; [reflexivity|]. split; [reflexivity|]. split.
  - exact (proj1 (proj1 (proj2 (@setCollapsed_reports_change string unit))
                    collapsed_a [0] false false true collapsed_a_expanded eq_refl Hrun)
             eq_refl).
  - destruct (nodeAt (root collapsed_a_expanded) [0%nat]) as [n|] eqn:Hn;
      [|vm_compute in Hn; discriminate].
    destruct (proj1 (proj2 (proj2 (@setCollapsed_reports_change string unit)))
                collapsed_a_expanded [0%nat] n false Hn)
      as (first & m1 & m2 & H1 & Hfirst & H2).
    assert (Hc : collapsible n = true)
      by (vm_compute in Hn; injection Hn as <-; reflexivity).
    assert (He : collapsed n = false)
      by (vm_compute in Hn; injection Hn as <-; reflexivity).
    rewrite (Hfirst Hc He) in H1. exists m1, m2. split; [exact H1|exact H2].
Defined.

Lemma expandTo_expands_ancestors_witness :
  autoExpandSingleChildren collapsedChain = true /\
  collapsedAt (root collapsedChain) [0%nat] = Some true /\
  collapsedAt (root collapsedChain) [0; 0]%nat = Some true /\
  exists m',
    expandTo collapsedChain (map Z.of_nat [0; 0; 0]%nat) = Some (Ok tt, m') /\
    (forall q y, properPrefix q [0; 0; 0]%nat -> nodeAt (root m') q = Some y ->
                 collapsible y = true -> collapsed y = false) /\
    collapsedAt (root m') [0%nat] = Some false /\
    collapsedAt (root m') [0; 0]%nat = Some false.
Proof.
  split; [reflexivity|]. split; [reflexivity|]. split; [reflexivity|].
  destruct (nodeAt (root collapsedChain) [0; 0; 0]%nat) as [n|] eqn:Hn;
    [|vm_compute in Hn; discriminate].
  destruct (@expandTo_expands_ancestors string unit collapsedChain [0; 0; 0]%nat n Hn)
    as (m' & Hrun & Hanc & _ & _).
  exists m'. split; [exact Hrun|]. split; [exact Hanc|].
  assert (Hm : Some (Ok tt, m') = expandTo collapsedChain [0; 0; 0])
    by (symmetry; exact Hrun).
  vm_compute in Hm. injection Hm as Hm.
  split; unfold collapsedAt.
  - destruct (nodeAt (root m') [0%nat]) as [y|] eqn:Hy;
      [|rewrite Hm in Hy; vm_compute in Hy; discriminate].
    cbn [option_map]. f_equal. apply (Hanc [0%nat] y).
    + exists [0; 0]%nat. split; [discriminate|reflexivity].
    + exact Hy.
    + rewrite Hm in Hy. vm_compute in Hy. injection Hy as <-. reflexivity.
  - destruct (nodeAt (root m') [0; 0]%nat) as [y|] eqn:Hy;
      [|rewrite Hm in Hy; vm_compute in Hy; discriminate].
    cbn [option_map]. f_equal. apply (Hanc [0; 0]%nat y).
    + exists [0%nat]. split; [discriminate|reflexivity].
    + exact Hy.
    + rewrite Hm in Hy. vm_compute in Hy. injection Hy as <-. reflexivity.
Defined.

Lemma abc_reachable : reachable abc.
Proof.
  apply reachable_step with (m := emptyModel (Some showAll) false).
  - apply reachable_new.
  - apply step_splice.
Qed.

Lemma getNodeLocation_getNode_witness :
  exists n,
    nodeAt (root abc) [1%nat] = Some n /\
    getNode abc (map Z.of_nat [1%nat]) = Ok n /\
    getNodeLocation abc n = Some (map Z.of_nat [1%nat]).
Proof.
  destruct (nodeAt (root abc) [1%nat]) as [n|] eqn:Hn; [|discriminate].
  exists n. split; [reflexivity|].
  exact (getNodeLocation_getNode [1%nat] abc_reachable Hn).
Defined.

Lemma collapsed_a_expanded_regular : regularlyReachable collapsed_a_expanded.
Proof.
  apply regularly_step with (m := collapsed_a).
  - apply regularly_step with (m := emptyModel None false).
    + apply regularly_new.
    + exact (@regular_splice _ _ (emptyModel None false) [] _ 0%nat 0
               [branch "a" [leaf "a1"] true] eq_refl (le_n 0)).
  - destruct (nodeAt (root collapsed_a) [0%nat]) as [n|] eqn:Hn;
      [|vm_compute in Hn; discriminate].
    apply regular_setCollapsed
      with (path := [0%nat]) (n := n) (collapsed_ := Some false) (recursive := false)
           (out := Ok true).
    + exact Hn.
    + left. vm_compute. reflexivity.
    + vm_compute. reflexivity.
Qed.

Lemma renderNodeCount_on_screen_witness :
  exists n,
    nodeAt (root collapsed_a_expanded) [0%nat] = Some n /\
    visible n = true /\ collapsed n = false /\
    renderNodeCount n = 1 + sumZ (map (@renderNodeCount _ _) (children n)).
Proof.
  destruct (nodeAt (root collapsed_a_expanded) [0%nat]) as [n|] eqn:Hn;
    [|vm_compute in Hn; discriminate].
  exists n. split; [reflexivity|].
  pose proof (proj2 (renderNodeCount_on_screen collapsed_a_expanded_regular [0%nat] Hn))
    as H.
  vm_compute in Hn. injection Hn as <-.
  split; [reflexivity|]. split; [reflexivity|].
  apply H; [discriminate|reflexivity|vm_compute; reflexivity].
Defined.

Lemma renderList_traversal_witness :
  renderList collapsed_a_expanded = traversal collapsed_a_expanded /\
  (In 2%nat (renderList collapsed_a_expanded) <->
   exists path n,
     path <> [] /\ nodeAt (root collapsed_a_expanded) path = Some n /\ nid n = 2%nat /\
     visibleAlong (root collapsed_a_expanded) path = true /\
     expandedAlong (root collapsed_a_expanded) (removelast path) = true).
Proof.
  destruct (renderList_traversal collapsed_a_expanded_regular) as [H1 H2].
  split; [exact H1|exact (H2 2%nat)].
Defined.

Lemma getListIndex_rows_witness :
  exists n,
    nodeAt (root collapsed_a_expanded) [0; 0]%nat = Some n /\
    exists X Y,
      getListIndex collapsed_a_expanded (map Z.of_nat [0; 0]%nat)
        = Ok (Z.of_nat (List.length X)) /\
      getListRenderCount collapsed_a_expanded (map Z.of_nat [0; 0]%nat)
        = Ok (Z.of_nat (List.length (revealedNodes n))) /\
      renderList collapsed_a_expanded = (X ++ revealedNodes n ++ Y)%list.
Proof.
  destruct (nodeAt (root collapsed_a_expanded) [0; 0]%nat) as [n|] eqn:Hn;
    [|vm_compute in Hn; discriminate].
  exists n. split; [reflexivity|].
  apply (getListIndex_rows collapsed_a_expanded_regular Hn).
  - discriminate.
  - vm_compute. reflexivity.
  - vm_compute. reflexivity.
Defined.

Lemma rerender_row_witness :
  exists n,
    nodeAt (root collapsed_a_expanded) [0; 0]%nat = Some n /\
    rerender collapsed_a_expanded (map Z.of_nat [0; 0]%nat)
      = Ok (map Some (renderList collapsed_a_expanded)).
Proof.
  destruct (nodeAt (root collapsed_a_expanded) [0; 0]%nat) as [n|] eqn:Hn;
    [|vm_compute in Hn; discriminate].
  exists n. split; [reflexivity|].
  apply (proj2 (rerender_row collapsed_a_expanded) collapsed_a_expanded_regular
           [0; 0]%nat n Hn).
  - discriminate.
  - vm_compute. reflexivity.
  - vm_compute. reflexivity.
Defined.

Lemma splice_children_witness :
  nodeAt (root abc) [] = Some (root abc) /\
  fst (splice abc [1] 1 [leaf "x"])
    = Ok (map (@treeNodeToElement _ _) (firstn 1 (skipn 1 (children (root abc))))).
Proof.
  split; [reflexivity|].
  assert (Hk : (1 <= List.length (children (root abc)))%nat) by (vm_compute; lia).
  exact (proj1 (@splice_children _ _ abc [] (root abc) 1%nat 1 [leaf "x"] eq_refl Hk)).
Defined.

Lemma splice_roundtrip_witness :
  exists p,
    nodeAt (root collapsed_a_expanded) [0%nat] = Some p /\
    renderList
      (snd (splice (snd (splice collapsed_a_expanded [0; 1] 0 [leaf "x"])) [0; 1] 1 []))
    = renderList collapsed_a_expanded.
Proof.
  destruct (nodeAt (root collapsed_a_expanded) [0%nat]) as [p|] eqn:Hp;
    [|vm_compute in Hp; discriminate].
  exists p. split; [reflexivity|].
  assert (Hk : (1 <= List.length (children p))%nat)
    by (vm_compute in Hp; injection Hp as <-; vm_compute; lia).
  exact (proj2 (proj2 (@splice_roundtrip _ _ collapsed_a_expanded [0%nat] p 1%nat
                         [leaf "x"] collapsed_a_expanded_regular Hp Hk))).
Defined.

Lemma isCollapsed_setCollapsed_witness :
  exists n,
    nodeAt (root collapsed_a) [0%nat] = Some n /\
    exists changed m',
      setCollapsed collapsed_a (map Z.of_nat [0%nat]) (Some false) false
        = Some (Ok changed, m') /\
      isCollapsed m' (map Z.of_nat [0%nat])
        = Ok (if collapsible n then false else collapsed n) /\
      isCollapsible m' (map Z.of_nat [0%nat]) = Ok (collapsible n).
Proof.
  destruct (nodeAt (root collapsed_a) [0%nat]) as [n|] eqn:Hn;
    [|vm_compute in Hn; discriminate].
  exists n. split; [reflexivity|].
  exact (proj1 (@isCollapsed_setCollapsed _ _ collapsed_a [0%nat] n false false Hn)).
Defined.

Lemma collapse_calls_keep_tree_witness :
  setCollapsed collapsed_a [0] (Some false) false = Some (Ok true, collapsed_a_expanded) /\
  erase Collapse (root collapsed_a_expanded) = erase Collapse (root collapsed_a).
Proof.
  assert (Hrun : setCollapsed collapsed_a [0] (Some false) false
                 = Some (Ok true, collapsed_a_expanded)) by (vm_compute; reflexivity).
  split; [exact Hrun|].
  exact (proj1 (collapse_calls_keep_tree collapsed_a) [0] (Some false) false (Ok true)
           collapsed_a_expanded Hrun).
Defined.

Lemma getListIndex_hidden_witness :
  exists n,
    nodeAt (root collapsed_a) [0; 0]%nat = Some n /\
    getListIndex collapsed_a (map Z.of_nat [0; 0]%nat) = Ok (-1).
Proof.
  destruct (nodeAt (root collapsed_a) [0; 0]%nat) as [n|] eqn:Hn;
    [|vm_compute in Hn; discriminate].
  exists n. split; [reflexivity|].
  apply (proj2 (getListIndex_hidden collapsed_a) [0; 0]%nat n Hn).
  - discriminate.
  - vm_compute. reflexivity.
Defined.

Lemma depth_and_visibleChildrenCount_witness :
  exists n,
    nodeAt (root abc) [1%nat] = Some n /\
    depth n = 1 /\ visibleChildrenCount n = countVisible (children n).
Proof.
  destruct (nodeAt (root abc) [1%nat]) as [n|] eqn:Hn; [|vm_compute in Hn; discriminate].
  exists n. split; [reflexivity|].
  exact (depth_and_visibleChildrenCount [1%nat] abc_reachable Hn).
Defined.

Lemma getNode_walk_witness :
  exists n,
    nodeAt (root abc) [1%nat] = Some n /\
    getNode abc (map Z.of_nat [1%nat]) = Ok n.
Proof.
  destruct (nodeAt (root abc) [1%nat]) as [n|] eqn:Hn; [|vm_compute in Hn; discriminate].
  exists n. split; [reflexivity|].
  exact (proj1 (@getNode_walk _ _ abc [1%nat] n Hn)).
Defined.

Lemma getLastElementAncestor_last_witness :
  nodeAt (root abc) [] = Some (root abc) /\
  getLastElementAncestor abc (map Z.of_nat []) =
  Ok (match children (root abc) with
      | [] => None
      | _ :: _ => Some (element (last (nodes (root abc)) (root abc)))
      end).
Proof.
  split; [reflexivity|].
  exact (@getLastElementAncestor_last _ _ abc [] (root abc) eq_refl).
Defined.

Lemma getNode_inserted_witness :
  nodeAt (root abc) [] = Some (root abc) /\
  exists n,
    getNode (snd (splice abc [1] 0 [leaf "x"])) (map Z.of_nat [1%nat]) = Ok n /\
    treeNodeToElement n = createdElement (collapseByDefault abc) (leaf "x").
Proof.
  split; [reflexivity|].
  assert (Hk : (1 <= List.length (children (root abc)))%nat) by (vm_compute; lia).
  exact (proj1 (@getNode_inserted _ _ abc [] (root abc) 1%nat 0 [leaf "x"] 0%nat
                  (leaf "x") eq_refl Hk eq_refl)).
Defined.

Lemma splice_leaves_rest_witness :
  exists p,
    nodeAt (root abc) [1%nat] = Some p /\
    nodeAt (root (snd (splice abc [1; 0] 0 [leaf "x"]))) [0%nat]
    = nodeAt (root abc) [0%nat].
Proof.
  destruct (nodeAt (root abc) [1%nat]) as [p|] eqn:Hp; [|vm_compute in Hp; discriminate].
  exists p. split; [reflexivity|].
  exact (proj1 (@splice_leaves_rest _ _ abc [1%nat] p 0%nat 0 [leaf "x"] Hp (Nat.le_0_l _))
           [] 0%nat 1%nat [] [] eq_refl (O_S 0)).
Defined.

Lemma setCollapsed_recursive_witness :
  exists n,
    nodeAt (root collapsed_a_expanded) [0%nat] = Some n /\
    exists result m',
      setCollapsed collapsed_a_expanded (map Z.of_nat [0%nat]) (Some true) true
        = Some (Ok result, m') /\
      collapsedAt (root m') [0%nat] = Some (if collapsible n then true else collapsed n).
Proof.
  destruct (nodeAt (root collapsed_a_expanded) [0%nat]) as [n|] eqn:Hn;
    [|vm_compute in Hn; discriminate].
  exists n. split; [reflexivity|].
  destruct (@setCollapsed_recursive _ _ collapsed_a_expanded [0%nat] n true Hn)
    as (result & m' & Hrun & Hbelow & _).
  exists result, m'. split; [exact Hrun|].
  exact (Hbelow [] n eq_refl).
Defined.

Lemma setCollapsed_idempotent_witness :
  exists n,
    nodeAt (root collapsed_a_expanded) [0%nat] = Some n /\
    exists result m1,
      setCollapsed collapsed_a_expanded (map Z.of_nat [0%nat]) (Some true) false
        = Some (Ok result, m1) /\
      setCollapsed m1 (map Z.of_nat [0%nat]) (Some true) false = Some (Ok false, m1).
Proof.
  destruct (nodeAt (root collapsed_a_expanded) [0%nat]) as [n|] eqn:Hn;
    [|vm_compute in Hn; discriminate].
  exists n. split; [reflexivity|].
  apply (@setCollapsed_idempotent _ _ collapsed_a_expanded [0%nat] n true false
           collapsed_a_expanded_regular Hn).
  - discriminate.
  - vm_compute. reflexivity.
  - vm_compute. reflexivity.
Defined.

Lemma abc_without_a_reachable : reachable abc_without_a.
Proof.
  apply reachable_step with (m := set_filter abc (Some (hiding "a"))).
  - apply reachable_step with (m := abc); [exact abc_reachable|apply step_filter].
  - apply step_refilter.
Qed.

Lemma refilter_idempotent_witness :
  refilter (refilter abc_without_a) = refilter abc_without_a.
Proof. exact (refilter_idempotent abc_without_a_reachable). Defined.

Lemma root_stays_open_witness :
  visible (root abc_without_a) = true /\ collapsed (root abc_without_a) = false /\
  collapsible (root abc_without_a) = false.
Proof. exact (root_stays_open abc_without_a_reachable). Defined.

Lemma splice_keeps_ancestors_witness :
  exists p,
    nodeAt (root abc) [1%nat] = Some p /\
    exists x',
      nodeAt (root (snd (splice abc [1; 0] 0 [leaf "x"]))) [] = Some x' /\
      collapsible x' = collapsible (root abc) /\ visible x' = visible (root abc).
Proof.
  destruct (nodeAt (root abc) [1%nat]) as [p|] eqn:Hp; [|vm_compute in Hp; discriminate].
  exists p. split; [reflexivity|].
  destruct (@splice_keeps_ancestors _ _ abc [1%nat] p 0%nat 0 [leaf "x"] [] [1%nat]
              (root abc) Hp (Nat.le_0_l _) eq_refl eq_refl)
    as (x' & Hx' & _ & _ & _ & _ & Hc & _ & Hv & _).
  exists x'. split; [exact Hx'|]. split; [exact Hc|exact Hv].
Defined.

Lemma invalid_location_throws_witness :
  nodeAt (root abc) [] = Some (root abc) /\
  isCollapsed abc [5] = Throw InvalidTreeLocation /\
  expandTo abc [5] = Some (Throw InvalidTreeLocation, abc).
Proof.
  split; [reflexivity|].
  assert (Hout : 5 < 0 \/ Z.of_nat (List.length (children (root abc))) < 5)
    by (right; vm_compute; reflexivity).
  pose proof (@invalid_location_throws _ _ abc [] (root abc) 5 [] eq_refl Hout) as H.
  split; [exact (proj1 (proj2 H))|].
  exact (proj2 (proj2 (proj2 (proj2 (proj2 (proj2 (proj2 (proj2 H)))))))).
Defined.

Lemma setCollapsed_past_last_child_witness :
  nodeAt (root abc) [] = Some (root abc) /\
  setCollapsed abc (map Z.of_nat [] ++ [Z.of_nat (List.length (children (root abc)))])
    None false = Some (Throw TypeError, abc).
Proof.
  split; [reflexivity|].
  exact (proj1 (@setCollapsed_past_last_child _ _ abc [] (root abc) None false eq_refl)).
Defined.

Lemma splice_undo_witness :
  nodeAt (root abc) [] = Some (root abc) /\
  exists deleted,
    fst (splice abc [1] 1 []) = Ok deleted /\
    fst (splice (snd (splice abc [1] 1 [])) [1] 0 deleted) = Ok [].
Proof.
  split; [reflexivity|].
  assert (Hk : (1 <= List.length (children (root abc)))%nat) by (vm_compute; lia).
  destruct (@splice_undo _ _ abc [] (root abc) 1%nat 1 eq_refl Hk)
    as (deleted & H1 & H2 & _).
  exists deleted. split; [exact H1|exact H2].
Defined.

Lemma createTreeNode_collapsible_witness :
  collapsible
    (fst (createTreeNode false (@None (ITreeFilter string unit))
            (mkElement "a" [leaf "a1"] (Some false) None) 0%nat 0 Visible true
            (1%nat, [])))
  = true.
Proof.
  apply (proj2 (@createTreeNode_collapsible _ _ false None
                  (mkElement "a" [leaf "a1"] (Some false) None) 0%nat 0 Visible true
                  (1%nat, []))).
  left. discriminate.
Defined.

Lemma setCollapsed_only_there_witness :
  exists n,
    nodeAt (root collapsed_a) [0%nat] = Some n /\
    exists result m',
      setCollapsed collapsed_a (map Z.of_nat [0%nat]) (Some false) false
        = Some (Ok result, m') /\
      collapsedAt (root m') [0; 0]%nat = collapsedAt (root collapsed_a) [0; 0]%nat.
Proof.
  destruct (nodeAt (root collapsed_a) [0%nat]) as [n|] eqn:Hn;
    [|vm_compute in Hn; discriminate].
  exists n. split; [reflexivity|].
  destruct (@setCollapsed_only_there _ _ collapsed_a [0%nat] n false eq_refl Hn)
    as (result & m' & Hrun & Hoff & _).
  exists result, m'. split; [exact Hrun|].
  apply Hoff. discriminate.
Defined.

End Witnesses.
